(** * physics-2d: a shallow embedding of the rigid-body engine

    The development follows the TypeScript sources of the engine:
    [Vec2], [AABB] and the shapes of [lib/maths], the region quadtree of
    [lib/collections/quadtree.ts], the rigid body ([RigidBody]), the
    contact solver ([Collision], [Contact]), the island builder ([Island])
    and the driver ([PhysicsEngine]).

    Numbers.  JavaScript numbers are IEEE-754 doubles.  Two models are used:
    - body identifiers and collision keys are integers; their arithmetic is
      modelled exactly, on [Z], with the rounding of a double written out
      ([fl53]);
    - positions, velocities, impulses and times are modelled as real numbers
      ([R]); this idealises rounding, overflow and NaN.

    Objects.  Bodies, contacts and islands are mutable objects shared by
    reference; they live in stores ([gmap] from a reference to a record) and
    are named by their reference wherever the source holds a pointer.  The
    vectors held in the fields of a body, a contact or a shape are modelled
    by value: every object owns its vectors, as it does when built by the
    factories of the source. *)

From Stdlib Require Import ZArith List Reals Lra Lia Psatz Bool.
From stdpp Require Import base option list gmap.

Set Warnings "-clear-no-such-hyp".

(** ** Integer-valued doubles *)

Section Doubles.
Local Open Scope Z_scope.

(** A non-negative integer rounded to the nearest double (53 significant
    bits, ties to the even significand). *)
Definition fl53_pos (n : Z) : Z :=
  let e := Z.log2 n - 52 in
  if e <=? 0 then n
  else
    let q := Z.shiftr n e in
    let r := Z.land n (Z.ones e) in
    let half := Z.shiftl 1 (e - 1) in
    if r <? half then Z.shiftl q e
    else if half <? r then Z.shiftl (q + 1) e
    else if Z.even q then Z.shiftl q e
    else Z.shiftl (q + 1) e.

Definition fl53 (n : Z) : Z := Z.sgn n * fl53_pos (Z.abs n).

(** [a * b] and [a + b] on integer-valued doubles. *)
Definition num_mul (a b : Z) : Z := fl53 (a * b).
Definition num_add (a b : Z) : Z := fl53 (a + b).

(** [Collision.constructor]: [this.id = bodyA.id * 1e10 + bodyB.id]. *)
Definition Collision_id (idA idB : Z) : Z :=
  num_add (num_mul idA 10000000000) idB.

End Doubles.

(** ** Real-valued numbers *)

Module Num.
Local Open Scope R_scope.

(** Comparisons of the source ([<], [<=], [===]) as booleans. *)
Definition ltb (a b : R) : bool := if Rlt_dec a b then true else false.
Definition leb (a b : R) : bool := if Rle_dec a b then true else false.
Definition eqb (a b : R) : bool := if Req_dec_T a b then true else false.

(** [Number.MAX_VALUE], [Number.MAX_SAFE_INTEGER], [Number.MIN_SAFE_INTEGER]. *)
Definition MAX_VALUE : R := (2 - / 2 ^ 52) * 2 ^ 1023.
Definition MAX_SAFE_INTEGER : R := 9007199254740991.
Definition MIN_SAFE_INTEGER : R := -9007199254740991.

(** [lib/maths/util.ts]: [clamp(x, min, max) = Math.min(Math.max(min, x), max)]. *)
Definition clamp (x min max : R) : R := Rmin (Rmax min x) max.

End Num.

(** ** [lib/maths/vec3.ts] and [lib/maths/vec2.ts] *)

Module Vec3.
Local Open Scope R_scope.

Record t : Type := mk { x : R; y : R; z : R }.

Definition cross (lhs rhs : t) : t :=
  mk (y lhs * z rhs - z lhs * y rhs)
     (z lhs * x rhs - x lhs * z rhs)
     (x lhs * y rhs - y lhs * x rhs).

End Vec3.

Module Vec2.
Local Open Scope R_scope.

Record t : Type := mk { x : R; y : R }.

Definition zero : t := mk 0 0.
Definition perpendicular (v : t) : t := mk (- y v) (x v).
Definition isZero (v : t) : bool := Num.eqb (x v) 0 && Num.eqb (y v) 0.
Definition magnitude (v : t) : R := sqrt (x v * x v + y v * y v).
Definition magnitudeSquared (v : t) : R := x v * x v + y v * y v.

Definition normalise (v : t) : t :=
  let m := magnitude v in
  if Num.ltb 0 m then mk (x v / m) (y v / m) else v.

Definition dot (lhs rhs : t) : R := x lhs * x rhs + y lhs * y rhs.
Definition cross (lhs rhs : t) : R := x lhs * y rhs - y lhs * x rhs.
Definition add (lhs rhs : t) : t := mk (x lhs + x rhs) (y lhs + y rhs).
Definition sub (lhs rhs : t) : t := mk (x lhs - x rhs) (y lhs - y rhs).
Definition mulScalar (lhs : t) (rhs : R) : t := mk (x lhs * rhs) (y lhs * rhs).
Definition neg (v : t) : t := mk (- x v) (- y v).

(** [(v1 x v2) x v3], through [Vec3]. *)
Definition tripleCross (v1 v2 v3 : t) : t :=
  let _v1 := Vec3.mk (x v1) (y v1) 0 in
  let _v2 := Vec3.mk (x v2) (y v2) 0 in
  let _v3 := Vec3.mk (x v3) (y v3) 0 in
  let r := Vec3.cross (Vec3.cross _v1 _v2) _v3 in
  mk (Vec3.x r) (Vec3.y r).

(** [rotate(rad, origin, sin, cos)]: about [origin], with the given sine and
    cosine. *)
Definition rotate (v origin : t) (sin cos : R) : t :=
  let v0 := sub v origin in
  add (mk (cos * x v0 - sin * y v0) (sin * x v0 + cos * y v0)) origin.

End Vec2.

(** ** [lib/maths/circle.ts], [poly.ts], [capsule.ts]: the [Shape] variants *)

Module Circle.
Local Open Scope R_scope.

Record t : Type := mk { centre : Vec2.t; radius : R }.

Definition getArea (c : t) : R := PI * radius c * radius c.
Definition getMinX (c : t) : R := Vec2.x (centre c) - radius c.
Definition getMinY (c : t) : R := Vec2.y (centre c) - radius c.
Definition getMaxX (c : t) : R := Vec2.x (centre c) + radius c.
Definition getMaxY (c : t) : R := Vec2.y (centre c) + radius c.
Definition setCentre (c : t) (p : Vec2.t) : t := mk p (radius c).
Definition getCentre (c : t) : Vec2.t := centre c.

(** [rotate(radians, origin)] with [origin] defined: the sine and cosine are
    recomputed from [radians]. *)
Definition rotate (c : t) (radians : R) (origin : Vec2.t) : t :=
  mk (Vec2.rotate (centre c) origin (sin radians) (cos radians)) (radius c).

Definition translate (c : t) (delta : Vec2.t) : t :=
  mk (Vec2.add (centre c) delta) (radius c).

Definition getFurthestPoint (c : t) (direction : Vec2.t) : Vec2.t :=
  Vec2.add (centre c) (Vec2.mulScalar direction (radius c)).

End Circle.

Module Polygon.
Local Open Scope R_scope.

(** A polygon is its array of points. *)
Definition t : Type := list Vec2.t.

(** [points[(i + 1) % points.length]] for each [i]: the list rotated by one. *)
Definition successors (points : t) : t :=
  match points with
  | [] => []
  | p :: rest => rest ++ [p]
  end.

Definition getArea (points : t) : R :=
  let area :=
    fold_left (fun acc pq => acc + Vec2.cross (fst pq) (snd pq))
              (combine points (successors points)) 0 in
  Rabs area * 0.5.

Definition getMinX (points : t) : R :=
  fold_left (fun m p => Rmin m (Vec2.x p)) points Num.MAX_SAFE_INTEGER.
Definition getMinY (points : t) : R :=
  fold_left (fun m p => Rmin m (Vec2.y p)) points Num.MAX_SAFE_INTEGER.
Definition getMaxX (points : t) : R :=
  fold_left (fun m p => Rmax m (Vec2.x p)) points Num.MIN_SAFE_INTEGER.
Definition getMaxY (points : t) : R :=
  fold_left (fun m p => Rmax m (Vec2.y p)) points Num.MIN_SAFE_INTEGER.

Definition getCentre (points : t) : Vec2.t :=
  let sx := fold_left (fun acc p => acc + Vec2.x p) points 0 in
  let sy := fold_left (fun acc p => acc + Vec2.y p) points 0 in
  Vec2.mk (sx / INR (length points)) (sy / INR (length points)).

Definition translate (points : t) (delta : Vec2.t) : t :=
  map (fun p => Vec2.add p delta) points.

Definition setCentre (points : t) (centre : Vec2.t) : t :=
  translate points (Vec2.sub centre (getCentre points)).

Definition rotate (points : t) (origin : Vec2.t) (sin cos : R) : t :=
  map (fun p => Vec2.rotate p origin sin cos) points.

(** The point with the largest projection on [direction]; the first such
    point wins, and the zero vector stands when no projection exceeds
    [-Number.MAX_VALUE]. *)
Definition getFurthestPoint (points : t) (direction : Vec2.t) : Vec2.t :=
  snd (fold_left
         (fun (acc : R * Vec2.t) point =>
            let projection := Vec2.dot point direction in
            if Num.ltb (fst acc) projection then (projection, point) else acc)
         points (- Num.MAX_VALUE, Vec2.zero)).

(** [Polygon.fromRect(centre, width, height)]. *)
Definition fromRect (centre : Vec2.t) (width height : R) : t :=
  let halfWidth := width * 0.5 in
  let halfHeight := height * 0.5 in
  translate
    [Vec2.mk (- halfWidth) (- halfHeight); Vec2.mk (- halfWidth) halfHeight;
     Vec2.mk halfWidth halfHeight; Vec2.mk halfWidth (- halfHeight)]
    centre.

End Polygon.

Module Capsule.
Local Open Scope R_scope.

Record t : Type := mk {
  rectangle : Polygon.t;
  circle0 : Circle.t;
  circle1 : Circle.t;
  length : R;
  angle : R
}.

Definition getFurthestPoint (c : t) (direction : Vec2.t) : Vec2.t :=
  Vec2.add
    (if Num.leb 0 (Vec2.dot direction
                     (Vec2.sub (Circle.centre (circle1 c)) (Circle.centre (circle0 c))))
     then Circle.centre (circle1 c)
     else Circle.centre (circle0 c))
    (Vec2.mulScalar direction (Circle.radius (circle0 c))).

Definition getArea (c : t) : R :=
  let radius := Circle.radius (circle0 c) in
  PI * radius * radius + length c * radius * 2.

Definition getMinX (c : t) : R := Rmin (Circle.getMinX (circle0 c)) (Circle.getMinX (circle1 c)).
Definition getMinY (c : t) : R := Rmin (Circle.getMinY (circle0 c)) (Circle.getMinY (circle1 c)).
Definition getMaxX (c : t) : R := Rmax (Circle.getMaxX (circle0 c)) (Circle.getMaxX (circle1 c)).
Definition getMaxY (c : t) : R := Rmax (Circle.getMaxY (circle0 c)) (Circle.getMaxY (circle1 c)).

Definition getCentre (c : t) : Vec2.t :=
  Vec2.mulScalar (Vec2.add (Circle.centre (circle0 c)) (Circle.centre (circle1 c))) 0.5.

Definition translate (c : t) (delta : Vec2.t) : t :=
  mk (Polygon.translate (rectangle c) delta)
     (Circle.translate (circle0 c) delta)
     (Circle.translate (circle1 c) delta)
     (length c) (angle c).

Definition setCentre (c : t) (centre : Vec2.t) : t :=
  translate c (Vec2.sub centre (getCentre c)).

Definition rotate (c : t) (radians : R) (origin : Vec2.t) : t :=
  let sin := sin radians in
  let cos := cos radians in
  mk (Polygon.rotate (rectangle c) origin sin cos)
     (Circle.rotate (circle0 c) radians origin)
     (Circle.rotate (circle1 c) radians origin)
     (length c) (angle c + radians).

End Capsule.

Module Shape.
Local Open Scope R_scope.

(** The implementations of the [Shape] interface. *)
Inductive t : Type :=
| OfCircle (c : Circle.t)
| OfPolygon (p : Polygon.t)
| OfCapsule (c : Capsule.t).

Definition getMinX (s : t) : R :=
  match s with
  | OfCircle c => Circle.getMinX c
  | OfPolygon p => Polygon.getMinX p
  | OfCapsule c => Capsule.getMinX c
  end.
Definition getMinY (s : t) : R :=
  match s with
  | OfCircle c => Circle.getMinY c
  | OfPolygon p => Polygon.getMinY p
  | OfCapsule c => Capsule.getMinY c
  end.
Definition getMaxX (s : t) : R :=
  match s with
  | OfCircle c => Circle.getMaxX c
  | OfPolygon p => Polygon.getMaxX p
  | OfCapsule c => Capsule.getMaxX c
  end.
Definition getMaxY (s : t) : R :=
  match s with
  | OfCircle c => Circle.getMaxY c
  | OfPolygon p => Polygon.getMaxY p
  | OfCapsule c => Capsule.getMaxY c
  end.
Definition getArea (s : t) : R :=
  match s with
  | OfCircle c => Circle.getArea c
  | OfPolygon p => Polygon.getArea p
  | OfCapsule c => Capsule.getArea c
  end.
Definition getCentre (s : t) : Vec2.t :=
  match s with
  | OfCircle c => Circle.getCentre c
  | OfPolygon p => Polygon.getCentre p
  | OfCapsule c => Capsule.getCentre c
  end.
Definition setCentre (s : t) (centre : Vec2.t) : t :=
  match s with
  | OfCircle c => OfCircle (Circle.setCentre c centre)
  | OfPolygon p => OfPolygon (Polygon.setCentre p centre)
  | OfCapsule c => OfCapsule (Capsule.setCentre c centre)
  end.
Definition translate (s : t) (delta : Vec2.t) : t :=
  match s with
  | OfCircle c => OfCircle (Circle.translate c delta)
  | OfPolygon p => OfPolygon (Polygon.translate p delta)
  | OfCapsule c => OfCapsule (Capsule.translate c delta)
  end.

(** [rotate(radians, origin, sin, cos)] as [RigidBody.rotate] calls it. *)
Definition rotate (s : t) (radians : R) (origin : Vec2.t) (sin cos : R) : t :=
  match s with
  | OfCircle c => OfCircle (Circle.rotate c radians origin)
  | OfPolygon p => OfPolygon (Polygon.rotate p origin sin cos)
  | OfCapsule c => OfCapsule (Capsule.rotate c radians origin)
  end.

Definition getFurthestPoint (s : t) (direction : Vec2.t) : Vec2.t :=
  match s with
  | OfCircle c => Circle.getFurthestPoint c direction
  | OfPolygon p => Polygon.getFurthestPoint p direction
  | OfCapsule c => Capsule.getFurthestPoint c direction
  end.

End Shape.

(** ** [lib/maths/aabb.ts] *)

Module AABB.
Local Open Scope R_scope.

Record t : Type := mk { min : Vec2.t; max : Vec2.t }.

Definition fromDimensions (x y width height : R) : t :=
  mk (Vec2.mk x y) (Vec2.mk (x + width) (y + height)).

Definition fromShape (shape : Shape.t) : t :=
  mk (Vec2.mk (Shape.getMinX shape) (Shape.getMinY shape))
     (Vec2.mk (Shape.getMaxX shape) (Shape.getMaxY shape)).

Definition translate (b : t) (delta : Vec2.t) : t :=
  mk (Vec2.add (min b) delta) (Vec2.add (max b) delta).

Definition intersects (this other : t) : bool :=
  Num.ltb (Vec2.x (min this)) (Vec2.x (max other)) &&
  Num.ltb (Vec2.x (min other)) (Vec2.x (max this)) &&
  Num.ltb (Vec2.y (min this)) (Vec2.y (max other)) &&
  Num.ltb (Vec2.y (min other)) (Vec2.y (max this)).

Definition contains (this other : t) : bool :=
  Num.leb (Vec2.x (min this)) (Vec2.x (min other)) &&
  Num.leb (Vec2.x (max other)) (Vec2.x (max this)) &&
  Num.leb (Vec2.y (min this)) (Vec2.y (min other)) &&
  Num.leb (Vec2.y (max other)) (Vec2.y (max this)).

(** [getCentre], [setCentre], [getArea], [containsPoint]. *)
Definition getCentre (b : t) : Vec2.t :=
  let halfWidth := (Vec2.x (max b) - Vec2.x (min b)) * 0.5 in
  let halfHeight := (Vec2.y (max b) - Vec2.y (min b)) * 0.5 in
  Vec2.mk (Vec2.x (min b) + halfWidth) (Vec2.y (min b) + halfHeight).

Definition setCentre (b : t) (centre : Vec2.t) : t :=
  let halfWidth := (Vec2.x (max b) - Vec2.x (min b)) * 0.5 in
  let halfHeight := (Vec2.y (max b) - Vec2.y (min b)) * 0.5 in
  mk (Vec2.mk (Vec2.x centre - halfWidth) (Vec2.y centre - halfHeight))
     (Vec2.mk (Vec2.x centre + halfWidth) (Vec2.y centre + halfHeight)).

Definition getArea (b : t) : R :=
  (Vec2.x (max b) - Vec2.x (min b)) * (Vec2.y (max b) - Vec2.y (min b)).


End AABB.

(** ** [src/body.ts]: rigid bodies *)

Module RigidBody.
Local Open Scope R_scope.

(** [island] holds a reference to an [Island] object, or [undefined]. *)
Record t : Type := mk {
  id : Z;
  timeStill : R;
  sleeping : bool;
  fixed : bool;
  island : option nat;
  collider : Shape.t;
  bounds : AABB.t;
  position : Vec2.t;
  rotation : R;
  restitution : R;
  friction : R;
  density : R;
  mass : R;
  inverseMass : R;
  linearAcceleration : Vec2.t;
  linearVelocity : Vec2.t;
  angularMass : R;
  inverseAngularMass : R;
  angularAcceleration : R;
  angularVelocity : R
}.

(** [constructor]; [nextID] is the value of the static counter
    [RigidBody.nextID] that the constructor reads and increments. *)
Definition new (nextID : Z) (collider : Shape.t) (position : Vec2.t)
    (mass angularMass restitution friction : R) (fixed : bool) : t :=
  let collider' := Shape.setCentre collider position in
  {| id := nextID;
     timeStill := 0;
     sleeping := false;
     fixed := fixed;
     island := None;
     collider := collider';
     bounds := AABB.fromShape collider';
     position := position;
     rotation := 0;
     restitution := restitution;
     friction := friction;
     density := mass / Shape.getArea collider';
     mass := mass;
     inverseMass := if fixed then 0 else 1 / mass;
     linearAcceleration := Vec2.zero;
     linearVelocity := Vec2.zero;
     angularMass := angularMass;
     inverseAngularMass := if fixed then 0 else 1 / angularMass;
     angularAcceleration := 0;
     angularVelocity := 0 |}.

(** Field assignments. *)
Definition with_timeStill (b : t) (v : R) : t :=
  mk (id b) v (sleeping b) (fixed b) (island b) (collider b) (bounds b)
     (position b) (rotation b) (restitution b) (friction b) (density b)
     (mass b) (inverseMass b) (linearAcceleration b) (linearVelocity b)
     (angularMass b) (inverseAngularMass b) (angularAcceleration b)
     (angularVelocity b).
Definition with_sleeping (b : t) (v : bool) : t :=
  mk (id b) (timeStill b) v (fixed b) (island b) (collider b) (bounds b)
     (position b) (rotation b) (restitution b) (friction b) (density b)
     (mass b) (inverseMass b) (linearAcceleration b) (linearVelocity b)
     (angularMass b) (inverseAngularMass b) (angularAcceleration b)
     (angularVelocity b).
Definition with_island (b : t) (v : option nat) : t :=
  mk (id b) (timeStill b) (sleeping b) (fixed b) v (collider b) (bounds b)
     (position b) (rotation b) (restitution b) (friction b) (density b)
     (mass b) (inverseMass b) (linearAcceleration b) (linearVelocity b)
     (angularMass b) (inverseAngularMass b) (angularAcceleration b)
     (angularVelocity b).
Definition with_pose (b : t) (c : Shape.t) (bd : AABB.t) (p : Vec2.t) (r : R) : t :=
  mk (id b) (timeStill b) (sleeping b) (fixed b) (island b) c bd
     p r (restitution b) (friction b) (density b)
     (mass b) (inverseMass b) (linearAcceleration b) (linearVelocity b)
     (angularMass b) (inverseAngularMass b) (angularAcceleration b)
     (angularVelocity b).
Definition with_acceleration (b : t) (la : Vec2.t) (aa : R) : t :=
  mk (id b) (timeStill b) (sleeping b) (fixed b) (island b) (collider b)
     (bounds b) (position b) (rotation b) (restitution b) (friction b)
     (density b) (mass b) (inverseMass b) la (linearVelocity b)
     (angularMass b) (inverseAngularMass b) aa (angularVelocity b).
Definition with_linearVelocity (b : t) (v : Vec2.t) : t :=
  mk (id b) (timeStill b) (sleeping b) (fixed b) (island b) (collider b)
     (bounds b) (position b) (rotation b) (restitution b) (friction b)
     (density b) (mass b) (inverseMass b) (linearAcceleration b) v
     (angularMass b) (inverseAngularMass b) (angularAcceleration b)
     (angularVelocity b).
Definition with_angularVelocity (b : t) (v : R) : t :=
  mk (id b) (timeStill b) (sleeping b) (fixed b) (island b) (collider b)
     (bounds b) (position b) (rotation b) (restitution b) (friction b)
     (density b) (mass b) (inverseMass b) (linearAcceleration b)
     (linearVelocity b) (angularMass b) (inverseAngularMass b)
     (angularAcceleration b) v.

Definition translate (b : t) (delta : Vec2.t) : t :=
  with_pose b
    (Shape.translate (collider b) delta)
    (AABB.translate (bounds b) delta)
    (Vec2.add (position b) delta)
    (rotation b).

Definition rotate (b : t) (delta : R) : t :=
  let sin := sin delta in
  let cos := cos delta in
  let collider' := Shape.rotate (collider b) delta (position b) sin cos in
  with_pose b
    collider'
    (AABB.mk (Vec2.mk (Shape.getMinX collider') (Shape.getMinY collider'))
             (Vec2.mk (Shape.getMaxX collider') (Shape.getMaxY collider')))
    (position b)
    (rotation b + delta).

Definition getVelocityAtPoint (b : t) (radius : Vec2.t) : Vec2.t :=
  let tangent := Vec2.perpendicular radius in
  let angularVelocity := Vec2.mulScalar tangent (angularVelocity b) in
  Vec2.add (linearVelocity b) angularVelocity.

Definition applyForce (b : t) (force radius : Vec2.t) : t :=
  let torque := Vec2.cross radius force in
  with_acceleration b
    (Vec2.add (linearAcceleration b) (Vec2.mulScalar force (inverseMass b)))
    (angularAcceleration b + torque * inverseAngularMass b).

Definition applyImpulse (b : t) (impulse radius : Vec2.t) : t :=
  let linearDelta := Vec2.mulScalar impulse (inverseMass b) in
  let angularDelta := Vec2.cross radius impulse * inverseAngularMass b in
  with_angularVelocity
    (with_linearVelocity b (Vec2.add (linearVelocity b) linearDelta))
    (angularVelocity b + angularDelta).

Definition integrate (b : t) (deltaSeconds : R) : t :=
  if fixed b || sleeping b then b
  else
    let b1 :=
      with_linearVelocity b
        (Vec2.add (linearVelocity b)
                  (Vec2.mulScalar (linearAcceleration b) deltaSeconds)) in
    let translationDelta := Vec2.mulScalar (linearVelocity b1) deltaSeconds in
    let b2 := translate b1 translationDelta in
    let b3 :=
      with_angularVelocity b2
        (angularVelocity b2 + angularAcceleration b2 * deltaSeconds) in
    let rotationDelta := angularVelocity b3 * deltaSeconds in
    let b4 := rotate b3 rotationDelta in
    let linearDecay := exp (- deltaSeconds * friction b4) in
    let angularDecay := exp (- deltaSeconds * friction b4) in
    let b5 :=
      with_angularVelocity
        (with_linearVelocity b4 (Vec2.mulScalar (linearVelocity b4) linearDecay))
        (angularVelocity b4 * angularDecay) in
    with_acceleration b5 (Vec2.mk 0 0) 0.

(** [RECIP_12], [RECIP_2] of [lib/maths/util.ts]; [rectangleMMOI] and
    [circleMMOI]. *)
Definition RECIP_12 : R := 1 / 12.
Definition RECIP_2 : R := 1 / 2.

Definition rectangleMMOI (width height : R) : R :=
  (width * width + height * height) * RECIP_12.

Definition circleMMOI (radius : R) : R := radius * radius * RECIP_2.

(** [RigidBody.fromRect(width, height, position, density, restitution,
    friction, fixed)]. *)
Definition fromRect (nextID : Z) (width height : R) (position : Vec2.t)
    (density restitution friction : R) (fixed : bool) : t :=
  let collider := Polygon.fromRect Vec2.zero width height in
  let area := width * height in
  let mass := area * density in
  let angularMass := rectangleMMOI width height * mass in
  new nextID (Shape.OfPolygon collider) position mass angularMass
                restitution friction fixed.

(** [RigidBody.fromCircle(radius, position, density, restitution, friction,
    fixed)]. *)
Definition fromCircle (nextID : Z) (radius : R) (position : Vec2.t)
    (density restitution friction : R) (fixed : bool) : t :=
  let collider := Circle.mk Vec2.zero radius in
  let area := PI * radius * radius in
  let mass := area * density in
  let angularMass := circleMMOI radius * mass in
  new nextID (Shape.OfCircle collider) position mass angularMass
                restitution friction fixed.

End RigidBody.

(** ** [src/collision/collision.ts]: contacts and collisions *)

Module Contact.
Local Open Scope R_scope.

Record t : Type := mk {
  worldPosA : Vec2.t;
  worldPosB : Vec2.t;
  localPosA : Vec2.t;
  localPosB : Vec2.t;
  effectiveMassNormal : R;
  effectiveMassTangent : R;
  originalRestitutionBias : R;
  accumulatedNormalMagnitude : R;
  accumulatedTangentMagnitude : R
}.

Definition with_originalRestitutionBias (c : t) (v : R) : t :=
  mk (worldPosA c) (worldPosB c) (localPosA c) (localPosB c)
     (effectiveMassNormal c) (effectiveMassTangent c)
     v (accumulatedNormalMagnitude c) (accumulatedTangentMagnitude c).
Definition with_accumulatedNormalMagnitude (c : t) (v : R) : t :=
  mk (worldPosA c) (worldPosB c) (localPosA c) (localPosB c)
     (effectiveMassNormal c) (effectiveMassTangent c)
     (originalRestitutionBias c) v (accumulatedTangentMagnitude c).
Definition with_accumulatedTangentMagnitude (c : t) (v : R) : t :=
  mk (worldPosA c) (worldPosB c) (localPosA c) (localPosB c)
     (effectiveMassNormal c) (effectiveMassTangent c)
     (originalRestitutionBias c) (accumulatedNormalMagnitude c) v.

Definition updateRestitutionBias (c : t) (bodyA bodyB : RigidBody.t)
    (normal : Vec2.t) : t :=
  let relativeVelocity :=
    Vec2.sub (RigidBody.getVelocityAtPoint bodyB (localPosB c))
             (RigidBody.getVelocityAtPoint bodyA (localPosA c)) in
  let relativeVelocityDotNormal := Vec2.dot relativeVelocity normal in
  if Num.ltb relativeVelocityDotNormal (-0.1) then
    with_originalRestitutionBias c
      (- (RigidBody.restitution bodyA * RigidBody.restitution bodyB)
       * relativeVelocityDotNormal)
  else with_originalRestitutionBias c 0.

(** [constructor]. *)
Definition new (bodyA bodyB : RigidBody.t) (worldPosA worldPosB normal tangent : Vec2.t) : t :=
  let localPosA := Vec2.sub worldPosA (RigidBody.position bodyA) in
  let localPosB := Vec2.sub worldPosB (RigidBody.position bodyB) in
  let radiusNormalA := Vec2.cross localPosA normal in
  let radiusNormalB := Vec2.cross localPosB normal in
  let radiusTangentA := Vec2.cross localPosA tangent in
  let radiusTangentB := Vec2.cross localPosB tangent in
  let c0 :=
    {| worldPosA := worldPosA;
       worldPosB := worldPosB;
       localPosA := localPosA;
       localPosB := localPosB;
       effectiveMassNormal :=
         1 / (RigidBody.inverseMass bodyA + RigidBody.inverseMass bodyB
              + RigidBody.inverseAngularMass bodyA * radiusNormalA * radiusNormalA
              + RigidBody.inverseAngularMass bodyB * radiusNormalB * radiusNormalB);
       effectiveMassTangent :=
         1 / (RigidBody.inverseMass bodyA + RigidBody.inverseMass bodyB
              + RigidBody.inverseAngularMass bodyA * radiusTangentA * radiusTangentA
              + RigidBody.inverseAngularMass bodyB * radiusTangentB * radiusTangentB);
       originalRestitutionBias := 0;
       accumulatedNormalMagnitude := 0;
       accumulatedTangentMagnitude := 0 |} in
  updateRestitutionBias c0 bodyA bodyB normal.

End Contact.

Module CollisionManifold.

(** [contacts] is an array of references to [Contact] objects. *)
Record t : Type := mk {
  normal : Vec2.t;
  tangent : Vec2.t;
  depth : R;
  mtv : Vec2.t;
  contacts : list nat
}.

(** [constructor(normal, mtv, depth, contacts)]. *)
Definition new (normal mtv : Vec2.t) (depth : R) (contacts : list nat) : t :=
  mk normal (Vec2.perpendicular normal) depth mtv contacts.

Definition with_contacts (m : t) (cs : list nat) : t :=
  mk (normal m) (tangent m) (depth m) (mtv m) cs.

End CollisionManifold.

(** ** The object store *)

(** Bodies, contacts and islands by reference.  An island is its set of
    bodies, in insertion order as a JavaScript [Set] keeps it. *)
Record Store : Type := mkStore {
  bodyObjs : gmap nat RigidBody.t;
  contactObjs : gmap nat Contact.t;
  islandObjs : gmap nat (list nat)
}.

Definition with_bodyObjs (s : Store) (m : gmap nat RigidBody.t) : Store :=
  mkStore m (contactObjs s) (islandObjs s).
Definition with_contactObjs (s : Store) (m : gmap nat Contact.t) : Store :=
  mkStore (bodyObjs s) m (islandObjs s).
Definition with_islandObjs (s : Store) (m : gmap nat (list nat)) : Store :=
  mkStore (bodyObjs s) (contactObjs s) m.

(** A method call [body.f(...)] on the body behind reference [r]. *)
Definition onBody (r : nat) (f : RigidBody.t -> RigidBody.t) (s : Store) : Store :=
  with_bodyObjs s (alter f r (bodyObjs s)).
Definition onContact (r : nat) (f : Contact.t -> Contact.t) (s : Store) : Store :=
  with_contactObjs s (alter f r (contactObjs s)).
Definition onIsland (r : nat) (f : list nat -> list nat) (s : Store) : Store :=
  with_islandObjs s (alter f r (islandObjs s)).

Module Collision.
Local Open Scope R_scope.

(** [bodyA] and [bodyB] are references to the two bodies. *)
Record t : Type := mk {
  id : Z;
  bodyA : nat;
  bodyB : nat;
  restitution : R;
  friction : R;
  manifold : CollisionManifold.t
}.

(** [constructor(bodyA, bodyB, manifold)]; [a] and [b] are the bodies behind
    the two references. *)
Definition new (refA refB : nat) (a b : RigidBody.t) (manifold : CollisionManifold.t) : t :=
  {| id := Collision_id (RigidBody.id a) (RigidBody.id b);
     bodyA := refA;
     bodyB := refB;
     restitution := RigidBody.restitution a * RigidBody.restitution b;
     friction := (RigidBody.friction a + RigidBody.friction b) * 0.5;
     manifold := manifold |}.

Definition with_manifold (c : t) (m : CollisionManifold.t) : t :=
  mk (id c) (bodyA c) (bodyB c) (restitution c) (friction c) m.

Definition applyAccumulatedImpulses (c : t) (s : Store) : Store :=
  fold_left
    (fun s r =>
       match contactObjs s !! r with
       | Some contact =>
           let impulse :=
             Vec2.add
               (Vec2.mulScalar (CollisionManifold.normal (manifold c))
                               (Contact.accumulatedNormalMagnitude contact))
               (Vec2.mulScalar (CollisionManifold.tangent (manifold c))
                               (Contact.accumulatedTangentMagnitude contact)) in
           let s1 :=
             onBody (bodyA c)
               (fun a => RigidBody.applyImpulse a (Vec2.neg impulse) (Contact.localPosA contact)) s in
           onBody (bodyB c)
             (fun b => RigidBody.applyImpulse b impulse (Contact.localPosB contact)) s1
       | None => s
       end)
    (CollisionManifold.contacts (manifold c)) s.

Definition solvePositionLinearOnly (c : t) (s : Store) : Store :=
  match bodyObjs s !! bodyA c, bodyObjs s !! bodyB c with
  | Some a, Some b =>
      let effectiveMass := 1 / (RigidBody.inverseMass a + RigidBody.inverseMass b) in
      let correction :=
        Vec2.mulScalar (CollisionManifold.normal (manifold c))
                       (Rmax 0 (CollisionManifold.depth (manifold c) - 0.1)) in
      let s1 :=
        onBody (bodyA c)
          (fun a => RigidBody.translate a
                      (Vec2.mulScalar correction (- effectiveMass * RigidBody.inverseMass a))) s in
      onBody (bodyB c)
        (fun b => RigidBody.translate b
                    (Vec2.mulScalar correction (effectiveMass * RigidBody.inverseMass b))) s1
  | _, _ => s
  end.

(** One turn of the first loop of [solveVelocity], for the contact behind [r]. *)
Definition solveNormal (c : t) (s : Store) (r : nat) : Store :=
  match contactObjs s !! r, bodyObjs s !! bodyA c, bodyObjs s !! bodyB c with
  | Some contact, Some a, Some b =>
      let relativeVelocity :=
        Vec2.sub (RigidBody.getVelocityAtPoint b (Contact.localPosB contact))
                 (RigidBody.getVelocityAtPoint a (Contact.localPosA contact)) in
      let relativeVelocityDotNormal :=
        Vec2.dot relativeVelocity (CollisionManifold.normal (manifold c)) in
      let impulseMagnitude :=
        - (relativeVelocityDotNormal - Contact.originalRestitutionBias contact)
        * Contact.effectiveMassNormal contact in
      let newAccumulatedMagnitude :=
        Rmax (Contact.accumulatedNormalMagnitude contact + impulseMagnitude) 0 in
      let newImpulse :=
        newAccumulatedMagnitude - Contact.accumulatedNormalMagnitude contact in
      let s1 :=
        onContact r
          (fun k => Contact.with_accumulatedNormalMagnitude k newAccumulatedMagnitude) s in
      let s2 :=
        onBody (bodyA c)
          (fun a => RigidBody.applyImpulse a
                      (Vec2.mulScalar (CollisionManifold.normal (manifold c)) (- newImpulse))
                      (Contact.localPosA contact)) s1 in
      onBody (bodyB c)
        (fun b => RigidBody.applyImpulse b
                    (Vec2.mulScalar (CollisionManifold.normal (manifold c)) newImpulse)
                    (Contact.localPosB contact)) s2
  | _, _, _ => s
  end.

(** One turn of the second loop of [solveVelocity]. *)
Definition solveTangent (c : t) (s : Store) (r : nat) : Store :=
  match contactObjs s !! r, bodyObjs s !! bodyA c, bodyObjs s !! bodyB c with
  | Some contact, Some a, Some b =>
      let relativeVelocity :=
        Vec2.sub (RigidBody.getVelocityAtPoint b (Contact.localPosB contact))
                 (RigidBody.getVelocityAtPoint a (Contact.localPosA contact)) in
      let relativeVelocityDotTangent :=
        Vec2.dot relativeVelocity (CollisionManifold.tangent (manifold c)) in
      let impulseMagnitude :=
        - relativeVelocityDotTangent * Contact.effectiveMassTangent contact in
      let staticFrictionLimit :=
        Contact.accumulatedNormalMagnitude contact * friction c in
      let newAccumulatedMagnitude :=
        Num.clamp (Contact.accumulatedTangentMagnitude contact + impulseMagnitude)
                  (- staticFrictionLimit) staticFrictionLimit in
      let newImpulse :=
        newAccumulatedMagnitude - Contact.accumulatedTangentMagnitude contact in
      let s1 :=
        onContact r
          (fun k => Contact.with_accumulatedTangentMagnitude k newAccumulatedMagnitude) s in
      let s2 :=
        onBody (bodyA c)
          (fun a => RigidBody.applyImpulse a
                      (Vec2.mulScalar (CollisionManifold.tangent (manifold c)) (- newImpulse))
                      (Contact.localPosA contact)) s1 in
      onBody (bodyB c)
        (fun b => RigidBody.applyImpulse b
                    (Vec2.mulScalar (CollisionManifold.tangent (manifold c)) newImpulse)
                    (Contact.localPosB contact)) s2
  | _, _, _ => s
  end.

Definition solveVelocity (c : t) (s : Store) : Store :=
  let s1 := fold_left (solveNormal c) (CollisionManifold.contacts (manifold c)) s in
  fold_left (solveTangent c) (CollisionManifold.contacts (manifold c)) s1.

End Collision.

(** ** [src/island.ts] *)

Module Island.

(** [Set.add]: a body already in the set is not added again. *)
Definition add (body : nat) (bodies : list nat) : list nat :=
  if decide (body ∈ bodies) then bodies else bodies ++ [body].

(** [this.merge(island)], on the islands behind [this] and [other]. *)
Definition merge (this other : nat) (s : Store) : Store :=
  let s1 :=
    fold_left
      (fun s body =>
         onBody body (fun b => RigidBody.with_island b (Some this))
           (onIsland this (add body) s))
      (default [] (islandObjs s !! other)) s in
  onIsland other (fun _ => []) s1.

(** The loop of [merge] alone. *)
Definition mergeLoop (this : nat) (l : list nat) (s : Store) : Store :=
  fold_left
    (fun s body =>
       onBody body (fun b => RigidBody.with_island b (Some this))
         (onIsland this (add body) s))
    l s.

End Island.

(** [RigidBody.addToIsland], on the body behind [r]. *)
Definition addToIsland (r island : nat) (s : Store) : Store :=
  match bodyObjs s !! r with
  | Some b =>
      if RigidBody.fixed b then s
      else
        onIsland island (Island.add r)
          (onBody r (fun b => RigidBody.with_island b (Some island)) s)
  | None => s
  end.

(** ** JavaScript arrays *)

Module JsArray.
Local Open Scope Z_scope.

(** [array.indexOf(x)]: the first index holding [x], or [-1]. *)
Fixpoint indexOf {T : Type} `{EqDecision T} (array : list T) (x : T) : Z :=
  match array with
  | [] => -1
  | y :: rest =>
      if decide (y = x) then 0
      else let i := indexOf rest x in if i <? 0 then -1 else i + 1
  end.

(** [[array[index], array[array.length - 1]] = [array[array.length - 1], array[index]]]
    followed by [array.pop()], on a dense array.

    The right-hand side is read first, then the two elements are written from
    left to right, the second target being resolved after the first write.
    - [0 <= index < length]: the last element moves to [index] and the array
      loses its last slot.
    - [index < 0]: the first write sets the property ["-1"], which is not an
      element; the second write puts [undefined] in the last slot, and [pop]
      removes that slot.
    - [index = length]: the first write appends the last element, the second
      write overwrites the appended slot and [pop] removes it: the array is
      unchanged.
    - [index > length]: the array is left with holes; this is not a dense array
      and the result is [None]. *)
Definition swapRemove {T : Type} (array : list T) (index : Z) : option (list T) :=
  let len := Z.of_nat (length array) in
  if index <? 0 then Some (removelast array)
  else if index <? len then
    match last array with
    | Some l => Some (removelast (<[Z.to_nat index := l]> array))
    | None => Some array
    end
  else if index =? len then Some array
  else None.

End JsArray.

(** ** [lib/collections/quadtree.ts] *)

Module QuadTree.
Local Open Scope R_scope.

Definition MAX_DEPTH : nat := 4.

(** The four child slots of a node. *)
Inductive Quadrant : Type := Q0 | Q1 | Q2 | Q3.

#[global] Instance Quadrant_eq_dec : EqDecision Quadrant.
Proof. solve_decision. Defined.

Definition quadrants : list Quadrant := [Q0; Q1; Q2; Q3].

(** A value of type [QuadTreeNode | undefined].  The [depth] of a node is its
    distance to the root (the root is built with depth 0 and a child with
    [this.depth + 1]); [childBounds] is computed from [bounds] as the
    constructor does.  Items are references. *)
Inductive Node : Type :=
| Undefined
| Mk (bounds : AABB.t) (child0 child1 child2 child3 : Node) (items : list nat).

(** A node is named by the path of child slots that leads to it from the root. *)
Record ItemLocation : Type := mkLocation {
  node : list Quadrant;
  index : nat
}.

Record t : Type := mk {
  root : Node;
  itemLocations : gmap nat ItemLocation
}.

Definition childBounds (bounds : AABB.t) (i : Quadrant) : AABB.t :=
  let halfWidth := (Vec2.x (AABB.max bounds) - Vec2.x (AABB.min bounds)) * 0.5 in
  let halfHeight := (Vec2.y (AABB.max bounds) - Vec2.y (AABB.min bounds)) * 0.5 in
  let minX := Vec2.x (AABB.min bounds) in
  let minY := Vec2.y (AABB.min bounds) in
  match i with
  | Q0 => AABB.fromDimensions minX minY halfWidth halfHeight
  | Q1 => AABB.fromDimensions (minX + halfWidth) minY halfWidth halfHeight
  | Q2 => AABB.fromDimensions minX (minY + halfHeight) halfWidth halfHeight
  | Q3 => AABB.fromDimensions (minX + halfWidth) (minY + halfHeight) halfWidth halfHeight
  end.

(** [new QuadTreeNode(bounds, depth)]. *)
Definition newNode (bounds : AABB.t) : Node :=
  Mk bounds Undefined Undefined Undefined Undefined [].

Definition child (n : Node) (i : Quadrant) : Node :=
  match n with
  | Undefined => Undefined
  | Mk _ c0 c1 c2 c3 _ =>
      match i with Q0 => c0 | Q1 => c1 | Q2 => c2 | Q3 => c3 end
  end.

Definition with_child (n : Node) (i : Quadrant) (c : Node) : Node :=
  match n with
  | Undefined => Undefined
  | Mk b c0 c1 c2 c3 items =>
      match i with
      | Q0 => Mk b c c1 c2 c3 items
      | Q1 => Mk b c0 c c2 c3 items
      | Q2 => Mk b c0 c1 c c3 items
      | Q3 => Mk b c0 c1 c2 c items
      end
  end.

Definition nodeItems (n : Node) : list nat :=
  match n with
  | Undefined => []
  | Mk _ _ _ _ _ items => items
  end.

Definition with_items (n : Node) (items : list nat) : Node :=
  match n with
  | Undefined => Undefined
  | Mk b c0 c1 c2 c3 _ => Mk b c0 c1 c2 c3 items
  end.

(** The node object at the end of [path], [Undefined] when the path leaves
    the tree. *)
Fixpoint nodeAt (n : Node) (path : list Quadrant) : Node :=
  match path with
  | [] => n
  | i :: rest => nodeAt (child n i) rest
  end.

(** The tree with the node at the end of [path] replaced by [f] of it. *)
Fixpoint updateAt (n : Node) (path : list Quadrant) (f : Node -> Node) : Node :=
  match path with
  | [] => f n
  | i :: rest => with_child n i (updateAt (child n i) rest f)
  end.

(** [QuadTreeNode.prune]: the node after the call, and the returned boolean.
    Each defined child is pruned first and is dropped when its own call
    returns [true]; an undefined child is skipped, which the case [Undefined]
    renders by leaving the slot undefined without counting it as a child. *)
Fixpoint prune (n : Node) : Node * bool :=
  match n with
  | Undefined => (Undefined, true)
  | Mk b c0 c1 c2 c3 items =>
      let '(c0', p0) := prune c0 in
      let '(c1', p1) := prune c1 in
      let '(c2', p2) := prune c2 in
      let '(c3', p3) := prune c3 in
      let hasChildren := negb p0 || negb p1 || negb p2 || negb p3 in
      (Mk b (if p0 then Undefined else c0') (if p1 then Undefined else c1')
            (if p2 then Undefined else c2') (if p3 then Undefined else c3') items,
       (Nat.eqb (length items) 0) && negb hasChildren)
  end.

(** [QuadTreeNode.insert] at a node [levels] levels above [MAX_DEPTH]
    (so [this.depth < MAX_DEPTH] reads [levels > 0]). *)
Fixpoint insertNode (levels : nat) (n : Node) (item : nat) (itemBounds : AABB.t)
    : Node * ItemLocation :=
  let here :=
    (with_items n (nodeItems n ++ [item]), mkLocation [] (length (nodeItems n))) in
  match levels, n with
  | S below, Mk b _ _ _ _ _ =>
      match find (fun i => AABB.contains (childBounds b i) itemBounds) quadrants with
      | Some i =>
          let c :=
            match child n i with
            | Undefined => newNode (childBounds b i)
            | c => c
            end in
          let '(c', loc) := insertNode below c item itemBounds in
          (with_child n i c', mkLocation (i :: node loc) (index loc))
      | None => here
      end
  | _, _ => here
  end.

Fixpoint getAll (n : Node) : list nat :=
  match n with
  | Undefined => []
  | Mk _ c0 c1 c2 c3 items =>
      items ++ getAll c0 ++ getAll c1 ++ getAll c2 ++ getAll c3
  end.

Definition nodeBounds (n : Node) : option AABB.t :=
  match n with
  | Undefined => None
  | Mk b _ _ _ _ _ => Some b
  end.

(** [QuadTreeNode.get(bounds, result)]; [boundsOf] reads [item.bounds]. *)
Fixpoint getNode (boundsOf : nat -> option AABB.t) (n : Node) (bounds : AABB.t)
    : list nat :=
  match n with
  | Undefined => []
  | Mk _ c0 c1 c2 c3 items =>
      let visit (c : Node) : list nat :=
        match nodeBounds c with
        | None => []
        | Some cb =>
            if AABB.contains bounds cb then getAll c
            else if AABB.intersects bounds cb then getNode boundsOf c bounds
            else []
        end in
      List.filter (fun item =>
                     match boundsOf item with
                     | Some ib => AABB.intersects ib bounds
                     | None => false
                     end) items
      ++ visit c0 ++ visit c1 ++ visit c2 ++ visit c3
  end.

(** [new QuadTree(bounds)]. *)
Definition new (bounds : AABB.t) : t := mk (newNode bounds) ∅.

Definition insert (q : t) (item : nat) (itemBounds : AABB.t) : t * bool :=
  match nodeBounds (root q) with
  | Some rb =>
      if AABB.contains rb itemBounds then
        let '(root', location) := insertNode MAX_DEPTH (root q) item itemBounds in
        (mk root' (<[item := location]> (itemLocations q)), true)
      else (q, false)
  | None => (q, false)
  end.

Definition get (boundsOf : nat -> option AABB.t) (q : t) (bounds : AABB.t) : list nat :=
  getNode boundsOf (root q) bounds.

(** [QuadTree.remove].  The result is [None] when the swap leaves the item
    array with holes (see [JsArray.swapRemove]). *)
Definition remove (q : t) (item : nat) : option (t * bool) :=
  match itemLocations q !! item with
  | None => Some (q, false)
  | Some location =>
      match JsArray.swapRemove (nodeItems (nodeAt (root q) (node location)))
                               (Z.of_nat (index location)) with
      | None => None
      | Some items' =>
          let locations1 := delete item (itemLocations q) in
          let locations2 :=
            match items' !! index location with
            | Some swappedItem => <[swappedItem := location]> locations1
            | None => locations1
            end in
          let root' :=
            updateAt (root q) (node location)
                     (fun n => fst (prune (with_items n items'))) in
          Some (mk root' locations2, true)
      end
  end.

(** [QuadTree.update]: [remove] then [insert]. *)
Definition update (q : t) (item : nat) (itemBounds : AABB.t) : option (t * bool) :=
  match remove q item with
  | Some (q', _) => Some (insert q' item itemBounds)
  | None => None
  end.

(** [QuadTreeNode.clear]: the item array of every node is emptied; the
    nodes stay. *)
Fixpoint clearNode (n : Node) : Node :=
  match n with
  | Undefined => Undefined
  | Mk b c0 c1 c2 c3 _ =>
      Mk b (clearNode c0) (clearNode c1) (clearNode c2) (clearNode c3) []
  end.

(** [QuadTree.clear]. *)
Definition clear (q : t) : t := mk (clearNode (root q)) ∅.

(** [QuadTree.prune]: [this.root.prune()]; the returned boolean is dropped. *)
Definition pruneTree (q : t) : t := mk (fst (prune (root q))) (itemLocations q).

End QuadTree.

(** ** [src/collision/gjk.ts]: GJK and EPA *)

Module MinkowskiDiff.

Record t : Type := mk { a : Vec2.t; b : Vec2.t; result : Vec2.t }.

(** [constructor(shapeA, shapeB, direction)]. *)
Definition new (shapeA shapeB : Shape.t) (direction : Vec2.t) : t :=
  let a := Shape.getFurthestPoint shapeA direction in
  let b := Shape.getFurthestPoint shapeB (Vec2.neg direction) in
  mk a b (Vec2.sub a b).

End MinkowskiDiff.

Module Gjk.
Local Open Scope R_scope.

(** [checkSimplexLine]: the simplex, the new direction and the returned
    boolean. *)
Definition checkSimplexLine (simplex : list MinkowskiDiff.t)
    : option (list MinkowskiDiff.t * Vec2.t * bool) :=
  match simplex !! 1%nat, simplex !! 0%nat with
  | Some s1, Some s0 =>
      let a := MinkowskiDiff.result s1 in
      let b := MinkowskiDiff.result s0 in
      let ab := Vec2.sub b a in
      let ao := Vec2.neg a in
      let normal := Vec2.tripleCross ab ao ab in
      let normal := if Vec2.isZero normal then Vec2.perpendicular ab else normal in
      Some (simplex, normal, false)
  | _, _ => None
  end.

(** [checkSimplexTriangle]; the direction is unchanged when it returns [true]. *)
Definition checkSimplexTriangle (simplex : list MinkowskiDiff.t) (direction : Vec2.t)
    : option (list MinkowskiDiff.t * Vec2.t * bool) :=
  match simplex !! 2%nat, simplex !! 1%nat, simplex !! 0%nat with
  | Some s2, Some s1, Some s0 =>
      let a := MinkowskiDiff.result s2 in
      let b := MinkowskiDiff.result s1 in
      let c := MinkowskiDiff.result s0 in
      let ab := Vec2.sub b a in
      let ac := Vec2.sub c a in
      let ao := Vec2.neg a in
      let abNormal := Vec2.tripleCross ac ab ab in
      if Num.ltb 0 (Vec2.dot abNormal ao) then Some ([s1; s2], abNormal, false)
      else
        let acNormal := Vec2.tripleCross ab ac ac in
        if Num.ltb 0 (Vec2.dot acNormal ao) then Some ([s0; s2], acNormal, false)
        else Some (simplex, direction, true)
  | _, _, _ => None
  end.

(** [checkSimplex]; [None] renders [throw new Error("Invalid simplex length")]. *)
Definition checkSimplex (simplex : list MinkowskiDiff.t) (direction : Vec2.t)
    : option (list MinkowskiDiff.t * Vec2.t * bool) :=
  match length simplex with
  | 2%nat => checkSimplexLine simplex
  | 3%nat => checkSimplexTriangle simplex direction
  | _ => None
  end.

(** The result of a run of [GJK]. *)
Inductive Run : Type :=
| NoCollision
| Collision (simplex : list MinkowskiDiff.t)
| Throws
| OutOfFuel.

(** The [while (true)] loop of [GJK], for at most [fuel] turns. *)
Fixpoint loop (fuel : nat) (shapeA shapeB : Shape.t)
    (simplex : list MinkowskiDiff.t) (direction : Vec2.t) : Run :=
  match fuel with
  | O => OutOfFuel
  | S fuel' =>
      let point := MinkowskiDiff.new shapeA shapeB direction in
      if Num.ltb (Vec2.dot (MinkowskiDiff.result point) direction) 0 then NoCollision
      else
        match checkSimplex (simplex ++ [point]) direction with
        | None => Throws
        | Some (simplex', _, true) => Collision simplex'
        | Some (simplex', direction', false) => loop fuel' shapeA shapeB simplex' direction'
        end
  end.

Definition GJK (fuel : nat) (shapeA shapeB : Shape.t) : Run :=
  let direction := Vec2.sub (Shape.getCentre shapeA) (Shape.getCentre shapeB) in
  let direction :=
    if Vec2.isZero direction then Vec2.mk 1 (Vec2.y direction) else direction in
  let first := MinkowskiDiff.new shapeA shapeB direction in
  loop fuel shapeA shapeB [first] (Vec2.neg (MinkowskiDiff.result first)).

End Gjk.

Module Epa.
Local Open Scope R_scope.

Record EpaResult : Type := mkResult {
  normal : Vec2.t;
  tangent : Vec2.t;
  mtv : Vec2.t;
  depth : R;
  worldContactA : Vec2.t;
  worldContactB : Vec2.t
}.

(** [new EpaResult(normal, mtv, depth, worldContactA, worldContactB)]. *)
Definition newResult (normal mtv : Vec2.t) (depth : R) (worldContactA worldContactB : Vec2.t)
    : EpaResult :=
  mkResult normal (Vec2.perpendicular normal) mtv depth worldContactA worldContactB.

(** The variables of the scan over the edges of the polytope. *)
Record Closest : Type := mkClosest {
  minIndexA : nat;
  minIndexB : nat;
  minNormal : Vec2.t;
  minDistance : R
}.

(** The outward unit normal of the edge from [a] to [b], and the clamped
    distance of the edge to the origin. *)
Definition edgeNormal (a b : Vec2.t) : Vec2.t :=
  let ab := Vec2.sub b a in
  let oa := a in
  let normal := Vec2.tripleCross ab oa ab in
  let normal := if Vec2.isZero normal then Vec2.perpendicular ab else normal in
  Vec2.normalise normal.

Definition edgeDistance (a b : Vec2.t) : R := Rmax 0 (Vec2.dot (edgeNormal a b) a).

(** One turn of the inner loop, for the edge that starts at index [i]. *)
Definition scanEdge (simplex : list MinkowskiDiff.t) (acc : Closest) (i : nat) : Closest :=
  let j := ((i + 1) mod length simplex)%nat in
  match simplex !! i, simplex !! j with
  | Some si, Some sj =>
      let a := MinkowskiDiff.result si in
      let b := MinkowskiDiff.result sj in
      let normal := edgeNormal a b in
      let distance := edgeDistance a b in
      if Num.ltb distance (minDistance acc) then mkClosest i j normal distance else acc
  | _, _ => acc
  end.

Definition closestEdge (simplex : list MinkowskiDiff.t) : Closest :=
  fold_left (scanEdge simplex) (seq 0 (length simplex))
            (mkClosest 0 0 Vec2.zero Num.MAX_VALUE).

(** The support point probed in the direction of the closest edge's normal. *)
Definition probe (shapeA shapeB : Shape.t) (simplex : list MinkowskiDiff.t) : MinkowskiDiff.t :=
  MinkowskiDiff.new shapeA shapeB (minNormal (closestEdge simplex)).

Definition probeDistance (shapeA shapeB : Shape.t) (simplex : list MinkowskiDiff.t) : R :=
  Vec2.dot (minNormal (closestEdge simplex))
           (MinkowskiDiff.result (probe shapeA shapeB simplex)).

(** The test [Math.abs(distance - minDistance) < 1e-3]. *)
Definition converged (shapeA shapeB : Shape.t) (simplex : list MinkowskiDiff.t) : bool :=
  Num.ltb (Rabs (probeDistance shapeA shapeB simplex - minDistance (closestEdge simplex)))
          (1 / 1000).

(** [simplex.splice(minIndexA + 1, 0, point)]. *)
Definition expand (shapeA shapeB : Shape.t) (simplex : list MinkowskiDiff.t)
    : list MinkowskiDiff.t :=
  let k := S (minIndexA (closestEdge simplex)) in
  take k simplex ++ [probe shapeA shapeB simplex] ++ drop k simplex.

(** The body of the branch taken on convergence; [None] when an index of the
    closest edge names no point of the simplex (a [TypeError] in the source). *)
Definition finish (shapeA shapeB : Shape.t) (simplex : list MinkowskiDiff.t)
    : option EpaResult :=
  let e := closestEdge simplex in
  let distance := probeDistance shapeA shapeB simplex in
  let mtv := Vec2.mulScalar (minNormal e) distance in
  match simplex !! minIndexA e, simplex !! minIndexB e with
  | Some sa, Some sb =>
      let contactA :=
        if Num.ltb (Vec2.magnitudeSquared
                      (Vec2.sub (MinkowskiDiff.a sb) (MinkowskiDiff.a sa))) 1
        then MinkowskiDiff.a sa
        else
          let edge := Vec2.sub (MinkowskiDiff.result sb) (MinkowskiDiff.result sa) in
          let t := - Vec2.dot (MinkowskiDiff.result sa) edge / Vec2.magnitudeSquared edge in
          Vec2.add (MinkowskiDiff.a sa) (Vec2.mulScalar edge t) in
      let contactB := Vec2.sub contactA mtv in
      Some (newResult (minNormal e) mtv distance contactA contactB)
  | _, _ => None
  end.

(** The [for] loop of [EPA] with [n] turns left; [None] renders a thrown
    error. *)
Fixpoint loop (n : nat) (shapeA shapeB : Shape.t) (simplex : list MinkowskiDiff.t)
    : option EpaResult :=
  match n with
  | O => None
  | S n' =>
      if converged shapeA shapeB simplex then finish shapeA shapeB simplex
      else loop n' shapeA shapeB (expand shapeA shapeB simplex)
  end.

Definition EPA (shapeA shapeB : Shape.t) (simplex : list MinkowskiDiff.t) : option EpaResult :=
  loop 100 shapeA shapeB simplex.

End Epa.

(** ** [src/physics.ts]: the engine *)

Record PhysicsEngineConfig : Type := mkConfig {
  gravity : R;
  stepsPerSecond : R;
  velocityIterations : nat;
  sleepLinearThreshold : R;
  sleepAngularThreshold : R;
  sleepTimeThreshold : R
}.

Definition PhysicsEngineConfigDefault : PhysicsEngineConfig :=
  mkConfig 981%R 500%R 5 0.15%R 0.15%R 0.5%R.

(** A JavaScript [Map<number, V>] in insertion order. *)
Module NumMap.

Definition t (V : Type) : Type := list (Z * V).

Fixpoint get {V : Type} (m : t V) (k : Z) : option V :=
  match m with
  | [] => None
  | (k', v) :: rest => if decide (k' = k) then Some v else get rest k
  end.

(** [set] replaces the value of a present key in place and appends a new key. *)
Fixpoint set {V : Type} (m : t V) (k : Z) (v : V) : t V :=
  match m with
  | [] => [(k, v)]
  | (k', v') :: rest =>
      if decide (k' = k) then (k, v) :: rest else (k', v') :: set rest k v
  end.

Fixpoint delete {V : Type} (m : t V) (k : Z) : t V :=
  match m with
  | [] => []
  | (k', v') :: rest =>
      if decide (k' = k) then rest else (k', v') :: delete rest k
  end.

Definition keys {V : Type} (m : t V) : list Z := map fst m.
Definition values {V : Type} (m : t V) : list V := map snd m.

End NumMap.

Module PhysicsEngine.
Local Open Scope R_scope.

(** [bodies] and [islands] are arrays of references. *)
Record t : Type := mk {
  config : PhysicsEngineConfig;
  fixedTimeStep : R;
  timeElapsed : R;
  stepsElapsed : Z;
  updateDuration : R;
  worldBounds : AABB.t;
  quadtree : QuadTree.t;
  bodies : list nat;
  collisions : NumMap.t Collision.t;
  islands : list nat
}.

(** [constructor(worldBounds, config)]. *)
Definition new (worldBounds : AABB.t) (config : PhysicsEngineConfig) : t :=
  {| config := config;
     fixedTimeStep := 1 / stepsPerSecond config;
     timeElapsed := 0;
     stepsElapsed := 0;
     updateDuration := 0;
     worldBounds := worldBounds;
     quadtree := QuadTree.new worldBounds;
     bodies := [];
     collisions := [];
     islands := [] |}.

Definition with_timing (e : t) (time : R) (steps : Z) (duration : R) : t :=
  mk (config e) (fixedTimeStep e) time steps duration (worldBounds e)
     (quadtree e) (bodies e) (collisions e) (islands e).
Definition with_quadtree (e : t) (q : QuadTree.t) : t :=
  mk (config e) (fixedTimeStep e) (timeElapsed e) (stepsElapsed e) (updateDuration e)
     (worldBounds e) q (bodies e) (collisions e) (islands e).
Definition with_bodies (e : t) (bs : list nat) : t :=
  mk (config e) (fixedTimeStep e) (timeElapsed e) (stepsElapsed e) (updateDuration e)
     (worldBounds e) (quadtree e) bs (collisions e) (islands e).
Definition with_collisions (e : t) (cs : NumMap.t Collision.t) : t :=
  mk (config e) (fixedTimeStep e) (timeElapsed e) (stepsElapsed e) (updateDuration e)
     (worldBounds e) (quadtree e) (bodies e) cs (islands e).
Definition with_islands (e : t) (refs : list nat) : t :=
  mk (config e) (fixedTimeStep e) (timeElapsed e) (stepsElapsed e) (updateDuration e)
     (worldBounds e) (quadtree e) (bodies e) (collisions e) refs.

End PhysicsEngine.

(** The engine together with the objects it points to. *)
Record World : Type := mkWorld {
  store : Store;
  engine : PhysicsEngine.t
}.

Definition onStore (f : Store -> Store) (w : World) : World :=
  mkWorld (f (store w)) (engine w).
Definition onEngine (f : PhysicsEngine.t -> PhysicsEngine.t) (w : World) : World :=
  mkWorld (store w) (f (engine w)).

(** How a call ends: it returns ([Normal], with its result), an exception
    leaves it ([Thrown], with the world as the exception found it), or the run
    leaves what the model covers ([Stuck]: an array with holes, or [GJK] out
    of fuel). *)
Inductive Outcome (A : Type) : Type :=
| Normal (a : A)
| Thrown (w : World)
| Stuck.

Arguments Normal {A} a.
Arguments Thrown {A} w.
Arguments Stuck {A}.

Definition bind {A B : Type} (o : Outcome A) (f : A -> Outcome B) : Outcome B :=
  match o with
  | Normal a => f a
  | Thrown w => Thrown w
  | Stuck => Stuck
  end.

(** A [for ... of] loop over [l] whose body is [f]. *)
Definition forEach {A S : Type} (f : S -> A -> Outcome S) (l : list A) (s : S) : Outcome S :=
  fold_left (fun acc a => bind acc (fun s => f s a)) l (Normal s).

Module Engine.
Local Open Scope R_scope.

(** [item.bounds] for the body behind [r]. *)
Definition boundsOf (s : Store) (r : nat) : option AABB.t :=
  RigidBody.bounds <$> bodyObjs s !! r.

(** [addBody(body)]. *)
Definition addBody (body : nat) (w : World) : World :=
  let w1 :=
    onEngine (fun e => PhysicsEngine.with_bodies e (PhysicsEngine.bodies e ++ [body])) w in
  match boundsOf (store w) body with
  | Some b =>
      onEngine
        (fun e => PhysicsEngine.with_quadtree e
                    (fst (QuadTree.insert (PhysicsEngine.quadtree e) body b))) w1
  | None => w1
  end.

(** [removeBody(body)]. *)
Definition removeBody (body : nat) (w : World) : Outcome World :=
  let e := engine w in
  let index := JsArray.indexOf (PhysicsEngine.bodies e) body in
  match JsArray.swapRemove (PhysicsEngine.bodies e) index with
  | None => Stuck
  | Some bodies' =>
      match QuadTree.remove (PhysicsEngine.quadtree e) body with
      | None => Stuck
      | Some (q', _) =>
          Normal (onEngine
                    (fun e => PhysicsEngine.with_quadtree
                                (PhysicsEngine.with_bodies e bodies') q') w)
      end
  end.

(** The first loop of [step], for one body that is neither fixed nor
    sleeping: gravity, integration and the wrap around the world. *)
Definition moveBody (cfg : PhysicsEngineConfig) (worldBounds : AABB.t)
    (deltaSeconds : R) (body : RigidBody.t) : RigidBody.t :=
  let v := RigidBody.linearVelocity body in
  let b1 :=
    RigidBody.with_linearVelocity body
      (Vec2.mk (Vec2.x v) (Vec2.y v + gravity cfg * deltaSeconds)) in
  let b2 := RigidBody.integrate b1 deltaSeconds in
  let bmin := AABB.min (RigidBody.bounds b2) in
  let bmax := AABB.max (RigidBody.bounds b2) in
  let wmax := AABB.max worldBounds in
  let wrapX :=
    if Num.ltb (Vec2.x bmax) 0 then Vec2.x wmax - Vec2.x bmin
    else if Num.ltb (Vec2.x wmax) (Vec2.x bmin) then - Vec2.x bmax
    else 0 in
  let wrapY :=
    if Num.ltb (Vec2.y bmax) 0 then Vec2.y wmax - Vec2.y bmin
    else if Num.ltb (Vec2.y wmax) (Vec2.y bmin) then - Vec2.y bmax
    else 0 in
  RigidBody.translate b2 (Vec2.mk wrapX wrapY).

Definition integrateBody (deltaSeconds : R) (w : World) (r : nat) : Outcome World :=
  match bodyObjs (store w) !! r with
  | None => Normal w
  | Some body =>
      if RigidBody.fixed body || RigidBody.sleeping body then Normal w
      else
        let e := engine w in
        let body' :=
          moveBody (PhysicsEngine.config e) (PhysicsEngine.worldBounds e) deltaSeconds body in
        let w1 := onStore (onBody r (fun _ => body')) w in
        if Num.ltb 0 (Vec2.magnitudeSquared (RigidBody.linearVelocity body'))
           || Num.ltb 0 (Rabs (RigidBody.angularVelocity body'))
        then
          match QuadTree.update (PhysicsEngine.quadtree e) r (RigidBody.bounds body') with
          | Some (q', _) => Normal (onEngine (fun e => PhysicsEngine.with_quadtree e q') w1)
          | None => Stuck
          end
        else Normal w1
  end.

(** [checkCollision(bodyA, bodyB)]: the collision, or [undefined]; the new
    [Contact] object is put in the store. *)
Definition checkCollision (gjkFuel : nat) (refA refB : nat) (w : World)
    : Outcome (World * option Collision.t) :=
  match bodyObjs (store w) !! refA, bodyObjs (store w) !! refB with
  | Some bodyA, Some bodyB =>
      let colliderA := RigidBody.collider bodyA in
      let colliderB := RigidBody.collider bodyB in
      match Gjk.GJK gjkFuel colliderA colliderB with
      | Gjk.NoCollision => Normal (w, None)
      | Gjk.Throws => Thrown w
      | Gjk.OutOfFuel => Stuck
      | Gjk.Collision simplex =>
          match Epa.EPA colliderA colliderB simplex with
          | None => Thrown w
          | Some epaResult =>
              let newContactPoint :=
                Contact.new bodyA bodyB
                  (Epa.worldContactA epaResult) (Epa.worldContactB epaResult)
                  (Epa.normal epaResult) (Epa.tangent epaResult) in
              let ref := fresh (dom (contactObjs (store w))) in
              let w1 :=
                onStore (fun s => with_contactObjs s (<[ref := newContactPoint]> (contactObjs s))) w in
              let manifold :=
                CollisionManifold.new (Epa.normal epaResult) (Epa.mtv epaResult)
                                      (Epa.depth epaResult) [ref] in
              Normal (w1, Some (Collision.new refA refB bodyA bodyB manifold))
          end
      end
  | _, _ => Normal (w, None)
  end.

(** The island bookkeeping of [checkCollisions] for a confirmed pair. *)
Definition joinIslands (refA refB : nat) (w : World) : World :=
  match bodyObjs (store w) !! refA, bodyObjs (store w) !! refB with
  | Some bodyA, Some bodyB =>
      match RigidBody.island bodyA, RigidBody.island bodyB with
      | Some ia, Some ib =>
          if decide (ia = ib) then w else onStore (Island.merge ia ib) w
      | Some ia, None => onStore (addToIsland refB ia) w
      | None, Some ib => onStore (addToIsland refA ib) w
      | None, None =>
          let newIsland := fresh (dom (islandObjs (store w))) in
          let w1 :=
            onStore (fun s => with_islandObjs s (<[newIsland := []]> (islandObjs s))) w in
          let w2 := onStore (addToIsland refA newIsland) w1 in
          let w3 := onStore (addToIsland refB newIsland) w2 in
          onEngine (fun e => PhysicsEngine.with_islands e (PhysicsEngine.islands e ++ [newIsland])) w3
      end
  | _, _ => w
  end.

(** The test that drops a persisted contact. *)
Definition invalidContact (normal : Vec2.t) (bodyA bodyB : RigidBody.t) (contact : Contact.t) : bool :=
  let currentWorldPosA := Vec2.add (RigidBody.position bodyA) (Contact.localPosA contact) in
  let currentWorldPosB := Vec2.add (RigidBody.position bodyB) (Contact.localPosB contact) in
  let currentOverlap := Vec2.sub currentWorldPosB currentWorldPosA in
  let movementA := Vec2.magnitudeSquared (Vec2.sub (Contact.worldPosA contact) currentWorldPosA) in
  let movementB := Vec2.magnitudeSquared (Vec2.sub (Contact.worldPosB contact) currentWorldPosB) in
  let inContact := Num.leb (Vec2.dot normal currentOverlap) 0.01 in
  negb inContact || Num.ltb 4 movementA || Num.ltb 4 movementB.

(** The loop "remove invalid points", from the last index down to 0. *)
Definition removeInvalid (s : Store) (normal : Vec2.t) (bodyA bodyB : RigidBody.t)
    (contacts : list nat) : option (list nat) :=
  fold_left
    (fun acc i =>
       match acc with
       | None => None
       | Some contacts =>
           match contacts !! i with
           | Some r =>
               match contactObjs s !! r with
               | Some contact =>
                   if invalidContact normal bodyA bodyB contact
                   then JsArray.swapRemove contacts (Z.of_nat i)
                   else Some contacts
               | None => Some contacts
               end
           | None => Some contacts
           end
       end)
    (rev (seq 0 (length contacts))) (Some contacts).

Definition isDuplicate (s : Store) (newContact : Contact.t) (contacts : list nat) : bool :=
  existsb
    (fun r =>
       match contactObjs s !! r with
       | Some contact =>
           let distanceA :=
             Vec2.magnitudeSquared (Vec2.sub (Contact.localPosA newContact) (Contact.localPosA contact)) in
           let distanceB :=
             Vec2.magnitudeSquared (Vec2.sub (Contact.localPosB newContact) (Contact.localPosB contact)) in
           Num.ltb distanceA 4 || Num.ltb distanceB 4
       | None => false
       end)
    contacts.

(** The contact that maximises [measure], starting from [contacts[0]] with the
    bound 0 and replacing on a strictly larger value. *)
Definition argmax (s : Store) (measure : Contact.t -> R) (contacts : list nat) (first : nat) : nat :=
  fst (fold_left
         (fun (acc : nat * R) r =>
            match contactObjs s !! r with
            | Some contact =>
                if Num.ltb (snd acc) (measure contact) then (r, measure contact) else acc
            | None => acc
            end)
         contacts (first, 0)).

(** The block "reduce number of points to 2". *)
Definition reduceContacts (s : Store) (contacts : list nat) : list nat :=
  match contacts with
  | first :: _ :: _ :: _ =>
      let deepestContact :=
        argmax s
          (fun contact =>
             Vec2.magnitudeSquared (Vec2.sub (Contact.worldPosB contact) (Contact.worldPosA contact)))
          contacts first in
      let deepestWorldPosA :=
        match contactObjs s !! deepestContact with
        | Some c => Contact.worldPosA c
        | None => Vec2.zero
        end in
      let furthestContact :=
        argmax s
          (fun contact =>
             Vec2.magnitudeSquared (Vec2.sub (Contact.worldPosA contact) deepestWorldPosA))
          contacts first in
      [deepestContact; furthestContact]
  | _ => contacts
  end.

(** The contacts of a confirmed collision whose pair already had an entry. *)
Definition persistContacts (s : Store) (collision existingCollision : Collision.t)
    : option (list nat) :=
  let m := Collision.manifold collision in
  match CollisionManifold.contacts m,
        bodyObjs s !! Collision.bodyA collision,
        bodyObjs s !! Collision.bodyB collision with
  | newContact :: _, Some bodyA, Some bodyB =>
      match removeInvalid s (CollisionManifold.normal m) bodyA bodyB
              (CollisionManifold.contacts (Collision.manifold existingCollision)) with
      | Some kept =>
          let duplicate :=
            match contactObjs s !! newContact with
            | Some k => isDuplicate s k kept
            | None => false
            end in
          let contacts := if duplicate then kept else kept ++ [newContact] in
          Some (reduceContacts s contacts)
      | None => None
      end
  | _, _, _ => Some (CollisionManifold.contacts (Collision.manifold existingCollision))
  end.

(** The body of the inner loop of [checkCollisions]; the state is the world
    and the local array [resolvedCollisionIds]. *)
Definition visitPair (gjkFuel : nat) (refA : nat) (st : World * list Z) (refB : nat)
    : Outcome (World * list Z) :=
  let '(w, resolved) := st in
  match bodyObjs (store w) !! refA, bodyObjs (store w) !! refB with
  | Some bodyA, Some bodyB =>
      if ((RigidBody.fixed bodyA || RigidBody.sleeping bodyA)
          && (RigidBody.fixed bodyB || RigidBody.sleeping bodyB))
         || (RigidBody.id bodyB <=? RigidBody.id bodyA)%Z
      then Normal st
      else
        bind (checkCollision gjkFuel refA refB w)
          (fun '(w1, found) =>
             match found with
             | None => Normal (w1, resolved)
             | Some collision =>
                 let w2 :=
                   onStore (fun s =>
                              onBody refB (fun b => RigidBody.with_sleeping b false)
                                (onBody refA (fun b => RigidBody.with_sleeping b false) s)) w1 in
                 let w3 := joinIslands refA refB w2 in
                 let key := Collision.id collision in
                 match NumMap.get (PhysicsEngine.collisions (engine w3)) key with
                 | Some existingCollision =>
                     match JsArray.swapRemove resolved (JsArray.indexOf resolved key),
                           persistContacts (store w3) collision existingCollision with
                     | Some resolved', Some contacts =>
                         let collision' :=
                           Collision.with_manifold collision
                             (CollisionManifold.with_contacts (Collision.manifold collision) contacts) in
                         Normal
                           (onEngine
                              (fun e => PhysicsEngine.with_collisions e
                                          (NumMap.set (PhysicsEngine.collisions e) key collision')) w3,
                            resolved')
                     | _, _ => Stuck
                     end
                 | None =>
                     Normal
                       (onEngine
                          (fun e => PhysicsEngine.with_collisions e
                                      (NumMap.set (PhysicsEngine.collisions e) key collision)) w3,
                        resolved)
                 end
             end)
  | _, _ => Normal st
  end.

(** [checkCollisions()]. *)
Definition checkCollisions (gjkFuel : nat) (w : World) : Outcome World :=
  let resolvedCollisionIds := NumMap.keys (PhysicsEngine.collisions (engine w)) in
  bind
    (forEach
       (fun (st : World * list Z) refA =>
          match bodyObjs (store (fst st)) !! refA with
          | Some bodyA =>
              forEach (visitPair gjkFuel refA)
                (QuadTree.get (boundsOf (store (fst st)))
                              (PhysicsEngine.quadtree (engine (fst st)))
                              (RigidBody.bounds bodyA))
                st
          | None => Normal st
          end)
       (PhysicsEngine.bodies (engine w)) (w, resolvedCollisionIds))
    (fun '(w', resolved) =>
       Normal
         (onEngine
            (fun e => PhysicsEngine.with_collisions e
                        (fold_left NumMap.delete resolved (PhysicsEngine.collisions e))) w')).

(** Whether the visit of the pair [(refA, refB)] in world [w] confirms a
    collision: the pair is not skipped and [checkCollision] returns one. *)
Definition confirms (gjkFuel : nat) (refA refB : nat) (w : World) : bool :=
  match bodyObjs (store w) !! refA, bodyObjs (store w) !! refB with
  | Some bodyA, Some bodyB =>
      negb (((RigidBody.fixed bodyA || RigidBody.sleeping bodyA)
             && (RigidBody.fixed bodyB || RigidBody.sleeping bodyB))
            || (RigidBody.id bodyB <=? RigidBody.id bodyA)%Z)
      && match checkCollision gjkFuel refA refB w with
         | Normal (_, Some _) => true
         | _ => false
         end
  | _, _ => false
  end.

(** [visitPair] and [checkCollisions] with a log of the confirmed pairs, in
    the order of their confirmation.  The log is an observation of the run:
    it is never read (see [checkCollisions_traced]). *)
Definition visitPairTraced (gjkFuel : nat) (refA : nat)
    (st : World * list Z * list (nat * nat)) (refB : nat)
    : Outcome (World * list Z * list (nat * nat)) :=
  bind (visitPair gjkFuel refA (fst st) refB)
    (fun st' =>
       Normal (st', if confirms gjkFuel refA refB (fst (fst st))
                    then snd st ++ [(refA, refB)] else snd st)).

Definition checkCollisionsTraced (gjkFuel : nat) (w : World)
    : Outcome (World * list (nat * nat)) :=
  let resolvedCollisionIds := NumMap.keys (PhysicsEngine.collisions (engine w)) in
  bind
    (forEach
       (fun (st : World * list Z * list (nat * nat)) refA =>
          match bodyObjs (store (fst (fst st))) !! refA with
          | Some bodyA =>
              forEach (visitPairTraced gjkFuel refA)
                (QuadTree.get (boundsOf (store (fst (fst st))))
                              (PhysicsEngine.quadtree (engine (fst (fst st))))
                              (RigidBody.bounds bodyA))
                st
          | None => Normal st
          end)
       (PhysicsEngine.bodies (engine w)) (w, resolvedCollisionIds, []))
    (fun '(w', resolved, log) =>
       Normal
         (onEngine
            (fun e => PhysicsEngine.with_collisions e
                        (fold_left NumMap.delete resolved (PhysicsEngine.collisions e))) w',
          log)).

(** [contact.updateRestitutionBias(collision.bodyA, collision.bodyB, normal)]
    on the contact behind [r]. *)
Definition refreshBias (c : Collision.t) (s : Store) (r : nat) : Store :=
  match bodyObjs s !! Collision.bodyA c, bodyObjs s !! Collision.bodyB c with
  | Some bodyA, Some bodyB =>
      onContact r
        (fun k => Contact.updateRestitutionBias k bodyA bodyB
                    (CollisionManifold.normal (Collision.manifold c))) s
  | _, _ => s
  end.

(** The first loop of [resolveCollisions], for one collision. *)
Definition prepareCollision (s : Store) (c : Collision.t) : Store :=
  let s1 := Collision.solvePositionLinearOnly c s in
  let s2 := Collision.applyAccumulatedImpulses c s1 in
  fold_left (refreshBias c) (CollisionManifold.contacts (Collision.manifold c)) s2.

(** One turn of the second loop: [solveVelocity] on every collision. *)
Definition velocityIteration (cs : list Collision.t) (s : Store) : Store :=
  fold_left (fun s c => Collision.solveVelocity c s) cs s.

(** [resolveCollisions()], on the values of the collision map. *)
Definition resolveStore (iterations : nat) (cs : list Collision.t) (s : Store) : Store :=
  Nat.iter iterations (velocityIteration cs) (fold_left prepareCollision cs s).

Definition resolveCollisions (w : World) : World :=
  let e := engine w in
  onStore
    (resolveStore (velocityIterations (PhysicsEngine.config e))
                  (NumMap.values (PhysicsEngine.collisions e))) w.

(** The last loop of [step], for one island. *)
Definition arbitrateIsland (cfg : PhysicsEngineConfig) (deltaSeconds : R)
    (s : Store) (island : nat) : Store :=
  let members := default [] (islandObjs s !! island) in
  let scan :=
    fold_left
      (fun (acc : Store * R) r =>
         match bodyObjs (fst acc) !! r with
         | Some body =>
             let linearMotion := Vec2.magnitudeSquared (RigidBody.linearVelocity body) in
             let angularMotion := Rabs (RigidBody.angularVelocity body) in
             if Num.ltb linearMotion (sleepLinearThreshold cfg * sleepLinearThreshold cfg)
                && Num.ltb angularMotion (sleepAngularThreshold cfg)
             then
               let still := RigidBody.timeStill body + deltaSeconds in
               (onBody r (fun b => RigidBody.with_timeStill b still) (fst acc),
                Rmin (snd acc) still)
             else (onBody r (fun b => RigidBody.with_timeStill b 0) (fst acc), 0)
         | None => acc
         end)
      members (s, Num.MAX_VALUE) in
  if Num.leb (sleepTimeThreshold cfg) (snd scan)
  then fold_left (fun s r => onBody r (fun b => RigidBody.with_sleeping b true) s)
                 members (fst scan)
  else fst scan.

(** The second loop of [step] and [this.islands.length = 0]. *)
Definition resetIslands (w : World) : World :=
  let w2 :=
    onStore
      (fun s => fold_left
                  (fun s r => onBody r (fun b => RigidBody.with_island b None) s)
                  (PhysicsEngine.bodies (engine w)) s) w in
  onEngine (fun e => PhysicsEngine.with_islands e []) w2.

(** [step(deltaSeconds)]. *)
Definition step (gjkFuel : nat) (deltaSeconds : R) (w : World) : Outcome World :=
  bind (forEach (integrateBody deltaSeconds) (PhysicsEngine.bodies (engine w)) w)
    (fun w1 =>
       let w3 := resetIslands w1 in
       bind (checkCollisions gjkFuel w3)
         (fun w4 =>
            let w5 := resolveCollisions w4 in
            let e := engine w5 in
            Normal
              (onStore
                 (fun s => fold_left
                             (arbitrateIsland (PhysicsEngine.config e) deltaSeconds)
                             (PhysicsEngine.islands e) s) w5))).

(** [n] calls of [step(this.fixedTimeStep)]. *)
Fixpoint steps (gjkFuel : nat) (n : nat) (w : World) : Outcome World :=
  match n with
  | O => Normal w
  | S n' =>
      bind (step gjkFuel (PhysicsEngine.fixedTimeStep (engine w)) w)
           (steps gjkFuel n')
  end.

(** [update(deltaSeconds)]: the world after the call and the returned number.
    [start] and [stop] are the two readings of [performance.now()]. *)
Definition update (gjkFuel : nat) (start stop : R) (deltaSeconds : R) (w : World)
    : Outcome (World * Z) :=
  let e := engine w in
  let deltaSteps :=
    (Zfloor (PhysicsEngine.timeElapsed e / PhysicsEngine.fixedTimeStep e)
     - PhysicsEngine.stepsElapsed e)%Z in
  bind (steps gjkFuel (Z.to_nat deltaSteps) w)
    (fun w' =>
       let e' := engine w' in
       Normal
         (onEngine
            (fun e' => PhysicsEngine.with_timing e'
                         (PhysicsEngine.timeElapsed e' + deltaSeconds)
                         (PhysicsEngine.stepsElapsed e' + deltaSteps)
                         (stop - start)) w',
          deltaSteps)).

(** The operations of the engine: the public [addBody], [removeBody] and
    [update], and [step]. *)
Inductive Call : Type :=
| AddBody (body : nat)
| RemoveBody (body : nat)
| Update (start stop deltaSeconds : R)
| Step (deltaSeconds : R).

Definition run (gjkFuel : nat) (call : Call) (w : World) : Outcome World :=
  match call with
  | AddBody body => Normal (addBody body w)
  | RemoveBody body => removeBody body w
  | Update start stop deltaSeconds =>
      bind (update gjkFuel start stop deltaSeconds w) (fun r => Normal (fst r))
  | Step deltaSeconds => step gjkFuel deltaSeconds w
  end.

End Engine.

(** ** The words of the specification *)

Section SpecWords.
Local Open Scope R_scope.

(** The velocity of the material point of [body] at offset [r] from its
    position, as the specification writes it:
    [linearVelocity + perp(r) * angularVelocity]. *)
Definition velAtPoint (body : RigidBody.t) (r : Vec2.t) : Vec2.t :=
  Vec2.mk
    (Vec2.x (RigidBody.linearVelocity body) + - Vec2.y r * RigidBody.angularVelocity body)
    (Vec2.y (RigidBody.linearVelocity body) + Vec2.x r * RigidBody.angularVelocity body).

(** The closing normal velocity of a contact:
    [normal . (velAtPoint(B, rB) - velAtPoint(A, rA))]. *)
Definition closingNormalVelocity (c : Contact.t) (bodyA bodyB : RigidBody.t)
    (normal : Vec2.t) : R :=
  Vec2.x normal
  * (Vec2.x (velAtPoint bodyB (Contact.localPosB c))
     - Vec2.x (velAtPoint bodyA (Contact.localPosA c)))
  + Vec2.y normal
    * (Vec2.y (velAtPoint bodyB (Contact.localPosB c))
       - Vec2.y (velAtPoint bodyA (Contact.localPosA c))).

(** A shape moved by [d] without being turned: every point is shifted by [d],
    and radii, the capsule length and the capsule angle are kept. *)
Definition pointShifted (d q q' : Vec2.t) : Prop :=
  q' = Vec2.mk (Vec2.x q + Vec2.x d) (Vec2.y q + Vec2.y d).

Definition pointsShifted (d : Vec2.t) (p p' : list Vec2.t) : Prop :=
  Forall2 (pointShifted d) p p'.

Definition circleShifted (d : Vec2.t) (c c' : Circle.t) : Prop :=
  pointShifted d (Circle.centre c) (Circle.centre c')
  /\ Circle.radius c' = Circle.radius c.

Inductive shapeShifted (d : Vec2.t) : Shape.t -> Shape.t -> Prop :=
| shifted_circle c c' :
    circleShifted d c c' -> shapeShifted d (Shape.OfCircle c) (Shape.OfCircle c')
| shifted_polygon p p' :
    pointsShifted d p p' -> shapeShifted d (Shape.OfPolygon p) (Shape.OfPolygon p')
| shifted_capsule c c' :
    pointsShifted d (Capsule.rectangle c) (Capsule.rectangle c') ->
    circleShifted d (Capsule.circle0 c) (Capsule.circle0 c') ->
    circleShifted d (Capsule.circle1 c) (Capsule.circle1 c') ->
    Capsule.length c' = Capsule.length c ->
    Capsule.angle c' = Capsule.angle c ->
    shapeShifted d (Shape.OfCapsule c) (Shape.OfCapsule c').

(** Body [b'] is body [b] translated by [d]: position, collider and bounding
    box are shifted by [d]; the rotation angle and every other field are kept. *)
Definition bodyTranslated (d : Vec2.t) (b b' : RigidBody.t) : Prop :=
  pointShifted d (RigidBody.position b) (RigidBody.position b')
  /\ shapeShifted d (RigidBody.collider b) (RigidBody.collider b')
  /\ pointShifted d (AABB.min (RigidBody.bounds b)) (AABB.min (RigidBody.bounds b'))
  /\ pointShifted d (AABB.max (RigidBody.bounds b)) (AABB.max (RigidBody.bounds b'))
  /\ RigidBody.rotation b' = RigidBody.rotation b
  /\ b' = RigidBody.with_pose b (RigidBody.collider b') (RigidBody.bounds b')
            (RigidBody.position b') (RigidBody.rotation b').

(** What the engine must keep of a body: its identifier, its [fixed] flag and
    its two inverse masses. *)
Definition bodyKept (b b' : RigidBody.t) : Prop :=
  RigidBody.id b' = RigidBody.id b
  /\ RigidBody.fixed b' = RigidBody.fixed b
  /\ RigidBody.inverseMass b' = RigidBody.inverseMass b
  /\ RigidBody.inverseAngularMass b' = RigidBody.inverseAngularMass b.

(** A fixed body is left as it was. *)
Definition fixedFrozen (b b' : RigidBody.t) : Prop :=
  RigidBody.fixed b = true -> b' = b.

(** Every body of [s] is still in [s'], related by [R] to what it was. *)
Definition bodiesRel (R : RigidBody.t -> RigidBody.t -> Prop) (s s' : Store) : Prop :=
  forall r b, bodyObjs s !! r = Some b ->
              exists b', bodyObjs s' !! r = Some b' /\ R b b'.

(** [P] holds of the result of a call that returns, and [Q] of the world
    that a thrown exception leaves behind. *)
Definition holdsAfter {A : Type} (P : A -> Prop) (Q : World -> Prop) (o : Outcome A) : Prop :=
  match o with
  | Normal a => P a
  | Thrown w => Q w
  | Stuck => True
  end.

(** The accumulated impulses of a contact respect the friction cone of
    coefficient [mu]. *)
Definition impulsesBounded (mu : R) (k : Contact.t) : Prop :=
  0 <= Contact.accumulatedNormalMagnitude k
  /\ Rabs (Contact.accumulatedTangentMagnitude k)
     <= mu * Contact.accumulatedNormalMagnitude k.

(** The contact objects listed by the collision at index [i] of [cs] are
    listed by no other collision of [cs]. *)
Definition contactsOwned (cs : list Collision.t) (i : nat) : Prop :=
  forall j cj ci r,
    cs !! i = Some ci -> cs !! j = Some cj -> j <> i ->
    r ∈ CollisionManifold.contacts (Collision.manifold ci) ->
    r ∉ CollisionManifold.contacts (Collision.manifold cj).

(** Both bodies of collision [c] are in the store. *)
Definition bodiesPresent (c : Collision.t) (s : Store) : Prop :=
  is_Some (bodyObjs s !! Collision.bodyA c) /\ is_Some (bodyObjs s !! Collision.bodyB c).

(** Every contact object of [s] is still in [s']. *)
Definition contactsStay (s s' : Store) : Prop :=
  forall r, is_Some (contactObjs s !! r) -> is_Some (contactObjs s' !! r).

(** The accumulated impulses of [k'] are those of [k]. *)
Definition impulsesKept (k k' : Contact.t) : Prop :=
  Contact.accumulatedNormalMagnitude k' = Contact.accumulatedNormalMagnitude k
  /\ Contact.accumulatedTangentMagnitude k' = Contact.accumulatedTangentMagnitude k.

(** Every contact of [s'] was in [s], with the same accumulated impulses. *)
Definition impulsesFrom (s s' : Store) : Prop :=
  forall r k', contactObjs s' !! r = Some k' ->
               exists k, contactObjs s !! r = Some k /\ impulsesKept k k'.




(** The item held by the slot that [loc] names. *)
Definition slotAt (root : QuadTree.Node) (loc : QuadTree.ItemLocation) : option nat :=
  QuadTree.nodeItems (QuadTree.nodeAt root (QuadTree.node loc)) !! QuadTree.index loc.

(** Every entry of the location map names a slot that holds its item. *)
Definition locationsValid (q : QuadTree.t) : Prop :=
  forall y loc, QuadTree.itemLocations q !! y = Some loc ->
                slotAt (QuadTree.root q) loc = Some y.

(** Every slot of every node is the slot that the map gives for its item. *)
Definition itemsLocated (q : QuadTree.t) : Prop :=
  forall path i y,
    QuadTree.nodeItems (QuadTree.nodeAt (QuadTree.root q) path) !! i = Some y ->
    QuadTree.itemLocations q !! y = Some (QuadTree.mkLocation path i).

Definition wellFormed (q : QuadTree.t) : Prop :=
  locationsValid q /\ itemsLocated q.

(** A subtree is prunable when it has no items and all its children are
    prunable; an undefined slot holds no child. *)
Fixpoint prunable (n : QuadTree.Node) : bool :=
  match n with
  | QuadTree.Undefined => true
  | QuadTree.Mk _ c0 c1 c2 c3 items =>
      Nat.eqb (length items) 0 && prunable c0 && prunable c1 && prunable c2 && prunable c3
  end.

(** Below [n], the subtree at the end of [path] or one of the subtrees that
    contain it is prunable. *)
Fixpoint prunedAway (n : QuadTree.Node) (path : list QuadTree.Quadrant) : bool :=
  match path with
  | [] => false
  | i :: rest =>
      prunable (QuadTree.child n i) || prunedAway (QuadTree.child n i) rest
  end.

(** The claim on the node that owned the removed item, read literally: after
    [remove(x)] the subtree of that node is gone exactly when it is prunable. *)
Definition ownerRemovedIffPrunable (q : QuadTree.t) (x : nat) : Prop :=
  forall loc q',
    QuadTree.itemLocations q !! x = Some loc ->
    QuadTree.remove q x = Some (q', true) ->
    (QuadTree.nodeAt (QuadTree.root q') (QuadTree.node loc) = QuadTree.Undefined
     <-> prunable (QuadTree.nodeAt (QuadTree.root q') (QuadTree.node loc)) = true).

(** The island that the body behind [r] points to. *)
Definition islandOf (s : Store) (r : nat) : option nat :=
  match bodyObjs s !! r with
  | Some b => RigidBody.island b
  | None => None
  end.





(** The broad phase holds only bodies of [this.bodies]. *)
Definition itemsHeld (w : World) : Prop :=
  forall r,
    r ∈ QuadTree.getAll (QuadTree.root (PhysicsEngine.quadtree (engine w))) ->
    r ∈ PhysicsEngine.bodies (engine w).

(** The world [w] has the broad phase and the body list of [w0]. *)
Definition sameBroadPhase (w0 w : World) : Prop :=
  PhysicsEngine.quadtree (engine w) = PhysicsEngine.quadtree (engine w0)
  /\ PhysicsEngine.bodies (engine w) = PhysicsEngine.bodies (engine w0).




(** The three bodies point to one island of [this.islands], which holds all
    three. *)
Definition oneIsland (w : World) (r1 r2 r3 : nat) : Prop :=
  exists i ms,
    islandOf (store w) r1 = Some i /\ islandOf (store w) r2 = Some i
    /\ islandOf (store w) r3 = Some i
    /\ i ∈ PhysicsEngine.islands (engine w)
    /\ islandObjs (store w) !! i = Some ms
    /\ r1 ∈ ms /\ r2 ∈ ms /\ r3 ∈ ms.

End SpecWords.

(** ** More words: the quadtree, shapes, bodies at rest *)

Section MoreWords.
Local Open Scope R_scope.

(** Each child node covers the quadrant of its parent that its slot names,
    as [QuadTreeNode.insert] builds it. *)
Fixpoint gridded (n : QuadTree.Node) : Prop :=
  match n with
  | QuadTree.Undefined => True
  | QuadTree.Mk b c0 c1 c2 c3 _ =>
      (forall i, QuadTree.child n i <> QuadTree.Undefined ->
                 QuadTree.nodeBounds (QuadTree.child n i)
                 = Some (QuadTree.childBounds b i))
      /\ gridded c0 /\ gridded c1 /\ gridded c2 /\ gridded c3
  end.

(** The bounds of every node cover the items held in its subtree. *)
Fixpoint bounded (boundsOf : nat -> option AABB.t) (n : QuadTree.Node) : Prop :=
  match n with
  | QuadTree.Undefined => True
  | QuadTree.Mk b c0 c1 c2 c3 items =>
      (forall y, y ∈ QuadTree.getAll n ->
                 exists ib, boundsOf y = Some ib /\ AABB.contains b ib = true)
      /\ bounded boundsOf c0 /\ bounded boundsOf c1
      /\ bounded boundsOf c2 /\ bounded boundsOf c3
  end.

(** The broad phase is in order: its location map and its item arrays
    agree, its root covers [rb], and it holds only bodies of [this.bodies]. *)
Definition broadPhaseSound (rb : AABB.t) (w : World) : Prop :=
  wellFormed (PhysicsEngine.quadtree (engine w))
  /\ QuadTree.nodeBounds (QuadTree.root (PhysicsEngine.quadtree (engine w))) = Some rb
  /\ itemsHeld w.

(** The squared distance between two points. *)
Definition dist2 (a b : Vec2.t) : R := Vec2.magnitudeSquared (Vec2.sub a b).

(** The points that define a shape: the centre of a circle, the vertices of a
    polygon, the corners of the rectangle of a capsule and its two circle
    centres. *)
Definition shapePoints (s : Shape.t) : list Vec2.t :=
  match s with
  | Shape.OfCircle c => [Circle.centre c]
  | Shape.OfPolygon p => p
  | Shape.OfCapsule c =>
      Capsule.rectangle c ++ [Circle.centre (Capsule.circle0 c); Circle.centre (Capsule.circle1 c)]
  end.

(** The radii of the circles of a shape. *)
Definition shapeRadii (s : Shape.t) : list R :=
  match s with
  | Shape.OfCircle c => [Circle.radius c]
  | Shape.OfPolygon p => []
  | Shape.OfCapsule c => [Circle.radius (Capsule.circle0 c); Circle.radius (Capsule.circle1 c)]
  end.

(** A body that nothing can move: it is fixed and both its inverse masses
    are 0. *)
Definition immovable (b : RigidBody.t) : Prop :=
  RigidBody.fixed b = true
  /\ RigidBody.inverseMass b = 0 /\ RigidBody.inverseAngularMass b = 0.

(** Body [b'] is body [b] but for the three state fields [timeStill],
    [sleeping] and [island]. *)
Definition sameButState (b b' : RigidBody.t) : Prop :=
  RigidBody.with_island
    (RigidBody.with_sleeping (RigidBody.with_timeStill b' (RigidBody.timeStill b))
                             (RigidBody.sleeping b))
    (RigidBody.island b)
  = b.

(** An immovable body is left as it was, but for its state fields. *)
Definition anchored (b b' : RigidBody.t) : Prop :=
  immovable b -> sameButState b b'.

(** The linear velocities of [a] and [b] are those of [a0] and [b0] after
    equal and opposite impulses: some impulse [J] was taken from the first
    body and given to the second; masses are as they were. *)
Definition impulsePair (a0 b0 a b : RigidBody.t) : Prop :=
  exists J : Vec2.t,
    RigidBody.linearVelocity a
    = Vec2.sub (RigidBody.linearVelocity a0) (Vec2.mulScalar J (RigidBody.inverseMass a0))
    /\ RigidBody.linearVelocity b
       = Vec2.add (RigidBody.linearVelocity b0) (Vec2.mulScalar J (RigidBody.inverseMass b0))
    /\ RigidBody.inverseMass a = RigidBody.inverseMass a0
    /\ RigidBody.inverseMass b = RigidBody.inverseMass b0
    /\ RigidBody.mass a = RigidBody.mass a0
    /\ RigidBody.mass b = RigidBody.mass b0.

(** The two bodies of collision [c] in store [s] are [a0] and [b0] after
    equal and opposite impulses. *)
Definition pairIn (c : Collision.t) (a0 b0 : RigidBody.t) (s : Store) : Prop :=
  exists a b,
    bodyObjs s !! Collision.bodyA c = Some a
    /\ bodyObjs s !! Collision.bodyB c = Some b
    /\ impulsePair a0 b0 a b.

(** The linear momentum of a body. *)
Definition momentum (b : RigidBody.t) : Vec2.t :=
  Vec2.mulScalar (RigidBody.linearVelocity b) (RigidBody.mass b).

(** The test of the last loop of [step]: the body moves slower than the two
    sleep thresholds. *)
Definition belowThresholds (cfg : PhysicsEngineConfig) (b : RigidBody.t) : Prop :=
  Vec2.magnitudeSquared (RigidBody.linearVelocity b)
  < sleepLinearThreshold cfg * sleepLinearThreshold cfg
  /\ Rabs (RigidBody.angularVelocity b) < sleepAngularThreshold cfg.

(** Every body of the store is fixed or asleep. *)
Definition atRest (s : Store) : Prop :=
  forall r b, bodyObjs s !! r = Some b ->
              RigidBody.fixed b || RigidBody.sleeping b = true.

(** The first loop of [arbitrateIsland] over the members [l], from the store
    and the minimum of [acc]. *)
Definition sleepScan (cfg : PhysicsEngineConfig) (dt : R) (l : list nat)
    (acc : Store * R) : Store * R :=
  fold_left
    (fun (acc : Store * R) r =>
       match bodyObjs (fst acc) !! r with
       | Some body =>
           let linearMotion := Vec2.magnitudeSquared (RigidBody.linearVelocity body) in
           let angularMotion := Rabs (RigidBody.angularVelocity body) in
           if Num.ltb linearMotion (sleepLinearThreshold cfg * sleepLinearThreshold cfg)
              && Num.ltb angularMotion (sleepAngularThreshold cfg)
           then
             let still := RigidBody.timeStill body + dt in
             (onBody r (fun b => RigidBody.with_timeStill b still) (fst acc),
              Rmin (snd acc) still)
           else (onBody r (fun b => RigidBody.with_timeStill b 0) (fst acc), 0)
       | None => acc
       end)
    l acc.

(** Body [b'] is body [b] but for [timeStill]. *)
Definition timeStillOnly (b b' : RigidBody.t) : Prop :=
  RigidBody.with_timeStill b' (RigidBody.timeStill b) = b.

End MoreWords.

(** ** A small scene *)

Section Scene.
Local Open Scope R_scope.

(** A disc of radius 1, mass 1 and moment of inertia 1, with restitution and
    friction 0.5, built by the constructor around [(px, py)]. *)
Definition disc (nextID : Z) (px py : R) (fixed : bool) : RigidBody.t :=
  RigidBody.new nextID (Shape.OfCircle (Circle.mk Vec2.zero 1)) (Vec2.mk px py)
                1 1 0.5 0.5 fixed.

(** Two overlapping discs, and the store that holds them. *)
Definition discA : RigidBody.t := disc 0 0 0 false.
Definition discB : RigidBody.t := disc 1 0 1.5 false.

Definition twoDiscs : Store :=
  mkStore (<[0%nat := discA]> (<[1%nat := discB]> ∅)) ∅ ∅.

(** Their collision, along the y axis with depth 0.5, without contacts yet. *)
Definition discCollision : Collision.t :=
  Collision.new 0 1 discA discB
    (CollisionManifold.new (Vec2.mk 0 1) (Vec2.mk 0 0.5) 0.5 []).

(** A world with a fixed disc and a free disc above it, both known to the
    engine. *)
Definition anchor : RigidBody.t := disc 0 100 100 true.
Definition faller : RigidBody.t := disc 1 100 50 false.

Definition anchoredWorld : World :=
  Engine.addBody 1 (Engine.addBody 0
    (mkWorld (mkStore (<[0%nat := anchor]> (<[1%nat := faller]> ∅)) ∅ ∅)
             (PhysicsEngine.new (AABB.fromDimensions 0 0 1280 720)
                                PhysicsEngineConfigDefault))).

(** The two discs of [twoDiscs] with one contact between them, and the engine
    holding their collision. *)
Definition discContact : Contact.t :=
  Contact.new discA discB (Vec2.mk 0 1) (Vec2.mk 0 0.5) (Vec2.mk 0 1) (Vec2.mk (-1) 0).

Definition touching : Collision.t :=
  Collision.new 0 1 discA discB
    (CollisionManifold.new (Vec2.mk 0 1) (Vec2.mk 0 0.5) 0.5 [0%nat]).

Definition touchingWorld : World :=
  mkWorld
    (mkStore (<[0%nat := discA]> (<[1%nat := discB]> ∅)) (<[0%nat := discContact]> ∅) ∅)
    (PhysicsEngine.with_collisions
       (PhysicsEngine.new (AABB.fromDimensions 0 0 1280 720) PhysicsEngineConfigDefault)
       [(Collision.id touching, touching)]).

(** A new engine with the default configuration, and no object. *)
Definition freshWorld : World :=
  mkWorld (mkStore ∅ ∅ ∅)
          (PhysicsEngine.new (AABB.fromDimensions 0 0 1280 720) PhysicsEngineConfigDefault).

(** A quadtree whose root has one child, in slot 0, that holds the single
    item 7. *)
Definition leafBounds : AABB.t := AABB.fromDimensions 0 0 640 360.

Definition leafTree : QuadTree.t :=
  QuadTree.mk
    (QuadTree.Mk (AABB.fromDimensions 0 0 1280 720)
       (QuadTree.Mk leafBounds QuadTree.Undefined QuadTree.Undefined
                    QuadTree.Undefined QuadTree.Undefined [7%nat])
       QuadTree.Undefined QuadTree.Undefined QuadTree.Undefined [])
    (<[7%nat := QuadTree.mkLocation [QuadTree.Q0] 0]> ∅).

(** A quadtree whose root has one child, in slot 0, that holds the items 7, 8
    and 9 and has itself an empty child in slot 3. *)
Definition busyTree : QuadTree.t :=
  QuadTree.mk
    (QuadTree.Mk (AABB.fromDimensions 0 0 1280 720)
       (QuadTree.Mk leafBounds QuadTree.Undefined QuadTree.Undefined QuadTree.Undefined
                    (QuadTree.newNode (QuadTree.childBounds leafBounds QuadTree.Q3))
                    [7%nat; 8%nat; 9%nat])
       QuadTree.Undefined QuadTree.Undefined QuadTree.Undefined [])
    (<[7%nat := QuadTree.mkLocation [QuadTree.Q0] 0]>
       (<[8%nat := QuadTree.mkLocation [QuadTree.Q0] 1]>
          (<[9%nat := QuadTree.mkLocation [QuadTree.Q0] 2]> ∅))).

(** An engine that knows the bodies 7, 8 and 9, with [busyTree] as its
    broad phase. *)
Definition busyWorld : World :=
  mkWorld
    (mkStore (<[7%nat := disc 7 100 100 false]>
                (<[8%nat := disc 8 110 110 false]>
                   (<[9%nat := disc 9 120 120 false]> ∅))) ∅ ∅)
    (PhysicsEngine.with_quadtree
       (PhysicsEngine.with_bodies
          (PhysicsEngine.new (AABB.fromDimensions 0 0 1280 720) PhysicsEngineConfigDefault)
          [7%nat; 8%nat; 9%nat])
       busyTree).

End Scene.

(** ** More scenes *)

Section MoreScenes.
Local Open Scope R_scope.

(** The bounds of the engine's world in the scenes. *)
Definition sceneBounds : AABB.t := AABB.fromDimensions 0 0 1280 720.

(** A small box in the top-left quadrant of the world, and one in the
    bottom-right quadrant. *)
Definition nearBox : AABB.t := AABB.fromDimensions 10 10 20 20.
Definition farBox : AABB.t := AABB.fromDimensions 700 400 10 10.

(** Item 5 lies in [farBox], every other item in [nearBox]. *)
Definition sceneBoundsOf (r : nat) : option AABB.t :=
  if decide (r = 5%nat) then Some farBox else Some nearBox.

(** The same, once item 7 has moved to [farBox]. *)
Definition movedBoundsOf (r : nat) : option AABB.t :=
  if decide (r = 7%nat) then Some farBox else sceneBoundsOf r.

(** A triangle. *)
Definition triangle : Polygon.t := [Vec2.mk 0 0; Vec2.mk 4 0; Vec2.mk 0 3].

(** A store with two islands, one per disc of [twoDiscs]. *)
Definition twoIslands : Store :=
  mkStore (<[0%nat := discA]> (<[1%nat := discB]> ∅)) ∅
          (<[0%nat := [0%nat]]> (<[1%nat := [1%nat]]> ∅)).

(** A world whose only body is fixed. *)
Definition restingWorld : World :=
  Engine.addBody 0
    (mkWorld (mkStore (<[0%nat := anchor]> ∅) ∅ ∅)
             (PhysicsEngine.new sceneBounds PhysicsEngineConfigDefault)).

(** A world whose store holds the anchor and the faller, and whose engine is
    new: it knows no body yet. *)
Definition stockWorld : World :=
  mkWorld (mkStore (<[0%nat := anchor]> (<[1%nat := faller]> ∅)) ∅ ∅)
          (PhysicsEngine.new sceneBounds PhysicsEngineConfigDefault).

End MoreScenes.


(** * Theorems *)

Section DoublesFacts.
Local Open Scope Z_scope.

Lemma fl53_exact (n : Z) : 0 <= n < 2 ^ 53 -> fl53 n = n.
Proof.
  intros [Hlo Hhi]. unfold fl53, fl53_pos.
  rewrite Z.abs_eq by lia.
  destruct (Z.eq_dec n 0) as [->|Hn]; [reflexivity|].
  assert (Hlog : Z.log2 n < 53) by (apply Z.log2_lt_pow2; lia).
  replace (Z.log2 n - 52 <=? 0) with true by (symmetry; apply Z.leb_le; lia).
  rewrite Z.sgn_pos by lia. lia.
Qed.

Lemma Collision_id_exact (idA idB : Z) :
  0 <= idA -> 0 <= idB -> idA * 10000000000 + idB < 2 ^ 53 ->
  Collision_id idA idB = idA * 10000000000 + idB.
Proof.
  intros HA HB Hk. unfold Collision_id, num_add, num_mul.
  rewrite (fl53_exact (idA * 10000000000)) by lia.
  apply fl53_exact. lia.
Qed.

(** C9 (as stated, refuted): with ids below 10^10 the key is not injective
    under double arithmetic; the pairs (900720, 900723) and
    (900720, 900724) receive the same key. *)
Lemma Collision_id_not_injective :
  ~ (forall idA idB idA' idB' : Z,
        0 <= idA < idB -> idB < 10 ^ 10 ->
        0 <= idA' < idB' -> idB' < 10 ^ 10 ->
        Collision_id idA idB = Collision_id idA' idB' ->
        idA = idA' /\ idB = idB').
Proof.
  intros H.
  specialize (H 900720 900723 900720 900724).
  assert (E : Collision_id 900720 900723 = Collision_id 900720 900724)
    by (vm_compute; reflexivity).
  destruct H as [_ H]; try lia.
Qed.

(** C9 (amended): the key is injective on pairs [idA < idB < 10^10] whose
    exact key [idA * 10^10 + idB] is below 2^53. *)
Theorem Collision_id_injective_below_2_53 (idA idB idA' idB' : Z) :
  0 <= idA < idB -> idB < 10 ^ 10 ->
  0 <= idA' < idB' -> idB' < 10 ^ 10 ->
  idA * 10 ^ 10 + idB < 2 ^ 53 ->
  idA' * 10 ^ 10 + idB' < 2 ^ 53 ->
  Collision_id idA idB = Collision_id idA' idB' ->
  idA = idA' /\ idB = idB'.
Proof.
  intros HA HB HA' HB' Hk Hk' E.
  change (10 ^ 10) with 10000000000 in *.
  rewrite !Collision_id_exact in E by lia.
  lia.
Qed.

Lemma Collision_id_injective_below_2_53_witness :
  900719 = 900719 /\ 9254740991 = 9254740991.
Proof.
  apply (Collision_id_injective_below_2_53 900719 9254740991 900719 9254740991);
    try lia; reflexivity.
Defined.

End DoublesFacts.

(** ** Contacts: the restitution bias *)

Section ContactFacts.
Local Open Scope R_scope.

Lemma ltb_true (a b : R) : Num.ltb a b = true <-> a < b.
Proof. unfold Num.ltb. destruct (Rlt_dec a b); split; intros; try easy. Qed.

Lemma ltb_false (a b : R) : Num.ltb a b = false <-> b <= a.
Proof.
  unfold Num.ltb. destruct (Rlt_dec a b); split; intros; try easy; lra.
Qed.

Lemma leb_true (a b : R) : Num.leb a b = true <-> a <= b.
Proof. unfold Num.leb. destruct (Rle_dec a b); split; intros; try easy. Qed.

Lemma leb_false (a b : R) : Num.leb a b = false <-> b < a.
Proof.
  unfold Num.leb. destruct (Rle_dec a b); split; intros; try easy; lra.
Qed.

Lemma getVelocityAtPoint_velAtPoint (b : RigidBody.t) (r : Vec2.t) :
  RigidBody.getVelocityAtPoint b r = velAtPoint b r.
Proof. reflexivity. Qed.

(** C3: the restitution-bias refresh of a contact computes the closing normal
    velocity [vn = normal . (velocity of B at rB - velocity of A at rA)];
    when [vn < -0.1] the bias becomes [-(restitutionA * restitutionB) * vn],
    otherwise it becomes [0]; nothing else of the contact changes. *)
Theorem updateRestitutionBias_spec (c : Contact.t) (bodyA bodyB : RigidBody.t)
    (normal : Vec2.t) :
  let vn := closingNormalVelocity c bodyA bodyB normal in
  let c' := Contact.updateRestitutionBias c bodyA bodyB normal in
  (vn < -0.1 ->
     Contact.originalRestitutionBias c'
     = - (RigidBody.restitution bodyA * RigidBody.restitution bodyB) * vn)
  /\ (~ vn < -0.1 -> Contact.originalRestitutionBias c' = 0)
  /\ c' = Contact.with_originalRestitutionBias c (Contact.originalRestitutionBias c').
Proof.
  intros vn c'.
  assert (Hvn :
    Vec2.dot
      (Vec2.sub (RigidBody.getVelocityAtPoint bodyB (Contact.localPosB c))
                (RigidBody.getVelocityAtPoint bodyA (Contact.localPosA c)))
      normal = vn).
  { unfold vn, closingNormalVelocity, Vec2.dot, Vec2.sub.
    rewrite !getVelocityAtPoint_velAtPoint. simpl. ring. }
  subst c'. unfold Contact.updateRestitutionBias. rewrite Hvn.
  destruct (Num.ltb vn (-0.1)) eqn:E.
  - apply ltb_true in E. repeat split; simpl; try reflexivity; intros; lra.
  - apply ltb_false in E. repeat split; simpl; try reflexivity; intros; lra.
Qed.

Lemma updateRestitutionBias_spec_witness :
  let a := RigidBody.new 0 (Shape.OfCircle (Circle.mk Vec2.zero 1)) Vec2.zero 1 1 0.5 0.5 false in
  let b := RigidBody.with_linearVelocity
             (RigidBody.new 1 (Shape.OfCircle (Circle.mk Vec2.zero 1)) (Vec2.mk 0 2) 1 1 0.5 0.5 false)
             (Vec2.mk 0 (-4)) in
  let c := Contact.mk (Vec2.mk 0 1) (Vec2.mk 0 1) (Vec2.mk 0 1) (Vec2.mk 0 (-1)) 1 1 0 0 0 in
  Contact.originalRestitutionBias (Contact.updateRestitutionBias c a b (Vec2.mk 0 1)) = 1.
Proof.
  intros a b c.
  destruct (updateRestitutionBias_spec c a b (Vec2.mk 0 1)) as [H _].
  rewrite H; unfold closingNormalVelocity, velAtPoint; simpl; lra.
Defined.

End ContactFacts.

(** ** The linear position correction *)

Section PositionCorrection.
Local Open Scope R_scope.

Lemma pointsShifted_translate (d : Vec2.t) (p : Polygon.t) :
  pointsShifted d p (Polygon.translate p d).
Proof.
  unfold pointsShifted, Polygon.translate.
  induction p as [|q p IH]; simpl; constructor; auto. reflexivity.
Qed.

Lemma circleShifted_translate (d : Vec2.t) (c : Circle.t) :
  circleShifted d c (Circle.translate c d).
Proof. split; reflexivity. Qed.

Lemma shapeShifted_translate (d : Vec2.t) (sh : Shape.t) :
  shapeShifted d sh (Shape.translate sh d).
Proof.
  destruct sh as [c|p|c]; simpl; constructor;
    auto using pointsShifted_translate, circleShifted_translate.
Qed.

Lemma bodyTranslated_translate (d : Vec2.t) (b : RigidBody.t) :
  bodyTranslated d b (RigidBody.translate b d).
Proof.
  unfold bodyTranslated, pointShifted. simpl.
  repeat split; auto using shapeShifted_translate.
Qed.

Lemma bodyTranslated_ext (d d' : Vec2.t) (b b' : RigidBody.t) :
  Vec2.x d = Vec2.x d' -> Vec2.y d = Vec2.y d' ->
  bodyTranslated d b b' -> bodyTranslated d' b b'.
Proof.
  destruct d as [dx dy], d' as [dx' dy']; simpl; intros -> ->; auto.
Qed.

(** C4: the linear position correction of a collision translates body A by
    [-k * invMassA * c] and body B by [+k * invMassB * c], where
    [k = 1 / (invMassA + invMassB)] and [c = normal * max(0, depth - 0.1)];
    the rotation angles and the orientation of the colliders are unchanged,
    and no other object of the store is touched.  The two bodies are distinct
    objects and at least one of them has mass. *)
Theorem solvePositionLinearOnly_spec (c : Collision.t) (s : Store) (a b : RigidBody.t) :
  bodyObjs s !! Collision.bodyA c = Some a ->
  bodyObjs s !! Collision.bodyB c = Some b ->
  Collision.bodyA c <> Collision.bodyB c ->
  RigidBody.inverseMass a + RigidBody.inverseMass b <> 0 ->
  let n := CollisionManifold.normal (Collision.manifold c) in
  let depth := CollisionManifold.depth (Collision.manifold c) in
  let k := 1 / (RigidBody.inverseMass a + RigidBody.inverseMass b) in
  let cx := Vec2.x n * Rmax 0 (depth - 0.1) in
  let cy := Vec2.y n * Rmax 0 (depth - 0.1) in
  let dA := Vec2.mk (- k * RigidBody.inverseMass a * cx) (- k * RigidBody.inverseMass a * cy) in
  let dB := Vec2.mk (k * RigidBody.inverseMass b * cx) (k * RigidBody.inverseMass b * cy) in
  let s' := Collision.solvePositionLinearOnly c s in
  exists a' b',
    bodyObjs s' !! Collision.bodyA c = Some a'
    /\ bodyObjs s' !! Collision.bodyB c = Some b'
    /\ bodyTranslated dA a a'
    /\ bodyTranslated dB b b'
    /\ (forall r, r <> Collision.bodyA c -> r <> Collision.bodyB c ->
                  bodyObjs s' !! r = bodyObjs s !! r)
    /\ contactObjs s' = contactObjs s
    /\ islandObjs s' = islandObjs s.
Proof.
  intros Ha Hb Hne _ n depth k cx cy dA dB s'.
  subst s'. unfold Collision.solvePositionLinearOnly. rewrite Ha, Hb.
  unfold onBody, with_bodyObjs. simpl.
  eexists _, _. split; [|split; [|split; [|split; [|split; [|split]]]]].
  - rewrite lookup_alter_ne by congruence.
    rewrite lookup_alter_eq, Ha. reflexivity.
  - rewrite lookup_alter_eq, lookup_alter_ne, Hb by congruence. reflexivity.
  - eapply bodyTranslated_ext; [| |apply bodyTranslated_translate];
      subst dA cx cy k n depth; simpl; ring.
  - eapply bodyTranslated_ext; [| |apply bodyTranslated_translate];
      subst dB cx cy k n depth; simpl; ring.
  - intros r HrA HrB. rewrite !lookup_alter_ne by congruence. reflexivity.
  - reflexivity.
  - reflexivity.
Qed.

Lemma solvePositionLinearOnly_spec_witness :
  exists a' b',
    bodyObjs (Collision.solvePositionLinearOnly discCollision twoDiscs) !! 0%nat = Some a'
    /\ bodyObjs (Collision.solvePositionLinearOnly discCollision twoDiscs) !! 1%nat = Some b'
    /\ RigidBody.position a' = Vec2.mk 0 (-0.2)
    /\ RigidBody.position b' = Vec2.mk 0 1.7
    /\ RigidBody.rotation a' = 0 /\ RigidBody.rotation b' = 0.
Proof.
  destruct (solvePositionLinearOnly_spec discCollision twoDiscs discA discB)
    as (a' & b' & Ha' & Hb' & Ta & Tb & _).
  - reflexivity.
  - reflexivity.
  - discriminate.
  - simpl. lra.
  - exists a', b'.
    destruct Ta as (Pa & _ & _ & _ & Ra & _), Tb as (Pb & _ & _ & _ & Rb & _).
    repeat split; try assumption.
    + rewrite Pa. simpl. unfold Rmax. destruct (Rle_dec 0 (0.5 - 0.1)); [|lra].
      f_equal; lra.
    + rewrite Pb. simpl. unfold Rmax. destruct (Rle_dec 0 (0.5 - 0.1)); [|lra].
      f_equal; lra.
Defined.

End PositionCorrection.

(** ** Outcomes and loops *)

Section OutcomeFacts.

Lemma holdsAfter_bind {A B : Type} (P' : A -> Prop) (P : B -> Prop) (Q : World -> Prop)
    (o : Outcome A) (f : A -> Outcome B) :
  holdsAfter P' Q o ->
  (forall a, P' a -> holdsAfter P Q (f a)) ->
  holdsAfter P Q (bind o f).
Proof. destruct o; simpl; auto. Qed.

Lemma holdsAfter_weaken {A : Type} (P P' : A -> Prop) (Q Q' : World -> Prop) (o : Outcome A) :
  holdsAfter P Q o ->
  (forall a, P a -> P' a) -> (forall w, Q w -> Q' w) ->
  holdsAfter P' Q' o.
Proof. destruct o; simpl; auto. Qed.

Lemma holdsAfter_fold {A S : Type} (I : S -> Prop) (Q : World -> Prop)
    (f : S -> A -> Outcome S) (l : list A) (o : Outcome S) :
  (forall s a, I s -> holdsAfter I Q (f s a)) ->
  holdsAfter I Q o ->
  holdsAfter I Q (fold_left (fun acc a => bind acc (fun s => f s a)) l o).
Proof.
  intros Hf. revert o. induction l as [|a l IH]; intros o Ho; simpl; [exact Ho|].
  apply IH. eapply holdsAfter_bind; [exact Ho|]. intros s Hs. apply Hf, Hs.
Qed.

Lemma holdsAfter_forEach {A S : Type} (I : S -> Prop) (Q : World -> Prop)
    (f : S -> A -> Outcome S) (l : list A) (s : S) :
  (forall s a, I s -> holdsAfter I Q (f s a)) ->
  I s ->
  holdsAfter I Q (forEach f l s).
Proof. intros Hf Hs. apply holdsAfter_fold; [exact Hf|exact Hs]. Qed.

Lemma fold_left_invariant {A S : Type} (I : S -> Prop) (f : S -> A -> S) (l : list A) (s : S) :
  (forall s a, I s -> I (f s a)) -> I s -> I (fold_left f l s).
Proof.
  intros Hf. revert s. induction l as [|a l IH]; intros s Hs; simpl; auto.
Qed.

Lemma iter_invariant {S : Type} (I : S -> Prop) (f : S -> S) (n : nat) (s : S) :
  (forall s, I s -> I (f s)) -> I s -> I (Nat.iter n f s).
Proof. intros Hf Hs. induction n as [|n IH]; simpl; auto. Qed.

End OutcomeFacts.

(** ** What every operation keeps of a body *)

Section BodiesKept.
Local Open Scope R_scope.

Variable R : RigidBody.t -> RigidBody.t -> Prop.
Hypothesis R_refl : forall b, R b b.
Hypothesis R_trans : forall b1 b2 b3, R b1 b2 -> R b2 b3 -> R b1 b3.

Lemma bodiesRel_refl (s : Store) : bodiesRel R s s.
Proof. intros r b Hb. eauto. Qed.

Lemma bodiesRel_trans (s1 s2 s3 : Store) :
  bodiesRel R s1 s2 -> bodiesRel R s2 s3 -> bodiesRel R s1 s3.
Proof.
  intros H12 H23 r b Hb.
  destruct (H12 r b Hb) as (b2 & Hb2 & R12).
  destruct (H23 r b2 Hb2) as (b3 & Hb3 & R23). eauto.
Qed.

Lemma bodiesRel_same_bodies (s s' : Store) :
  bodyObjs s' = bodyObjs s -> bodiesRel R s s'.
Proof. intros E r b Hb. rewrite E. eauto. Qed.

Lemma bodiesRel_onBody (r : nat) (f : RigidBody.t -> RigidBody.t) (s : Store) :
  (forall b, bodyObjs s !! r = Some b -> R b (f b)) ->
  bodiesRel R s (onBody r f s).
Proof.
  intros Hf r' b Hb. unfold onBody, with_bodyObjs. simpl.
  destruct (decide (r = r')) as [->|Hne].
  - rewrite lookup_alter_eq, Hb. simpl. eauto.
  - rewrite lookup_alter_ne by exact Hne. eauto.
Qed.

Lemma bodiesRel_onContact (r : nat) (f : Contact.t -> Contact.t) (s : Store) :
  bodiesRel R s (onContact r f s).
Proof. apply bodiesRel_same_bodies. reflexivity. Qed.

Lemma bodiesRel_onIsland (r : nat) (f : list nat -> list nat) (s : Store) :
  bodiesRel R s (onIsland r f s).
Proof. apply bodiesRel_same_bodies. reflexivity. Qed.

Lemma bodiesRel_fold {A : Type} (f : Store -> A -> Store) (l : list A) (s : Store) :
  (forall s a, bodiesRel R s (f s a)) ->
  bodiesRel R s (fold_left f l s).
Proof.
  intros Hf.
  apply (fold_left_invariant (bodiesRel R s)); [|apply bodiesRel_refl].
  intros s' a Hs'. eapply bodiesRel_trans; [exact Hs'|apply Hf].
Qed.

Lemma bodiesRel_onBody_after (s0 s : Store) (r : nat) (f : RigidBody.t -> RigidBody.t) :
  (forall b, R b (f b)) ->
  bodiesRel R s0 s -> bodiesRel R s0 (onBody r f s).
Proof.
  intros Hf H. eapply bodiesRel_trans; [exact H|].
  apply bodiesRel_onBody. intros b _. apply Hf.
Qed.

Lemma bodiesRel_same_after (s0 s s' : Store) :
  bodyObjs s' = bodyObjs s ->
  bodiesRel R s0 s -> bodiesRel R s0 s'.
Proof.
  intros E H. eapply bodiesRel_trans; [exact H|]. apply bodiesRel_same_bodies, E.
Qed.

Lemma bodiesRel_fold_after {A : Type} (f : Store -> A -> Store) (l : list A) (s0 s : Store) :
  (forall s a, bodiesRel R s0 s -> bodiesRel R s0 (f s a)) ->
  bodiesRel R s0 s -> bodiesRel R s0 (fold_left f l s).
Proof. intros Hf H. apply (fold_left_invariant (bodiesRel R s0)); assumption. Qed.

Lemma bodiesRel_iter_after (f : Store -> Store) (n : nat) (s0 s : Store) :
  (forall s, bodiesRel R s0 s -> bodiesRel R s0 (f s)) ->
  bodiesRel R s0 s -> bodiesRel R s0 (Nat.iter n f s).
Proof. intros Hf H. apply (iter_invariant (bodiesRel R s0)); assumption. Qed.

End BodiesKept.

Create HintDb kept.

Lemma bodyKept_refl (b : RigidBody.t) : bodyKept b b.
Proof. repeat split. Qed.

Lemma bodyKept_trans (b1 b2 b3 : RigidBody.t) :
  bodyKept b1 b2 -> bodyKept b2 b3 -> bodyKept b1 b3.
Proof.
  intros (A1 & A2 & A3 & A4) (B1 & B2 & B3 & B4).
  repeat split; congruence.
Qed.

Lemma bodyKept_translate b d : bodyKept b (RigidBody.translate b d).
Proof. repeat split. Qed.

Lemma bodyKept_rotate b d : bodyKept b (RigidBody.rotate b d).
Proof. repeat split. Qed.

Lemma bodyKept_applyImpulse b i r : bodyKept b (RigidBody.applyImpulse b i r).
Proof. repeat split. Qed.

Lemma bodyKept_applyForce b f r : bodyKept b (RigidBody.applyForce b f r).
Proof. repeat split. Qed.

Lemma bodyKept_integrate b dt : bodyKept b (RigidBody.integrate b dt).
Proof.
  unfold RigidBody.integrate.
  destruct (RigidBody.fixed b || RigidBody.sleeping b); repeat split.
Qed.

Lemma bodyKept_moveBody cfg wb dt b : bodyKept b (Engine.moveBody cfg wb dt b).
Proof.
  unfold Engine.moveBody.
  eapply bodyKept_trans; [|apply bodyKept_translate].
  eapply bodyKept_trans; [|apply bodyKept_integrate].
  repeat split.
Qed.

Lemma bodyKept_with_island b i : bodyKept b (RigidBody.with_island b i).
Proof. repeat split. Qed.

Lemma bodyKept_with_sleeping b v : bodyKept b (RigidBody.with_sleeping b v).
Proof. repeat split. Qed.

Lemma bodyKept_with_timeStill b v : bodyKept b (RigidBody.with_timeStill b v).
Proof. repeat split. Qed.

#[global] Hint Resolve bodyKept_refl bodyKept_translate bodyKept_rotate bodyKept_applyImpulse
  bodyKept_applyForce bodyKept_integrate bodyKept_moveBody bodyKept_with_island
  bodyKept_with_sleeping bodyKept_with_timeStill : kept.

Lemma kept_refl (s : Store) : bodiesRel bodyKept s s.
Proof. apply bodiesRel_refl, bodyKept_refl. Qed.

Lemma kept_trans (s1 s2 s3 : Store) :
  bodiesRel bodyKept s1 s2 -> bodiesRel bodyKept s2 s3 -> bodiesRel bodyKept s1 s3.
Proof. apply bodiesRel_trans, bodyKept_trans. Qed.

Lemma kept_onBody (s0 s : Store) (r : nat) (f : RigidBody.t -> RigidBody.t) :
  (forall b, bodyKept b (f b)) ->
  bodiesRel bodyKept s0 s -> bodiesRel bodyKept s0 (onBody r f s).
Proof.
  intros Hf H. eapply kept_trans; [exact H|].
  apply bodiesRel_onBody; [apply bodyKept_refl|]. intros b _. apply Hf.
Qed.

Lemma kept_same (s0 s s' : Store) :
  bodyObjs s' = bodyObjs s ->
  bodiesRel bodyKept s0 s -> bodiesRel bodyKept s0 s'.
Proof.
  intros E H. eapply kept_trans; [exact H|].
  apply bodiesRel_same_bodies; [apply bodyKept_refl|exact E].
Qed.

(** One step of a proof that a store function keeps the bodies. *)
Ltac kept_step :=
  match goal with
  | |- bodiesRel _ ?s ?s => apply kept_refl
  | H : bodiesRel _ ?s0 ?s |- bodiesRel _ ?s0 ?s => exact H
  | |- bodiesRel _ _ (onBody _ _ _) =>
      apply kept_onBody; [intros; auto with kept|]
  | |- bodiesRel _ _ (onContact _ _ ?s) => apply (kept_same _ s); [reflexivity|]
  | |- bodiesRel _ _ (onIsland _ _ ?s) => apply (kept_same _ s); [reflexivity|]
  | |- bodiesRel _ _ (with_contactObjs ?s _) => apply (kept_same _ s); [reflexivity|]
  | |- bodiesRel _ _ (with_islandObjs ?s _) => apply (kept_same _ s); [reflexivity|]
  | |- bodiesRel _ _ (fold_left _ _ _) =>
      apply bodiesRel_fold_after; [intros ? ? ?|]
  | |- bodiesRel _ _ (Nat.iter _ _ _) =>
      apply bodiesRel_iter_after; [intros ? ?|]
  | |- bodiesRel _ _ (match ?x with _ => _ end) => destruct x
  end.

Ltac kept := repeat (cbv zeta; kept_step).

Lemma kept_applyAccumulatedImpulses c s0 s :
  bodiesRel bodyKept s0 s -> bodiesRel bodyKept s0 (Collision.applyAccumulatedImpulses c s).
Proof. intros H. unfold Collision.applyAccumulatedImpulses. kept. Qed.

Lemma kept_solvePositionLinearOnly c s0 s :
  bodiesRel bodyKept s0 s -> bodiesRel bodyKept s0 (Collision.solvePositionLinearOnly c s).
Proof. intros H. unfold Collision.solvePositionLinearOnly. kept. Qed.

Lemma kept_solveNormal c s0 s r :
  bodiesRel bodyKept s0 s -> bodiesRel bodyKept s0 (Collision.solveNormal c s r).
Proof. intros H. unfold Collision.solveNormal. kept. Qed.

Lemma kept_solveTangent c s0 s r :
  bodiesRel bodyKept s0 s -> bodiesRel bodyKept s0 (Collision.solveTangent c s r).
Proof. intros H. unfold Collision.solveTangent. kept. Qed.

Lemma kept_solveVelocity c s0 s :
  bodiesRel bodyKept s0 s -> bodiesRel bodyKept s0 (Collision.solveVelocity c s).
Proof.
  intros H. unfold Collision.solveVelocity. kept.
  - apply kept_solveTangent. assumption.
  - apply kept_solveNormal. assumption.
Qed.

Lemma kept_merge this other s0 s :
  bodiesRel bodyKept s0 s -> bodiesRel bodyKept s0 (Island.merge this other s).
Proof. intros H. unfold Island.merge. kept. Qed.

Lemma kept_addToIsland r i s0 s :
  bodiesRel bodyKept s0 s -> bodiesRel bodyKept s0 (addToIsland r i s).
Proof. intros H. unfold addToIsland. kept. Qed.

Lemma kept_refreshBias c s0 s r :
  bodiesRel bodyKept s0 s -> bodiesRel bodyKept s0 (Engine.refreshBias c s r).
Proof. intros H. unfold Engine.refreshBias. kept. Qed.

Lemma kept_prepareCollision s0 s c :
  bodiesRel bodyKept s0 s -> bodiesRel bodyKept s0 (Engine.prepareCollision s c).
Proof.
  intros H. unfold Engine.prepareCollision. kept.
  - apply kept_refreshBias. assumption.
  - apply kept_applyAccumulatedImpulses, kept_solvePositionLinearOnly, H.
Qed.

Lemma kept_resolveStore n cs s0 s :
  bodiesRel bodyKept s0 s -> bodiesRel bodyKept s0 (Engine.resolveStore n cs s).
Proof.
  intros H. unfold Engine.resolveStore, Engine.velocityIteration. kept.
  - apply kept_solveVelocity. assumption.
  - apply kept_prepareCollision. assumption.
Qed.


(** The bodies of world [w0] are kept in world [w]. *)
Abbreviation worldKept w0 w := (bodiesRel bodyKept (store w0) (store w)).

Lemma kept_arbitrateIsland cfg dt s0 s island :
  bodiesRel bodyKept s0 s ->
  bodiesRel bodyKept s0 (Engine.arbitrateIsland cfg dt s island).
Proof.
  intros H. unfold Engine.arbitrateIsland.
  match goal with
  | |- context [fold_left ?f ?l (s, ?m)] =>
      assert (Hscan : bodiesRel bodyKept s0 (fst (fold_left f l (s, m))))
  end.
  { apply (fold_left_invariant (fun acc => bodiesRel bodyKept s0 (fst acc))); [|exact H].
    intros [s1 m1] r Hs1. simpl in *.
    destruct (bodyObjs s1 !! r); [|exact Hs1].
    match goal with |- context [if ?c then _ else _] => destruct c end; simpl; kept. }
  cbv zeta.
  match goal with |- context [if ?c then _ else _] => destruct c end; kept.
Qed.

Lemma kept_integrateBody dt w0 w r :
  worldKept w0 w ->
  holdsAfter (fun w' => worldKept w0 w') (fun w' => worldKept w0 w')
             (Engine.integrateBody dt w r).
Proof.
  intros H. unfold Engine.integrateBody.
  destruct (bodyObjs (store w) !! r) as [body|] eqn:Hbody; [|exact H].
  destruct (RigidBody.fixed body || RigidBody.sleeping body); [exact H|].
  cbv zeta.
  assert (H1 : bodiesRel bodyKept (store w0)
                 (onBody r (fun _ => Engine.moveBody
                                       (PhysicsEngine.config (engine w))
                                       (PhysicsEngine.worldBounds (engine w)) dt body)
                         (store w))).
  { eapply kept_trans; [exact H|].
    apply bodiesRel_onBody; [apply bodyKept_refl|].
    intros b Hb. rewrite Hbody in Hb. injection Hb as <-. apply bodyKept_moveBody. }
  match goal with |- context [if ?c then _ else _] => destruct c end; [|exact H1].
  destruct (QuadTree.update _ _ _) as [[q' ?]|]; simpl; [exact H1|exact I].
Qed.

Lemma kept_checkCollision fuel refA refB w0 w :
  worldKept w0 w ->
  holdsAfter (fun r => worldKept w0 (fst r)) (fun w' => worldKept w0 w')
             (Engine.checkCollision fuel refA refB w).
Proof.
  intros H. unfold Engine.checkCollision.
  destruct (bodyObjs (store w) !! refA); [|exact H].
  destruct (bodyObjs (store w) !! refB); [|exact H].
  cbv zeta.
  destruct (Gjk.GJK _ _ _); simpl; try exact H; try exact I.
  destruct (Epa.EPA _ _ _); simpl; exact H.
Qed.

Lemma kept_joinIslands refA refB w0 w :
  worldKept w0 w -> worldKept w0 (Engine.joinIslands refA refB w).
Proof.
  intros H. unfold Engine.joinIslands.
  destruct (bodyObjs (store w) !! refA) as [a|]; [|exact H].
  destruct (bodyObjs (store w) !! refB) as [b|]; [|exact H].
  destruct (RigidBody.island a) as [ia|], (RigidBody.island b) as [ib|]; simpl.
  - destruct (decide (ia = ib)); [exact H|]. simpl. apply kept_merge, H.
  - apply kept_addToIsland, H.
  - apply kept_addToIsland, H.
  - apply kept_addToIsland, kept_addToIsland. kept.
Qed.

Lemma kept_visitPair fuel refA w0 st refB :
  worldKept w0 (fst st) ->
  holdsAfter (fun st' : World * list Z => worldKept w0 (fst st'))
             (fun w' => worldKept w0 w')
             (Engine.visitPair fuel refA st refB).
Proof.
  destruct st as [w resolved]. simpl. intros H.
  destruct (bodyObjs (store w) !! refA) as [a|]; [|exact H].
  destruct (bodyObjs (store w) !! refB) as [b|]; [|exact H].
  match goal with |- context [if ?c then _ else _] => destruct c end; [exact H|].
  eapply holdsAfter_bind; [apply kept_checkCollision, H|].
  intros [w1 [collision|]] H1; simpl in *; [|exact H1].
  assert (H3 : worldKept w0
                 (Engine.joinIslands refA refB
                    (onStore (fun s =>
                                onBody refB (fun b => RigidBody.with_sleeping b false)
                                  (onBody refA (fun b => RigidBody.with_sleeping b false) s)) w1))).
  { apply kept_joinIslands. simpl. kept. }
  destruct (NumMap.get _ _) as [existing|]; simpl; [|exact H3].
  destruct (JsArray.swapRemove _ _); [|exact I].
  destruct (Engine.persistContacts _ _ _); simpl; [exact H3|exact I].
Qed.

Lemma kept_checkCollisions fuel w0 w :
  worldKept w0 w ->
  holdsAfter (fun w' => worldKept w0 w') (fun w' => worldKept w0 w')
             (Engine.checkCollisions fuel w).
Proof.
  intros H. unfold Engine.checkCollisions.
  eapply holdsAfter_bind.
  - apply (holdsAfter_forEach (fun st : World * list Z => worldKept w0 (fst st))
                              (fun w' => worldKept w0 w')); [|exact H].
    intros st refA Hst.
    destruct (bodyObjs (store (fst st)) !! refA); [|exact Hst].
    apply holdsAfter_forEach; [|exact Hst].
    intros st' refB Hst'. apply kept_visitPair, Hst'.
  - intros [w' resolved] Hw'. simpl in *. exact Hw'.
Qed.

Lemma kept_step fuel dt w0 w :
  worldKept w0 w ->
  holdsAfter (fun w' => worldKept w0 w') (fun w' => worldKept w0 w')
             (Engine.step fuel dt w).
Proof.
  intros H. unfold Engine.step.
  eapply holdsAfter_bind.
  - apply (holdsAfter_forEach (fun w' => worldKept w0 w') (fun w' => worldKept w0 w'));
      [|exact H].
    intros w1 r H1. apply kept_integrateBody, H1.
  - intros w1 H1. cbv zeta.
    eapply holdsAfter_bind.
    + apply kept_checkCollisions. simpl. kept. exact H1.
    + intros w4 H4. simpl.
      apply bodiesRel_fold_after.
      * intros s island Hs. apply kept_arbitrateIsland, Hs.
      * apply kept_resolveStore, H4.
Qed.

Lemma kept_steps fuel n w0 w :
  worldKept w0 w ->
  holdsAfter (fun w' => worldKept w0 w') (fun w' => worldKept w0 w')
             (Engine.steps fuel n w).
Proof.
  revert w. induction n as [|n IH]; intros w H; simpl; [exact H|].
  eapply holdsAfter_bind; [apply kept_step, H|]. intros w1 H1. apply IH, H1.
Qed.

Lemma kept_run fuel call w :
  holdsAfter (fun w' => worldKept w w') (fun w' => worldKept w w')
             (Engine.run fuel call w).
Proof.
  destruct call as [body|body|start stop dt|dt]; simpl.
  - unfold Engine.addBody. cbv zeta.
    destruct (Engine.boundsOf (store w) body); simpl; apply kept_refl.
  - unfold Engine.removeBody. cbv zeta.
    destruct (JsArray.swapRemove _ _); [|exact I].
    destruct (QuadTree.remove _ _) as [[q' ?]|]; simpl; [apply kept_refl|exact I].
  - unfold Engine.update. cbv zeta.
    eapply holdsAfter_bind; [|intros r Hr; exact Hr].
    eapply holdsAfter_bind; [apply kept_steps, kept_refl|].
    intros w' Hw'. simpl. exact Hw'.
  - apply kept_step, kept_refl.
Qed.

(** ** Fixed bodies *)

Section FixedBodies.
Local Open Scope R_scope.

Lemma integrate_fixed (b : RigidBody.t) (dt : R) :
  RigidBody.fixed b = true -> RigidBody.integrate b dt = b.
Proof. intros H. unfold RigidBody.integrate. rewrite H. reflexivity. Qed.

Lemma integrateBody_fixed (dt : R) (w : World) (r r0 : nat) (b0 : RigidBody.t) :
  RigidBody.fixed b0 = true ->
  bodyObjs (store w) !! r0 = Some b0 ->
  holdsAfter (fun w' => bodyObjs (store w') !! r0 = Some b0)
             (fun w' => bodyObjs (store w') !! r0 = Some b0)
             (Engine.integrateBody dt w r).
Proof.
  intros Hfixed Hb0. unfold Engine.integrateBody.
  destruct (bodyObjs (store w) !! r) as [body|] eqn:Hbody; [|exact Hb0].
  destruct (RigidBody.fixed body || RigidBody.sleeping body) eqn:Hskip; [exact Hb0|].
  assert (Hne : r <> r0).
  { intros ->. rewrite Hb0 in Hbody. injection Hbody as <-.
    rewrite Hfixed in Hskip. discriminate. }
  cbv zeta.
  assert (H1 : bodyObjs (store (onStore
                 (onBody r (fun _ => Engine.moveBody
                                       (PhysicsEngine.config (engine w))
                                       (PhysicsEngine.worldBounds (engine w)) dt body)) w))
               !! r0 = Some b0).
  { simpl. rewrite lookup_alter_ne by exact Hne. exact Hb0. }
  match goal with |- context [if ?c then _ else _] => destruct c end; [|exact H1].
  destruct (QuadTree.update _ _ _) as [[q' ?]|]; simpl; [exact H1|exact I].
Qed.

(** C5: a body built as fixed has both inverse masses 0; no operation of the
    engine changes the [fixed] flag or the inverse masses of any body, so a
    fixed body keeps them at 0, whether the operation returns or throws;
    [RigidBody.integrate] returns a fixed body as it was, and the integration
    loop of [step] leaves every fixed body as it was, position and rotation
    included. *)
Theorem fixed_body_invariant :
  (forall nextID collider position mass angularMass restitution friction,
     let b := RigidBody.new nextID collider position mass angularMass
                            restitution friction true in
     RigidBody.fixed b = true
     /\ RigidBody.inverseMass b = 0 /\ RigidBody.inverseAngularMass b = 0)
  /\ (forall gjkFuel call w r b,
        bodyObjs (store w) !! r = Some b ->
        RigidBody.fixed b = true ->
        RigidBody.inverseMass b = 0 -> RigidBody.inverseAngularMass b = 0 ->
        let still w' :=
          exists b', bodyObjs (store w') !! r = Some b'
                     /\ RigidBody.fixed b' = true
                     /\ RigidBody.inverseMass b' = 0
                     /\ RigidBody.inverseAngularMass b' = 0 in
        holdsAfter still still (Engine.run gjkFuel call w))
  /\ (forall b deltaSeconds,
        RigidBody.fixed b = true ->
        let b' := RigidBody.integrate b deltaSeconds in
        RigidBody.position b' = RigidBody.position b
        /\ RigidBody.rotation b' = RigidBody.rotation b)
  /\ (forall deltaSeconds w r b,
        bodyObjs (store w) !! r = Some b ->
        RigidBody.fixed b = true ->
        let same w' :=
          exists b', bodyObjs (store w') !! r = Some b'
                     /\ RigidBody.position b' = RigidBody.position b
                     /\ RigidBody.rotation b' = RigidBody.rotation b in
        holdsAfter same same
          (forEach (Engine.integrateBody deltaSeconds)
                   (PhysicsEngine.bodies (engine w)) w)).
Proof.
  split; [|split; [|split]].
  - intros. subst b. simpl. auto.
  - intros fuel call w r b Hb Hf Hm Ha still.
    eapply holdsAfter_weaken; [apply kept_run| |];
      intros w' Hw'; destruct (Hw' r b Hb) as (b' & Hb' & _ & K2 & K3 & K4);
      exists b'; repeat split; congruence.
  - intros b dt Hf b'. subst b'. rewrite integrate_fixed by exact Hf. auto.
  - intros dt w r b Hb Hf same.
    eapply holdsAfter_weaken.
    + apply (holdsAfter_forEach
               (fun w' => bodyObjs (store w') !! r = Some b)
               (fun w' => bodyObjs (store w') !! r = Some b)); [|exact Hb].
      intros w' r' Hw'. apply integrateBody_fixed; assumption.
    + intros w' Hw'. exists b. auto.
    + intros w' Hw'. exists b. auto.
Qed.

Lemma fixed_body_invariant_witness :
  holdsAfter
    (fun w' => exists b', bodyObjs (store w') !! 0%nat = Some b'
                          /\ RigidBody.fixed b' = true
                          /\ RigidBody.inverseMass b' = 0
                          /\ RigidBody.inverseAngularMass b' = 0)
    (fun w' => exists b', bodyObjs (store w') !! 0%nat = Some b'
                          /\ RigidBody.fixed b' = true
                          /\ RigidBody.inverseMass b' = 0
                          /\ RigidBody.inverseAngularMass b' = 0)
    (Engine.run 64 (Engine.Step (1 / 500)) anchoredWorld).
Proof.
  apply (proj1 (proj2 fixed_body_invariant) 64%nat (Engine.Step (1 / 500))
               anchoredWorld 0%nat anchor); reflexivity.
Defined.

End FixedBodies.

(** ** The velocity solver *)

Section VelocitySolver.
Local Open Scope R_scope.

Lemma clamp_bounded (x l : R) : 0 <= l -> Rabs (Num.clamp x (- l) l) <= l.
Proof.
  intros Hl. unfold Num.clamp. apply Rabs_le. split.
  - apply Rmin_glb; [apply Rmax_l|lra].
  - apply Rmin_r.
Qed.

Lemma bodiesPresent_kept (c : Collision.t) (s s' : Store) :
  bodiesRel bodyKept s s' -> bodiesPresent c s -> bodiesPresent c s'.
Proof.
  intros H [[a Ha] [b Hb]].
  destruct (H _ _ Ha) as (a' & Ha' & _), (H _ _ Hb) as (b' & Hb' & _).
  split; eauto.
Qed.

Lemma solveNormal_other (c : Collision.t) (s : Store) (r0 r : nat) :
  r <> r0 -> contactObjs (Collision.solveNormal c s r0) !! r = contactObjs s !! r.
Proof.
  intros Hne. unfold Collision.solveNormal.
  destruct (contactObjs s !! r0), (bodyObjs s !! Collision.bodyA c),
    (bodyObjs s !! Collision.bodyB c); try reflexivity.
  simpl. rewrite lookup_alter_ne by congruence. reflexivity.
Qed.

Lemma solveNormal_here (c : Collision.t) (s : Store) (r0 : nat) (k' : Contact.t) :
  bodiesPresent c s ->
  contactObjs (Collision.solveNormal c s r0) !! r0 = Some k' ->
  0 <= Contact.accumulatedNormalMagnitude k'.
Proof.
  intros [[a Ha] [b Hb]]. unfold Collision.solveNormal. rewrite Ha, Hb.
  destruct (contactObjs s !! r0) as [k|] eqn:Hk.
  - simpl. rewrite lookup_alter_eq, Hk. simpl. intros [= <-]. simpl. apply Rmax_r.
  - rewrite Hk. discriminate.
Qed.

Lemma solveTangent_other (c : Collision.t) (s : Store) (r0 r : nat) :
  r <> r0 -> contactObjs (Collision.solveTangent c s r0) !! r = contactObjs s !! r.
Proof.
  intros Hne. unfold Collision.solveTangent.
  destruct (contactObjs s !! r0), (bodyObjs s !! Collision.bodyA c),
    (bodyObjs s !! Collision.bodyB c); try reflexivity.
  simpl. rewrite lookup_alter_ne by congruence. reflexivity.
Qed.

Lemma solveTangent_here (c : Collision.t) (s : Store) (r0 : nat) (k' : Contact.t) :
  bodiesPresent c s ->
  contactObjs (Collision.solveTangent c s r0) !! r0 = Some k' ->
  exists k, contactObjs s !! r0 = Some k
            /\ Contact.accumulatedNormalMagnitude k' = Contact.accumulatedNormalMagnitude k
            /\ (0 <= Collision.friction c ->
                0 <= Contact.accumulatedNormalMagnitude k ->
                impulsesBounded (Collision.friction c) k').
Proof.
  intros [[a Ha] [b Hb]]. unfold Collision.solveTangent. rewrite Ha, Hb.
  destruct (contactObjs s !! r0) as [k|] eqn:Hk.
  - simpl. rewrite lookup_alter_eq, Hk. simpl. intros [= <-].
    exists k. repeat split; simpl; auto.
    rewrite (Rmult_comm (Collision.friction c)).
    apply clamp_bounded. nra.
  - rewrite Hk. discriminate.
Qed.

Lemma normalPass_nonneg (c : Collision.t) (l : list nat) (s : Store) (r : nat) (k : Contact.t) :
  bodiesPresent c s ->
  r ∈ l ->
  contactObjs (fold_left (Collision.solveNormal c) l s) !! r = Some k ->
  0 <= Contact.accumulatedNormalMagnitude k.
Proof.
  revert s. induction l as [|r0 l IH]; intros s Hp Hin; [inversion Hin|].
  simpl. destruct (decide (r ∈ l)) as [Hl|Hl].
  - apply IH; [|exact Hl].
    eapply bodiesPresent_kept; [|exact Hp]. apply kept_solveNormal, kept_refl.
  - assert (r = r0) as -> by (inversion Hin; subst; tauto).
    assert (E : contactObjs (fold_left (Collision.solveNormal c) l
                               (Collision.solveNormal c s r0)) !! r0
                = contactObjs (Collision.solveNormal c s r0) !! r0).
    { generalize (Collision.solveNormal c s r0). clear -Hl.
      induction l as [|r1 l IH]; intros s'; simpl; [reflexivity|].
      rewrite IH by (intros ?; apply Hl; right; assumption).
      apply solveNormal_other. intros ->. apply Hl. left. }
    rewrite E. apply solveNormal_here, Hp.
Qed.

Lemma fold_contact_other {A : Type} (f : Store -> A -> Store) (touched : A -> list nat)
    (l : list A) (s : Store) (r : nat) :
  (forall s a, r ∉ touched a -> contactObjs (f s a) !! r = contactObjs s !! r) ->
  (forall a, a ∈ l -> r ∉ touched a) ->
  contactObjs (fold_left f l s) !! r = contactObjs s !! r.
Proof.
  intros Hf. revert s. induction l as [|a l IH]; intros s Hl; simpl; [reflexivity|].
  rewrite IH by (intros a' Ha'; apply Hl; right; exact Ha').
  apply Hf, Hl. left.
Qed.

Lemma tangentPass_bounded (c : Collision.t) (L l : list nat) (s : Store) (r : nat) (k : Contact.t) :
  bodiesPresent c s ->
  0 <= Collision.friction c ->
  (forall r k, r ∈ L -> contactObjs s !! r = Some k ->
               0 <= Contact.accumulatedNormalMagnitude k) ->
  l ⊆ L ->
  r ∈ l ->
  contactObjs (fold_left (Collision.solveTangent c) l s) !! r = Some k ->
  impulsesBounded (Collision.friction c) k.
Proof.
  intros Hp Hmu. revert s Hp.
  induction l as [|r0 l IH]; intros s Hp HN Hsub Hin; [inversion Hin|].
  simpl.
  assert (Hp1 : bodiesPresent c (Collision.solveTangent c s r0)).
  { eapply bodiesPresent_kept; [|exact Hp]. apply kept_solveTangent, kept_refl. }
  destruct (decide (r ∈ l)) as [Hl|Hl].
  - apply IH; [exact Hp1| |set_solver|exact Hl].
    intros r' k' Hr' Hk'.
    destruct (decide (r' = r0)) as [->|Hne].
    + destruct (solveTangent_here c s r0 k' Hp Hk') as (k0 & Hk0 & E & _).
      rewrite E. eapply HN; eauto.
    + rewrite solveTangent_other in Hk' by exact Hne. eapply HN; eauto.
  - assert (r = r0) as -> by (inversion Hin; subst; tauto).
    rewrite (fold_contact_other (Collision.solveTangent c) (fun a => [a])).
    + intros Hk.
      destruct (solveTangent_here c s r0 k Hp Hk) as (k0 & Hk0 & E & Hb).
      apply Hb; [exact Hmu|]. eapply HN; [|exact Hk0]. apply Hsub. left.
    + intros s' a Ha. apply solveTangent_other. set_solver.
    + intros a Ha. set_solver.
Qed.

Lemma solveVelocity_bounded (c : Collision.t) (s : Store) (r : nat) (k : Contact.t) :
  bodiesPresent c s ->
  0 <= Collision.friction c ->
  r ∈ CollisionManifold.contacts (Collision.manifold c) ->
  contactObjs (Collision.solveVelocity c s) !! r = Some k ->
  impulsesBounded (Collision.friction c) k.
Proof.
  intros Hp Hmu Hin. unfold Collision.solveVelocity. cbv zeta.
  apply (tangentPass_bounded c (CollisionManifold.contacts (Collision.manifold c)));
    [|exact Hmu| |set_solver|exact Hin].
  - eapply bodiesPresent_kept; [|exact Hp].
    apply bodiesRel_fold_after; [|apply kept_refl].
    intros s' a Hs'. apply kept_solveNormal, Hs'.
  - intros r' k' Hr' Hk'. eapply normalPass_nonneg; eauto.
Qed.

Lemma solveVelocity_other (c : Collision.t) (s : Store) (r : nat) :
  r ∉ CollisionManifold.contacts (Collision.manifold c) ->
  contactObjs (Collision.solveVelocity c s) !! r = contactObjs s !! r.
Proof.
  intros Hr. unfold Collision.solveVelocity. cbv zeta.
  rewrite (fold_contact_other (Collision.solveTangent c) (fun a => [a])).
  - apply (fold_contact_other (Collision.solveNormal c) (fun a => [a])).
    + intros s' a Ha. apply solveNormal_other. set_solver.
    + intros a Ha. set_solver.
  - intros s' a Ha. apply solveTangent_other. set_solver.
  - intros a Ha. set_solver.
Qed.

Lemma kept_velocityIteration cs s0 s :
  bodiesRel bodyKept s0 s -> bodiesRel bodyKept s0 (Engine.velocityIteration cs s).
Proof.
  intros H. unfold Engine.velocityIteration.
  apply bodiesRel_fold_after; [|exact H].
  intros s' c Hs'. apply kept_solveVelocity, Hs'.
Qed.

Lemma velocityIteration_bounded (cs : list Collision.t) (i : nat) (c : Collision.t)
    (s : Store) (r : nat) (k : Contact.t) :
  cs !! i = Some c ->
  contactsOwned cs i ->
  bodiesPresent c s ->
  0 <= Collision.friction c ->
  r ∈ CollisionManifold.contacts (Collision.manifold c) ->
  contactObjs (Engine.velocityIteration cs s) !! r = Some k ->
  impulsesBounded (Collision.friction c) k.
Proof.
  intros Hi Hown Hp Hmu Hin.
  unfold Engine.velocityIteration.
  rewrite <- (take_drop_middle cs i c Hi) at 1.
  rewrite fold_left_app. simpl.
  rewrite (fold_contact_other (fun s c => Collision.solveVelocity c s)
             (fun c' => CollisionManifold.contacts (Collision.manifold c'))).
  - apply solveVelocity_bounded; [|exact Hmu|exact Hin].
    eapply bodiesPresent_kept; [|exact Hp].
    apply bodiesRel_fold_after; [|apply kept_refl].
    intros s' c' Hs'. apply kept_solveVelocity, Hs'.
  - intros s' c' Hc'. apply solveVelocity_other, Hc'.
  - intros c' Hc'. apply list_elem_of_lookup in Hc' as [j Hj].
    rewrite lookup_drop in Hj.
    apply (Hown (S i + j)%nat c' c r Hi Hj); [lia|exact Hin].
Qed.

Lemma impulsesFrom_refl (s : Store) : impulsesFrom s s.
Proof. intros r k Hk. exists k. repeat split; auto. Qed.

Lemma impulsesFrom_trans (s1 s2 s3 : Store) :
  impulsesFrom s1 s2 -> impulsesFrom s2 s3 -> impulsesFrom s1 s3.
Proof.
  intros H12 H23 r k3 Hk3.
  destruct (H23 r k3 Hk3) as (k2 & Hk2 & [A2 B2]).
  destruct (H12 r k2 Hk2) as (k1 & Hk1 & [A1 B1]).
  exists k1. repeat split; congruence.
Qed.

Lemma impulsesFrom_same (s s' : Store) :
  contactObjs s' = contactObjs s -> impulsesFrom s s'.
Proof. intros E r k Hk. rewrite E in Hk. exists k. repeat split; auto. Qed.

Lemma impulsesFrom_prepareCollision (s : Store) (c : Collision.t) :
  impulsesFrom s (Engine.prepareCollision s c).
Proof.
  unfold Engine.prepareCollision. cbv zeta.
  apply (fold_left_invariant (impulsesFrom s)).
  - intros s' r Hs'. eapply impulsesFrom_trans; [exact Hs'|].
    unfold Engine.refreshBias.
    destruct (bodyObjs s' !! Collision.bodyA c) as [a|]; [|apply impulsesFrom_refl].
    destruct (bodyObjs s' !! Collision.bodyB c) as [b|]; [|apply impulsesFrom_refl].
    intros r' k' Hk'. simpl in Hk'.
    destruct (decide (r = r')) as [->|Hne].
    + rewrite lookup_alter_eq in Hk'.
      destruct (contactObjs s' !! r') as [k|]; [|discriminate].
      simpl in Hk'. injection Hk' as <-. exists k. split; [reflexivity|].
      unfold Contact.updateRestitutionBias.
      match goal with |- context [if ?c then _ else _] => destruct c end;
        split; reflexivity.
    + rewrite lookup_alter_ne in Hk' by exact Hne.
      exists k'. repeat split; auto.
  - apply impulsesFrom_same.
    unfold Collision.applyAccumulatedImpulses.
    transitivity (contactObjs (Collision.solvePositionLinearOnly c s)).
    + apply (fold_left_invariant
               (fun s' => contactObjs s' = contactObjs (Collision.solvePositionLinearOnly c s)));
        [|reflexivity].
      intros s' r Hs'. destruct (contactObjs s' !! r); [|exact Hs']. exact Hs'.
    + unfold Collision.solvePositionLinearOnly.
      destruct (bodyObjs s !! Collision.bodyA c); [|reflexivity].
      destruct (bodyObjs s !! Collision.bodyB c); reflexivity.
Qed.

Lemma resolveStore_bounded (n : nat) (cs : list Collision.t) (s : Store) (i : nat)
    (c : Collision.t) (r : nat) (k : Contact.t) :
  cs !! i = Some c ->
  contactsOwned cs i ->
  bodiesPresent c s ->
  0 <= Collision.friction c ->
  r ∈ CollisionManifold.contacts (Collision.manifold c) ->
  ((1 <= n)%nat
   \/ forall k0, contactObjs s !! r = Some k0 -> impulsesBounded (Collision.friction c) k0) ->
  contactObjs (Engine.resolveStore n cs s) !! r = Some k ->
  impulsesBounded (Collision.friction c) k.
Proof.
  intros Hi Hown Hp Hmu Hin Hn. unfold Engine.resolveStore.
  assert (Hprep : bodiesRel bodyKept s (fold_left Engine.prepareCollision cs s)).
  { apply bodiesRel_fold_after; [|apply kept_refl].
    intros s' c' Hs'. apply kept_prepareCollision, Hs'. }
  destruct n as [|n].
  - destruct Hn as [Hn|Hn]; [lia|]. simpl. intros Hk.
    assert (Hfrom : impulsesFrom s (fold_left Engine.prepareCollision cs s)).
    { apply (fold_left_invariant (impulsesFrom s)); [|apply impulsesFrom_refl].
      intros s' c' Hs'. eapply impulsesFrom_trans; [exact Hs'|].
      apply impulsesFrom_prepareCollision. }
    destruct (Hfrom r k Hk) as (k0 & Hk0 & [EN ET]).
    destruct (Hn k0 Hk0) as [B1 B2].
    unfold impulsesBounded. rewrite EN, ET. auto.
  - simpl. apply (velocityIteration_bounded cs i c); auto.
    eapply bodiesPresent_kept; [|exact Hp].
    apply bodiesRel_iter_after; [|exact Hprep].
    intros s' Hs'. apply kept_velocityIteration, Hs'.
Qed.

Lemma contactsStay_refl (s : Store) : contactsStay s s.
Proof. intros r H. exact H. Qed.

Lemma contactsStay_trans (s1 s2 s3 : Store) :
  contactsStay s1 s2 -> contactsStay s2 s3 -> contactsStay s1 s3.
Proof. intros H12 H23 r H. apply H23, H12, H. Qed.

Lemma contactsStay_onContact (s0 s : Store) (r : nat) (f : Contact.t -> Contact.t) :
  contactsStay s0 s -> contactsStay s0 (onContact r f s).
Proof.
  intros H r' Hr'. apply H in Hr'. simpl.
  destruct (decide (r = r')) as [->|Hne].
  - rewrite lookup_alter_eq. destruct Hr' as [k ->]. simpl. eauto.
  - rewrite lookup_alter_ne by exact Hne. exact Hr'.
Qed.

Lemma contactsStay_same (s0 s s' : Store) :
  contactObjs s' = contactObjs s -> contactsStay s0 s -> contactsStay s0 s'.
Proof. intros E H r Hr. rewrite E. apply H, Hr. Qed.

(** One step of a proof that a store function keeps the contact objects. *)
Ltac stay_step :=
  match goal with
  | |- contactsStay ?s ?s => apply contactsStay_refl
  | H : contactsStay ?s0 ?s |- contactsStay ?s0 ?s => exact H
  | |- contactsStay _ (onContact _ _ _) => apply contactsStay_onContact
  | |- contactsStay _ (onBody _ _ ?s) => apply (contactsStay_same _ s); [reflexivity|]
  | |- contactsStay _ (onIsland _ _ ?s) => apply (contactsStay_same _ s); [reflexivity|]
  | |- contactsStay ?s0 (fold_left _ _ _) =>
      apply (fold_left_invariant (contactsStay s0)); [intros ? ? ?|]
  | |- contactsStay ?s0 (Nat.iter _ _ _) =>
      apply (iter_invariant (contactsStay s0)); [intros ? ?|]
  | |- contactsStay _ (match ?x with _ => _ end) => destruct x
  end.

Ltac stay := repeat (cbv zeta; stay_step).

Lemma contactsStay_resolveStore (n : nat) (cs : list Collision.t) (s : Store) :
  contactsStay s (Engine.resolveStore n cs s).
Proof.
  unfold Engine.resolveStore, Engine.velocityIteration, Engine.prepareCollision,
    Collision.solveVelocity, Engine.refreshBias, Collision.applyAccumulatedImpulses,
    Collision.solvePositionLinearOnly.
  stay.
  - unfold Collision.solveTangent. stay.
  - unfold Collision.solveNormal. stay.
Qed.

(** C2: when [resolveCollisions] has run its velocity iterations, every contact
    [k] of every collision [c] of the engine has
    [accumulatedNormalMagnitude >= 0] and
    [|accumulatedTangentMagnitude| <= friction * accumulatedNormalMagnitude].
    The collision has a friction coefficient that is not negative, its two
    bodies are in the store, and its contact objects belong to no other
    collision; at least one iteration is run, or the contact met the two
    bounds before the call. *)
Theorem resolveCollisions_impulses_bounded (w : World) (i : nat) (c : Collision.t)
    (r : nat) (k : Contact.t) :
  NumMap.values (PhysicsEngine.collisions (engine w)) !! i = Some c ->
  contactsOwned (NumMap.values (PhysicsEngine.collisions (engine w))) i ->
  bodiesPresent c (store w) ->
  0 <= Collision.friction c ->
  r ∈ CollisionManifold.contacts (Collision.manifold c) ->
  ((1 <= velocityIterations (PhysicsEngine.config (engine w)))%nat
   \/ forall k0, contactObjs (store w) !! r = Some k0 ->
                 impulsesBounded (Collision.friction c) k0) ->
  contactObjs (store (Engine.resolveCollisions w)) !! r = Some k ->
  0 <= Contact.accumulatedNormalMagnitude k
  /\ Rabs (Contact.accumulatedTangentMagnitude k)
     <= Collision.friction c * Contact.accumulatedNormalMagnitude k.
Proof.
  intros Hi Hown Hp Hmu Hin Hn Hk.
  unfold Engine.resolveCollisions in Hk. cbv zeta in Hk. simpl in Hk.
  exact (resolveStore_bounded _ _ _ i c r k Hi Hown Hp Hmu Hin Hn Hk).
Qed.

Lemma resolveCollisions_impulses_bounded_witness :
  exists k,
    contactObjs (store (Engine.resolveCollisions touchingWorld)) !! 0%nat = Some k
    /\ 0 <= Contact.accumulatedNormalMagnitude k
    /\ Rabs (Contact.accumulatedTangentMagnitude k)
       <= Collision.friction touching * Contact.accumulatedNormalMagnitude k.
Proof.
  destruct (contactsStay_resolveStore
              (velocityIterations (PhysicsEngine.config (engine touchingWorld)))
              (NumMap.values (PhysicsEngine.collisions (engine touchingWorld)))
              (store touchingWorld) 0%nat) as [k Hk].
  { eexists. reflexivity. }
  exists k. split; [exact Hk|].
  apply (resolveCollisions_impulses_bounded touchingWorld 0 touching 0%nat k).
  - reflexivity.
  - intros j cj ci r' _ Hj Hne _. destruct j as [|j]; [congruence|discriminate].
  - split; eexists; reflexivity.
  - simpl. lra.
  - simpl. left.
  - left. simpl. lia.
  - exact Hk.
Defined.

End VelocitySolver.

(** ** The fixed-step driver *)

Section Driver.
Local Open Scope R_scope.

(** What [update] does on every world: the number of steps is computed from
    [timeElapsed] as it is on entry, that many steps are run, and then the
    time and the step count are advanced. *)
Lemma update_as_coded (gjkFuel : nat) (start stop deltaSeconds : R) (w : World) :
  let e := engine w in
  let deltaSteps :=
    (Zfloor (PhysicsEngine.timeElapsed e / PhysicsEngine.fixedTimeStep e)
     - PhysicsEngine.stepsElapsed e)%Z in
  forall w',
    Engine.steps gjkFuel (Z.to_nat deltaSteps) w = Normal w' ->
    exists w'',
      Engine.update gjkFuel start stop deltaSeconds w = Normal (w'', deltaSteps)
      /\ store w'' = store w'
      /\ PhysicsEngine.timeElapsed (engine w'')
         = PhysicsEngine.timeElapsed (engine w') + deltaSeconds
      /\ PhysicsEngine.stepsElapsed (engine w'')
         = (PhysicsEngine.stepsElapsed (engine w') + deltaSteps)%Z.
Proof.
  intros e deltaSteps w' Hsteps. unfold Engine.update.
  fold e. fold deltaSteps. rewrite Hsteps. simpl.
  eexists. repeat split.
Qed.

(** C1 (the code at the failing input): on a new engine (500 steps per second)
    the call [update(0.01)] runs no step and returns 0, and leaves
    [stepsElapsed] at 0 with [timeElapsed = 0.01]; the count of the claim,
    [floor(timeElapsed / fixedTimeStep) - stepsElapsed] after the advance,
    is 5. *)
Theorem update_lags_one_call (gjkFuel : nat) (start stop : R) :
  exists w',
    Engine.update gjkFuel start stop (1 / 100) freshWorld = Normal (w', 0%Z)
    /\ store w' = store freshWorld
    /\ PhysicsEngine.timeElapsed (engine w') = 0 + 1 / 100
    /\ PhysicsEngine.stepsElapsed (engine w') = 0%Z
    /\ (Zfloor (PhysicsEngine.timeElapsed (engine w')
                / PhysicsEngine.fixedTimeStep (engine w'))
        - PhysicsEngine.stepsElapsed (engine freshWorld))%Z = 5%Z.
Proof.
  assert (E0 : (Zfloor (PhysicsEngine.timeElapsed (engine freshWorld)
                        / PhysicsEngine.fixedTimeStep (engine freshWorld))
                - PhysicsEngine.stepsElapsed (engine freshWorld))%Z = 0%Z).
  { simpl. replace (0 / (1 / 500)) with (IZR 0) by (simpl; field).
    rewrite ZfloorZ. reflexivity. }
  unfold Engine.update. cbv zeta. rewrite E0. simpl.
  eexists. repeat split.
  simpl. replace ((0 + 1 / 100) / (1 / 500)) with (IZR 5) by (simpl; field).
  rewrite ZfloorZ. reflexivity.
Qed.

End Driver.

(** ** EPA *)

Section EpaFacts.
Local Open Scope R_scope.

Lemma MAX_VALUE_large : 1 <= Num.MAX_VALUE.
Proof.
  unfold Num.MAX_VALUE.
  assert (H52 : 1 <= 2 ^ 52) by (apply pow_R1_Rle; lra).
  assert (H1023 : 1 <= 2 ^ 1023) by (apply pow_R1_Rle; lra).
  assert (Hinv : / 2 ^ 52 <= 1).
  { rewrite <- Rinv_1. apply Rinv_le_contravar; lra. }
  nra.
Qed.






End EpaFacts.

(** ** The quadtree *)

Section QuadTreeFacts.

Lemma swapRemove_in_range {T : Type} (items : list T) (i : nat) (x : T) :
  items !! i = Some x ->
  exists items' l,
    JsArray.swapRemove items (Z.of_nat i) = Some items'
    /\ last items = Some l
    /\ length items' = pred (length items)
    /\ forall j,
         items' !! j
         = if decide (j < pred (length items))%nat
           then (if decide (j = i) then Some l else items !! j)
           else None.
Proof.
  intros Hx. pose proof (lookup_lt_Some _ _ _ Hx) as Hlt.
  unfold JsArray.swapRemove. cbv zeta.
  destruct (Z.ltb_spec (Z.of_nat i) 0) as [Hneg|_]; [lia|].
  destruct (Z.ltb_spec (Z.of_nat i) (Z.of_nat (length items))) as [_|Hge]; [|lia].
  destruct (last items) as [l|] eqn:Hl.
  2: { apply last_None in Hl. subst. simpl in Hlt. lia. }
  rewrite Nat2Z.id.
  exists (removelast (<[i:=l]> items)), l.
  split; [reflexivity|]. split; [reflexivity|].
  rewrite removelast_firstn_len, length_insert.
  split.
  - rewrite length_take, length_insert. lia.
  - intros j. destruct (decide (j < pred (length items))%nat) as [Hj|Hj].
    + rewrite lookup_take_lt by exact Hj.
      destruct (decide (j = i)) as [->|Hne].
      * apply list_lookup_insert_eq. exact Hlt.
      * apply list_lookup_insert_ne. congruence.
    + apply lookup_take_ge. lia.
Qed.

Lemma nodeAt_Undefined (path : list QuadTree.Quadrant) :
  QuadTree.nodeAt QuadTree.Undefined path = QuadTree.Undefined.
Proof. induction path as [|i path IH]; simpl; auto. Qed.

Lemma nodeItems_with_child n i c :
  QuadTree.nodeItems (QuadTree.with_child n i c) = QuadTree.nodeItems n.
Proof. destruct n, i; reflexivity. Qed.

Lemma child_with_child n i j c :
  n <> QuadTree.Undefined ->
  QuadTree.child (QuadTree.with_child n i c) j
  = if decide (i = j) then c else QuadTree.child n j.
Proof.
  intros Hn. destruct n; [congruence|].
  destruct i, j; simpl; try reflexivity;
    destruct (decide _); try reflexivity; congruence.
Qed.

Lemma nodeAt_defined_prefix n path :
  QuadTree.nodeAt n path <> QuadTree.Undefined -> n <> QuadTree.Undefined.
Proof. intros H ->. apply H, nodeAt_Undefined. Qed.

Lemma child_defined n i :
  QuadTree.child n i <> QuadTree.Undefined -> n <> QuadTree.Undefined.
Proof. intros H ->. apply H. reflexivity. Qed.

(** The node at [path ++ rest] after the node at [path] was replaced. *)
Lemma nodeAt_updateAt_below n path f rest :
  QuadTree.nodeAt n path <> QuadTree.Undefined ->
  QuadTree.nodeAt (QuadTree.updateAt n path f) (path ++ rest)
  = QuadTree.nodeAt (f (QuadTree.nodeAt n path)) rest.
Proof.
  revert n. induction path as [|i path IH]; intros n Hn; simpl; [reflexivity|].
  simpl in Hn.
  rewrite child_with_child
    by (apply (child_defined n i), (nodeAt_defined_prefix _ path), Hn).
  destruct (decide (i = i)); [|congruence].
  apply IH, Hn.
Qed.

(** The items of a node that is not below [path] are not changed. *)
Lemma nodeItems_updateAt_aside n path f path' :
  QuadTree.nodeAt n path <> QuadTree.Undefined ->
  (forall rest, path' <> path ++ rest) ->
  QuadTree.nodeItems (QuadTree.nodeAt (QuadTree.updateAt n path f) path')
  = QuadTree.nodeItems (QuadTree.nodeAt n path').
Proof.
  revert n path'. induction path as [|i path IH]; intros n path' Hn Hnot.
  - exfalso. apply (Hnot path'). reflexivity.
  - simpl in Hn.
    assert (Hd : n <> QuadTree.Undefined)
      by (apply (child_defined n i), (nodeAt_defined_prefix _ path), Hn).
    destruct path' as [|j path']; simpl.
    + apply nodeItems_with_child.
    + rewrite child_with_child by exact Hd.
      destruct (decide (i = j)) as [->|Hne]; [|reflexivity].
      apply IH; [exact Hn|].
      intros rest ->. apply (Hnot rest). reflexivity.
Qed.

Lemma prune_returns (n : QuadTree.Node) : snd (QuadTree.prune n) = prunable n.
Proof.
  induction n as [|b c0 IH0 c1 IH1 c2 IH2 c3 IH3 items]; simpl; [reflexivity|].
  destruct (QuadTree.prune c0) as [c0' p0], (QuadTree.prune c1) as [c1' p1],
    (QuadTree.prune c2) as [c2' p2], (QuadTree.prune c3) as [c3' p3].
  simpl in *. subst.
  destruct (length items =? 0)%nat, (prunable c0), (prunable c1), (prunable c2),
    (prunable c3); reflexivity.
Qed.

Lemma prune_defined (n : QuadTree.Node) :
  n <> QuadTree.Undefined -> fst (QuadTree.prune n) <> QuadTree.Undefined.
Proof.
  destruct n as [|b c0 c1 c2 c3 items]; [congruence|]. intros _. simpl.
  destruct (QuadTree.prune c0), (QuadTree.prune c1), (QuadTree.prune c2),
    (QuadTree.prune c3). simpl. discriminate.
Qed.

Lemma prune_items (n : QuadTree.Node) :
  QuadTree.nodeItems (fst (QuadTree.prune n)) = QuadTree.nodeItems n.
Proof.
  destruct n as [|b c0 c1 c2 c3 items]; [reflexivity|]. simpl.
  destruct (QuadTree.prune c0), (QuadTree.prune c1), (QuadTree.prune c2),
    (QuadTree.prune c3). reflexivity.
Qed.

Lemma prune_child (n : QuadTree.Node) (i : QuadTree.Quadrant) :
  QuadTree.child (fst (QuadTree.prune n)) i
  = if prunable (QuadTree.child n i) then QuadTree.Undefined
    else fst (QuadTree.prune (QuadTree.child n i)).
Proof.
  destruct n as [|b c0 c1 c2 c3 items]; [reflexivity|].
  pose proof (prune_returns c0) as E0. pose proof (prune_returns c1) as E1.
  pose proof (prune_returns c2) as E2. pose proof (prune_returns c3) as E3.
  destruct i; simpl;
    destruct (QuadTree.prune c0), (QuadTree.prune c1), (QuadTree.prune c2),
      (QuadTree.prune c3); simpl in *; subst; reflexivity.
Qed.

Lemma prunable_no_items (n : QuadTree.Node) (path : list QuadTree.Quadrant) :
  prunable n = true -> QuadTree.nodeItems (QuadTree.nodeAt n path) = [].
Proof.
  revert n. induction path as [|i path IH]; intros n Hn.
  - destruct n as [|b c0 c1 c2 c3 items]; [reflexivity|]. simpl in *.
    destruct items; [reflexivity|]. simpl in Hn. discriminate.
  - simpl. apply IH.
    destruct n as [|b c0 c1 c2 c3 items]; [reflexivity|]. simpl in Hn.
    repeat (apply andb_prop in Hn as [Hn ?]).
    destruct i; simpl; assumption.
Qed.

(** Pruning drops no item. *)
Lemma prune_keeps_items (n : QuadTree.Node) (path : list QuadTree.Quadrant) :
  QuadTree.nodeItems (QuadTree.nodeAt (fst (QuadTree.prune n)) path)
  = QuadTree.nodeItems (QuadTree.nodeAt n path).
Proof.
  revert n. induction path as [|i path IH]; intros n; simpl.
  - apply prune_items.
  - rewrite prune_child.
    destruct (prunable (QuadTree.child n i)) eqn:Hp.
    + rewrite nodeAt_Undefined. symmetry. apply prunable_no_items, Hp.
    + apply IH.
Qed.

(** Below a pruned node, a subtree is gone exactly when it was in a prunable
    subtree; what remains is not prunable. *)
Lemma prune_nodeAt (n : QuadTree.Node) (path : list QuadTree.Quadrant) :
  n <> QuadTree.Undefined ->
  (QuadTree.nodeAt (fst (QuadTree.prune n)) path = QuadTree.Undefined
   <-> prunedAway n path = true)
  /\ (path <> [] ->
      QuadTree.nodeAt (fst (QuadTree.prune n)) path <> QuadTree.Undefined ->
      prunable (QuadTree.nodeAt (fst (QuadTree.prune n)) path) = false).
Proof.
  revert n. induction path as [|i path IH]; intros n Hn; simpl.
  - split; [|congruence]. split; [|discriminate].
    intros H. exfalso. exact (prune_defined n Hn H).
  - rewrite prune_child.
    destruct (prunable (QuadTree.child n i)) eqn:Hp; simpl.
    + rewrite nodeAt_Undefined. split; [tauto|congruence].
    + assert (Hc : QuadTree.child n i <> QuadTree.Undefined)
        by (intros E; rewrite E in Hp; discriminate).
      destruct (IH (QuadTree.child n i) Hc) as [Hiff Htidy].
      split; [exact Hiff|].
      intros _ Hdef. destruct path as [|j path].
      * simpl in *. clear -Hp.
        generalize (QuadTree.child n i) Hp. clear. intros m Hm.
        induction m as [|b c0 IH0 c1 IH1 c2 IH2 c3 IH3 items]; [discriminate|].
        simpl in *.
        pose proof (prune_returns c0) as E0. pose proof (prune_returns c1) as E1.
        pose proof (prune_returns c2) as E2. pose proof (prune_returns c3) as E3.
        destruct (QuadTree.prune c0) as [c0' p0], (QuadTree.prune c1) as [c1' p1],
          (QuadTree.prune c2) as [c2' p2], (QuadTree.prune c3) as [c3' p3].
        simpl in *. subst.
        destruct (length items =? 0)%nat; [|reflexivity]. simpl in *.
        destruct (prunable c0) eqn:P0; simpl in *;
          [|rewrite (IH0 eq_refl); reflexivity].
        destruct (prunable c1) eqn:P1; simpl in *;
          [|rewrite (IH1 eq_refl); reflexivity].
        destruct (prunable c2) eqn:P2; simpl in *;
          [|rewrite (IH2 eq_refl), ?andb_false_r; reflexivity].
        destruct (prunable c3) eqn:P3; simpl in *; [discriminate|].
        rewrite (IH3 eq_refl), ?andb_false_r. reflexivity.
      * apply Htidy; [discriminate|exact Hdef].
Qed.

Lemma nodeItems_with_items n items :
  n <> QuadTree.Undefined ->
  QuadTree.nodeItems (QuadTree.with_items n items) = items.
Proof. destruct n; [congruence|reflexivity]. Qed.

Lemma child_with_items n items i :
  QuadTree.child (QuadTree.with_items n items) i = QuadTree.child n i.
Proof. destruct n, i; reflexivity. Qed.

Lemma with_items_defined n items :
  n <> QuadTree.Undefined -> QuadTree.with_items n items <> QuadTree.Undefined.
Proof. destruct n; [congruence|discriminate]. Qed.

(** The item arrays after the item array of the node at [path] was replaced
    by [items'] and that node pruned. *)
Lemma items_after_update root path items' path' :
  QuadTree.nodeAt root path <> QuadTree.Undefined ->
  QuadTree.nodeItems
    (QuadTree.nodeAt
       (QuadTree.updateAt root path
          (fun n => fst (QuadTree.prune (QuadTree.with_items n items')))) path')
  = if decide (path' = path) then items'
    else QuadTree.nodeItems (QuadTree.nodeAt root path').
Proof.
  intros Hdef.
  destruct (decide (path' = path)) as [->|Hne].
  - rewrite <- (app_nil_r path) at 2.
    rewrite nodeAt_updateAt_below by exact Hdef. simpl.
    rewrite prune_items. apply nodeItems_with_items, Hdef.
  - destruct (decide (path `prefix_of` path')) as [[rest ->]|Hno].
    + rewrite nodeAt_updateAt_below by exact Hdef.
      rewrite prune_keeps_items.
      destruct rest as [|i rest]; [rewrite app_nil_r in Hne; congruence|].
      simpl. rewrite child_with_items.
      clear. revert root. induction path as [|j path IH]; intros root; simpl; auto.
    + apply nodeItems_updateAt_aside; [exact Hdef|].
      intros rest ->. apply Hno. exists rest. reflexivity.
Qed.

(** What [remove] computes on a well-formed tree. *)
Lemma remove_effect (q : QuadTree.t) (x : nat) (loc : QuadTree.ItemLocation) :
  locationsValid q ->
  QuadTree.itemLocations q !! x = Some loc ->
  let items := QuadTree.nodeItems (QuadTree.nodeAt (QuadTree.root q) (QuadTree.node loc)) in
  exists items' l,
    items !! QuadTree.index loc = Some x
    /\ last items = Some l
    /\ (forall j,
          items' !! j
          = if decide (j < pred (length items))%nat
            then (if decide (j = QuadTree.index loc) then Some l else items !! j)
            else None)
    /\ QuadTree.remove q x
       = Some (QuadTree.mk
                 (QuadTree.updateAt (QuadTree.root q) (QuadTree.node loc)
                    (fun n => fst (QuadTree.prune (QuadTree.with_items n items'))))
                 (if decide (QuadTree.index loc < pred (length items))%nat
                  then <[l := loc]> (delete x (QuadTree.itemLocations q))
                  else delete x (QuadTree.itemLocations q)),
               true).
Proof.
  intros Hvalid Hx items.
  pose proof (Hvalid x loc Hx) as Hslot. unfold slotAt in Hslot. fold items in Hslot.
  destruct (swapRemove_in_range items (QuadTree.index loc) x Hslot)
    as (items' & l & Hswap & Hlast & _ & Hlookup).
  exists items', l. repeat split; try assumption.
  unfold QuadTree.remove. rewrite Hx. fold items. rewrite Hswap. cbv zeta.
  rewrite Hlookup.
  destruct (decide (QuadTree.index loc < pred (length items))%nat); [|reflexivity].
  destruct (decide (QuadTree.index loc = QuadTree.index loc)); [reflexivity|congruence].
Qed.

Lemma location_eta (loc : QuadTree.ItemLocation) :
  QuadTree.mkLocation (QuadTree.node loc) (QuadTree.index loc) = loc.
Proof. destruct loc; reflexivity. Qed.

(** What [remove] does to a well-formed quadtree. *)
Lemma remove_wellFormed (q : QuadTree.t) (x : nat) (loc : QuadTree.ItemLocation) :
  wellFormed q ->
  QuadTree.itemLocations q !! x = Some loc ->
  let owner := QuadTree.nodeAt (QuadTree.root q) (QuadTree.node loc) in
  exists q',
    QuadTree.remove q x = Some (q', true)
    /\ wellFormed q'
    /\ QuadTree.itemLocations q' !! x = None
    /\ (forall path, x ∉ QuadTree.nodeItems (QuadTree.nodeAt (QuadTree.root q') path))
    /\ (forall y, y <> x ->
          last (QuadTree.nodeItems owner) = Some y ->
          QuadTree.itemLocations q' !! y = Some loc)
    /\ (forall y, y <> x ->
          last (QuadTree.nodeItems owner) <> Some y ->
          QuadTree.itemLocations q' !! y = QuadTree.itemLocations q !! y).
Proof.
  intros [Hvalid Hlocated] Hx owner.
  destruct (remove_effect q x loc Hvalid Hx) as (items' & l & Hslot & Hlast & Hitems' & Hrem).
  fold owner in Hslot, Hlast, Hitems', Hrem.
  set (items := QuadTree.nodeItems owner) in *.
  set (i := QuadTree.index loc) in *.
  set (path := QuadTree.node loc) in *.
  assert (Hdef : owner <> QuadTree.Undefined).
  { intros E. unfold items in Hslot. rewrite E in Hslot. discriminate. }
  assert (Hi : (i < length items)%nat) by (eapply lookup_lt_Some; exact Hslot).
  assert (Hlast' : items !! pred (length items) = Some l)
    by (rewrite <- last_lookup; exact Hlast).
  (* the item moved into the slot of [x] is not [x] *)
  assert (Hlx : (i < pred (length items))%nat -> l <> x).
  { intros Hlt ->.
    pose proof (Hlocated path (pred (length items)) x Hlast') as E.
    rewrite Hx in E. rewrite <- (location_eta loc) in E. fold i path in E.
    injection E as E. lia. }
  eexists. split; [exact Hrem|].
  set (root' := QuadTree.updateAt (QuadTree.root q) path
                  (fun n => fst (QuadTree.prune (QuadTree.with_items n items')))) in *.
  set (map' := if decide (i < pred (length items))%nat
               then <[l := loc]> (delete x (QuadTree.itemLocations q))
               else delete x (QuadTree.itemLocations q)) in *.
  (* item arrays and entries after the call *)
  assert (Hafter : forall path',
            QuadTree.nodeItems (QuadTree.nodeAt root' path')
            = if decide (path' = path) then items'
              else QuadTree.nodeItems (QuadTree.nodeAt (QuadTree.root q) path')).
  { intros path'. apply items_after_update, Hdef. }
  assert (Hmapx : map' !! x = None).
  { unfold map'. destruct (decide (i < pred (length items))%nat) as [Hlt|_].
    - rewrite lookup_insert_ne by (apply Hlx, Hlt). apply lookup_delete_eq.
    - apply lookup_delete_eq. }
  assert (Hmapl : (i < pred (length items))%nat -> map' !! l = Some loc).
  { intros Hlt. unfold map'. destruct (decide _); [|lia]. apply lookup_insert_eq. }
  assert (Hmapo : forall y, y <> x -> ((i < pred (length items))%nat -> y <> l) ->
                            map' !! y = QuadTree.itemLocations q !! y).
  { intros y Hyx Hyl. unfold map'.
    destruct (decide (i < pred (length items))%nat) as [Hlt|_].
    - rewrite lookup_insert_ne by (intros ->; exact (Hyl Hlt eq_refl)).
      apply lookup_delete_ne. congruence.
    - apply lookup_delete_ne. congruence. }
  assert (Hwf : wellFormed (QuadTree.mk root' map')).
  { split.
    - intros y ly Hy. unfold slotAt. simpl in *. rewrite Hafter.
      assert (Hyx : y <> x) by (intros ->; rewrite Hmapx in Hy; discriminate).
      destruct (decide ((i < pred (length items))%nat /\ y = l)) as [[Hlt ->]|Hnl].
      + rewrite (Hmapl Hlt) in Hy. injection Hy as <-. fold path i.
        destruct (decide (path = path)); [|congruence].
        rewrite Hitems'. rewrite decide_True by exact Hlt.
        rewrite decide_True by reflexivity. reflexivity.
      + rewrite Hmapo in Hy by tauto.
        pose proof (Hvalid y ly Hy) as Hs. unfold slotAt in Hs.
        destruct (decide (QuadTree.node ly = path)) as [E|_]; [|exact Hs].
        rewrite E in Hs. fold owner items in Hs.
        rewrite Hitems'.
        assert (Hji : QuadTree.index ly <> i) by (intros E'; rewrite E' in Hs; congruence).
        assert (Hjl : (QuadTree.index ly < pred (length items))%nat).
        { pose proof (lookup_lt_Some _ _ _ Hs) as Hlt.
          destruct (decide (QuadTree.index ly = pred (length items))) as [E'|]; [|lia].
          rewrite E' in Hs. assert (y = l) by congruence. subst y.
          exfalso. apply Hnl. split; [lia|reflexivity]. }
        rewrite decide_True by exact Hjl. rewrite decide_False by exact Hji. exact Hs.
    - intros path' j y Hy. simpl in *. rewrite Hafter in Hy.
      destruct (decide (path' = path)) as [->|Hne].
      + rewrite Hitems' in Hy.
        destruct (decide (j < pred (length items))%nat) as [Hj|]; [|discriminate].
        destruct (decide (j = i)) as [->|Hji].
        * injection Hy as <-. rewrite (Hmapl Hj).
          rewrite <- (location_eta loc). reflexivity.
        * pose proof (Hlocated path j y Hy) as E.
          rewrite Hmapo; [exact E| |].
          -- intros ->. rewrite Hx in E. rewrite <- (location_eta loc) in E.
             fold i path in E. injection E as E. congruence.
          -- intros _ ->. pose proof (Hlocated path _ l Hlast') as E'.
             rewrite E in E'. injection E' as E'. lia.
      + pose proof (Hlocated path' j y Hy) as E.
        rewrite Hmapo; [exact E| |].
        * intros ->. rewrite Hx in E. rewrite <- (location_eta loc) in E.
          fold i path in E. injection E as E. congruence.
        * intros _ ->. pose proof (Hlocated path _ l Hlast') as E'.
          rewrite E in E'. injection E' as E'. congruence. }
  split; [exact Hwf|]. simpl.
  split; [exact Hmapx|].
  split.
  { intros path' Hin. apply list_elem_of_lookup in Hin as [j Hj].
    pose proof (proj2 Hwf path' j x Hj) as E. simpl in E.
    rewrite Hmapx in E. discriminate. }
  split.
  { intros y Hyx Hy. assert (y = l) by congruence. subst y.
    apply Hmapl. destruct (decide (i = pred (length items))) as [E|]; [|lia].
    rewrite E in Hslot. congruence. }
  intros y Hyx Hy. apply Hmapo; [exact Hyx|]. intros _ ->. congruence.
Qed.

(** [remove] keeps the node that owned the item and prunes below it. *)
Lemma remove_prunes_below (q : QuadTree.t) (x : nat) (loc : QuadTree.ItemLocation) :
  locationsValid q ->
  QuadTree.itemLocations q !! x = Some loc ->
  let owner := QuadTree.nodeAt (QuadTree.root q) (QuadTree.node loc) in
  exists q',
    QuadTree.remove q x = Some (q', true)
    /\ QuadTree.nodeAt (QuadTree.root q') (QuadTree.node loc) <> QuadTree.Undefined
    /\ (forall rest,
          rest <> [] ->
          let sub := QuadTree.nodeAt (QuadTree.root q') (QuadTree.node loc ++ rest) in
          (sub = QuadTree.Undefined <-> prunedAway owner rest = true)
          /\ (sub <> QuadTree.Undefined -> prunable sub = false)).
Proof.
  intros Hvalid Hx owner.
  destruct (remove_effect q x loc Hvalid Hx) as (items' & l & Hslot & _ & _ & Hrem).
  fold owner in Hslot, Hrem.
  assert (Hdef : owner <> QuadTree.Undefined).
  { intros E. rewrite E in Hslot. discriminate. }
  eexists. split; [exact Hrem|]. simpl.
  assert (Hbelow : forall rest,
            QuadTree.nodeAt
              (QuadTree.updateAt (QuadTree.root q) (QuadTree.node loc)
                 (fun n => fst (QuadTree.prune (QuadTree.with_items n items'))))
              (QuadTree.node loc ++ rest)
            = QuadTree.nodeAt (fst (QuadTree.prune (QuadTree.with_items owner items'))) rest).
  { intros rest. apply nodeAt_updateAt_below, Hdef. }
  split.
  { rewrite <- (app_nil_r (QuadTree.node loc)) at 2. rewrite Hbelow. simpl.
    apply prune_defined, with_items_defined, Hdef. }
  intros rest Hrest. cbv zeta. rewrite Hbelow.
  destruct (prune_nodeAt (QuadTree.with_items owner items') rest
              (with_items_defined _ _ Hdef)) as [Hiff Htidy].
  split; [|intros Hsub; apply Htidy; assumption].
  rewrite Hiff. destruct rest as [|r rest]; [congruence|].
  simpl. rewrite child_with_items. reflexivity.
Qed.

Lemma leafTree_wellFormed : wellFormed leafTree.
Proof.
  split.
  - intros y loc Hy. unfold leafTree in Hy. simpl in Hy.
    apply lookup_insert_Some in Hy as [[<- <-]|[_ Hy]]; [reflexivity|].
    rewrite lookup_empty in Hy. discriminate.
  - intros path i y Hy. unfold leafTree in *. simpl in *.
    destruct path as [|[| | |] [|j path]]; simpl in Hy;
      rewrite ?nodeAt_Undefined in Hy; simpl in Hy; try discriminate.
    + destruct i as [|i]; simpl in Hy; [|discriminate].
      injection Hy as <-. reflexivity.
    + destruct j; simpl in Hy; rewrite nodeAt_Undefined in Hy; discriminate.
Qed.

Lemma busyTree_wellFormed : wellFormed busyTree.
Proof.
  split.
  - intros y loc Hy. unfold busyTree in Hy. simpl in Hy.
    repeat (apply lookup_insert_Some in Hy as [[<- <-]|[_ Hy]]; [reflexivity|]).
    rewrite lookup_empty in Hy. discriminate.
  - intros path i y Hy. unfold busyTree in *. simpl in *.
    destruct path as [|[| | |] [|j path]]; simpl in Hy;
      rewrite ?nodeAt_Undefined in Hy; simpl in Hy; try discriminate.
    + destruct i as [|[|[|i]]]; simpl in Hy;
        [injection Hy as <-; reflexivity ..|]. discriminate.
    + destruct j; simpl in Hy; rewrite ?nodeAt_Undefined in Hy; try discriminate.
      unfold QuadTree.newNode in Hy.
      destruct path as [|k path]; simpl in Hy; [discriminate|].
      destruct k; simpl in Hy; rewrite nodeAt_Undefined in Hy; discriminate.
Qed.

(** [remove(7)] on [busyTree]: the tail item 9 takes the slot of 7 and is
    mapped to it, and the empty child of the owning node is pruned. *)
Example remove_busyTree :
  QuadTree.remove busyTree 7
  = Some (QuadTree.mk
            (QuadTree.Mk (AABB.fromDimensions 0 0 1280 720)
               (QuadTree.Mk leafBounds QuadTree.Undefined QuadTree.Undefined
                            QuadTree.Undefined QuadTree.Undefined [9%nat; 8%nat])
               QuadTree.Undefined QuadTree.Undefined QuadTree.Undefined [])
            (<[9%nat := QuadTree.mkLocation [QuadTree.Q0] 0]>
               (<[8%nat := QuadTree.mkLocation [QuadTree.Q0] 1]> ∅)),
          true).
Proof.
  reflexivity.
Qed.

(** C8 (amended): on a well-formed quadtree, [remove(x)] of a located item
    [x] returns [true] and leaves a well-formed quadtree: every remaining
    item keeps an entry that names the slot holding it, the tail item moved
    into the slot of [x] is mapped to that slot and every other item keeps
    its entry, and [x] is in no entry and in no item array.  The node that
    owned [x] stays in the tree, even when it is left prunable; below it, a
    subtree is gone exactly when it lay in a prunable subtree, and no
    subtree that remains is prunable. *)
Theorem remove_keeps_location_map (q : QuadTree.t) (x : nat) (loc : QuadTree.ItemLocation) :
  wellFormed q ->
  QuadTree.itemLocations q !! x = Some loc ->
  let owner := QuadTree.nodeAt (QuadTree.root q) (QuadTree.node loc) in
  exists q',
    QuadTree.remove q x = Some (q', true)
    /\ wellFormed q'
    /\ QuadTree.itemLocations q' !! x = None
    /\ (forall path, x ∉ QuadTree.nodeItems (QuadTree.nodeAt (QuadTree.root q') path))
    /\ (forall y, y <> x ->
          last (QuadTree.nodeItems owner) = Some y ->
          QuadTree.itemLocations q' !! y = Some loc)
    /\ (forall y, y <> x ->
          last (QuadTree.nodeItems owner) <> Some y ->
          QuadTree.itemLocations q' !! y = QuadTree.itemLocations q !! y)
    /\ QuadTree.nodeAt (QuadTree.root q') (QuadTree.node loc) <> QuadTree.Undefined
    /\ (forall rest,
          rest <> [] ->
          let sub := QuadTree.nodeAt (QuadTree.root q') (QuadTree.node loc ++ rest) in
          (sub = QuadTree.Undefined <-> prunedAway owner rest = true)
          /\ (sub <> QuadTree.Undefined -> prunable sub = false)).
Proof.
  intros Hwf Hx owner.
  destruct (remove_wellFormed q x loc Hwf Hx)
    as (q' & Hrem & Hwf' & Hgone & Hnowhere & Htail & Hothers).
  destruct (remove_prunes_below q x loc (proj1 Hwf) Hx) as (q'' & Hrem' & Howner & Hbelow).
  rewrite Hrem in Hrem'. injection Hrem' as <-.
  exists q'. repeat split; try assumption; try apply Hwf'.
  - apply (Hbelow rest). assumption.
  - apply (Hbelow rest). assumption.
  - apply (Hbelow rest). assumption.
Qed.

Lemma remove_keeps_location_map_witness :
  exists q',
    QuadTree.remove busyTree 7 = Some (q', true)
    /\ wellFormed q'
    /\ QuadTree.itemLocations q' !! 7%nat = None
    /\ QuadTree.itemLocations q' !! 9%nat = Some (QuadTree.mkLocation [QuadTree.Q0] 0)
    /\ QuadTree.nodeAt (QuadTree.root q') [QuadTree.Q0] <> QuadTree.Undefined.
Proof.
  destruct (remove_keeps_location_map busyTree 7
              (QuadTree.mkLocation [QuadTree.Q0] 0) busyTree_wellFormed eq_refl)
    as (q' & Hrem & Hwf & Hx & _ & Htail & _ & Howner & _).
  exists q'. repeat split; try assumption.
  - apply Hwf.
  - apply Hwf.
  - apply Htail; [discriminate|reflexivity].
Defined.

(** C8 (as stated, refuted): the node that owned the removed item is not
    removed when it is left prunable.  After [remove(7)] on [leafTree] the
    child in slot 0 of the root has no item and no child, and is still there. *)
Lemma remove_keeps_prunable_owner :
  ~ (forall q x,
       wellFormed q -> is_Some (QuadTree.itemLocations q !! x) ->
       ownerRemovedIffPrunable q x).
Proof.
  intros H.
  specialize (H leafTree 7%nat leafTree_wellFormed (mk_is_Some _ _ eq_refl)).
  destruct (remove_prunes_below leafTree 7
              (QuadTree.mkLocation [QuadTree.Q0] 0) (proj1 leafTree_wellFormed) eq_refl)
    as (q' & Hrem & Howner & _).
  specialize (H (QuadTree.mkLocation [QuadTree.Q0] 0) q' eq_refl Hrem).
  apply Howner, H.
  unfold QuadTree.remove in Hrem. simpl in Hrem. injection Hrem as <-.
  reflexivity.
Qed.

End QuadTreeFacts.

(** ** Removing a body *)

Section RemoveBody.

Lemma indexOf_spec (l : list nat) (x : nat) :
  ((x ∉ l) /\ JsArray.indexOf l x = (-1)%Z)
  \/ (exists i, JsArray.indexOf l x = Z.of_nat i /\ l !! i = Some x).
Proof.
  induction l as [|y l IH]; simpl.
  - left. split; [apply not_elem_of_nil|reflexivity].
  - destruct (decide (y = x)) as [->|Hne].
    + right. exists 0%nat. split; reflexivity.
    + destruct IH as [[Hnot E]|(i & E & Hi)]; rewrite E.
      * left. split; [|reflexivity].
        intros Hin. apply elem_of_cons in Hin as [->|Hin]; [congruence|tauto].
      * right. exists (S i). destruct (Z.ltb_spec (Z.of_nat i) 0); [lia|].
        split; [lia|exact Hi].
Qed.

Lemma removelast_snoc {T : Type} (l : list T) (x : T) : removelast (l ++ [x]) = l.
Proof. apply removelast_last. Qed.

(** Swapping an element with the last one and popping removes one occurrence
    of that element. *)
Lemma swapRemove_permutation {T : Type} (items : list T) (i : nat) (x : T) :
  items !! i = Some x ->
  exists items', JsArray.swapRemove items (Z.of_nat i) = Some items'
                 /\ items ≡ₚ x :: items'.
Proof.
  intros Hx.
  destruct (swapRemove_in_range items i x Hx) as (items' & l & Hswap & Hlast & _ & _).
  exists items'. split; [exact Hswap|].
  unfold JsArray.swapRemove in Hswap. cbv zeta in Hswap.
  pose proof (lookup_lt_Some _ _ _ Hx) as Hlt.
  destruct (Z.ltb_spec (Z.of_nat i) 0) as [Hneg|_]; [lia|].
  destruct (Z.ltb_spec (Z.of_nat i) (Z.of_nat (length items))) as [_|Hge]; [|lia].
  rewrite Hlast, Nat2Z.id in Hswap. injection Hswap as <-.
  apply last_Some in Hlast as [front ->].
  destruct (decide (i = length front)) as [->|Hne].
  - rewrite lookup_app_r, Nat.sub_diag in Hx by lia. injection Hx as ->.
    rewrite insert_app_r_alt, Nat.sub_diag by lia. simpl.
    rewrite removelast_snoc. symmetry. apply Permutation_cons_append.
  - rewrite length_app in Hlt. simpl in Hlt.
    rewrite lookup_app_l in Hx by lia.
    rewrite insert_app_l by lia. rewrite removelast_snoc.
    rewrite <- Permutation_cons_append.
    apply list_elem_of_split_length in Hx as (l1 & l2 & -> & ->).
    rewrite insert_app_r_alt, Nat.sub_diag by lia. simpl.
    rewrite <- !Permutation_middle. apply perm_swap.
Qed.

(** C10: [removeBody(b)] leaves the store alone and removes [b] from the
    broad phase, which stays well formed and keeps every other item; when [b]
    is in the body list one occurrence of it is removed and the other bodies
    are kept, possibly in another order; when [b] is not in the body list
    the last body of the list is removed, so that on a list that is not
    empty the call is not a no-op. *)
Theorem removeBody_spec (b : nat) (w : World) :
  wellFormed (PhysicsEngine.quadtree (engine w)) ->
  exists w',
    Engine.removeBody b w = Normal w'
    /\ store w' = store w
    /\ (b ∈ PhysicsEngine.bodies (engine w) ->
        PhysicsEngine.bodies (engine w) ≡ₚ b :: PhysicsEngine.bodies (engine w'))
    /\ (b ∉ PhysicsEngine.bodies (engine w) ->
        PhysicsEngine.bodies (engine w') = removelast (PhysicsEngine.bodies (engine w))
        /\ (PhysicsEngine.bodies (engine w) <> [] ->
            exists l, PhysicsEngine.bodies (engine w)
                      = PhysicsEngine.bodies (engine w') ++ [l]))
    /\ wellFormed (PhysicsEngine.quadtree (engine w'))
    /\ QuadTree.itemLocations (PhysicsEngine.quadtree (engine w')) !! b = None
    /\ (forall path,
          b ∉ QuadTree.nodeItems
                (QuadTree.nodeAt (QuadTree.root (PhysicsEngine.quadtree (engine w'))) path))
    /\ (forall y, y <> b ->
          is_Some (QuadTree.itemLocations (PhysicsEngine.quadtree (engine w')) !! y)
          <-> is_Some (QuadTree.itemLocations (PhysicsEngine.quadtree (engine w)) !! y)).
Proof.
  intros Hwf. unfold Engine.removeBody. cbv zeta.
  set (bodies := PhysicsEngine.bodies (engine w)).
  set (q := PhysicsEngine.quadtree (engine w)) in *.
  (* the broad phase *)
  assert (Hq : exists q' found,
             QuadTree.remove q b = Some (q', found)
             /\ wellFormed q'
             /\ QuadTree.itemLocations q' !! b = None
             /\ (forall path, b ∉ QuadTree.nodeItems (QuadTree.nodeAt (QuadTree.root q') path))
             /\ (forall y, y <> b ->
                   is_Some (QuadTree.itemLocations q' !! y)
                   <-> is_Some (QuadTree.itemLocations q !! y))).
  { destruct (QuadTree.itemLocations q !! b) as [loc|] eqn:Hloc.
    - destruct (remove_wellFormed q b loc Hwf Hloc)
        as (q' & Hrem & Hwf' & Hb & Hnot & Htail & Hother).
      exists q', true. repeat split; try assumption; try apply Hwf'.
      + intros Hy.
        destruct (decide (last (QuadTree.nodeItems
                                  (QuadTree.nodeAt (QuadTree.root q) (QuadTree.node loc)))
                          = Some y)) as [Hl|Hl].
        * rewrite (proj2 Hwf (QuadTree.node loc)
                     (pred (length (QuadTree.nodeItems
                        (QuadTree.nodeAt (QuadTree.root q) (QuadTree.node loc))))) y);
            [eauto|]. rewrite <- last_lookup. exact Hl.
        * rewrite <- (Hother y H Hl). exact Hy.
      + intros Hy.
        destruct (decide (last (QuadTree.nodeItems
                                  (QuadTree.nodeAt (QuadTree.root q) (QuadTree.node loc)))
                          = Some y)) as [Hl|Hl].
        * rewrite (Htail y H Hl). eauto.
        * rewrite (Hother y H Hl). exact Hy.
    - exists q, false. unfold QuadTree.remove. rewrite Hloc.
      repeat split; try assumption; try apply Hwf; try tauto.
      intros path Hin. apply list_elem_of_lookup in Hin as [j Hj].
      pose proof (proj2 Hwf path j b Hj) as E. rewrite Hloc in E. discriminate. }
  destruct Hq as (q' & found & Hrem & Hwf' & Hb & Hnot & Hdom).
  destruct (indexOf_spec bodies b) as [[Habsent E]|(i & E & Hi)]; rewrite E.
  - unfold JsArray.swapRemove. simpl. rewrite Hrem.
    eexists. split; [reflexivity|]. simpl.
    split; [reflexivity|]. split; [tauto|].
    split.
    { intros _. split; [reflexivity|]. intros Hne.
      destruct (exists_last Hne) as (front & l & Hl). exists l.
      fold bodies. rewrite Hl, removelast_snoc. reflexivity. }
    repeat split; try assumption; apply Hwf' || apply Hdom; assumption.
  - destruct (swapRemove_permutation bodies i b Hi) as (bodies' & Hswap & Hperm).
    rewrite Hswap, Hrem.
    eexists. split; [reflexivity|]. simpl.
    split; [reflexivity|]. split; [intros _; exact Hperm|].
    split.
    { intros Habsent. exfalso. apply Habsent. eapply list_elem_of_lookup_2, Hi. }
    repeat split; try assumption; apply Hwf' || apply Hdom; assumption.
Qed.

(** On [busyWorld], removing the body 7 leaves the bodies 9 and 8, and
    removing the unknown body 5 drops the body 9. *)
Example removeBody_present :
  exists w', Engine.removeBody 7 busyWorld = Normal w'
             /\ PhysicsEngine.bodies (engine w') = [9%nat; 8%nat].
Proof. eexists. split; reflexivity. Qed.

Example removeBody_absent :
  exists w', Engine.removeBody 5 busyWorld = Normal w'
             /\ PhysicsEngine.bodies (engine w') = [7%nat; 8%nat]
             /\ PhysicsEngine.quadtree (engine w') = busyTree.
Proof. eexists. split; [reflexivity|]. split; reflexivity. Qed.

Lemma removeBody_spec_witness :
  exists w',
    Engine.removeBody 5 busyWorld = Normal w'
    /\ PhysicsEngine.bodies (engine w') = [7%nat; 8%nat].
Proof.
  destruct (removeBody_spec 5 busyWorld busyTree_wellFormed)
    as (w' & Hrun & _ & _ & Habsent & _).
  exists w'. split; [exact Hrun|].
  apply Habsent. unfold busyWorld. simpl.
  intros Hin. repeat (apply elem_of_cons in Hin as [Hin|Hin]; [discriminate|]).
  inversion Hin.
Defined.

End RemoveBody.

(** ** Islands *)

Section IslandFacts.

Lemma add_elem (r m : nat) (ms : list nat) : r ∈ Island.add m ms <-> r ∈ ms \/ r = m.
Proof.
  unfold Island.add. destruct (decide (m ∈ ms)) as [Hm|Hm].
  - split; [tauto|]. intros [H| ->]; assumption.
  - rewrite elem_of_app, list_elem_of_singleton. tauto.
Qed.

Lemma fold_add_elem (l ms : list nat) (r : nat) :
  r ∈ fold_left (fun ms m => Island.add m ms) l ms <-> r ∈ ms \/ r ∈ l.
Proof.
  revert ms. induction l as [|m l IH]; intros ms; simpl.
  - split; [tauto|]. intros [H|H]; [exact H|inversion H].
  - rewrite IH, add_elem, elem_of_cons. tauto.
Qed.

Lemma mergeLoop_bodies (this : nat) (l : list nat) (s : Store) (r : nat) :
  bodyObjs (Island.mergeLoop this l s) !! r
  = if decide (r ∈ l)
    then (fun b => RigidBody.with_island b (Some this)) <$> bodyObjs s !! r
    else bodyObjs s !! r.
Proof.
  unfold Island.mergeLoop. revert s. induction l as [|m l IH]; intros s; cbn [fold_left].
  - case_decide as Hin; [inversion Hin|reflexivity].
  - rewrite IH. unfold onBody, onIsland, with_bodyObjs, with_islandObjs.
    cbn [bodyObjs islandObjs].
    destruct (decide (r = m)) as [->|Hne].
    + rewrite lookup_alter_eq.
      destruct (decide (m ∈ m :: l)) as [_|Hn]; [|exfalso; apply Hn; left].
      destruct (decide (m ∈ l)); [|reflexivity].
      destruct (bodyObjs s !! m); reflexivity.
    + rewrite lookup_alter_ne by congruence.
      destruct (decide (r ∈ l)) as [Hl|Hl];
        destruct (decide (r ∈ m :: l)) as [Hl'|Hl']; try reflexivity.
      * exfalso. apply Hl'. right. exact Hl.
      * exfalso. apply elem_of_cons in Hl' as [?|?]; tauto.
Qed.

Lemma mergeLoop_islands (this : nat) (l : list nat) (s : Store) (i : nat) :
  islandObjs (Island.mergeLoop this l s) !! i
  = if decide (i = this)
    then (fun ms => fold_left (fun ms m => Island.add m ms) l ms) <$> islandObjs s !! i
    else islandObjs s !! i.
Proof.
  unfold Island.mergeLoop. revert s. induction l as [|m l IH]; intros s; cbn [fold_left].
  - destruct (decide (i = this)); [|reflexivity].
    destruct (islandObjs s !! i); reflexivity.
  - rewrite IH. unfold onBody, onIsland, with_bodyObjs, with_islandObjs.
    cbn [bodyObjs islandObjs].
    destruct (decide (i = this)) as [->|Hne].
    + rewrite lookup_alter_eq. destruct (islandObjs s !! this); reflexivity.
    + rewrite lookup_alter_ne by congruence. reflexivity.
Qed.










Lemma merge_unfold (this other : nat) (s : Store) :
  Island.merge this other s
  = onIsland other (fun _ => [])
      (Island.mergeLoop this (default [] (islandObjs s !! other)) s).
Proof. reflexivity. Qed.





Lemma joinIslands_quadtree (a b : nat) (w : World) :
  PhysicsEngine.quadtree (engine (Engine.joinIslands a b w))
  = PhysicsEngine.quadtree (engine w).
Proof.
  unfold Engine.joinIslands.
  destruct (bodyObjs (store w) !! a) as [bodyA|]; [|reflexivity].
  destruct (bodyObjs (store w) !! b) as [bodyB|]; [|reflexivity].
  destruct (RigidBody.island bodyA), (RigidBody.island bodyB);
    try reflexivity.
  destruct (decide (_ = _)); reflexivity.
Qed.



Lemma holdsAfter_forEach_in {A S : Type} (I : S -> Prop) (Q : World -> Prop)
    (f : S -> A -> Outcome S) (l : list A) (s : S) :
  (forall s a, a ∈ l -> I s -> holdsAfter I Q (f s a)) ->
  I s ->
  holdsAfter I Q (forEach f l s).
Proof.
  unfold forEach. intros Hf Hs.
  assert (Ho : holdsAfter I Q (Normal s)) by exact Hs.
  revert Hf Ho. generalize (Normal s). clear Hs.
  induction l as [|a l IH]; intros o Hf Ho; cbn [fold_left]; [exact Ho|].
  apply IH.
  - intros s' a' Ha'. apply Hf. right. exact Ha'.
  - eapply holdsAfter_bind; [exact Ho|]. intros s' Hs'. apply Hf; [left|exact Hs'].
Qed.







(** The log of confirmed pairs is an observation: without it, the traced
    pass is [checkCollisions]. *)
Lemma forEach_erase {A S G : Type} (f : S -> A -> Outcome S)
    (g : S * G -> A -> Outcome (S * G)) :
  (forall s γ a, bind (g (s, γ) a) (fun r => Normal (fst r)) = f s a) ->
  forall l s γ,
    bind (forEach g l (s, γ)) (fun r => Normal (fst r)) = forEach f l s.
Proof.
  intros Hfg l s γ. unfold forEach.
  change (Normal s) with (bind (Normal (s, γ)) (fun r : S * G => Normal (fst r))).
  generalize (Normal (s, γ)).
  induction l as [|a l IH]; intros o; cbn [fold_left]; [reflexivity|].
  rewrite IH. f_equal.
  destruct o as [[s' γ']| |]; cbn [bind]; [apply Hfg|reflexivity|reflexivity].
Qed.

Lemma visitPair_traced fuel (refA refB : nat) (st : World * list Z)
    (log : list (nat * nat)) :
  bind (Engine.visitPairTraced fuel refA (st, log) refB) (fun r => Normal (fst r))
  = Engine.visitPair fuel refA st refB.
Proof.
  unfold Engine.visitPairTraced. cbn [fst snd].
  destruct (Engine.visitPair fuel refA st refB); reflexivity.
Qed.

Lemma checkCollisions_traced fuel (w : World) :
  bind (Engine.checkCollisionsTraced fuel w) (fun r => Normal (fst r))
  = Engine.checkCollisions fuel w.
Proof.
  unfold Engine.checkCollisionsTraced, Engine.checkCollisions. cbv zeta.
  set (f := fun (st : World * list Z) refA =>
              match bodyObjs (store (fst st)) !! refA with
              | Some bodyA =>
                  forEach (Engine.visitPair fuel refA)
                    (QuadTree.get (Engine.boundsOf (store (fst st)))
                       (PhysicsEngine.quadtree (engine (fst st)))
                       (RigidBody.bounds bodyA)) st
              | None => Normal st
              end).
  set (g := fun (st : World * list Z * list (nat * nat)) refA =>
              match bodyObjs (store (fst (fst st))) !! refA with
              | Some bodyA =>
                  forEach (Engine.visitPairTraced fuel refA)
                    (QuadTree.get (Engine.boundsOf (store (fst (fst st))))
                       (PhysicsEngine.quadtree (engine (fst (fst st))))
                       (RigidBody.bounds bodyA)) st
              | None => Normal st
              end).
  assert (Hfg : forall st log refA,
             bind (g (st, log) refA) (fun r => Normal (fst r)) = f st refA).
  { intros st log refA. unfold f, g. cbn [fst].
    destruct (bodyObjs (store (fst st)) !! refA); [|reflexivity].
    apply forEach_erase. intros st' log' refB. apply visitPair_traced. }
  rewrite <- (forEach_erase f g Hfg (PhysicsEngine.bodies (engine w))
                (w, NumMap.keys (PhysicsEngine.collisions (engine w))) []).
  destruct (forEach g _ _) as [[[w' resolved] log]| |]; reflexivity.
Qed.

(** The pass that [step] runs is the traced pass from the world that the
    reset loop leaves, without its log. *)
Lemma step_traced fuel (deltaSeconds : R) (w : World) :
  Engine.step fuel deltaSeconds w
  = bind (forEach (Engine.integrateBody deltaSeconds) (PhysicsEngine.bodies (engine w)) w)
      (fun w1 =>
         bind (bind (Engine.checkCollisionsTraced fuel (Engine.resetIslands w1))
                    (fun r => Normal (fst r)))
           (fun w4 =>
              let w5 := Engine.resolveCollisions w4 in
              Normal
                (onStore
                   (fun s =>
                      fold_left
                        (Engine.arbitrateIsland (PhysicsEngine.config (engine w5))
                                                deltaSeconds)
                        (PhysicsEngine.islands (engine w5)) s) w5))).
Proof.
  unfold Engine.step.
  destruct (forEach _ _ _) as [w1| |]; cbn [bind]; try reflexivity.
  rewrite checkCollisions_traced. reflexivity.
Qed.




(** The bookkeeping alone, on the bodies 7, 8 and 9 of [busyWorld] after the
    reset: joining 7 with 8 makes an island, joining 8 with 9 adds 9 to it. *)
Example joinIslands_chain :
  oneIsland
    (Engine.joinIslands 8 9 (Engine.joinIslands 7 8 (Engine.resetIslands busyWorld)))
    7 8 9.
Proof.
  exists 0%nat, [7%nat; 8%nat; 9%nat].
  split; [reflexivity|]. split; [reflexivity|]. split; [reflexivity|].
  split; [left|]. split; [reflexivity|].
  split; [left|]. split; [right; left|right; right; left].
Qed.

(** Two islands that a later pair joins: 7 with 8, 9 with 10, then 8 with 9
    merges the second island into the first and leaves it empty. *)
Example joinIslands_merge :
  let w :=
    mkWorld
      (mkStore (<[7%nat := disc 7 100 100 false]>
                  (<[8%nat := disc 8 101 100 false]>
                     (<[9%nat := disc 9 102 100 false]>
                        (<[10%nat := disc 10 103 100 false]> ∅)))) ∅ ∅)
      (PhysicsEngine.new (AABB.fromDimensions 0 0 1280 720) PhysicsEngineConfigDefault) in
  let w' :=
    Engine.joinIslands 8 9 (Engine.joinIslands 9 10 (Engine.joinIslands 7 8 w)) in
  oneIsland w' 7 8 9 /\ oneIsland w' 8 9 10
  /\ islandObjs (store w') !! 1%nat = Some [].
Proof.
  cbv zeta. split; [|split].
  - exists 0%nat, [7%nat; 8%nat; 9%nat; 10%nat].
    split; [reflexivity|]. split; [reflexivity|]. split; [reflexivity|].
    split; [left|]. split; [reflexivity|].
    split; [left|]. split; [right; left|right; right; left].
  - exists 0%nat, [7%nat; 8%nat; 9%nat; 10%nat].
    split; [reflexivity|]. split; [reflexivity|]. split; [reflexivity|].
    split; [left|]. split; [reflexivity|].
    split; [right; left|]. split; [right; right; left|right; right; right; left].
  - reflexivity.
Qed.

End IslandFacts.

(** ** The broad phase holds bodies of the engine *)

Section HeldItems.

Lemma elem_of_removelast {T : Type} (l : list T) (x : T) :
  x ∈ removelast l -> x ∈ l.
Proof.
  induction l as [|a l IH]; cbn [removelast]; [intros H; exact H|].
  destruct l as [|b l]; [intros H; inversion H|].
  intros H. apply elem_of_cons in H as [->|H]; [left|right; apply IH, H].
Qed.

Lemma elem_of_insert_inv {T : Type} (l : list T) (i : nat) (x y : T) :
  x ∈ <[i := y]> l -> x = y \/ x ∈ l.
Proof.
  revert i. induction l as [|a l IH]; intros i; [intros H; inversion H|].
  destruct i as [|i]; cbn; intros H; apply elem_of_cons in H as [->|H].
  - left. reflexivity.
  - right. right. exact H.
  - right. left.
  - destruct (IH i H) as [->|H']; [left; reflexivity|right; right; exact H'].
Qed.

Lemma swapRemove_subset {T : Type} (items items' : list T) (idx : Z) (x : T) :
  JsArray.swapRemove items idx = Some items' -> x ∈ items' -> x ∈ items.
Proof.
  unfold JsArray.swapRemove. cbv zeta.
  destruct (idx <? 0)%Z.
  { intros [= <-]. apply elem_of_removelast. }
  destruct (idx <? Z.of_nat (length items))%Z.
  { destruct (last items) as [l|] eqn:Hl; [|intros [= <-]; auto].
    intros [= <-] Hx. apply elem_of_removelast, elem_of_insert_inv in Hx as [->|Hx].
    - eapply last_Some_elem_of. exact Hl.
    - exact Hx. }
  destruct (idx =? Z.of_nat (length items))%Z; [|discriminate].
  intros [= <-]. auto.
Qed.

Lemma getAll_child (n : QuadTree.Node) (i : QuadTree.Quadrant) (x : nat) :
  x ∈ QuadTree.getAll (QuadTree.child n i) -> x ∈ QuadTree.getAll n.
Proof.
  destruct n; [intros H; exact H|].
  destruct i; cbn; rewrite !elem_of_app; tauto.
Qed.

Lemma getAll_with_child (n c : QuadTree.Node) (i : QuadTree.Quadrant) (x : nat) :
  x ∈ QuadTree.getAll (QuadTree.with_child n i c) ->
  x ∈ QuadTree.getAll c \/ x ∈ QuadTree.getAll n.
Proof.
  destruct n; [intros H; inversion H|].
  destruct i; cbn; rewrite !elem_of_app; tauto.
Qed.

Lemma getAll_with_items (n : QuadTree.Node) (items : list nat) (x : nat) :
  x ∈ QuadTree.getAll (QuadTree.with_items n items) ->
  x ∈ items \/ x ∈ QuadTree.getAll n.
Proof.
  destruct n; [intros H; inversion H|].
  cbn. rewrite !elem_of_app. tauto.
Qed.

Lemma getAll_nodeItems (n : QuadTree.Node) (x : nat) :
  x ∈ QuadTree.nodeItems n -> x ∈ QuadTree.getAll n.
Proof.
  destruct n; [intros H; exact H|]. cbn. rewrite !elem_of_app. tauto.
Qed.

Lemma getAll_prune (n : QuadTree.Node) (x : nat) :
  x ∈ QuadTree.getAll (fst (QuadTree.prune n)) -> x ∈ QuadTree.getAll n.
Proof.
  induction n as [|b c0 IH0 c1 IH1 c2 IH2 c3 IH3 items]; [intros H; exact H|].
  cbn [QuadTree.prune].
  destruct (QuadTree.prune c0) as [c0' p0], (QuadTree.prune c1) as [c1' p1],
           (QuadTree.prune c2) as [c2' p2], (QuadTree.prune c3) as [c3' p3].
  cbn [fst] in *. cbn [QuadTree.getAll]. rewrite !elem_of_app.
  assert (Hc : forall (p : bool) c' c,
             (x ∈ QuadTree.getAll c' -> x ∈ QuadTree.getAll c) ->
             x ∈ QuadTree.getAll (if p then QuadTree.Undefined else c') ->
             x ∈ QuadTree.getAll c).
  { intros [|] c' c IH H; [inversion H|apply IH, H]. }
  intros [H|[H|[H|[H|H]]]].
  - left. exact H.
  - right. left. apply (Hc p0 c0' c0 IH0 H).
  - right. right. left. apply (Hc p1 c1' c1 IH1 H).
  - right. right. right. left. apply (Hc p2 c2' c2 IH2 H).
  - right. right. right. right. apply (Hc p3 c3' c3 IH3 H).
Qed.

Lemma getAll_updateAt (P : Prop) (n : QuadTree.Node) (path : list QuadTree.Quadrant)
    (f : QuadTree.Node -> QuadTree.Node) (x : nat) :
  (x ∈ QuadTree.getAll (f (QuadTree.nodeAt n path)) ->
   x ∈ QuadTree.getAll (QuadTree.nodeAt n path) \/ P) ->
  x ∈ QuadTree.getAll (QuadTree.updateAt n path f) ->
  x ∈ QuadTree.getAll n \/ P.
Proof.
  revert n. induction path as [|i rest IH]; intros n Hf; cbn; [exact Hf|].
  intros H. apply getAll_with_child in H as [H|H]; [|left; exact H].
  destruct (IH (QuadTree.child n i) Hf H) as [H'|H']; [left|right; exact H'].
  eapply getAll_child. exact H'.
Qed.

Lemma getAll_nodeAt (n : QuadTree.Node) (path : list QuadTree.Quadrant) (x : nat) :
  x ∈ QuadTree.getAll (QuadTree.nodeAt n path) -> x ∈ QuadTree.getAll n.
Proof.
  revert n. induction path as [|i rest IH]; intros n; cbn; [auto|].
  intros H. eapply getAll_child. apply IH, H.
Qed.

(** [remove] adds no item to the tree. *)
Lemma getAll_remove (q q' : QuadTree.t) (item : nat) (found : bool) (x : nat) :
  QuadTree.remove q item = Some (q', found) ->
  x ∈ QuadTree.getAll (QuadTree.root q') -> x ∈ QuadTree.getAll (QuadTree.root q).
Proof.
  unfold QuadTree.remove.
  destruct (QuadTree.itemLocations q !! item) as [loc|]; [|intros [= <- _]; auto].
  destruct (JsArray.swapRemove _ _) as [items'|] eqn:Hswap; [|discriminate].
  cbv zeta. intros [= <- _]. cbn [QuadTree.root]. intros H.
  apply (getAll_updateAt False) in H as [H|[]]; [exact H|].
  intros Hx. left. apply getAll_prune, getAll_with_items in Hx as [Hx|Hx]; [|exact Hx].
  apply getAll_nodeItems. eapply swapRemove_subset; eassumption.
Qed.

(** [insert] adds at most the item. *)
Lemma getAll_insertNode (levels : nat) (n : QuadTree.Node) (item : nat)
    (itemBounds : AABB.t) (x : nat) :
  x ∈ QuadTree.getAll (fst (QuadTree.insertNode levels n item itemBounds)) ->
  x ∈ QuadTree.getAll n \/ x = item.
Proof.
  assert (Hhere : forall n,
             x ∈ QuadTree.getAll
                   (QuadTree.with_items n (QuadTree.nodeItems n ++ [item])) ->
             x ∈ QuadTree.getAll n \/ x = item).
  { intros m H. apply getAll_with_items in H as [H|H]; [|left; exact H].
    apply elem_of_app in H as [H|H]; [left; apply getAll_nodeItems, H|].
    right. apply list_elem_of_singleton, H. }
  revert n. induction levels as [|below IH]; intros n; [apply Hhere|].
  destruct n as [|b c0 c1 c2 c3 items]; [apply Hhere|].
  cbn [QuadTree.insertNode].
  destruct (find _ QuadTree.quadrants) as [i|]; [|apply Hhere].
  set (n := QuadTree.Mk b c0 c1 c2 c3 items).
  assert (Hc : forall c,
             x ∈ QuadTree.getAll
                   match c with
                   | QuadTree.Undefined => QuadTree.newNode (QuadTree.childBounds b i)
                   | QuadTree.Mk b' a0 a1 a2 a3 its => QuadTree.Mk b' a0 a1 a2 a3 its
                   end ->
             x ∈ QuadTree.getAll c).
  { intros [|? ? ? ? ? ?] H; [inversion H|exact H]. }
  match goal with
  | |- context [QuadTree.insertNode below ?c item itemBounds] =>
      specialize (IH c); specialize (Hc (QuadTree.child n i));
      destruct (QuadTree.insertNode below c item itemBounds) as [c' loc]
  end.
  cbn [fst] in *. intros H.
  apply getAll_with_child in H as [H|H]; [|left; exact H].
  destruct (IH H) as [H'|H']; [left|right; exact H'].
  eapply getAll_child. apply Hc. exact H'.
Qed.

Lemma getAll_insert (q : QuadTree.t) (item : nat) (itemBounds : AABB.t) (x : nat) :
  x ∈ QuadTree.getAll (QuadTree.root (fst (QuadTree.insert q item itemBounds))) ->
  x ∈ QuadTree.getAll (QuadTree.root q) \/ x = item.
Proof.
  unfold QuadTree.insert.
  destruct (QuadTree.nodeBounds (QuadTree.root q)) as [rb|]; [|auto].
  destruct (AABB.contains rb itemBounds); [|auto].
  pose proof (getAll_insertNode QuadTree.MAX_DEPTH (QuadTree.root q) item itemBounds x) as H.
  destruct (QuadTree.insertNode _ _ _ _) as [root' loc]. exact H.
Qed.

Lemma getAll_update (q q' : QuadTree.t) (item : nat) (itemBounds : AABB.t)
    (found : bool) (x : nat) :
  QuadTree.update q item itemBounds = Some (q', found) ->
  x ∈ QuadTree.getAll (QuadTree.root q') ->
  x ∈ QuadTree.getAll (QuadTree.root q) \/ x = item.
Proof.
  unfold QuadTree.update.
  destruct (QuadTree.remove q item) as [[q1 f1]|] eqn:Hrem; [|discriminate].
  intros Hins Hx.
  assert (Hq' : q' = fst (QuadTree.insert q1 item itemBounds)).
  { destruct (QuadTree.insert q1 item itemBounds). cbn. congruence. }
  subst q'. apply getAll_insert in Hx as [Hx|Hx]; [left|right; exact Hx].
  eapply getAll_remove; eassumption.
Qed.

Lemma getAll_path (n : QuadTree.Node) (x : nat) :
  x ∈ QuadTree.getAll n ->
  exists path, x ∈ QuadTree.nodeItems (QuadTree.nodeAt n path).
Proof.
  induction n as [|b c0 IH0 c1 IH1 c2 IH2 c3 IH3 items]; [intros H; inversion H|].
  cbn [QuadTree.getAll]. rewrite !elem_of_app. intros [H|[H|[H|[H|H]]]].
  - exists []. exact H.
  - destruct (IH0 H) as [path Hp]. exists (QuadTree.Q0 :: path). exact Hp.
  - destruct (IH1 H) as [path Hp]. exists (QuadTree.Q1 :: path). exact Hp.
  - destruct (IH2 H) as [path Hp]. exists (QuadTree.Q2 :: path). exact Hp.
  - destruct (IH3 H) as [path Hp]. exists (QuadTree.Q3 :: path). exact Hp.
Qed.

(** A new engine. *)
Lemma itemsHeld_new (s : Store) (worldBounds : AABB.t) (config : PhysicsEngineConfig) :
  itemsHeld (mkWorld s (PhysicsEngine.new worldBounds config)).
Proof. intros r Hr. inversion Hr. Qed.

Lemma itemsHeld_addBody (body : nat) (w : World) :
  itemsHeld w -> itemsHeld (Engine.addBody body w).
Proof.
  intros H r. unfold Engine.addBody. cbv zeta.
  destruct (Engine.boundsOf (store w) body) as [b|];
    cbn [onEngine engine PhysicsEngine.quadtree PhysicsEngine.bodies
         PhysicsEngine.with_quadtree PhysicsEngine.with_bodies]; intros Hr.
  - apply elem_of_app. apply getAll_insert in Hr as [Hr| ->].
    + left. apply H, Hr.
    + right. apply list_elem_of_singleton. reflexivity.
  - apply elem_of_app. left. apply H, Hr.
Qed.

Lemma sameBroadPhase_refl (w : World) : sameBroadPhase w w.
Proof. split; reflexivity. Qed.

Lemma itemsHeld_same (w0 w : World) :
  sameBroadPhase w0 w -> itemsHeld w0 -> itemsHeld w.
Proof. intros [Hq Hb] H r. rewrite Hq, Hb. apply H. Qed.

(** The first loop of [step] moves held bodies within the broad phase. *)
Lemma itemsHeld_integrateBody (dt : R) (bodies : list nat) (w : World) (r : nat) :
  r ∈ bodies ->
  itemsHeld w /\ PhysicsEngine.bodies (engine w) = bodies ->
  holdsAfter (fun w' => itemsHeld w' /\ PhysicsEngine.bodies (engine w') = bodies)
             (fun w' => itemsHeld w')
             (Engine.integrateBody dt w r).
Proof.
  intros Hr [H Hb]. unfold Engine.integrateBody.
  destruct (bodyObjs (store w) !! r) as [body|]; [|split; assumption].
  destruct (RigidBody.fixed body || RigidBody.sleeping body); [split; assumption|].
  cbv zeta.
  match goal with |- context [if ?c then _ else _] => destruct c end;
    [|split; assumption].
  destruct (QuadTree.update _ _ _) as [[q' found]|] eqn:Hup; [|exact I].
  cbn [holdsAfter onEngine onStore engine PhysicsEngine.quadtree PhysicsEngine.bodies
       PhysicsEngine.with_quadtree].
  split; [|exact Hb].
  intros x Hx.
  cbn [onEngine onStore engine PhysicsEngine.quadtree PhysicsEngine.bodies
       PhysicsEngine.with_quadtree] in *.
  destruct (getAll_update _ _ _ _ _ _ Hup Hx) as [Hx'| ->].
  - apply H, Hx'.
  - rewrite Hb. exact Hr.
Qed.

Lemma joinIslands_bodies (a b : nat) (w : World) :
  PhysicsEngine.bodies (engine (Engine.joinIslands a b w))
  = PhysicsEngine.bodies (engine w).
Proof.
  unfold Engine.joinIslands.
  destruct (bodyObjs (store w) !! a) as [bodyA|]; [|reflexivity].
  destruct (bodyObjs (store w) !! b) as [bodyB|]; [|reflexivity].
  destruct (RigidBody.island bodyA), (RigidBody.island bodyB);
    try reflexivity.
  destruct (decide (_ = _)); reflexivity.
Qed.

Lemma checkCollision_engine fuel (a b : nat) (w : World) :
  holdsAfter (fun r : World * option Collision.t => engine (fst r) = engine w)
             (fun w' => engine w' = engine w)
             (Engine.checkCollision fuel a b w).
Proof.
  unfold Engine.checkCollision.
  destruct (bodyObjs (store w) !! a); [|reflexivity].
  destruct (bodyObjs (store w) !! b); [|reflexivity].
  cbv zeta.
  destruct (Gjk.GJK _ _ _); try reflexivity; try exact I.
  destruct (Epa.EPA _ _ _); reflexivity.
Qed.

Lemma sameBroadPhase_visitPair fuel (w0 : World) (refA refB : nat) (st : World * list Z) :
  sameBroadPhase w0 (fst st) ->
  holdsAfter (fun st' : World * list Z => sameBroadPhase w0 (fst st'))
             (sameBroadPhase w0)
             (Engine.visitPair fuel refA st refB).
Proof.
  destruct st as [w resolved]. cbn [fst]. intros H.
  unfold Engine.visitPair.
  destruct (bodyObjs (store w) !! refA) as [bodyA|]; [|exact H].
  destruct (bodyObjs (store w) !! refB) as [bodyB|]; [|exact H].
  match goal with |- context [if ?c then _ else _] => destruct c end; [exact H|].
  eapply holdsAfter_bind.
  - eapply holdsAfter_weaken; [apply checkCollision_engine| |].
    + intros r Hr. exact Hr.
    + intros w' Hw'. unfold sameBroadPhase. rewrite Hw'. exact H.
  - intros [w1 found] He. cbn [fst] in He.
    assert (H1 : sameBroadPhase w0 w1).
    { unfold sameBroadPhase. rewrite He. exact H. }
    destruct found as [collision|]; [|exact H1].
    cbv zeta.
    set (w3 := Engine.joinIslands refA refB _).
    assert (H3 : sameBroadPhase w0 w3).
    { unfold sameBroadPhase, w3.
      rewrite joinIslands_quadtree, joinIslands_bodies. exact H1. }
    destruct (NumMap.get _ _) as [existing|]; [|exact H3].
    destruct (JsArray.swapRemove _ _); [|exact I].
    destruct (Engine.persistContacts _ _ _); [exact H3|exact I].
Qed.

Lemma sameBroadPhase_checkCollisions fuel (w : World) :
  holdsAfter (sameBroadPhase w) (sameBroadPhase w) (Engine.checkCollisions fuel w).
Proof.
  unfold Engine.checkCollisions. cbv zeta.
  eapply holdsAfter_bind.
  - apply (holdsAfter_forEach (fun st : World * list Z => sameBroadPhase w (fst st))
                              (sameBroadPhase w)); [|apply sameBroadPhase_refl].
    intros st refA Hst.
    destruct (bodyObjs (store (fst st)) !! refA); [|exact Hst].
    apply holdsAfter_forEach; [|exact Hst].
    intros st' refB Hst'. apply sameBroadPhase_visitPair, Hst'.
  - intros [w' resolved] Hw'. exact Hw'.
Qed.

(** A step keeps the broad phase within the bodies of the engine, also when
    the narrow phase throws. *)
Lemma itemsHeld_step fuel (dt : R) (w : World) :
  itemsHeld w -> holdsAfter itemsHeld itemsHeld (Engine.step fuel dt w).
Proof.
  intros H. unfold Engine.step.
  eapply holdsAfter_bind.
  - apply (holdsAfter_forEach_in
             (fun w' => itemsHeld w'
                        /\ PhysicsEngine.bodies (engine w') = PhysicsEngine.bodies (engine w))
             itemsHeld); [|split; [exact H|reflexivity]].
    intros w1 r Hr H1. apply itemsHeld_integrateBody; assumption.
  - intros w1 [H1 _]. cbv zeta.
    assert (H3 : itemsHeld (Engine.resetIslands w1)) by exact H1.
    eapply holdsAfter_bind.
    + eapply holdsAfter_weaken; [apply sameBroadPhase_checkCollisions| |].
      * intros w4 H4. exact (itemsHeld_same _ _ H4 H3).
      * intros w4 H4. exact (itemsHeld_same _ _ H4 H3).
    + intros w4 H4. exact H4.
Qed.

Lemma itemsHeld_steps fuel (n : nat) (w : World) :
  itemsHeld w -> holdsAfter itemsHeld itemsHeld (Engine.steps fuel n w).
Proof.
  revert w. induction n as [|n IH]; intros w H; [exact H|].
  cbn [Engine.steps]. eapply holdsAfter_bind; [apply itemsHeld_step, H|].
  intros w' H'. apply IH, H'.
Qed.

Lemma itemsHeld_update fuel (start stop dt : R) (w : World) :
  itemsHeld w ->
  holdsAfter (fun r : World * Z => itemsHeld (fst r)) itemsHeld
             (Engine.update fuel start stop dt w).
Proof.
  intros H. unfold Engine.update. cbv zeta.
  eapply holdsAfter_bind; [apply itemsHeld_steps, H|].
  intros w' H'. exact H'.
Qed.

(** [removeBody] of a body of the list, on a well formed broad phase. *)
Lemma itemsHeld_removeBody (b : nat) (w : World) :
  itemsHeld w -> wellFormed (PhysicsEngine.quadtree (engine w)) ->
  b ∈ PhysicsEngine.bodies (engine w) ->
  holdsAfter itemsHeld (fun _ => True) (Engine.removeBody b w).
Proof.
  intros H Hwf Hb. unfold Engine.removeBody. cbv zeta.
  destruct (indexOf_spec (PhysicsEngine.bodies (engine w)) b)
    as [[Hnot _]|(i & Hi & Hlook)]; [contradiction|].
  rewrite Hi.
  destruct (swapRemove_permutation _ i b Hlook) as (bodies' & -> & Hperm).
  destruct (QuadTree.remove _ b) as [[q' found]|] eqn:Hrem; [|exact I].
  cbn [holdsAfter]. intros r.
  cbn [onEngine engine PhysicsEngine.quadtree PhysicsEngine.bodies
       PhysicsEngine.with_quadtree PhysicsEngine.with_bodies].
  intros Hr.
  assert (Hold : r ∈ PhysicsEngine.bodies (engine w)).
  { apply H. eapply getAll_remove; eassumption. }
  rewrite Hperm in Hold. apply elem_of_cons in Hold as [->|Hold]; [|exact Hold].
  exfalso. apply getAll_path in Hr as [path Hpath].
  destruct (QuadTree.itemLocations (PhysicsEngine.quadtree (engine w)) !! b)
    as [loc|] eqn:Hloc.
  - destruct (remove_wellFormed _ b loc Hwf Hloc) as (q'' & Hrem' & _ & _ & Hgone & _).
    rewrite Hrem in Hrem'. injection Hrem' as <- _. apply (Hgone path Hpath).
  - unfold QuadTree.remove in Hrem. rewrite Hloc in Hrem. injection Hrem as <- _.
    apply list_elem_of_lookup in Hpath as [j Hj].
    rewrite (proj2 Hwf path j b Hj) in Hloc. discriminate.
Qed.

(** [removeBody] of a body that the engine does not hold takes the last body
    from the list and leaves it in the broad phase. *)
Example removeBody_absent_unheld :
  exists w', Engine.removeBody 5 busyWorld = Normal w' /\ ~ itemsHeld w'.
Proof.
  eexists. split; [reflexivity|].
  intros H. specialize (H 9%nat).
  cbn in H.
  assert (Hin : 9%nat ∈ [7%nat; 8%nat; 9%nat]) by (right; right; left).
  specialize (H Hin).
  apply elem_of_cons in H as [H|H]; [discriminate|].
  apply elem_of_cons in H as [H|H]; [discriminate|inversion H].
Qed.

End HeldItems.

(** ** The quadtree: insert, get, update, prune, clear *)

Section Boxes.
Local Open Scope R_scope.

Lemma contains_spec (a b : AABB.t) :
  AABB.contains a b = true
  <-> Vec2.x (AABB.min a) <= Vec2.x (AABB.min b)
      /\ Vec2.x (AABB.max b) <= Vec2.x (AABB.max a)
      /\ Vec2.y (AABB.min a) <= Vec2.y (AABB.min b)
      /\ Vec2.y (AABB.max b) <= Vec2.y (AABB.max a).
Proof. unfold AABB.contains. rewrite !andb_true_iff, !leb_true. tauto. Qed.

Lemma intersects_spec (a b : AABB.t) :
  AABB.intersects a b = true
  <-> Vec2.x (AABB.min a) < Vec2.x (AABB.max b)
      /\ Vec2.x (AABB.min b) < Vec2.x (AABB.max a)
      /\ Vec2.y (AABB.min a) < Vec2.y (AABB.max b)
      /\ Vec2.y (AABB.min b) < Vec2.y (AABB.max a).
Proof. unfold AABB.intersects. rewrite !andb_true_iff, !ltb_true. tauto. Qed.

Lemma contains_trans (a b c : AABB.t) :
  AABB.contains a b = true -> AABB.contains b c = true -> AABB.contains a c = true.
Proof. rewrite !contains_spec. lra. Qed.

End Boxes.

Section BoxFacts.
Local Open Scope R_scope.







End BoxFacts.

Section QuadTreeInsert.

Lemma nodeItems_nodeAt_newNode b path :
  QuadTree.nodeItems (QuadTree.nodeAt (QuadTree.newNode b) path) = [].
Proof.
  destruct path as [|i path]; [reflexivity|].
  cbn [QuadTree.nodeAt]. destruct i; cbn; rewrite nodeAt_Undefined; reflexivity.
Qed.

(** The node that [insert] descends into: the child, or a new node in its
    place. *)
Lemma descend_items (c : QuadTree.Node) b path :
  QuadTree.nodeItems
    (QuadTree.nodeAt
       match c with
       | QuadTree.Undefined => QuadTree.newNode b
       | QuadTree.Mk b' a0 a1 a2 a3 its => QuadTree.Mk b' a0 a1 a2 a3 its
       end path)
  = QuadTree.nodeItems (QuadTree.nodeAt c path).
Proof.
  destruct c; [|reflexivity].
  rewrite nodeItems_nodeAt_newNode, nodeAt_Undefined. reflexivity.
Qed.

Lemma descend_defined (c : QuadTree.Node) b :
  match c with
  | QuadTree.Undefined => QuadTree.newNode b
  | QuadTree.Mk b' a0 a1 a2 a3 its => QuadTree.Mk b' a0 a1 a2 a3 its
  end <> QuadTree.Undefined.
Proof. destruct c; discriminate. Qed.

Lemma descend_getAll (c : QuadTree.Node) b :
  QuadTree.getAll
    match c with
    | QuadTree.Undefined => QuadTree.newNode b
    | QuadTree.Mk b' a0 a1 a2 a3 its => QuadTree.Mk b' a0 a1 a2 a3 its
    end
  = QuadTree.getAll c.
Proof. destruct c; reflexivity. Qed.

Lemma descend_cases (c : QuadTree.Node) b :
  let d :=
    match c with
    | QuadTree.Undefined => QuadTree.newNode b
    | QuadTree.Mk b' a0 a1 a2 a3 its => QuadTree.Mk b' a0 a1 a2 a3 its
    end in
  (c = QuadTree.Undefined /\ d = QuadTree.newNode b) \/ (c <> QuadTree.Undefined /\ d = c).
Proof. destruct c; [left|right]; split; congruence. Qed.

Lemma with_child_defined n i c :
  n <> QuadTree.Undefined -> QuadTree.with_child n i c <> QuadTree.Undefined.
Proof. destruct n, i; [congruence..|discriminate|discriminate|discriminate|discriminate]. Qed.

(** What [QuadTreeNode.insert] does to the item arrays: the array of the
    node it returns gains the item at its end, and no other array changes. *)
Lemma insertNode_spec (levels : nat) (n : QuadTree.Node) (item : nat) (ib : AABB.t) :
  n <> QuadTree.Undefined ->
  let n' := fst (QuadTree.insertNode levels n item ib) in
  let loc := snd (QuadTree.insertNode levels n item ib) in
  n' <> QuadTree.Undefined
  /\ QuadTree.nodeItems (QuadTree.nodeAt n' (QuadTree.node loc))
     = QuadTree.nodeItems (QuadTree.nodeAt n (QuadTree.node loc)) ++ [item]
  /\ QuadTree.index loc
     = length (QuadTree.nodeItems (QuadTree.nodeAt n (QuadTree.node loc)))
  /\ (length (QuadTree.node loc) <= levels)%nat
  /\ (forall path, path <> QuadTree.node loc ->
        QuadTree.nodeItems (QuadTree.nodeAt n' path)
        = QuadTree.nodeItems (QuadTree.nodeAt n path)).
Proof.
  assert (Hhere : forall n levels,
             n <> QuadTree.Undefined ->
             let n' := QuadTree.with_items n (QuadTree.nodeItems n ++ [item]) in
             let loc := QuadTree.mkLocation [] (length (QuadTree.nodeItems n)) in
             n' <> QuadTree.Undefined
             /\ QuadTree.nodeItems (QuadTree.nodeAt n' (QuadTree.node loc))
                = QuadTree.nodeItems (QuadTree.nodeAt n (QuadTree.node loc)) ++ [item]
             /\ QuadTree.index loc
                = length (QuadTree.nodeItems (QuadTree.nodeAt n (QuadTree.node loc)))
             /\ (length (QuadTree.node loc) <= levels)%nat
             /\ (forall path, path <> QuadTree.node loc ->
                   QuadTree.nodeItems (QuadTree.nodeAt n' path)
                   = QuadTree.nodeItems (QuadTree.nodeAt n path))).
  { intros m lv Hm. cbn [QuadTree.node QuadTree.index QuadTree.nodeAt length].
    split; [apply with_items_defined, Hm|].
    split; [apply nodeItems_with_items, Hm|].
    split; [reflexivity|]. split; [lia|].
    intros [|i path] Hp; [congruence|].
    cbn [QuadTree.nodeAt]. rewrite child_with_items. reflexivity. }
  revert n. induction levels as [|below IH]; intros n Hn.
  { destruct n; [congruence|]. apply (Hhere _ 0%nat Hn). }
  destruct n as [|b c0 c1 c2 c3 items]; [congruence|].
  cbn [QuadTree.insertNode].
  destruct (find _ QuadTree.quadrants) as [i|]; [|apply (Hhere _ (S below) Hn)].
  set (n := QuadTree.Mk b c0 c1 c2 c3 items) in *.
  match goal with
  | |- context [QuadTree.insertNode below ?c0 item ib] => set (c := c0)
  end.
  assert (Hc : c <> QuadTree.Undefined) by apply descend_defined.
  assert (Hitems : forall path,
             QuadTree.nodeItems (QuadTree.nodeAt c path)
             = QuadTree.nodeItems (QuadTree.nodeAt (QuadTree.child n i) path))
    by (intros path; apply descend_items).
  specialize (IH c Hc). cbv zeta in IH.
  destruct (QuadTree.insertNode below c item ib) as [c' locc].
  cbn [fst snd QuadTree.node QuadTree.index] in *.
  destruct IH as (Hd & Hown & Hidx & Hlen & Hrest).
  split; [apply with_child_defined, Hn|].
  cbn [QuadTree.nodeAt length].
  rewrite child_with_child by exact Hn.
  rewrite decide_True by reflexivity.
  split; [rewrite Hown, Hitems; reflexivity|].
  split; [rewrite Hidx, Hitems; reflexivity|].
  split; [lia|].
  intros [|j path] Hp.
  - cbn [QuadTree.nodeAt]. apply nodeItems_with_child.
  - cbn [QuadTree.nodeAt]. rewrite child_with_child by exact Hn.
    destruct (decide (i = j)) as [<-|Hij]; [|reflexivity].
    rewrite Hrest by congruence. apply Hitems.
Qed.

Lemma getAll_with_child_perm n i c :
  n <> QuadTree.Undefined ->
  QuadTree.getAll c ++ QuadTree.getAll n
  ≡ₚ QuadTree.getAll (QuadTree.child n i) ++ QuadTree.getAll (QuadTree.with_child n i c).
Proof.
  destruct n as [|b c0 c1 c2 c3 items]; [congruence|]. intros _.
  destruct i; cbn; solve_Permutation.
Qed.

(** The items below a node after [QuadTreeNode.insert]. *)
Lemma insertNode_getAll (levels : nat) (n : QuadTree.Node) (item : nat) (ib : AABB.t) :
  n <> QuadTree.Undefined ->
  QuadTree.getAll (fst (QuadTree.insertNode levels n item ib))
  ≡ₚ item :: QuadTree.getAll n.
Proof.
  assert (Hhere : forall n,
             n <> QuadTree.Undefined ->
             QuadTree.getAll (QuadTree.with_items n (QuadTree.nodeItems n ++ [item]))
             ≡ₚ item :: QuadTree.getAll n).
  { intros [|b c0 c1 c2 c3 items] Hm; [congruence|]. cbn. solve_Permutation. }
  revert n. induction levels as [|below IH]; intros n Hn.
  { destruct n; [congruence|]. apply Hhere, Hn. }
  destruct n as [|b c0 c1 c2 c3 items]; [congruence|].
  cbn [QuadTree.insertNode].
  destruct (find _ QuadTree.quadrants) as [i|]; [|apply Hhere, Hn].
  set (n := QuadTree.Mk b c0 c1 c2 c3 items) in *.
  match goal with
  | |- context [QuadTree.insertNode below ?c0 item ib] => set (c := c0)
  end.
  assert (Hc : c <> QuadTree.Undefined) by apply descend_defined.
  assert (Hall : QuadTree.getAll c = QuadTree.getAll (QuadTree.child n i))
    by apply descend_getAll.
  specialize (IH c Hc).
  destruct (QuadTree.insertNode below c item ib) as [c' locc].
  cbn [fst] in *.
  pose proof (getAll_with_child_perm n i c' Hn) as Hp.
  rewrite IH, Hall in Hp.
  apply (Permutation_app_inv_l (QuadTree.getAll (QuadTree.child n i))).
  rewrite <- Hp. solve_Permutation.
Qed.


Lemma insert_accepts (q : QuadTree.t) (item : nat) (ib rb : AABB.t) :
  QuadTree.nodeBounds (QuadTree.root q) = Some rb ->
  AABB.contains rb ib = true ->
  QuadTree.insert q item ib
  = (QuadTree.mk (fst (QuadTree.insertNode QuadTree.MAX_DEPTH (QuadTree.root q) item ib))
                 (<[item := snd (QuadTree.insertNode QuadTree.MAX_DEPTH (QuadTree.root q) item ib)]>
                    (QuadTree.itemLocations q)),
     true).
Proof.
  intros Hrb Hin. unfold QuadTree.insert. rewrite Hrb, Hin.
  destruct (QuadTree.insertNode _ _ _ _). reflexivity.
Qed.

Lemma nodeBounds_defined n b : QuadTree.nodeBounds n = Some b -> n <> QuadTree.Undefined.
Proof. intros H ->. discriminate. Qed.

(** X3: [QuadTree.insert] refuses an item whose bounds the root does not
    contain, and then changes nothing.  Otherwise it returns [true]: the
    item gets a location, at depth [MAX_DEPTH] at most, whose slot holds the
    item; the locations of the other items are as they were; and the tree
    holds the items it held and the new one. *)
Theorem insert_spec (q : QuadTree.t) (item : nat) (ib rb : AABB.t) :
  QuadTree.nodeBounds (QuadTree.root q) = Some rb ->
  (AABB.contains rb ib = false -> QuadTree.insert q item ib = (q, false))
  /\ (AABB.contains rb ib = true ->
      exists q' loc,
        QuadTree.insert q item ib = (q', true)
        /\ QuadTree.itemLocations q' !! item = Some loc
        /\ slotAt (QuadTree.root q') loc = Some item
        /\ (length (QuadTree.node loc) <= QuadTree.MAX_DEPTH)%nat
        /\ (forall y, y <> item ->
              QuadTree.itemLocations q' !! y = QuadTree.itemLocations q !! y)
        /\ QuadTree.getAll (QuadTree.root q') ≡ₚ item :: QuadTree.getAll (QuadTree.root q)).
Proof.
  intros Hrb. split.
  - intros Hout. unfold QuadTree.insert. rewrite Hrb, Hout. reflexivity.
  - intros Hin.
    pose proof (nodeBounds_defined _ _ Hrb) as Hroot.
    destruct (insertNode_spec QuadTree.MAX_DEPTH (QuadTree.root q) item ib Hroot)
      as (_ & Hown & Hidx & Hlen & _).
    eexists _, _. split; [apply (insert_accepts q item ib rb Hrb Hin)|].
    cbn [QuadTree.itemLocations QuadTree.root].
    split; [apply lookup_insert_eq|].
    split; [|split; [exact Hlen|split]].
    + unfold slotAt. rewrite Hown, Hidx.
      rewrite lookup_app_r by lia. rewrite Nat.sub_diag. reflexivity.
    + intros y Hy. apply lookup_insert_ne. congruence.
    + apply insertNode_getAll, Hroot.
Qed.

Lemma sceneBounds_far : AABB.contains sceneBounds farBox = true.
Proof. apply contains_spec. cbn. lra. Qed.

Lemma busyTree_root : QuadTree.nodeBounds (QuadTree.root busyTree) = Some sceneBounds.
Proof. reflexivity. Qed.

Lemma busyTree_gridded : gridded (QuadTree.root busyTree).
Proof.
  cbn. split; [|repeat split; intros i; destruct i; cbn; congruence].
  intros i. destruct i; cbn; try congruence. intros _.
  unfold leafBounds, QuadTree.childBounds, AABB.fromDimensions. cbn.
  f_equal. f_equal. f_equal; lra.
Qed.

Lemma busyTree_bounded : bounded sceneBoundsOf (QuadTree.root busyTree).
Proof.
  assert (H : forall b y,
             AABB.contains b nearBox = true ->
             y ∈ [7%nat; 8%nat; 9%nat] ->
             exists ib, sceneBoundsOf y = Some ib /\ AABB.contains b ib = true).
  { intros b y Hb Hy. exists nearBox. split; [|exact Hb].
    repeat (apply elem_of_cons in Hy as [->|Hy]; [reflexivity|]). inversion Hy. }
  cbn. repeat split; try (intros y Hy; inversion Hy; fail).
  - intros y Hy. apply H; [|exact Hy]. apply contains_spec. cbn. lra.
  - intros y Hy. apply H; [|exact Hy]. apply contains_spec. cbn. lra.
Qed.

Lemma insert_spec_witness :
  exists q' loc,
    QuadTree.insert busyTree 5 farBox = (q', true)
    /\ QuadTree.itemLocations q' !! 5%nat = Some loc
    /\ slotAt (QuadTree.root q') loc = Some 5%nat
    /\ (length (QuadTree.node loc) <= QuadTree.MAX_DEPTH)%nat
    /\ (forall y, y <> 5%nat ->
          QuadTree.itemLocations q' !! y = QuadTree.itemLocations busyTree !! y)
    /\ QuadTree.getAll (QuadTree.root q') ≡ₚ 5%nat :: QuadTree.getAll (QuadTree.root busyTree).
Proof.
  apply (proj2 (insert_spec busyTree 5 farBox sceneBounds busyTree_root)).
  exact sceneBounds_far.
Defined.

Lemma insert_wf (q : QuadTree.t) (item : nat) (ib rb : AABB.t) :
  wellFormed q ->
  QuadTree.nodeBounds (QuadTree.root q) = Some rb ->
  QuadTree.itemLocations q !! item = None ->
  wellFormed (fst (QuadTree.insert q item ib)).
Proof.
  intros [Hvalid Hlocated] Hrb Hnew.
  destruct (AABB.contains rb ib) eqn:Hin.
  2:{ unfold QuadTree.insert. rewrite Hrb, Hin. split; assumption. }
  rewrite (insert_accepts q item ib rb Hrb Hin). cbn [fst].
  pose proof (nodeBounds_defined _ _ Hrb) as Hroot.
  destruct (insertNode_spec QuadTree.MAX_DEPTH (QuadTree.root q) item ib Hroot)
    as (_ & Hown & Hidx & _ & Hrest).
  set (n' := fst (QuadTree.insertNode QuadTree.MAX_DEPTH (QuadTree.root q) item ib)) in *.
  set (loc := snd (QuadTree.insertNode QuadTree.MAX_DEPTH (QuadTree.root q) item ib)) in *.
  split.
  - intros y l Hy. cbn [QuadTree.itemLocations QuadTree.root] in *.
    unfold slotAt.
    destruct (decide (y = item)) as [->|Hne].
    + rewrite lookup_insert_eq in Hy. injection Hy as <-.
      rewrite Hown, Hidx, lookup_app_r by lia. rewrite Nat.sub_diag. reflexivity.
    + rewrite lookup_insert_ne in Hy by congruence.
      specialize (Hvalid y l Hy). unfold slotAt in Hvalid.
      destruct (decide (QuadTree.node l = QuadTree.node loc)) as [E|E].
      * rewrite E, Hown. rewrite E in Hvalid.
        rewrite lookup_app_l; [exact Hvalid|]. eapply lookup_lt_Some, Hvalid.
      * rewrite Hrest by exact E. exact Hvalid.
  - intros path i y Hy. cbn [QuadTree.itemLocations QuadTree.root] in *.
    destruct (decide (path = QuadTree.node loc)) as [->|E].
    + rewrite Hown in Hy.
      destruct (decide (i < length (QuadTree.nodeItems
                                      (QuadTree.nodeAt (QuadTree.root q) (QuadTree.node loc))))%nat)
        as [Hlt|Hge].
      * rewrite lookup_app_l in Hy by exact Hlt.
        specialize (Hlocated _ _ _ Hy).
        rewrite lookup_insert_ne by congruence. exact Hlocated.
      * rewrite lookup_app_r in Hy by lia.
        apply list_lookup_singleton_Some in Hy as [Hi ->].
        rewrite lookup_insert_eq. f_equal.
        destruct loc as [p k]. cbn [QuadTree.node QuadTree.index] in *.
        f_equal. lia.
    + rewrite Hrest in Hy by exact E.
      specialize (Hlocated _ _ _ Hy).
      rewrite lookup_insert_ne by congruence. exact Hlocated.
Qed.

End QuadTreeInsert.

Section QuadTreeGet.
Local Open Scope R_scope.

Variable boundsOf : nat -> option AABB.t.

Lemma filter_sublist {T : Type} (f : T -> bool) (l : list T) :
  sublist (List.filter f l) l.
Proof.
  induction l as [|a l IH]; cbn; [constructor|].
  destruct (f a); [apply sublist_skip|apply sublist_cons]; exact IH.
Qed.

Lemma getNode_sublist (n : QuadTree.Node) (query : AABB.t) :
  sublist (QuadTree.getNode boundsOf n query) (QuadTree.getAll n).
Proof.
  induction n as [|b c0 IH0 c1 IH1 c2 IH2 c3 IH3 items]; [constructor|].
  cbn [QuadTree.getNode QuadTree.getAll].
  assert (Hvisit : forall c,
             sublist (QuadTree.getNode boundsOf c query) (QuadTree.getAll c) ->
             sublist
               match QuadTree.nodeBounds c with
               | Some cb =>
                   if AABB.contains query cb then QuadTree.getAll c
                   else if AABB.intersects query cb then QuadTree.getNode boundsOf c query
                        else []
               | None => []
               end (QuadTree.getAll c)).
  { intros c IH. destruct (QuadTree.nodeBounds c) as [cb|]; [|apply sublist_nil_l].
    destruct (AABB.contains query cb); [reflexivity|].
    destruct (AABB.intersects query cb); [exact IH|apply sublist_nil_l]. }
  repeat apply sublist_app; auto using filter_sublist.
Qed.

Lemma bounded_bounds (n : QuadTree.Node) (b : AABB.t) (y : nat) :
  bounded boundsOf n -> QuadTree.nodeBounds n = Some b -> y ∈ QuadTree.getAll n ->
  exists ib, boundsOf y = Some ib /\ AABB.contains b ib = true.
Proof.
  destruct n as [|b' c0 c1 c2 c3 items]; [discriminate|].
  intros [H _] [= <-]. apply H.
Qed.


Lemma intersects_within (query cb ib : AABB.t) :
  AABB.contains cb ib = true -> AABB.intersects ib query = true ->
  AABB.intersects query cb = true.
Proof. rewrite contains_spec, !intersects_spec. lra. Qed.

Lemma getNode_complete (n : QuadTree.Node) (query ib : AABB.t) (x : nat) :
  bounded boundsOf n ->
  x ∈ QuadTree.getAll n -> boundsOf x = Some ib -> AABB.intersects ib query = true ->
  x ∈ QuadTree.getNode boundsOf n query.
Proof.
  intros Hb Hx Hib Hcut. revert Hb Hx.
  induction n as [|b c0 IH0 c1 IH1 c2 IH2 c3 IH3 items]; [intros _ H; inversion H|].
  intros (_ & B0 & B1 & B2 & B3).
  assert (Hvisit : forall c,
             bounded boundsOf c ->
             (bounded boundsOf c -> x ∈ QuadTree.getAll c ->
              x ∈ QuadTree.getNode boundsOf c query) ->
             x ∈ QuadTree.getAll c ->
             x ∈ match QuadTree.nodeBounds c with
                 | Some cb =>
                     if AABB.contains query cb then QuadTree.getAll c
                     else if AABB.intersects query cb
                          then QuadTree.getNode boundsOf c query
                          else []
                 | None => []
                 end).
  { intros c Bc IH Hc.
    destruct (QuadTree.nodeBounds c) as [cb|] eqn:Hcb.
    2:{ destruct c; [inversion Hc|discriminate]. }
    destruct (AABB.contains query cb); [exact Hc|].
    destruct (bounded_bounds c cb x Bc Hcb Hc) as (ib' & Hib' & Hin).
    rewrite Hib in Hib'. injection Hib' as <-.
    rewrite (intersects_within query cb ib Hin Hcut). apply IH; assumption. }
  cbn [QuadTree.getAll QuadTree.getNode]. rewrite !elem_of_app.
  intros [H|[H|[H|[H|H]]]].
  - left. apply list_elem_of_In, filter_In. split; [apply list_elem_of_In, H|].
    rewrite Hib. exact Hcut.
  - right. left. apply Hvisit; assumption.
  - right. right. left. apply Hvisit; assumption.
  - right. right. right. left. apply Hvisit; assumption.
  - right. right. right. right. apply Hvisit; assumption.
Qed.

Lemma getNode_sound (n : QuadTree.Node) (query : AABB.t) (x : nat) :
  bounded boundsOf n ->
  x ∈ QuadTree.getNode boundsOf n query ->
  exists ib, boundsOf x = Some ib
             /\ (AABB.intersects ib query = true \/ AABB.contains query ib = true).
Proof.
  induction n as [|b c0 IH0 c1 IH1 c2 IH2 c3 IH3 items]; [intros _ H; inversion H|].
  intros (_ & B0 & B1 & B2 & B3).
  assert (Hvisit : forall c,
             bounded boundsOf c ->
             (bounded boundsOf c -> x ∈ QuadTree.getNode boundsOf c query ->
              exists ib, boundsOf x = Some ib
                         /\ (AABB.intersects ib query = true
                             \/ AABB.contains query ib = true)) ->
             x ∈ match QuadTree.nodeBounds c with
                 | Some cb =>
                     if AABB.contains query cb then QuadTree.getAll c
                     else if AABB.intersects query cb
                          then QuadTree.getNode boundsOf c query
                          else []
                 | None => []
                 end ->
             exists ib, boundsOf x = Some ib
                        /\ (AABB.intersects ib query = true
                            \/ AABB.contains query ib = true)).
  { intros c Bc IH.
    destruct (QuadTree.nodeBounds c) as [cb|] eqn:Hcb; [|intros H; inversion H].
    destruct (AABB.contains query cb) eqn:Hin.
    - intros Hc. destruct (bounded_bounds c cb x Bc Hcb Hc) as (ib & Hib & Hin').
      exists ib. split; [exact Hib|]. right. eapply contains_trans; eassumption.
    - destruct (AABB.intersects query cb); [apply IH, Bc|intros H; inversion H]. }
  cbn [QuadTree.getNode]. rewrite !elem_of_app.
  intros [H|[H|[H|[H|H]]]];
    [|apply (Hvisit c0 B0 IH0 H)|apply (Hvisit c1 B1 IH1 H)
     |apply (Hvisit c2 B2 IH2 H)|apply (Hvisit c3 B3 IH3 H)].
  apply list_elem_of_In, filter_In in H as [_ H].
  destruct (boundsOf x) as [ib|]; [|discriminate].
  exists ib. auto.
Qed.

End QuadTreeGet.

Section QuadTreeGetSpec.

(** X4: On a tree whose nodes cover the items below them, [get(bounds)]
    returns items of the tree, in the order of [getAll]; it returns every
    item of the tree whose bounds intersect the query; and every item it
    returns intersects the query or lies within it. *)
Theorem get_spec (boundsOf : nat -> option AABB.t) (q : QuadTree.t) (query : AABB.t) :
  bounded boundsOf (QuadTree.root q) ->
  sublist (QuadTree.get boundsOf q query) (QuadTree.getAll (QuadTree.root q))
  /\ (forall x ib,
        x ∈ QuadTree.getAll (QuadTree.root q) ->
        boundsOf x = Some ib -> AABB.intersects ib query = true ->
        x ∈ QuadTree.get boundsOf q query)
  /\ (forall x,
        x ∈ QuadTree.get boundsOf q query ->
        exists ib, boundsOf x = Some ib
                   /\ (AABB.intersects ib query = true
                       \/ AABB.contains query ib = true)).
Proof.
  intros Hb. split; [apply getNode_sublist|]. split.
  - intros x ib Hx Hib Hcut. eapply getNode_complete; eassumption.
  - intros x Hx. eapply getNode_sound; eassumption.
Qed.

Lemma get_spec_witness :
  sublist (QuadTree.get sceneBoundsOf busyTree nearBox) (QuadTree.getAll (QuadTree.root busyTree))
  /\ 7%nat ∈ QuadTree.get sceneBoundsOf busyTree nearBox.
Proof.
  destruct (get_spec sceneBoundsOf busyTree nearBox busyTree_bounded) as (Hsub & Hall & _).
  split; [exact Hsub|].
  apply (Hall 7%nat nearBox).
  - cbn. set_solver.
  - reflexivity.
  - apply intersects_spec. cbn. lra.
Defined.

End QuadTreeGetSpec.

Section QuadTreeShape.
Local Open Scope R_scope.

Lemma bounded_children boundsOf n i :
  bounded boundsOf n -> bounded boundsOf (QuadTree.child n i).
Proof.
  destruct n as [|b c0 c1 c2 c3 items]; [intros _; exact I|].
  intros (_ & B0 & B1 & B2 & B3). destruct i; assumption.
Qed.

Lemma gridded_children n i : gridded n -> gridded (QuadTree.child n i).
Proof.
  destruct n as [|b c0 c1 c2 c3 items]; [intros _; exact I|].
  intros (_ & B0 & B1 & B2 & B3). destruct i; assumption.
Qed.

Lemma nodeBounds_with_child n i c :
  QuadTree.nodeBounds (QuadTree.with_child n i c) = QuadTree.nodeBounds n.
Proof. destruct n, i; reflexivity. Qed.

Lemma nodeBounds_with_items n items :
  QuadTree.nodeBounds (QuadTree.with_items n items) = QuadTree.nodeBounds n.
Proof. destruct n; reflexivity. Qed.

Lemma nodeBounds_prune n :
  QuadTree.nodeBounds (fst (QuadTree.prune n)) = QuadTree.nodeBounds n.
Proof.
  destruct n as [|b c0 c1 c2 c3 items]; [reflexivity|]. cbn [QuadTree.prune].
  destruct (QuadTree.prune c0), (QuadTree.prune c1), (QuadTree.prune c2),
    (QuadTree.prune c3). reflexivity.
Qed.

(** A node whose child in slot [i] is replaced by [c]. *)
Lemma bounded_with_child boundsOf n i c :
  bounded boundsOf n -> bounded boundsOf c ->
  (forall b y, QuadTree.nodeBounds n = Some b -> y ∈ QuadTree.getAll c ->
               exists ib, boundsOf y = Some ib /\ AABB.contains b ib = true) ->
  bounded boundsOf (QuadTree.with_child n i c).
Proof.
  destruct n as [|b c0 c1 c2 c3 items]; [intros _ _ _; exact I|].
  intros (Hn & B0 & B1 & B2 & B3) Hc Hnew.
  assert (Hall : forall y,
             y ∈ QuadTree.getAll (QuadTree.with_child (QuadTree.Mk b c0 c1 c2 c3 items) i c) ->
             exists ib, boundsOf y = Some ib /\ AABB.contains b ib = true).
  { intros y Hy. apply getAll_with_child in Hy as [Hy|Hy]; [|apply Hn, Hy].
    apply (Hnew b y eq_refl Hy). }
  destruct i; (split; [exact Hall|repeat split; assumption]).
Qed.

Lemma gridded_with_child n i c :
  gridded n -> gridded c ->
  (forall b, QuadTree.nodeBounds n = Some b -> c <> QuadTree.Undefined ->
             QuadTree.nodeBounds c = Some (QuadTree.childBounds b i)) ->
  gridded (QuadTree.with_child n i c).
Proof.
  destruct n as [|b c0 c1 c2 c3 items]; [intros _ _ _; exact I|].
  intros (Hn & B0 & B1 & B2 & B3) Hc Hnew.
  specialize (Hnew b eq_refl).
  destruct i; (split; [|repeat split; assumption]);
    intros j; specialize (Hn j); destruct j; cbn in *; auto.
Qed.

Lemma bounded_with_items boundsOf n items :
  bounded boundsOf n ->
  (forall b y, QuadTree.nodeBounds n = Some b -> y ∈ items ->
               exists ib, boundsOf y = Some ib /\ AABB.contains b ib = true) ->
  bounded boundsOf (QuadTree.with_items n items).
Proof.
  destruct n as [|b c0 c1 c2 c3 old]; [intros _ _; exact I|].
  intros (Hn & B0 & B1 & B2 & B3) Hnew.
  split; [|repeat split; assumption].
  intros y Hy. cbn [QuadTree.getAll] in Hy.
  apply elem_of_app in Hy as [Hy|Hy]; [apply (Hnew b y eq_refl Hy)|].
  apply Hn. cbn [QuadTree.getAll]. apply elem_of_app. right. exact Hy.
Qed.

Lemma gridded_with_items n items : gridded n -> gridded (QuadTree.with_items n items).
Proof. destruct n; [intros _; exact I|]. intros H. exact H. Qed.

Lemma find_quadrant (f : QuadTree.Quadrant -> bool) (i : QuadTree.Quadrant) :
  find f QuadTree.quadrants = Some i -> f i = true.
Proof. intros H. apply find_some in H as [_ H]. exact H. Qed.

(** [QuadTreeNode.insert] keeps the grid and the cover of the items. *)
Lemma insertNode_bounded boundsOf (levels : nat) (n : QuadTree.Node) (b : AABB.t)
    (item : nat) (ib : AABB.t) :
  QuadTree.nodeBounds n = Some b -> AABB.contains b ib = true ->
  boundsOf item = Some ib ->
  gridded n -> bounded boundsOf n ->
  let n' := fst (QuadTree.insertNode levels n item ib) in
  QuadTree.nodeBounds n' = Some b /\ gridded n' /\ bounded boundsOf n'.
Proof.
  intros Hb Hin Hitem.
  assert (Hhere : forall n b,
             QuadTree.nodeBounds n = Some b -> AABB.contains b ib = true ->
             gridded n -> bounded boundsOf n ->
             let n' := QuadTree.with_items n (QuadTree.nodeItems n ++ [item]) in
             QuadTree.nodeBounds n' = Some b /\ gridded n' /\ bounded boundsOf n').
  { intros m bm Hbm Hinm Gm Bm. cbv zeta.
    split; [rewrite nodeBounds_with_items; exact Hbm|].
    split; [apply gridded_with_items, Gm|].
    apply bounded_with_items; [exact Bm|].
    intros b' y Hb' Hy. rewrite Hbm in Hb'. injection Hb' as <-.
    apply elem_of_app in Hy as [Hy|Hy].
    - apply (bounded_bounds boundsOf m bm y Bm Hbm), getAll_nodeItems, Hy.
    - apply list_elem_of_singleton in Hy as ->. eauto. }
  revert n b Hb Hin. induction levels as [|below IH]; intros n b Hb Hin Gn Bn.
  { destruct n; [discriminate|]. apply Hhere; assumption. }
  destruct n as [|b' c0 c1 c2 c3 items]; [discriminate|].
  injection Hb as ->.
  cbn [QuadTree.insertNode].
  destruct (find _ QuadTree.quadrants) as [i|] eqn:Hfind;
    [|apply Hhere; [reflexivity|assumption..]].
  apply find_quadrant in Hfind.
  set (n := QuadTree.Mk b c0 c1 c2 c3 items) in *.
  match goal with
  | |- context [QuadTree.insertNode below ?c0 item ib] => set (c := c0)
  end.
  assert (Hcases : (QuadTree.child n i = QuadTree.Undefined
                    /\ c = QuadTree.newNode (QuadTree.childBounds b i))
                   \/ (QuadTree.child n i <> QuadTree.Undefined /\ c = QuadTree.child n i))
    by apply descend_cases.
  assert (Hcb : QuadTree.nodeBounds c = Some (QuadTree.childBounds b i)).
  { destruct Hcases as [[_ ->]|[Hd ->]]; [reflexivity|]. apply (proj1 Gn), Hd. }
  assert (Gc : gridded c).
  { destruct Hcases as [[_ ->]|[_ ->]]; [|apply gridded_children, Gn].
    cbn. repeat split. intros j. destruct j; cbn; congruence. }
  assert (Bc : bounded boundsOf c).
  { destruct Hcases as [[_ ->]|[_ ->]]; [|apply bounded_children, Bn].
    cbn. repeat split. intros y Hy. inversion Hy. }
  assert (Hall : forall y, y ∈ QuadTree.getAll c -> y ∈ QuadTree.getAll n).
  { intros y Hy. apply (getAll_child n i).
    destruct Hcases as [[_ ->]|[_ ->]]; [inversion Hy|exact Hy]. }
  specialize (IH c (QuadTree.childBounds b i) Hcb Hfind Gc Bc). cbv zeta in IH.
  pose proof (getAll_insertNode below c item ib) as Hadd.
  destruct (QuadTree.insertNode below c item ib) as [c' locc].
  cbn [fst] in *. destruct IH as (Hb' & G' & B').
  split; [apply nodeBounds_with_child|].
  split.
  - apply gridded_with_child; [exact Gn|exact G'|].
    intros b0 [= <-] _. exact Hb'.
  - apply bounded_with_child; [exact Bn|exact B'|].
    intros b0 y [= <-] Hy. apply Hadd in Hy as [Hy| ->].
    + apply (bounded_bounds boundsOf n b y Bn eq_refl), Hall, Hy.
    + eauto.
Qed.


Lemma prunable_getAll (n : QuadTree.Node) :
  prunable n = true <-> QuadTree.getAll n = [].
Proof.
  induction n as [|b c0 IH0 c1 IH1 c2 IH2 c3 IH3 items]; [split; reflexivity|].
  cbn [prunable QuadTree.getAll].
  rewrite !andb_true_iff, IH0, IH1, IH2, IH3, Nat.eqb_eq.
  split.
  - intros ((((Hi & ->) & ->) & ->) & ->). destruct items; [reflexivity|discriminate].
  - intros H. apply app_eq_nil in H as [-> H]. apply app_eq_nil in H as [-> H].
    apply app_eq_nil in H as [-> H]. apply app_eq_nil in H as [-> ->]. auto.
Qed.

Lemma getAll_prune_eq (n : QuadTree.Node) :
  QuadTree.getAll (fst (QuadTree.prune n)) = QuadTree.getAll n.
Proof.
  induction n as [|b c0 IH0 c1 IH1 c2 IH2 c3 IH3 items]; [reflexivity|].
  cbn [QuadTree.prune].
  pose proof (prune_returns c0) as P0. pose proof (prune_returns c1) as P1.
  pose proof (prune_returns c2) as P2. pose proof (prune_returns c3) as P3.
  destruct (QuadTree.prune c0) as [c0' p0], (QuadTree.prune c1) as [c1' p1],
    (QuadTree.prune c2) as [c2' p2], (QuadTree.prune c3) as [c3' p3].
  cbn [fst snd QuadTree.getAll] in *.
  assert (H : forall c c' p,
             QuadTree.getAll c' = QuadTree.getAll c -> p = prunable c ->
             QuadTree.getAll (if p then QuadTree.Undefined else c') = QuadTree.getAll c).
  { intros c c' [|] E Hp; [|exact E]. symmetry. apply prunable_getAll. auto. }
  rewrite (H c0 c0' p0), (H c1 c1' p1), (H c2 c2' p2), (H c3 c3' p3) by assumption.
  reflexivity.
Qed.

Lemma prune_undefined (n : QuadTree.Node) :
  fst (QuadTree.prune n) = QuadTree.Undefined -> n = QuadTree.Undefined.
Proof.
  destruct n as [|b c0 c1 c2 c3 items]; [reflexivity|]. cbn [QuadTree.prune].
  destruct (QuadTree.prune c0), (QuadTree.prune c1), (QuadTree.prune c2),
    (QuadTree.prune c3). discriminate.
Qed.

Lemma bounded_prune boundsOf (n : QuadTree.Node) :
  bounded boundsOf n -> bounded boundsOf (fst (QuadTree.prune n)).
Proof.
  induction n as [|b c0 IH0 c1 IH1 c2 IH2 c3 IH3 items]; [intros _; exact I|].
  intros (Hn & B0 & B1 & B2 & B3).
  pose proof (getAll_prune_eq (QuadTree.Mk b c0 c1 c2 c3 items)) as Hall.
  specialize (IH0 B0). specialize (IH1 B1). specialize (IH2 B2). specialize (IH3 B3).
  cbn [QuadTree.prune] in *.
  destruct (QuadTree.prune c0) as [c0' p0], (QuadTree.prune c1) as [c1' p1],
    (QuadTree.prune c2) as [c2' p2], (QuadTree.prune c3) as [c3' p3].
  cbn [fst] in *.
  split; [intros y Hy; apply Hn; rewrite <- Hall; exact Hy|].
  repeat split.
  - destruct p0; [exact I|exact IH0].
  - destruct p1; [exact I|exact IH1].
  - destruct p2; [exact I|exact IH2].
  - destruct p3; [exact I|exact IH3].
Qed.

Lemma gridded_prune (n : QuadTree.Node) :
  gridded n -> gridded (fst (QuadTree.prune n)).
Proof.
  induction n as [|b c0 IH0 c1 IH1 c2 IH2 c3 IH3 items]; [intros _; exact I|].
  intros (Hn & B0 & B1 & B2 & B3).
  specialize (IH0 B0). specialize (IH1 B1). specialize (IH2 B2). specialize (IH3 B3).
  pose proof (nodeBounds_prune c0) as N0. pose proof (nodeBounds_prune c1) as N1.
  pose proof (nodeBounds_prune c2) as N2. pose proof (nodeBounds_prune c3) as N3.
  pose proof (prune_returns c0) as U0. pose proof (prune_returns c1) as U1.
  pose proof (prune_returns c2) as U2. pose proof (prune_returns c3) as U3.
  cbn [QuadTree.prune] in *.
  destruct (QuadTree.prune c0) as [c0' p0], (QuadTree.prune c1) as [c1' p1],
    (QuadTree.prune c2) as [c2' p2], (QuadTree.prune c3) as [c3' p3].
  cbn [fst snd] in *.
  split.
  - intros j Hj.
    destruct j; cbn [QuadTree.child] in *.
    + destruct p0; [congruence|]. rewrite N0. apply (Hn QuadTree.Q0).
      cbn. intros ->. discriminate.
    + destruct p1; [congruence|]. rewrite N1. apply (Hn QuadTree.Q1).
      cbn. intros ->. discriminate.
    + destruct p2; [congruence|]. rewrite N2. apply (Hn QuadTree.Q2).
      cbn. intros ->. discriminate.
    + destruct p3; [congruence|]. rewrite N3. apply (Hn QuadTree.Q3).
      cbn. intros ->. discriminate.
  - repeat split.
    + destruct p0; [exact I|exact IH0].
    + destruct p1; [exact I|exact IH1].
    + destruct p2; [exact I|exact IH2].
    + destruct p3; [exact I|exact IH3].
Qed.

Lemma nodeBounds_updateAt n path f :
  (forall m, QuadTree.nodeBounds (f m) = QuadTree.nodeBounds m) ->
  QuadTree.nodeBounds (QuadTree.updateAt n path f) = QuadTree.nodeBounds n.
Proof.
  intros Hf. destruct path as [|i rest]; cbn [QuadTree.updateAt]; [apply Hf|].
  apply nodeBounds_with_child.
Qed.

Lemma getAll_updateAt_sub n path f :
  (forall m y, y ∈ QuadTree.getAll (f m) -> y ∈ QuadTree.getAll m) ->
  forall y, y ∈ QuadTree.getAll (QuadTree.updateAt n path f) -> y ∈ QuadTree.getAll n.
Proof.
  intros Hf y Hy.
  destruct (getAll_updateAt False n path f y) as [H|[]]; [|exact Hy|exact H].
  intros H. left. apply Hf, H.
Qed.

Lemma updateAt_bounded boundsOf n path f :
  (forall m, bounded boundsOf m -> bounded boundsOf (f m)) ->
  (forall m y, y ∈ QuadTree.getAll (f m) -> y ∈ QuadTree.getAll m) ->
  bounded boundsOf n -> bounded boundsOf (QuadTree.updateAt n path f).
Proof.
  intros Hf Hsub. revert n.
  induction path as [|i rest IH]; intros n Bn; cbn [QuadTree.updateAt]; [apply Hf, Bn|].
  apply bounded_with_child; [exact Bn|apply IH, bounded_children, Bn|].
  intros b y Hb Hy. apply (bounded_bounds boundsOf n b y Bn Hb).
  apply (getAll_child n i). eapply getAll_updateAt_sub; eassumption.
Qed.

Lemma updateAt_gridded n path f :
  (forall m, gridded m -> gridded (f m)) ->
  (forall m, QuadTree.nodeBounds (f m) = QuadTree.nodeBounds m) ->
  gridded n -> gridded (QuadTree.updateAt n path f).
Proof.
  intros Hf Hb.
  assert (HU : forall rest, QuadTree.updateAt QuadTree.Undefined rest f = QuadTree.Undefined).
  { intros [|j r]; cbn; [|reflexivity].
    specialize (Hb QuadTree.Undefined).
    destruct (f QuadTree.Undefined); [reflexivity|discriminate]. }
  revert n.
  induction path as [|i rest IH]; intros n Gn; cbn [QuadTree.updateAt]; [apply Hf, Gn|].
  apply gridded_with_child; [exact Gn|apply IH, gridded_children, Gn|].
  intros b Hnb Hd. rewrite nodeBounds_updateAt by exact Hb.
  destruct n as [|b' c0 c1 c2 c3 items]; [discriminate|]. injection Hnb as ->.
  apply (proj1 Gn). intros E. apply Hd. rewrite E. apply HU.
Qed.

Lemma getAll_updateAt_perm n path f x :
  QuadTree.nodeAt n path <> QuadTree.Undefined ->
  QuadTree.getAll (QuadTree.nodeAt n path) ≡ₚ x :: QuadTree.getAll (f (QuadTree.nodeAt n path)) ->
  QuadTree.getAll n ≡ₚ x :: QuadTree.getAll (QuadTree.updateAt n path f).
Proof.
  revert n. induction path as [|i rest IH]; intros n Hd Hp; [exact Hp|].
  cbn [QuadTree.nodeAt QuadTree.updateAt] in *.
  specialize (IH _ Hd Hp).
  assert (Hn : n <> QuadTree.Undefined)
    by (eapply child_defined, nodeAt_defined_prefix, Hd).
  pose proof (getAll_with_child_perm n i
                (QuadTree.updateAt (QuadTree.child n i) rest f) Hn) as H.
  rewrite IH in H.
  apply (Permutation_app_inv_l
           (QuadTree.getAll (QuadTree.updateAt (QuadTree.child n i) rest f))).
  rewrite H. solve_Permutation.
Qed.

(** The root and the item array that [remove] leaves. *)
Lemma remove_root (q : QuadTree.t) (x : nat) (loc : QuadTree.ItemLocation) :
  locationsValid q ->
  QuadTree.itemLocations q !! x = Some loc ->
  exists items' locs,
    QuadTree.nodeItems (QuadTree.nodeAt (QuadTree.root q) (QuadTree.node loc))
    ≡ₚ x :: items'
    /\ QuadTree.remove q x
       = Some (QuadTree.mk
                 (QuadTree.updateAt (QuadTree.root q) (QuadTree.node loc)
                    (fun n => fst (QuadTree.prune (QuadTree.with_items n items'))))
                 locs, true).
Proof.
  intros Hvalid Hloc. specialize (Hvalid x loc Hloc). unfold slotAt in Hvalid.
  destruct (swapRemove_permutation _ _ _ Hvalid) as (items' & Hswap & Hperm).
  exists items'. unfold QuadTree.remove. rewrite Hloc, Hswap. eauto.
Qed.

Lemma owner_defined (q : QuadTree.t) (x : nat) (loc : QuadTree.ItemLocation) :
  locationsValid q ->
  QuadTree.itemLocations q !! x = Some loc ->
  QuadTree.nodeAt (QuadTree.root q) (QuadTree.node loc) <> QuadTree.Undefined.
Proof.
  intros Hvalid Hloc E. specialize (Hvalid x loc Hloc). unfold slotAt in Hvalid.
  rewrite E in Hvalid. discriminate.
Qed.

(** [remove] takes one occurrence of a located item out of the tree. *)
Lemma remove_getAll (q q' : QuadTree.t) (x : nat) (found : bool) :
  locationsValid q ->
  is_Some (QuadTree.itemLocations q !! x) ->
  QuadTree.remove q x = Some (q', found) ->
  QuadTree.getAll (QuadTree.root q) ≡ₚ x :: QuadTree.getAll (QuadTree.root q').
Proof.
  intros Hvalid [loc Hloc] Hrem.
  destruct (remove_root q x loc Hvalid Hloc) as (items' & locs & Hperm & E).
  rewrite E in Hrem. injection Hrem as <- <-. cbn [QuadTree.root].
  pose proof (owner_defined q x loc Hvalid Hloc) as Hd.
  apply getAll_updateAt_perm; [exact Hd|].
  rewrite getAll_prune_eq.
  destruct (QuadTree.nodeAt (QuadTree.root q) (QuadTree.node loc))
    as [|b c0 c1 c2 c3 items]; [congruence|].
  cbn in *. rewrite Hperm. reflexivity.
Qed.

(** [remove] keeps the bounds of the root, the grid and the cover. *)
Lemma remove_shape boundsOf (q q' : QuadTree.t) (x : nat) (found : bool) :
  QuadTree.remove q x = Some (q', found) ->
  QuadTree.nodeBounds (QuadTree.root q') = QuadTree.nodeBounds (QuadTree.root q)
  /\ (gridded (QuadTree.root q) -> gridded (QuadTree.root q'))
  /\ (bounded boundsOf (QuadTree.root q) -> bounded boundsOf (QuadTree.root q')).
Proof.
  unfold QuadTree.remove.
  destruct (QuadTree.itemLocations q !! x) as [loc|]; [|intros [= <- _]; auto].
  destruct (JsArray.swapRemove _ _) as [items'|] eqn:Hswap; [|discriminate].
  intros [= <- _]. cbn [QuadTree.root].
  split; [|split].
  - apply nodeBounds_updateAt. intros m.
    rewrite nodeBounds_prune. apply nodeBounds_with_items.
  - apply updateAt_gridded.
    + intros m Gm. apply gridded_prune, gridded_with_items, Gm.
    + intros m. rewrite nodeBounds_prune. apply nodeBounds_with_items.
  - intros Bq.
    assert (Hgen : forall n path,
               bounded boundsOf n ->
               (forall y, y ∈ items' -> y ∈ QuadTree.nodeItems (QuadTree.nodeAt n path)) ->
               bounded boundsOf
                 (QuadTree.updateAt n path
                    (fun n => fst (QuadTree.prune (QuadTree.with_items n items'))))
               /\ forall y,
                    y ∈ QuadTree.getAll
                          (QuadTree.updateAt n path
                             (fun n => fst (QuadTree.prune (QuadTree.with_items n items')))) ->
                    y ∈ QuadTree.getAll n).
    { intros n path. revert n.
      induction path as [|i rest IH]; intros n Bn Hin; cbn [QuadTree.updateAt QuadTree.nodeAt] in *.
      - assert (Hy : forall y,
                   y ∈ QuadTree.getAll (fst (QuadTree.prune (QuadTree.with_items n items'))) ->
                   y ∈ QuadTree.getAll n).
        { intros y Hy. rewrite getAll_prune_eq in Hy.
          apply getAll_with_items in Hy as [Hy|Hy]; [|exact Hy].
          apply getAll_nodeItems, Hin, Hy. }
        split; [|exact Hy].
        apply bounded_prune, bounded_with_items; [exact Bn|].
        intros b y Hb Hy'. apply (bounded_bounds boundsOf n b y Bn Hb).
        apply getAll_nodeItems, Hin, Hy'.
      - destruct (IH (QuadTree.child n i) (bounded_children boundsOf n i Bn) Hin)
          as [Bc Hc].
        assert (Hy : forall y,
                   y ∈ QuadTree.getAll
                         (QuadTree.with_child n i
                            (QuadTree.updateAt (QuadTree.child n i) rest
                               (fun n => fst (QuadTree.prune (QuadTree.with_items n items'))))) ->
                   y ∈ QuadTree.getAll n).
        { intros y Hy. apply getAll_with_child in Hy as [Hy|Hy]; [|exact Hy].
          apply (getAll_child n i), Hc, Hy. }
        split; [|exact Hy].
        apply bounded_with_child; [exact Bn|exact Bc|].
        intros b y Hb Hy'. apply (bounded_bounds boundsOf n b y Bn Hb).
        apply (getAll_child n i), Hc, Hy'. }
    apply Hgen; [exact Bq|].
    intros y Hy. eapply swapRemove_subset; eassumption.
Qed.


Lemma not_located_absent (q : QuadTree.t) (x : nat) :
  itemsLocated q -> QuadTree.itemLocations q !! x = None ->
  x ∉ QuadTree.getAll (QuadTree.root q).
Proof.
  intros Hloc Hx Hin. apply getAll_path in Hin as [path Hin].
  apply list_elem_of_lookup in Hin as [i Hi].
  rewrite (Hloc _ _ _ Hi) in Hx. discriminate.
Qed.

(** What [update] starts from once [remove] has run. *)
Lemma update_removed (q : QuadTree.t) (item : nat) (rb : AABB.t) :
  wellFormed q ->
  QuadTree.nodeBounds (QuadTree.root q) = Some rb ->
  exists q1 found,
    QuadTree.remove q item = Some (q1, found)
    /\ wellFormed q1
    /\ QuadTree.nodeBounds (QuadTree.root q1) = Some rb
    /\ QuadTree.itemLocations q1 !! item = None
    /\ (forall y, y <> item ->
          (y ∈ QuadTree.getAll (QuadTree.root q1) <-> y ∈ QuadTree.getAll (QuadTree.root q)))
    /\ (forall boundsOf,
          (gridded (QuadTree.root q) -> gridded (QuadTree.root q1))
          /\ (bounded boundsOf (QuadTree.root q) -> bounded boundsOf (QuadTree.root q1))).
Proof.
  intros Hwf Hrb.
  destruct (QuadTree.itemLocations q !! item) as [loc|] eqn:Hloc.
  - destruct (remove_wellFormed q item loc Hwf Hloc) as (q1 & Hrem & Hwf1 & Hnone & _).
    exists q1, true. split; [exact Hrem|]. split; [exact Hwf1|].
    pose proof (remove_shape (fun _ => None) q q1 item true Hrem) as (Hb & _).
    split; [rewrite Hb; exact Hrb|]. split; [exact Hnone|]. split.
    + intros y Hy.
      pose proof (remove_getAll q q1 item true (proj1 Hwf) (mk_is_Some _ _ Hloc) Hrem) as Hp.
      rewrite Hp, elem_of_cons. split; [auto|]. intros [?|?]; [congruence|assumption].
    + intros boundsOf.
      pose proof (remove_shape boundsOf q q1 item true Hrem) as (_ & G & B). auto.
  - exists q, false. unfold QuadTree.remove. rewrite Hloc.
    split; [reflexivity|]. split; [exact Hwf|]. split; [exact Hrb|].
    split; [reflexivity|]. split; [intros; reflexivity|]. intros; split; auto.
Qed.


(** Where an item of a subtree sits. *)
Lemma getAll_slot (n : QuadTree.Node) (x : nat) :
  x ∈ QuadTree.getAll n ->
  exists path i, QuadTree.nodeItems (QuadTree.nodeAt n path) !! i = Some x.
Proof.
  intros H. apply getAll_path in H as [path H].
  apply list_elem_of_lookup in H as [i Hi]. eauto.
Qed.

(** A subtree whose slots all have their own location holds no item twice. *)
Lemma slots_NoDup (L : nat -> option QuadTree.ItemLocation)
    (n : QuadTree.Node) (prefix : list QuadTree.Quadrant) :
  (forall path i y,
     QuadTree.nodeItems (QuadTree.nodeAt n path) !! i = Some y ->
     L y = Some (QuadTree.mkLocation (prefix ++ path) i)) ->
  NoDup (QuadTree.getAll n).
Proof.
  revert prefix.
  induction n as [|b c0 IH0 c1 IH1 c2 IH2 c3 IH3 items]; intros prefix H;
    [constructor|].
  set (n := QuadTree.Mk b c0 c1 c2 c3 items) in *.
  assert (Hsub : forall k path i y,
             QuadTree.nodeItems (QuadTree.nodeAt (QuadTree.child n k) path) !! i = Some y ->
             L y = Some (QuadTree.mkLocation ((prefix ++ [k]) ++ path) i)).
  { intros k path i y Hy. rewrite <- app_assoc. apply (H (k :: path) i y Hy). }
  assert (Hin : forall k y,
             y ∈ QuadTree.getAll (QuadTree.child n k) ->
             exists path i, L y = Some (QuadTree.mkLocation (prefix ++ k :: path) i)).
  { intros k y Hy. apply getAll_slot in Hy as (path & i & Hy).
    exists path, i. apply (H (k :: path) i y Hy). }
  assert (Hown : forall y, y ∈ items ->
                           exists i, L y = Some (QuadTree.mkLocation (prefix ++ []) i)).
  { intros y Hy. apply list_elem_of_lookup in Hy as [i Hi].
    exists i. apply (H [] i y Hi). }
  assert (Hapart : forall k m y,
             k <> m ->
             y ∈ QuadTree.getAll (QuadTree.child n k) ->
             y ∈ QuadTree.getAll (QuadTree.child n m) -> False).
  { intros k m y Hkm Hk Hm.
    apply Hin in Hk as (p1 & i1 & E1). apply Hin in Hm as (p2 & i2 & E2).
    rewrite E1 in E2. injection E2 as E2 _. apply app_inv_head in E2. congruence. }
  assert (Hroot : forall k y,
             y ∈ items -> y ∈ QuadTree.getAll (QuadTree.child n k) -> False).
  { intros k y Hy Hk.
    apply Hown in Hy as (i1 & E1). apply Hin in Hk as (p2 & i2 & E2).
    rewrite E1 in E2. injection E2 as E2 _. apply app_inv_head in E2. discriminate. }
  cbn [QuadTree.getAll].
  repeat (apply NoDup_app; split; [|split]).
  - apply NoDup_alt. intros i j y Hi Hj.
    pose proof (H [] i y Hi) as E1. pose proof (H [] j y Hj) as E2.
    rewrite E1 in E2. injection E2 as E2. exact E2.
  - intros y Hy. rewrite !elem_of_app. intros [Hc|[Hc|[Hc|Hc]]].
    + apply (Hroot QuadTree.Q0 y Hy Hc).
    + apply (Hroot QuadTree.Q1 y Hy Hc).
    + apply (Hroot QuadTree.Q2 y Hy Hc).
    + apply (Hroot QuadTree.Q3 y Hy Hc).
  - apply (IH0 (prefix ++ [QuadTree.Q0])), (Hsub QuadTree.Q0).
  - intros y Hy. rewrite !elem_of_app. intros [Hc|[Hc|Hc]].
    + apply (Hapart QuadTree.Q0 QuadTree.Q1 y); [discriminate|exact Hy|exact Hc].
    + apply (Hapart QuadTree.Q0 QuadTree.Q2 y); [discriminate|exact Hy|exact Hc].
    + apply (Hapart QuadTree.Q0 QuadTree.Q3 y); [discriminate|exact Hy|exact Hc].
  - apply (IH1 (prefix ++ [QuadTree.Q1])), (Hsub QuadTree.Q1).
  - intros y Hy. rewrite !elem_of_app. intros [Hc|Hc].
    + apply (Hapart QuadTree.Q1 QuadTree.Q2 y); [discriminate|exact Hy|exact Hc].
    + apply (Hapart QuadTree.Q1 QuadTree.Q3 y); [discriminate|exact Hy|exact Hc].
  - apply (IH2 (prefix ++ [QuadTree.Q2])), (Hsub QuadTree.Q2).
  - intros y Hy Hc.
    apply (Hapart QuadTree.Q2 QuadTree.Q3 y); [discriminate|exact Hy|exact Hc].
  - apply (IH3 (prefix ++ [QuadTree.Q3])), (Hsub QuadTree.Q3).
Qed.

Lemma itemsLocated_NoDup (q : QuadTree.t) :
  itemsLocated q -> NoDup (QuadTree.getAll (QuadTree.root q)).
Proof.
  intros H. apply (slots_NoDup (fun y => QuadTree.itemLocations q !! y) _ []).
  intros path i y Hy. apply H, Hy.
Qed.


Lemma bounded_ext (boundsOf boundsOf' : nat -> option AABB.t) (n : QuadTree.Node) :
  (forall y, y ∈ QuadTree.getAll n -> boundsOf' y = boundsOf y) ->
  bounded boundsOf n -> bounded boundsOf' n.
Proof.
  induction n as [|b c0 IH0 c1 IH1 c2 IH2 c3 IH3 items]; [intros _ _; exact I|].
  intros Hext (Hn & B0 & B1 & B2 & B3).
  split; [intros y Hy; rewrite (Hext y Hy); apply Hn, Hy|].
  repeat split.
  - apply IH0; [|exact B0]. intros y Hy. apply Hext. cbn. rewrite !elem_of_app. auto.
  - apply IH1; [|exact B1]. intros y Hy. apply Hext. cbn. rewrite !elem_of_app. auto.
  - apply IH2; [|exact B2]. intros y Hy. apply Hext. cbn. rewrite !elem_of_app. auto.
  - apply IH3; [|exact B3]. intros y Hy. apply Hext. cbn. rewrite !elem_of_app. auto.
Qed.

Lemma insert_shape boundsOf (q : QuadTree.t) (item : nat) (ib rb : AABB.t) :
  QuadTree.nodeBounds (QuadTree.root q) = Some rb ->
  boundsOf item = Some ib ->
  gridded (QuadTree.root q) -> bounded boundsOf (QuadTree.root q) ->
  let q' := fst (QuadTree.insert q item ib) in
  QuadTree.nodeBounds (QuadTree.root q') = Some rb
  /\ gridded (QuadTree.root q') /\ bounded boundsOf (QuadTree.root q').
Proof.
  intros Hrb Hitem G B. cbv zeta.
  destruct (AABB.contains rb ib) eqn:Hin.
  - rewrite (insert_accepts q item ib rb Hrb Hin). cbn [fst QuadTree.root].
    apply (insertNode_bounded boundsOf _ _ rb item ib Hrb Hin Hitem G B).
  - unfold QuadTree.insert. rewrite Hrb, Hin. auto.
Qed.

Lemma prunable_prune (n : QuadTree.Node) :
  prunable (fst (QuadTree.prune n)) = prunable n.
Proof.
  destruct (prunable n) eqn:E.
  - apply prunable_getAll. rewrite getAll_prune_eq. apply prunable_getAll, E.
  - destruct (prunable (fst (QuadTree.prune n))) eqn:E'; [|reflexivity].
    apply prunable_getAll in E'. rewrite getAll_prune_eq in E'.
    apply prunable_getAll in E'. congruence.
Qed.

Lemma prune_idempotent (n : QuadTree.Node) :
  fst (QuadTree.prune (fst (QuadTree.prune n))) = fst (QuadTree.prune n).
Proof.
  induction n as [|b c0 IH0 c1 IH1 c2 IH2 c3 IH3 items]; [reflexivity|].
  cbn [QuadTree.prune].
  pose proof (prune_returns c0) as P0. pose proof (prune_returns c1) as P1.
  pose proof (prune_returns c2) as P2. pose proof (prune_returns c3) as P3.
  pose proof (prunable_prune c0) as Q0. pose proof (prunable_prune c1) as Q1.
  pose proof (prunable_prune c2) as Q2. pose proof (prunable_prune c3) as Q3.
  destruct (QuadTree.prune c0) as [c0' p0], (QuadTree.prune c1) as [c1' p1],
    (QuadTree.prune c2) as [c2' p2], (QuadTree.prune c3) as [c3' p3].
  cbn [fst snd QuadTree.prune] in *.
  assert (H : forall c' p pc,
             fst (QuadTree.prune c') = c' -> prunable c' = pc -> p = pc ->
             (let '(c'', p') := QuadTree.prune (if p then QuadTree.Undefined else c') in
              (if p' then QuadTree.Undefined else c''))
             = (if p then QuadTree.Undefined else c')).
  { intros c' p pc Hfix Hpc ->. destruct pc; [reflexivity|].
    pose proof (prune_returns c') as R. destruct (QuadTree.prune c') as [c'' p'].
    cbn [fst snd] in *. subst. rewrite Hpc. reflexivity. }
  specialize (H c0' p0 _ IH0 Q0 P0) as H0.
  specialize (H c1' p1 _ IH1 Q1 P1) as H1.
  specialize (H c2' p2 _ IH2 Q2 P2) as H2.
  specialize (H c3' p3 _ IH3 Q3 P3) as H3.
  destruct (QuadTree.prune (if p0 then QuadTree.Undefined else c0')) as [d0 r0],
    (QuadTree.prune (if p1 then QuadTree.Undefined else c1')) as [d1 r1],
    (QuadTree.prune (if p2 then QuadTree.Undefined else c2')) as [d2 r2],
    (QuadTree.prune (if p3 then QuadTree.Undefined else c3')) as [d3 r3].
  cbn [fst]. rewrite H0, H1, H2, H3. reflexivity.
Qed.

Lemma insertNode_nodeBounds (levels : nat) (n : QuadTree.Node) (item : nat) (ib : AABB.t) :
  QuadTree.nodeBounds (fst (QuadTree.insertNode levels n item ib)) = QuadTree.nodeBounds n.
Proof.
  destruct levels as [|below], n as [|b c0 c1 c2 c3 items]; try reflexivity.
  cbn [QuadTree.insertNode].
  destruct (find _ QuadTree.quadrants) as [i|]; [|reflexivity].
  destruct (QuadTree.insertNode _ _ _ _). destruct i; reflexivity.
Qed.

Lemma clearNode_getAll (n : QuadTree.Node) : QuadTree.getAll (QuadTree.clearNode n) = [].
Proof.
  induction n as [|b c0 IH0 c1 IH1 c2 IH2 c3 IH3 items]; [reflexivity|].
  cbn. rewrite IH0, IH1, IH2, IH3. reflexivity.
Qed.

Lemma clearNode_child (n : QuadTree.Node) (i : QuadTree.Quadrant) :
  QuadTree.child (QuadTree.clearNode n) i = QuadTree.clearNode (QuadTree.child n i).
Proof. destruct n, i; reflexivity. Qed.

Lemma clearNode_nodeAt (n : QuadTree.Node) (path : list QuadTree.Quadrant) :
  QuadTree.nodeAt (QuadTree.clearNode n) path = QuadTree.clearNode (QuadTree.nodeAt n path).
Proof.
  revert n. induction path as [|i rest IH]; intros n; [reflexivity|].
  cbn [QuadTree.nodeAt]. rewrite clearNode_child. apply IH.
Qed.

End QuadTreeShape.

Section QuadTreeTheorems.

(** X5: inserting an item that has no location yet keeps the tree in
    order: the location map and the item arrays agree, the root keeps its
    bounds, every child covers its quadrant of its parent, the bounds of
    every node cover the items below it, and no item is held twice. *)
Theorem insert_keeps_invariants (boundsOf : nat -> option AABB.t) (q : QuadTree.t)
    (item : nat) (ib rb : AABB.t) :
  QuadTree.nodeBounds (QuadTree.root q) = Some rb ->
  QuadTree.itemLocations q !! item = None ->
  boundsOf item = Some ib ->
  wellFormed q -> gridded (QuadTree.root q) -> bounded boundsOf (QuadTree.root q) ->
  let q' := fst (QuadTree.insert q item ib) in
  wellFormed q'
  /\ QuadTree.nodeBounds (QuadTree.root q') = Some rb
  /\ gridded (QuadTree.root q')
  /\ bounded boundsOf (QuadTree.root q')
  /\ NoDup (QuadTree.getAll (QuadTree.root q')).
Proof.
  intros Hrb Hnew Hitem Hwf G B q'.
  pose proof (insert_wf q item ib rb Hwf Hrb Hnew) as Hwf'.
  pose proof (insert_shape boundsOf q item ib rb Hrb Hitem G B) as (Hrb' & G' & B').
  split; [exact Hwf'|]. split; [exact Hrb'|]. split; [exact G'|]. split; [exact B'|].
  apply itemsLocated_NoDup, Hwf'.
Qed.

Lemma insert_keeps_invariants_witness :
  wellFormed (fst (QuadTree.insert busyTree 5 farBox))
  /\ QuadTree.nodeBounds (QuadTree.root (fst (QuadTree.insert busyTree 5 farBox)))
     = Some sceneBounds
  /\ gridded (QuadTree.root (fst (QuadTree.insert busyTree 5 farBox)))
  /\ bounded sceneBoundsOf (QuadTree.root (fst (QuadTree.insert busyTree 5 farBox)))
  /\ NoDup (QuadTree.getAll (QuadTree.root (fst (QuadTree.insert busyTree 5 farBox)))).
Proof.
  apply (insert_keeps_invariants sceneBoundsOf busyTree 5 farBox sceneBounds).
  - reflexivity.
  - reflexivity.
  - reflexivity.
  - exact busyTree_wellFormed.
  - exact busyTree_gridded.
  - exact busyTree_bounded.
Defined.

(** X6: [update(item)] on a tree in order returns whether the root
    contains the new bounds of the item and leaves the tree in order.  When
    it returns [true] the item has a location whose slot holds it; when it
    returns [false] the item has left the tree: it has no location and is in
    no node.  The other items of the tree are the same. *)
Theorem update_relocates (q : QuadTree.t) (item : nat) (ib rb : AABB.t) :
  wellFormed q ->
  QuadTree.nodeBounds (QuadTree.root q) = Some rb ->
  exists q',
    QuadTree.update q item ib = Some (q', AABB.contains rb ib)
    /\ wellFormed q'
    /\ QuadTree.nodeBounds (QuadTree.root q') = Some rb
    /\ (if AABB.contains rb ib
        then exists loc,
               QuadTree.itemLocations q' !! item = Some loc
               /\ slotAt (QuadTree.root q') loc = Some item
        else QuadTree.itemLocations q' !! item = None
             /\ item ∉ QuadTree.getAll (QuadTree.root q'))
    /\ (forall y, y <> item ->
          (y ∈ QuadTree.getAll (QuadTree.root q') <-> y ∈ QuadTree.getAll (QuadTree.root q))).
Proof.
  intros Hwf Hrb.
  destruct (update_removed q item rb Hwf Hrb)
    as (q1 & found & Hrem & Hwf1 & Hrb1 & Hnone & Hsame & _).
  pose proof (insert_wf q1 item ib rb Hwf1 Hrb1 Hnone) as Hwf'.
  unfold QuadTree.update. rewrite Hrem.
  destruct (AABB.contains rb ib) eqn:Hin.
  - rewrite (insert_accepts q1 item ib rb Hrb1 Hin) in *. cbn [fst] in Hwf'.
    eexists. split; [reflexivity|]. split; [exact Hwf'|].
    cbn [QuadTree.root QuadTree.itemLocations].
    pose proof (nodeBounds_defined _ _ Hrb1) as Hroot.
    split.
    { rewrite insertNode_nodeBounds. exact Hrb1. }
    split.
    { eexists. split; [apply lookup_insert_eq|].
      destruct (insertNode_spec QuadTree.MAX_DEPTH (QuadTree.root q1) item ib Hroot)
        as (_ & Hown & Hidx & _).
      unfold slotAt. rewrite Hown, Hidx, lookup_app_r by lia.
      rewrite Nat.sub_diag. reflexivity. }
    intros y Hy. rewrite <- (Hsame y Hy).
    rewrite (insertNode_getAll QuadTree.MAX_DEPTH (QuadTree.root q1) item ib Hroot).
    rewrite elem_of_cons. split; [|auto]. intros [?|?]; [congruence|assumption].
  - assert (E : QuadTree.insert q1 item ib = (q1, false))
      by (unfold QuadTree.insert; rewrite Hrb1, Hin; reflexivity).
    rewrite E in *. cbn [fst] in Hwf'.
    exists q1. split; [reflexivity|]. split; [exact Hwf'|]. split; [exact Hrb1|].
    split; [|exact Hsame].
    split; [exact Hnone|]. apply not_located_absent; [apply Hwf1|exact Hnone].
Qed.

Lemma update_relocates_witness :
  exists q',
    QuadTree.update busyTree 7 farBox = Some (q', true)
    /\ wellFormed q'
    /\ (exists loc, QuadTree.itemLocations q' !! 7%nat = Some loc)
    /\ (8%nat ∈ QuadTree.getAll (QuadTree.root q')).
Proof.
  destruct (update_relocates busyTree 7 farBox sceneBounds busyTree_wellFormed busyTree_root)
    as (q' & Hup & Hwf & _ & Hitem & Hrest).
  rewrite sceneBounds_far in Hup, Hitem.
  exists q'. split; [exact Hup|]. split; [exact Hwf|]. split.
  - destruct Hitem as (loc & Hloc & _). exists loc. exact Hloc.
  - apply Hrest; [discriminate|]. cbn. set_solver.
Defined.


(** X7: after [update(item)] with the new bounds of the item, every
    child still covers its quadrant and the bounds of every node cover the
    items below it, for the bounds as they now are; so [get] still finds
    every item of the tree whose bounds intersect the query. *)
Theorem update_keeps_cover (boundsOf boundsOf' : nat -> option AABB.t) (q : QuadTree.t)
    (item : nat) (ib rb : AABB.t) :
  wellFormed q ->
  QuadTree.nodeBounds (QuadTree.root q) = Some rb ->
  gridded (QuadTree.root q) -> bounded boundsOf (QuadTree.root q) ->
  boundsOf' item = Some ib ->
  (forall y, y <> item -> boundsOf' y = boundsOf y) ->
  exists q' found,
    QuadTree.update q item ib = Some (q', found)
    /\ gridded (QuadTree.root q')
    /\ bounded boundsOf' (QuadTree.root q')
    /\ (forall x xb query,
          x ∈ QuadTree.getAll (QuadTree.root q') ->
          boundsOf' x = Some xb -> AABB.intersects xb query = true ->
          x ∈ QuadTree.get boundsOf' q' query).
Proof.
  intros Hwf Hrb G B Hitem Hext.
  destruct (update_removed q item rb Hwf Hrb)
    as (q1 & found & Hrem & Hwf1 & Hrb1 & Hnone & _ & Hshape).
  destruct (Hshape boundsOf) as [G1 B1].
  assert (B1' : bounded boundsOf' (QuadTree.root q1)).
  { apply (bounded_ext boundsOf); [|apply B1, B].
    intros y Hy. apply Hext. intros ->.
    apply (not_located_absent q1 item (proj2 Hwf1) Hnone Hy). }
  destruct (insert_shape boundsOf' q1 item ib rb Hrb1 Hitem (G1 G) B1') as (_ & G' & B').
  unfold QuadTree.update. rewrite Hrem.
  destruct (QuadTree.insert q1 item ib) as [q' found'] eqn:E. cbn [fst] in *.
  exists q', found'. split; [reflexivity|]. split; [exact G'|]. split; [exact B'|].
  intros x xb query Hx Hxb Hcut. eapply getNode_complete; eassumption.
Qed.

Lemma update_keeps_cover_witness :
  exists q' found,
    QuadTree.update busyTree 7 farBox = Some (q', found)
    /\ gridded (QuadTree.root q')
    /\ bounded movedBoundsOf (QuadTree.root q').
Proof.
  destruct (update_keeps_cover sceneBoundsOf movedBoundsOf busyTree 7 farBox sceneBounds
              busyTree_wellFormed busyTree_root busyTree_gridded busyTree_bounded)
    as (q' & found & Hup & G & B & _).
  - reflexivity.
  - intros y Hy. unfold movedBoundsOf. rewrite decide_False by exact Hy. reflexivity.
  - exists q', found. auto.
Defined.

(** Trees with the same location map and the same item arrays are in order
    together. *)
Lemma wellFormed_ext (q q' : QuadTree.t) :
  QuadTree.itemLocations q' = QuadTree.itemLocations q ->
  (forall path,
     QuadTree.nodeItems (QuadTree.nodeAt (QuadTree.root q') path)
     = QuadTree.nodeItems (QuadTree.nodeAt (QuadTree.root q) path)) ->
  wellFormed q -> wellFormed q'.
Proof.
  intros Hloc Hpaths [Hv Hl]. split.
  - intros y ly Hy. unfold slotAt. rewrite Hpaths. rewrite Hloc in Hy. apply (Hv y ly Hy).
  - intros path i y Hy. rewrite Hpaths in Hy. rewrite Hloc. apply (Hl path i y Hy).
Qed.

(** [remove] of the item that [insert] has just placed. *)
Lemma remove_inserted (q : QuadTree.t) (item : nat) (ib rb : AABB.t) :
  wellFormed q ->
  QuadTree.nodeBounds (QuadTree.root q) = Some rb ->
  AABB.contains rb ib = true ->
  QuadTree.itemLocations q !! item = None ->
  exists q'',
    QuadTree.remove (fst (QuadTree.insert q item ib)) item = Some (q'', true)
    /\ QuadTree.itemLocations q'' = QuadTree.itemLocations q
    /\ (forall path,
          QuadTree.nodeItems (QuadTree.nodeAt (QuadTree.root q'') path)
          = QuadTree.nodeItems (QuadTree.nodeAt (QuadTree.root q) path)).
Proof.
  intros Hwf Hrb Hin Hnew.
  pose proof (insert_wf q item ib rb Hwf Hrb Hnew) as Hwf'.
  pose proof (nodeBounds_defined _ _ Hrb) as Hroot.
  destruct (insertNode_spec QuadTree.MAX_DEPTH (QuadTree.root q) item ib Hroot)
    as (_ & Hown & Hidx & _ & Hrest).
  rewrite (insert_accepts q item ib rb Hrb Hin) in *. cbn [fst] in *.
  set (n' := fst (QuadTree.insertNode QuadTree.MAX_DEPTH (QuadTree.root q) item ib)) in *.
  set (loc := snd (QuadTree.insertNode QuadTree.MAX_DEPTH (QuadTree.root q) item ib)) in *.
  set (q' := QuadTree.mk n' (<[item := loc]> (QuadTree.itemLocations q))) in *.
  assert (Hloc : QuadTree.itemLocations q' !! item = Some loc) by apply lookup_insert_eq.
  destruct (remove_effect q' item loc (proj1 Hwf') Hloc)
    as (items' & l & _ & _ & Hitems' & Hrem).
  cbv zeta in Hitems', Hrem. cbn [QuadTree.root q'] in Hitems', Hrem.
  rewrite Hown in Hitems', Hrem.
  rewrite length_app in Hitems', Hrem. cbn [length] in Hitems', Hrem.
  rewrite Nat.add_1_r in Hitems', Hrem. cbn [pred] in Hitems', Hrem.
  rewrite decide_False in Hrem by lia.
  assert (E : items' = QuadTree.nodeItems
                         (QuadTree.nodeAt (QuadTree.root q) (QuadTree.node loc))).
  { apply list_eq. intros j. rewrite Hitems'.
    destruct (decide (j < _)%nat) as [Hlt|Hge].
    - rewrite decide_False by lia. apply lookup_app_l, Hlt.
    - symmetry. apply lookup_ge_None. lia. }
  eexists. split; [exact Hrem|].
  cbn [QuadTree.itemLocations QuadTree.root q'].
  split; [apply delete_insert_id, Hnew|].
  intros path. rewrite items_after_update.
  - destruct (decide (path = QuadTree.node loc)) as [->|Hne]; [exact E|].
    apply Hrest, Hne.
  - intros Hu. rewrite Hu in Hown. cbn [QuadTree.nodeItems] in Hown.
    symmetry in Hown. apply app_eq_nil in Hown as [_ Hown]. discriminate.
Qed.

(** X8: inserting an item that has no location, inside the root, and
    removing it again gives back the location map and the item array of
    every node; [remove] returns [true] and the tree is in order. *)
Theorem insert_remove_roundtrip (q : QuadTree.t) (item : nat) (ib rb : AABB.t) :
  wellFormed q ->
  QuadTree.nodeBounds (QuadTree.root q) = Some rb ->
  AABB.contains rb ib = true ->
  QuadTree.itemLocations q !! item = None ->
  exists q'',
    QuadTree.remove (fst (QuadTree.insert q item ib)) item = Some (q'', true)
    /\ QuadTree.itemLocations q'' = QuadTree.itemLocations q
    /\ (forall path,
          QuadTree.nodeItems (QuadTree.nodeAt (QuadTree.root q'') path)
          = QuadTree.nodeItems (QuadTree.nodeAt (QuadTree.root q) path))
    /\ QuadTree.getAll (QuadTree.root q'') ≡ₚ QuadTree.getAll (QuadTree.root q)
    /\ wellFormed q''.
Proof.
  intros Hwf Hrb Hin Hnew.
  destruct (remove_inserted q item ib rb Hwf Hrb Hin Hnew) as (q'' & Hrem & Hloc & Hpaths).
  exists q''. split; [exact Hrem|]. split; [exact Hloc|]. split; [exact Hpaths|].
  split; [|exact (wellFormed_ext q q'' Hloc Hpaths Hwf)].
  pose proof (insert_wf q item ib rb Hwf Hrb Hnew) as Hwf'.
  pose proof (nodeBounds_defined _ _ Hrb) as Hroot.
  pose proof (insertNode_getAll QuadTree.MAX_DEPTH (QuadTree.root q) item ib Hroot) as Hall.
  assert (Hitem : is_Some (QuadTree.itemLocations (fst (QuadTree.insert q item ib)) !! item)).
  { rewrite (insert_accepts q item ib rb Hrb Hin). cbn [fst QuadTree.itemLocations].
    rewrite lookup_insert_eq. eexists. reflexivity. }
  pose proof (remove_getAll _ _ item true (proj1 Hwf') Hitem Hrem) as Hp.
  rewrite (insert_accepts q item ib rb Hrb Hin) in Hp. cbn [fst QuadTree.root] in Hp.
  rewrite Hall in Hp. apply Permutation_cons_inv in Hp. symmetry. exact Hp.
Qed.

Lemma insert_remove_roundtrip_witness :
  exists q'',
    QuadTree.remove (fst (QuadTree.insert busyTree 5 farBox)) 5 = Some (q'', true)
    /\ QuadTree.itemLocations q'' = QuadTree.itemLocations busyTree
    /\ QuadTree.getAll (QuadTree.root q'') ≡ₚ QuadTree.getAll (QuadTree.root busyTree)
    /\ wellFormed q''.
Proof.
  destruct (insert_remove_roundtrip busyTree 5 farBox sceneBounds busyTree_wellFormed
              busyTree_root sceneBounds_far eq_refl)
    as (q'' & Hrem & Hloc & _ & Hall & Hwf).
  exists q''. auto.
Defined.

(** X9: a tree in order holds no item twice, and [get] returns no item
    twice. *)
Theorem get_NoDup (boundsOf : nat -> option AABB.t) (q : QuadTree.t) (query : AABB.t) :
  wellFormed q ->
  NoDup (QuadTree.getAll (QuadTree.root q))
  /\ NoDup (QuadTree.get boundsOf q query).
Proof.
  intros Hwf. pose proof (itemsLocated_NoDup q (proj2 Hwf)) as H.
  split; [exact H|]. unfold QuadTree.get.
  eapply sublist_NoDup; [exact H|apply getNode_sublist].
Qed.

Lemma get_NoDup_witness :
  NoDup (QuadTree.getAll (QuadTree.root busyTree))
  /\ NoDup (QuadTree.get sceneBoundsOf busyTree nearBox).
Proof. exact (get_NoDup sceneBoundsOf busyTree nearBox busyTree_wellFormed). Defined.

(** X10: [QuadTree.prune] keeps the root, the item array of every node
    and so the items of the tree and their locations; below the root it
    leaves only nodes that hold an item in their subtree; and pruning twice
    is pruning once. *)
Theorem pruneTree_spec (q : QuadTree.t) :
  QuadTree.root q <> QuadTree.Undefined ->
  let q' := QuadTree.pruneTree q in
  QuadTree.root q' <> QuadTree.Undefined
  /\ (forall path,
        QuadTree.nodeItems (QuadTree.nodeAt (QuadTree.root q') path)
        = QuadTree.nodeItems (QuadTree.nodeAt (QuadTree.root q) path))
  /\ QuadTree.getAll (QuadTree.root q') = QuadTree.getAll (QuadTree.root q)
  /\ (wellFormed q -> wellFormed q')
  /\ (forall path,
        path <> [] ->
        QuadTree.nodeAt (QuadTree.root q') path <> QuadTree.Undefined ->
        QuadTree.getAll (QuadTree.nodeAt (QuadTree.root q') path) <> [])
  /\ QuadTree.pruneTree q' = q'.
Proof.
  intros Hroot q'. subst q'. unfold QuadTree.pruneTree. cbn [QuadTree.root QuadTree.itemLocations].
  split; [apply prune_defined, Hroot|].
  split; [intros path; apply prune_keeps_items|].
  split; [apply getAll_prune_eq|].
  split; [|split].
  - intros [Hv Hl]. split.
    + intros y loc Hy. unfold slotAt. cbn [QuadTree.root QuadTree.itemLocations] in *.
      rewrite prune_keeps_items. apply (Hv y loc Hy).
    + intros path i y Hy. cbn [QuadTree.root QuadTree.itemLocations] in *.
      rewrite prune_keeps_items in Hy. apply (Hl path i y Hy).
  - intros path Hp Hd Hempty.
    destruct (prune_nodeAt (QuadTree.root q) path Hroot) as [_ H].
    specialize (H Hp Hd). apply prunable_getAll in Hempty. congruence.
  - rewrite prune_idempotent. reflexivity.
Qed.

Lemma pruneTree_spec_witness :
  QuadTree.getAll (QuadTree.root (QuadTree.pruneTree busyTree))
  = QuadTree.getAll (QuadTree.root busyTree)
  /\ wellFormed (QuadTree.pruneTree busyTree)
  /\ QuadTree.nodeAt (QuadTree.root busyTree) [QuadTree.Q0; QuadTree.Q3] <> QuadTree.Undefined
  /\ QuadTree.nodeAt (QuadTree.root (QuadTree.pruneTree busyTree)) [QuadTree.Q0; QuadTree.Q3]
     = QuadTree.Undefined.
Proof.
  assert (Hroot : QuadTree.root busyTree <> QuadTree.Undefined) by discriminate.
  destruct (pruneTree_spec busyTree Hroot) as (_ & _ & Hall & Hwf & Hlive & _).
  split; [exact Hall|]. split; [exact (Hwf busyTree_wellFormed)|].
  split; [discriminate|].
  destruct (QuadTree.nodeAt (QuadTree.root (QuadTree.pruneTree busyTree)) [QuadTree.Q0; QuadTree.Q3])
    eqn:E; [reflexivity|].
  exfalso. apply (Hlive [QuadTree.Q0; QuadTree.Q3]).
  - discriminate.
  - rewrite E. discriminate.
  - reflexivity.
Defined.

(** X11: [QuadTree.clear] empties the location map and the item array of
    every node, and keeps the nodes: [getAll] and [get] return nothing, the
    tree is in order, and the paths that led to a node still do. *)
Theorem clear_spec (boundsOf : nat -> option AABB.t) (q : QuadTree.t) (query : AABB.t) :
  let q' := QuadTree.clear q in
  QuadTree.getAll (QuadTree.root q') = []
  /\ QuadTree.get boundsOf q' query = []
  /\ QuadTree.itemLocations q' = ∅
  /\ wellFormed q'
  /\ (forall path,
        QuadTree.nodeAt (QuadTree.root q') path = QuadTree.Undefined
        <-> QuadTree.nodeAt (QuadTree.root q) path = QuadTree.Undefined).
Proof.
  cbv zeta. unfold QuadTree.clear. cbn [QuadTree.root QuadTree.itemLocations].
  assert (Hall : QuadTree.getAll (QuadTree.clearNode (QuadTree.root q)) = [])
    by apply clearNode_getAll.
  split; [exact Hall|]. split; [|split; [reflexivity|split]].
  - pose proof (getNode_sublist boundsOf (QuadTree.clearNode (QuadTree.root q)) query) as H.
    rewrite Hall in H. apply sublist_nil_r in H. exact H.
  - split.
    + intros y loc Hy. cbn in Hy. rewrite lookup_empty in Hy. discriminate.
    + intros path i y Hy. cbn [QuadTree.root] in Hy.
      assert (Hin : y ∈ QuadTree.getAll (QuadTree.clearNode (QuadTree.root q))).
      { eapply getAll_nodeAt, getAll_nodeItems, list_elem_of_lookup_2, Hy. }
      rewrite Hall in Hin. inversion Hin.
  - intros path. rewrite clearNode_nodeAt.
    destruct (QuadTree.nodeAt (QuadTree.root q) path); cbn; split; congruence.
Qed.

End QuadTreeTheorems.

(** ** The broad phase through the calls of the engine *)

Section BroadPhase.

Lemma update_wf (q : QuadTree.t) (item : nat) (ib rb : AABB.t) :
  wellFormed q ->
  QuadTree.nodeBounds (QuadTree.root q) = Some rb ->
  exists q' found,
    QuadTree.update q item ib = Some (q', found)
    /\ wellFormed q'
    /\ QuadTree.nodeBounds (QuadTree.root q') = Some rb.
Proof.
  intros Hwf Hrb.
  destruct (update_removed q item rb Hwf Hrb)
    as (q1 & found & Hrem & Hwf1 & Hrb1 & Hnone & _).
  pose proof (insert_wf q1 item ib rb Hwf1 Hrb1 Hnone) as Hwf'.
  unfold QuadTree.update. rewrite Hrem.
  destruct (AABB.contains rb ib) eqn:Hin.
  - rewrite (insert_accepts q1 item ib rb Hrb1 Hin) in *. cbn [fst] in Hwf'.
    eexists _, _. split; [reflexivity|]. split; [exact Hwf'|].
    cbn [QuadTree.root]. rewrite insertNode_nodeBounds. exact Hrb1.
  - assert (E : QuadTree.insert q1 item ib = (q1, false))
      by (unfold QuadTree.insert; rewrite Hrb1, Hin; reflexivity).
    rewrite E in *. eauto.
Qed.

Lemma sound_same (rb : AABB.t) (w0 w : World) :
  sameBroadPhase w0 w -> broadPhaseSound rb w0 -> broadPhaseSound rb w.
Proof.
  intros Hs (Hwf & Hrb & Hheld). pose proof Hs as [Hq Hb].
  unfold broadPhaseSound. rewrite Hq.
  split; [exact Hwf|]. split; [exact Hrb|]. exact (itemsHeld_same _ _ Hs Hheld).
Qed.

Lemma sound_integrateBody (rb : AABB.t) (dt : R) (bodies : list nat) (w : World) (r : nat) :
  r ∈ bodies ->
  broadPhaseSound rb w /\ PhysicsEngine.bodies (engine w) = bodies ->
  holdsAfter (fun w' => broadPhaseSound rb w' /\ PhysicsEngine.bodies (engine w') = bodies)
             (broadPhaseSound rb)
             (Engine.integrateBody dt w r).
Proof.
  intros Hr [(Hwf & Hrb & Hheld) Hb].
  pose proof (itemsHeld_integrateBody dt bodies w r Hr (conj Hheld Hb)) as Hi.
  revert Hi. unfold Engine.integrateBody.
  destruct (bodyObjs (store w) !! r) as [body|]; [|intros _; exact (conj (conj Hwf (conj Hrb Hheld)) Hb)].
  destruct (RigidBody.fixed body || RigidBody.sleeping body);
    [intros _; exact (conj (conj Hwf (conj Hrb Hheld)) Hb)|].
  cbv zeta.
  match goal with |- context [if ?c then _ else _] => destruct c end;
    [|intros _; exact (conj (conj Hwf (conj Hrb Hheld)) Hb)].
  match goal with
  | |- context [QuadTree.update ?q ?i ?b] =>
      destruct (update_wf q i b rb Hwf Hrb) as (q' & found & -> & Hwf' & Hrb')
  end.
  cbn [holdsAfter]. intros [Hheld' Hb'].
  split; [|exact Hb'].
  split; [exact Hwf'|]. split; [exact Hrb'|exact Hheld'].
Qed.

Lemma sound_step (rb : AABB.t) fuel (dt : R) (w : World) :
  broadPhaseSound rb w ->
  holdsAfter (broadPhaseSound rb) (broadPhaseSound rb) (Engine.step fuel dt w).
Proof.
  intros H. unfold Engine.step.
  eapply holdsAfter_bind.
  - apply (holdsAfter_forEach_in
             (fun w' => broadPhaseSound rb w'
                        /\ PhysicsEngine.bodies (engine w') = PhysicsEngine.bodies (engine w))
             (broadPhaseSound rb)); [|split; [exact H|reflexivity]].
    intros w1 r Hr H1. apply sound_integrateBody; assumption.
  - intros w1 [H1 _]. cbv zeta.
    assert (H3 : broadPhaseSound rb (Engine.resetIslands w1)) by exact H1.
    eapply holdsAfter_bind.
    + eapply holdsAfter_weaken; [apply sameBroadPhase_checkCollisions| |].
      * intros w4 H4. exact (sound_same rb _ _ H4 H3).
      * intros w4 H4. exact (sound_same rb _ _ H4 H3).
    + intros w4 H4. exact H4.
Qed.

Lemma sound_steps (rb : AABB.t) fuel (n : nat) (w : World) :
  broadPhaseSound rb w ->
  holdsAfter (broadPhaseSound rb) (broadPhaseSound rb) (Engine.steps fuel n w).
Proof.
  revert w. induction n as [|n IH]; intros w H; [exact H|].
  cbn [Engine.steps]. eapply holdsAfter_bind; [apply sound_step, H|].
  intros w' H'. apply IH, H'.
Qed.

Lemma sound_new (s : Store) (worldBounds : AABB.t) (config : PhysicsEngineConfig) :
  broadPhaseSound worldBounds (mkWorld s (PhysicsEngine.new worldBounds config)).
Proof.
  split; [|split; [reflexivity|apply itemsHeld_new]].
  split.
  - intros y loc Hy. cbn in Hy. rewrite lookup_empty in Hy. discriminate.
  - intros path i y Hy. cbn [engine PhysicsEngine.new PhysicsEngine.quadtree
                              QuadTree.new QuadTree.root] in Hy.
    rewrite nodeItems_nodeAt_newNode in Hy. discriminate.
Qed.

(** X12: every call of the engine keeps the broad phase in order,
    whether it returns or throws: the location map and the item arrays of
    the quadtree agree, its root keeps its bounds, and it holds only bodies
    of [this.bodies].  The calls are [addBody] of a body that the quadtree
    does not hold, [removeBody] of a body of [this.bodies], [update] and
    [step]. *)
Theorem run_keeps_broad_phase (rb : AABB.t) fuel (call : Engine.Call) (w : World) :
  broadPhaseSound rb w ->
  (forall b, call = Engine.AddBody b ->
             QuadTree.itemLocations (PhysicsEngine.quadtree (engine w)) !! b = None) ->
  (forall b, call = Engine.RemoveBody b -> b ∈ PhysicsEngine.bodies (engine w)) ->
  holdsAfter (broadPhaseSound rb) (broadPhaseSound rb) (Engine.run fuel call w).
Proof.
  intros H Hadd Hrem. pose proof H as (Hwf & Hrb & Hheld).
  destruct call as [body|body|start stop dt|dt]; cbn [Engine.run].
  - specialize (Hadd body eq_refl). clear Hrem.
    pose proof (itemsHeld_addBody body w Hheld) as Hheld'.
    revert Hheld'. unfold Engine.addBody. cbv zeta.
    destruct (Engine.boundsOf (store w) body) as [b|]; intros Hheld'.
    + split; [|split; [|exact Hheld']];
        cbn [onEngine engine PhysicsEngine.quadtree PhysicsEngine.with_quadtree
             PhysicsEngine.with_bodies].
      * apply (insert_wf _ body b rb Hwf Hrb Hadd).
      * destruct (AABB.contains rb b) eqn:Hin.
        -- rewrite (insert_accepts _ body b rb Hrb Hin). cbn [fst QuadTree.root].
           rewrite insertNode_nodeBounds. exact Hrb.
        -- unfold QuadTree.insert. rewrite Hrb, Hin. exact Hrb.
    + split; [exact Hwf|]. split; [exact Hrb|exact Hheld'].
  - specialize (Hrem body eq_refl). clear Hadd.
    pose proof (itemsHeld_removeBody body w Hheld Hwf Hrem) as Hheld'.
    revert Hheld'. unfold Engine.removeBody. cbv zeta.
    destruct (JsArray.swapRemove _ _) as [bodies'|]; [|intros _; exact I].
    destruct (QuadTree.remove _ body) as [[q' found]|] eqn:Hq; [|intros _; exact I].
    cbn [holdsAfter]. intros Hheld'.
    pose proof (remove_shape (fun _ => None) _ _ _ _ Hq) as (Hb & _).
    split; [|split; [|exact Hheld']];
      cbn [onEngine engine PhysicsEngine.quadtree PhysicsEngine.with_quadtree
           PhysicsEngine.with_bodies].
    + destruct (QuadTree.itemLocations (PhysicsEngine.quadtree (engine w)) !! body)
        as [loc|] eqn:Hloc.
      * destruct (remove_wellFormed _ body loc Hwf Hloc) as (q'' & Hq' & Hwf' & _).
        rewrite Hq in Hq'. injection Hq' as <-. exact Hwf'.
      * unfold QuadTree.remove in Hq. rewrite Hloc in Hq. injection Hq as <- _. exact Hwf.
    + rewrite Hb. exact Hrb.
  - unfold Engine.update. cbv zeta.
    eapply holdsAfter_bind; [|intros r Hr; exact Hr].
    eapply holdsAfter_bind; [apply sound_steps, H|].
    intros w' Hw'. exact Hw'.
  - apply sound_step, H.
Qed.

Lemma busyWorld_sound : broadPhaseSound sceneBounds busyWorld.
Proof.
  split; [exact busyTree_wellFormed|]. split; [reflexivity|].
  intros b Hb. cbn in Hb. cbn. exact Hb.
Qed.

Lemma run_keeps_broad_phase_witness :
  holdsAfter (broadPhaseSound sceneBounds) (broadPhaseSound sceneBounds)
             (Engine.run 64 (Engine.Step (1 / 500)) busyWorld).
Proof.
  apply (run_keeps_broad_phase sceneBounds 64 (Engine.Step (1 / 500)) busyWorld
           busyWorld_sound); intros b Hb; discriminate.
Defined.

(** The body pushed last is the one that [removeBody] takes out: the list is
    what it was before the push, also when it held the body already. *)
Lemma swapRemove_pushed (l : list nat) (b : nat) :
  JsArray.swapRemove (l ++ [b]) (JsArray.indexOf (l ++ [b]) b) = Some l.
Proof.
  destruct (indexOf_spec (l ++ [b]) b) as [[Hnot _]|(i & -> & Hi)].
  { exfalso. apply Hnot. apply elem_of_app. right. apply list_elem_of_singleton. reflexivity. }
  destruct (swapRemove_in_range (l ++ [b]) i b Hi) as (items' & x & -> & Hlast & Hlen & Hat).
  rewrite last_snoc in Hlast. injection Hlast as <-.
  rewrite length_app in Hlen, Hat. cbn [length] in Hlen, Hat.
  rewrite Nat.add_1_r in Hlen, Hat. cbn [pred] in Hlen, Hat.
  f_equal. apply list_eq. intros j. rewrite Hat.
  destruct (decide (j < length l)%nat) as [Hlt|Hge].
  - destruct (decide (j = i)) as [->|Hne].
    + rewrite lookup_app_l in Hi by exact Hlt. symmetry. exact Hi.
    + apply lookup_app_l, Hlt.
  - symmetry. apply lookup_ge_None. lia.
Qed.

(** X13: [addBody(b)] and then [removeBody(b)], for a body that the
    quadtree does not hold: the call returns, and the store, the list
    [this.bodies], the location map and the item array of every node of the
    quadtree, the collisions and the islands are what they were before the
    two calls; the quadtree is in order.  This holds whether or not the root
    contains the bounds of the body, and also when [this.bodies] held the
    body already. *)
Theorem addBody_removeBody_roundtrip (b : nat) (w : World) (ib rb : AABB.t) :
  Engine.boundsOf (store w) b = Some ib ->
  wellFormed (PhysicsEngine.quadtree (engine w)) ->
  QuadTree.nodeBounds (QuadTree.root (PhysicsEngine.quadtree (engine w))) = Some rb ->
  QuadTree.itemLocations (PhysicsEngine.quadtree (engine w)) !! b = None ->
  exists w',
    Engine.removeBody b (Engine.addBody b w) = Normal w'
    /\ store w' = store w
    /\ PhysicsEngine.bodies (engine w') = PhysicsEngine.bodies (engine w)
    /\ QuadTree.itemLocations (PhysicsEngine.quadtree (engine w'))
       = QuadTree.itemLocations (PhysicsEngine.quadtree (engine w))
    /\ (forall path,
          QuadTree.nodeItems
            (QuadTree.nodeAt (QuadTree.root (PhysicsEngine.quadtree (engine w'))) path)
          = QuadTree.nodeItems
              (QuadTree.nodeAt (QuadTree.root (PhysicsEngine.quadtree (engine w))) path))
    /\ wellFormed (PhysicsEngine.quadtree (engine w'))
    /\ PhysicsEngine.collisions (engine w') = PhysicsEngine.collisions (engine w)
    /\ PhysicsEngine.islands (engine w') = PhysicsEngine.islands (engine w).
Proof.
  intros Hib Hwf Hrb Hnew.
  set (q := PhysicsEngine.quadtree (engine w)) in *.
  assert (Hq : exists q'' found,
             QuadTree.remove (fst (QuadTree.insert q b ib)) b = Some (q'', found)
             /\ QuadTree.itemLocations q'' = QuadTree.itemLocations q
             /\ (forall path,
                   QuadTree.nodeItems (QuadTree.nodeAt (QuadTree.root q'') path)
                   = QuadTree.nodeItems (QuadTree.nodeAt (QuadTree.root q) path))).
  { destruct (AABB.contains rb ib) eqn:Hin.
    - destruct (remove_inserted q b ib rb Hwf Hrb Hin Hnew) as (q'' & Hrem & Hloc & Hpaths).
      exists q'', true. auto.
    - exists q, false. unfold QuadTree.insert. rewrite Hrb, Hin. cbn [fst].
      unfold QuadTree.remove. rewrite Hnew. auto. }
  destruct Hq as (q'' & found & Hrem & Hloc & Hpaths).
  unfold Engine.addBody. cbv zeta. rewrite Hib.
  unfold Engine.removeBody. cbv zeta.
  destruct w as [s e]. destruct e. 
  cbn [engine store onEngine PhysicsEngine.bodies PhysicsEngine.quadtree
       PhysicsEngine.with_quadtree PhysicsEngine.with_bodies] in *.
  rewrite swapRemove_pushed. subst q. cbn [PhysicsEngine.quadtree] in Hrem. rewrite Hrem.
  eexists. split; [reflexivity|].
  cbn [engine store onEngine PhysicsEngine.bodies PhysicsEngine.quadtree
       PhysicsEngine.with_quadtree PhysicsEngine.with_bodies
       PhysicsEngine.collisions PhysicsEngine.islands].
  split; [reflexivity|]. split; [reflexivity|]. split; [exact Hloc|].
  split; [exact Hpaths|]. split; [|split; reflexivity].
  eapply wellFormed_ext; [exact Hloc|exact Hpaths|exact Hwf].
Qed.

Lemma addBody_removeBody_roundtrip_witness :
  exists w',
    Engine.removeBody 1 (Engine.addBody 1 stockWorld) = Normal w'
    /\ store w' = store stockWorld
    /\ PhysicsEngine.bodies (engine w') = []
    /\ wellFormed (PhysicsEngine.quadtree (engine w')).
Proof.
  destruct (addBody_removeBody_roundtrip 1 stockWorld (RigidBody.bounds faller) sceneBounds
              eq_refl
              (proj1 (sound_new (store stockWorld) sceneBounds PhysicsEngineConfigDefault))
              eq_refl eq_refl)
    as (w' & Hrun & Hstore & Hbodies & _ & _ & Hwf & _).
  exists w'. split; [exact Hrun|]. split; [exact Hstore|]. split; [exact Hbodies|exact Hwf].
Defined.

End BroadPhase.

(** ** Vectors, shapes and the factories of bodies *)

Ltac vec :=
  cbv beta iota zeta delta
      [Vec2.dot Vec2.cross Vec2.sub Vec2.neg Vec2.add Vec2.perpendicular
       Vec2.tripleCross Vec3.cross Vec2.mulScalar Vec2.magnitudeSquared Vec2.rotate
       Vec2.zero] in *;
  cbn [Vec2.x Vec2.y Vec3.x Vec3.y Vec3.z] in *.

Ltac min_max :=
  repeat match goal with
         | |- context [Rmin ?a ?b] =>
             first [rewrite (Rmin_left a b) by lra | rewrite (Rmin_right a b) by lra]
         | |- context [Rmax ?a ?b] =>
             first [rewrite (Rmax_left a b) by lra | rewrite (Rmax_right a b) by lra]
         end.

Section Geometry.
Local Open Scope R_scope.

Lemma vec2_eq (a b : Vec2.t) : Vec2.x a = Vec2.x b -> Vec2.y a = Vec2.y b -> a = b.
Proof. destruct a, b. cbn. intros -> ->. reflexivity. Qed.

(** The scan of [getFurthestPoint]. *)
Lemma furthest_fold (d : Vec2.t) (points : Polygon.t) (best : R) (bp : Vec2.t) :
  let r :=
    fold_left
      (fun (acc : R * Vec2.t) point =>
         let projection := Vec2.dot point d in
         if Num.ltb (fst acc) projection then (projection, point) else acc)
      points (best, bp) in
  best <= fst r
  /\ (forall p, p ∈ points -> Vec2.dot p d <= fst r)
  /\ ((r = (best, bp) /\ forall p, p ∈ points -> Vec2.dot p d <= best)
      \/ (snd r ∈ points /\ fst r = Vec2.dot (snd r) d /\ best < fst r)).
Proof.
  revert best bp. induction points as [|q points IH]; intros best bp; cbn [fold_left].
  { split; [cbn; lra|]. split; [intros p Hp; inversion Hp|].
    left. split; [reflexivity|]. intros p Hp. inversion Hp. }
  cbv zeta. cbn [fst].
  destruct (Num.ltb best (Vec2.dot q d)) eqn:Hlt.
  - apply ltb_true in Hlt.
    specialize (IH (Vec2.dot q d) q). cbv zeta in IH.
    destruct IH as (Hge & Hall & Hcase).
    split; [lra|]. split.
    + intros p Hp. apply elem_of_cons in Hp as [->|Hp]; [exact Hge|apply Hall, Hp].
    + right. destruct Hcase as [[E _]|(Hin & Hdot & Hbest)].
      * rewrite E. cbn [fst snd]. split; [left|]. split; [reflexivity|exact Hlt].
      * split; [right; exact Hin|]. split; [exact Hdot|lra].
  - apply ltb_false in Hlt.
    specialize (IH best bp). cbv zeta in IH.
    destruct IH as (Hge & Hall & Hcase).
    split; [exact Hge|]. split.
    + intros p Hp. apply elem_of_cons in Hp as [->|Hp]; [lra|apply Hall, Hp].
    + destruct Hcase as [[E Hle]|(Hin & Hdot & Hbest)].
      * left. split; [exact E|].
        intros p Hp. apply elem_of_cons in Hp as [->|Hp]; [exact Hlt|apply Hle, Hp].
      * right. split; [right; exact Hin|]. split; [exact Hdot|exact Hbest].
Qed.

(** X14: [Polygon.getFurthestPoint] returns a vertex whose projection on
    the direction is the largest, as soon as one vertex projects above
    [-Number.MAX_VALUE]; when none does, as for a polygon without vertices,
    it returns the zero vector. *)
Theorem getFurthestPoint_support (points : Polygon.t) (d : Vec2.t) :
  ((exists p, p ∈ points /\ - Num.MAX_VALUE < Vec2.dot p d) ->
   Polygon.getFurthestPoint points d ∈ points
   /\ forall p, p ∈ points ->
                Vec2.dot p d <= Vec2.dot (Polygon.getFurthestPoint points d) d)
  /\ ((forall p, p ∈ points -> Vec2.dot p d <= - Num.MAX_VALUE) ->
      Polygon.getFurthestPoint points d = Vec2.zero).
Proof.
  unfold Polygon.getFurthestPoint.
  pose proof (furthest_fold d points (- Num.MAX_VALUE) Vec2.zero) as H.
  cbv zeta in H. destruct H as (Hge & Hall & Hcase).
  split.
  - intros (p & Hp & Hproj).
    destruct Hcase as [[_ Hle]|(Hin & Hdot & _)].
    + specialize (Hle p Hp). lra.
    + split; [exact Hin|]. intros p' Hp'. rewrite <- Hdot. apply Hall, Hp'.
  - intros Hle.
    destruct Hcase as [[E _]|(Hin & Hdot & Hbest)]; [rewrite E; reflexivity|].
    specialize (Hle _ Hin). lra.
Qed.

Lemma getFurthestPoint_support_witness :
  Polygon.getFurthestPoint triangle (Vec2.mk 1 0) ∈ triangle
  /\ Vec2.dot (Vec2.mk 4 0) (Vec2.mk 1 0)
     <= Vec2.dot (Polygon.getFurthestPoint triangle (Vec2.mk 1 0)) (Vec2.mk 1 0).
Proof.
  destruct (proj1 (getFurthestPoint_support triangle (Vec2.mk 1 0))) as [Hin Hmax].
  - exists (Vec2.mk 4 0). split; [unfold triangle; set_solver|].
    pose proof MAX_VALUE_large. vec. lra.
  - split; [exact Hin|]. apply Hmax. unfold triangle. set_solver.
Defined.

(** Sums of coordinates. *)
Lemma sum_translate (f : Vec2.t -> R) (g : R) (points : Polygon.t) (delta : Vec2.t) (acc : R) :
  (forall p, f (Vec2.add p delta) = f p + g) ->
  fold_left (fun acc p => acc + f p) (Polygon.translate points delta) acc
  = fold_left (fun acc p => acc + f p) points acc + INR (length points) * g.
Proof.
  intros Hf. revert acc.
  induction points as [|q points IH]; intros acc.
  { cbn. lra. }
  cbn [Polygon.translate map fold_left length].
  change (map (fun p => Vec2.add p delta) points) with (Polygon.translate points delta).
  rewrite IH, Hf, S_INR.
  assert (Hshift : forall (l : Polygon.t) (a b : R),
             fold_left (fun acc p => acc + f p) l (a + b)
             = fold_left (fun acc p => acc + f p) l a + b).
  { clear. induction l as [|q l IH]; intros a b; [reflexivity|].
    cbn [fold_left]. replace (a + b + f q) with (a + f q + b) by lra. apply IH. }
  rewrite <- Rplus_assoc, Hshift. lra.
Qed.

Lemma translate_length (points : Polygon.t) (delta : Vec2.t) :
  length (Polygon.translate points delta) = length points.
Proof. apply length_map. Qed.

Lemma Polygon_centre_translate (points : Polygon.t) (delta : Vec2.t) :
  points <> [] ->
  Polygon.getCentre (Polygon.translate points delta)
  = Vec2.add (Polygon.getCentre points) delta.
Proof.
  intros Hne. unfold Polygon.getCentre. cbv zeta.
  rewrite translate_length.
  rewrite (sum_translate Vec2.x (Vec2.x delta)), (sum_translate Vec2.y (Vec2.y delta))
    by (intros; reflexivity).
  assert (Hn : INR (length points) <> 0).
  { apply not_0_INR. destruct points; [congruence|discriminate]. }
  unfold Vec2.add. cbn [Vec2.x Vec2.y]. f_equal; field; exact Hn.
Qed.

Lemma Polygon_setCentre_centre (points : Polygon.t) (c : Vec2.t) :
  points <> [] -> Polygon.getCentre (Polygon.setCentre points c) = c.
Proof.
  intros Hne. unfold Polygon.setCentre. rewrite Polygon_centre_translate by exact Hne.
  apply vec2_eq; unfold Vec2.add, Vec2.sub; cbn [Vec2.x Vec2.y]; lra.
Qed.

Lemma Capsule_setCentre_centre (c : Capsule.t) (p : Vec2.t) :
  Capsule.getCentre (Capsule.setCentre c p) = p.
Proof.
  unfold Capsule.setCentre, Capsule.getCentre, Capsule.translate, Circle.translate.
  cbn [Capsule.circle0 Capsule.circle1 Circle.centre].
  apply vec2_eq; unfold Vec2.add, Vec2.sub, Vec2.mulScalar; cbn [Vec2.x Vec2.y]; lra.
Qed.

(** X15: [getCentre] after [setCentre(c)] is [c], for a circle, a
    capsule and a polygon that has a vertex.  So a body built by the
    constructor has its collider centred on its position, and its bounds
    are those of the collider. *)
Theorem setCentre_getCentre (s : Shape.t) (c : Vec2.t) :
  (forall points, s = Shape.OfPolygon points -> points <> []) ->
  Shape.getCentre (Shape.setCentre s c) = c
  /\ forall nextID mass angularMass restitution friction fixed,
       let b := RigidBody.new nextID s c mass angularMass restitution friction fixed in
       Shape.getCentre (RigidBody.collider b) = RigidBody.position b
       /\ RigidBody.bounds b = AABB.fromShape (RigidBody.collider b).
Proof.
  intros Hne.
  assert (H : Shape.getCentre (Shape.setCentre s c) = c).
  { destruct s as [k|points|k]; cbn [Shape.setCentre Shape.getCentre].
    - reflexivity.
    - apply Polygon_setCentre_centre, (Hne points eq_refl).
    - apply Capsule_setCentre_centre. }
  split; [exact H|]. intros. subst b. cbn [RigidBody.collider RigidBody.position
                                            RigidBody.bounds RigidBody.new].
  split; [exact H|reflexivity].
Qed.

Lemma setCentre_getCentre_witness :
  Shape.getCentre (Shape.setCentre (Shape.OfPolygon triangle) (Vec2.mk 10 10)) = Vec2.mk 10 10.
Proof.
  apply (setCentre_getCentre (Shape.OfPolygon triangle) (Vec2.mk 10 10)).
  intros points [= <-]. discriminate.
Defined.


(** The scans of [getMinX] and [getMaxX]. *)
Lemma min_fold (f : Vec2.t -> R) (points : Polygon.t) (init : R) :
  let r := fold_left (fun m p => Rmin m (f p)) points init in
  r <= init
  /\ (forall p, p ∈ points -> r <= f p)
  /\ (r = init \/ exists p, p ∈ points /\ r = f p).
Proof.
  revert init. induction points as [|q points IH]; intros init; cbn [fold_left].
  { split; [lra|]. split; [intros p Hp; inversion Hp|]. left. reflexivity. }
  specialize (IH (Rmin init (f q))). cbv zeta in IH. destruct IH as (Hle & Hall & Hcase).
  pose proof (Rmin_l init (f q)). pose proof (Rmin_r init (f q)).
  split; [lra|]. split.
  - intros p Hp. apply elem_of_cons in Hp as [->|Hp]; [lra|apply Hall, Hp].
  - destruct Hcase as [E|(p & Hp & E)].
    + destruct (Rle_dec init (f q)) as [Hc|Hc].
      * left. rewrite E. apply Rmin_left, Hc.
      * right. exists q. split; [left|]. rewrite E. apply Rmin_right. lra.
    + right. exists p. split; [right; exact Hp|exact E].
Qed.

Lemma max_fold (f : Vec2.t -> R) (points : Polygon.t) (init : R) :
  let r := fold_left (fun m p => Rmax m (f p)) points init in
  init <= r
  /\ (forall p, p ∈ points -> f p <= r)
  /\ (r = init \/ exists p, p ∈ points /\ r = f p).
Proof.
  revert init. induction points as [|q points IH]; intros init; cbn [fold_left].
  { split; [lra|]. split; [intros p Hp; inversion Hp|]. left. reflexivity. }
  specialize (IH (Rmax init (f q))). cbv zeta in IH. destruct IH as (Hle & Hall & Hcase).
  pose proof (Rmax_l init (f q)). pose proof (Rmax_r init (f q)).
  split; [lra|]. split.
  - intros p Hp. apply elem_of_cons in Hp as [->|Hp]; [lra|apply Hall, Hp].
  - destruct Hcase as [E|(p & Hp & E)].
    + destruct (Rle_dec (f q) init) as [Hc|Hc].
      * left. rewrite E. apply Rmax_left, Hc.
      * right. exists q. split; [left|]. rewrite E. apply Rmax_right. lra.
    + right. exists p. split; [right; exact Hp|exact E].
Qed.

(** X16: the box of [AABB.fromShape] on a polygon covers every vertex;
    when the polygon has a vertex and its coordinates are within the safe
    integers, each of the four sides of the box passes through a vertex. *)
Theorem fromShape_polygon (points : Polygon.t) :
  let box := AABB.fromShape (Shape.OfPolygon points) in
  (forall p, p ∈ points ->
     Vec2.x (AABB.min box) <= Vec2.x p <= Vec2.x (AABB.max box)
     /\ Vec2.y (AABB.min box) <= Vec2.y p <= Vec2.y (AABB.max box))
  /\ (points <> [] ->
      (forall p, p ∈ points ->
         Num.MIN_SAFE_INTEGER <= Vec2.x p <= Num.MAX_SAFE_INTEGER
         /\ Num.MIN_SAFE_INTEGER <= Vec2.y p <= Num.MAX_SAFE_INTEGER) ->
      (exists p, p ∈ points /\ Vec2.x p = Vec2.x (AABB.min box))
      /\ (exists p, p ∈ points /\ Vec2.x p = Vec2.x (AABB.max box))
      /\ (exists p, p ∈ points /\ Vec2.y p = Vec2.y (AABB.min box))
      /\ (exists p, p ∈ points /\ Vec2.y p = Vec2.y (AABB.max box))).
Proof.
  cbv zeta. unfold AABB.fromShape.
  cbn [AABB.min AABB.max Vec2.x Vec2.y Shape.getMinX Shape.getMinY Shape.getMaxX Shape.getMaxY].
  unfold Polygon.getMinX, Polygon.getMinY, Polygon.getMaxX, Polygon.getMaxY.
  destruct (min_fold Vec2.x points Num.MAX_SAFE_INTEGER) as (A1 & A2 & A3).
  destruct (min_fold Vec2.y points Num.MAX_SAFE_INTEGER) as (B1 & B2 & B3).
  destruct (max_fold Vec2.x points Num.MIN_SAFE_INTEGER) as (C1 & C2 & C3).
  destruct (max_fold Vec2.y points Num.MIN_SAFE_INTEGER) as (D1 & D2 & D3).
  split.
  - intros p Hp. specialize (A2 p Hp). specialize (B2 p Hp).
    specialize (C2 p Hp). specialize (D2 p Hp). lra.
  - intros Hne Hrange.
    destruct points as [|q rest]; [congruence|].
    assert (Hq : q ∈ q :: rest) by left.
    pose proof (Hrange q Hq) as Hq'.
    pose proof (A2 q Hq). pose proof (B2 q Hq). pose proof (C2 q Hq). pose proof (D2 q Hq).
    repeat split.
    + destruct A3 as [E|(p & Hp & E)]; [exists q; split; [exact Hq|lra]|eauto].
    + destruct C3 as [E|(p & Hp & E)]; [exists q; split; [exact Hq|lra]|eauto].
    + destruct B3 as [E|(p & Hp & E)]; [exists q; split; [exact Hq|lra]|eauto].
    + destruct D3 as [E|(p & Hp & E)]; [exists q; split; [exact Hq|lra]|eauto].
Qed.

Lemma fromShape_polygon_witness :
  exists p, p ∈ triangle
            /\ Vec2.x p = Vec2.x (AABB.max (AABB.fromShape (Shape.OfPolygon triangle))).
Proof.
  destruct (proj2 (fromShape_polygon triangle)) as (_ & H & _).
  - discriminate.
  - intros p Hp. unfold triangle in Hp.
    unfold Num.MIN_SAFE_INTEGER, Num.MAX_SAFE_INTEGER.
    repeat (apply elem_of_cons in Hp as [->|Hp]; [cbn [Vec2.x Vec2.y]; lra|]).
    inversion Hp.
  - exact H.
Defined.

Lemma tripleCross_scaled (v1 v2 v3 : Vec2.t) :
  Vec2.tripleCross v1 v2 v3
  = Vec2.mulScalar (Vec2.perpendicular v3) (Vec2.cross v1 v2).
Proof. apply vec2_eq; vec; ring. Qed.

(** X17: [Vec2.tripleCross(v1, v2, v3)], computed through two cross
    products in three dimensions, is the perpendicular of [v3] scaled by
    [v1 x v2], and is [v2 (v1 . v3) - v1 (v2 . v3)]; it is orthogonal to
    [v3]; and [tripleCross(v1, v2, v1)] never points away from [v2]: their
    dot product is the square of [v1 x v2]. *)
Theorem tripleCross_identity (v1 v2 v3 : Vec2.t) :
  Vec2.tripleCross v1 v2 v3
  = Vec2.mulScalar (Vec2.perpendicular v3) (Vec2.cross v1 v2)
  /\ Vec2.tripleCross v1 v2 v3
     = Vec2.sub (Vec2.mulScalar v2 (Vec2.dot v1 v3)) (Vec2.mulScalar v1 (Vec2.dot v2 v3))
  /\ Vec2.dot (Vec2.tripleCross v1 v2 v3) v3 = 0
  /\ Vec2.dot (Vec2.tripleCross v1 v2 v1) v2 = Vec2.cross v1 v2 * Vec2.cross v1 v2.
Proof.
  repeat split; try apply vec2_eq; vec; ring.
Qed.

Lemma magnitude_pos (v : Vec2.t) : Vec2.isZero v = false -> 0 < Vec2.magnitude v.
Proof.
  unfold Vec2.isZero, Vec2.magnitude, Num.eqb. intros H.
  apply sqrt_lt_R0.
  destruct (Req_dec_T (Vec2.x v) 0) as [Hx|Hx], (Req_dec_T (Vec2.y v) 0) as [Hy|Hy];
    cbn in H; try discriminate; nra.
Qed.

Lemma magnitude_square (v : Vec2.t) :
  Vec2.magnitude v * Vec2.magnitude v = Vec2.x v * Vec2.x v + Vec2.y v * Vec2.y v.
Proof. unfold Vec2.magnitude. apply sqrt_sqrt. nra. Qed.

Lemma normalise_unit (v : Vec2.t) :
  Vec2.isZero v = false -> Vec2.magnitude (Vec2.normalise v) = 1.
Proof.
  intros Hz. pose proof (magnitude_pos v Hz) as Hm.
  pose proof (magnitude_square v) as Hsq.
  unfold Vec2.normalise. cbv zeta. rewrite (proj2 (ltb_true _ _) Hm).
  unfold Vec2.magnitude at 1. cbn [Vec2.x Vec2.y].
  set (m := Vec2.magnitude v) in *.
  replace (Vec2.x v / m * (Vec2.x v / m) + Vec2.y v / m * (Vec2.y v / m))
    with ((Vec2.x v * Vec2.x v + Vec2.y v * Vec2.y v) / (m * m)) by (field; lra).
  rewrite <- Hsq. replace (m * m / (m * m)) with 1 by (field; lra).
  apply sqrt_1.
Qed.

Lemma normalise_dot (v w : Vec2.t) :
  Vec2.isZero v = false ->
  Vec2.dot (Vec2.normalise v) w = Vec2.dot v w / Vec2.magnitude v.
Proof.
  intros Hz. pose proof (magnitude_pos v Hz) as Hm.
  unfold Vec2.normalise. cbv zeta. rewrite (proj2 (ltb_true _ _) Hm).
  unfold Vec2.dot. cbn [Vec2.x Vec2.y]. field. lra.
Qed.

Lemma isZero_false (v : Vec2.t) :
  Vec2.isZero v = false <-> Vec2.x v <> 0 \/ Vec2.y v <> 0.
Proof.
  unfold Vec2.isZero, Num.eqb.
  destruct (Req_dec_T (Vec2.x v) 0), (Req_dec_T (Vec2.y v) 0); cbn; split;
    intros; try discriminate; try tauto; auto.
Qed.

Lemma isZero_true (v : Vec2.t) :
  Vec2.isZero v = true <-> Vec2.x v = 0 /\ Vec2.y v = 0.
Proof.
  unfold Vec2.isZero, Num.eqb.
  destruct (Req_dec_T (Vec2.x v) 0), (Req_dec_T (Vec2.y v) 0); cbn; split;
    intros; try discriminate; try tauto; auto.
Qed.

(** X18: for an edge between two distinct points, the normal that EPA
    computes has length 1, is orthogonal to the edge and does not point
    towards the origin; the distance of the edge is the projection of its
    first point on that normal. *)
Theorem edgeNormal_spec (a b : Vec2.t) :
  a <> b ->
  let n := Epa.edgeNormal a b in
  Vec2.magnitude n = 1
  /\ Vec2.dot n (Vec2.sub b a) = 0
  /\ 0 <= Vec2.dot n a
  /\ Epa.edgeDistance a b = Vec2.dot n a.
Proof.
  intros Hab. cbv zeta.
  assert (Hedge : Vec2.isZero (Vec2.sub b a) = false).
  { apply isZero_false. vec.
    destruct (Req_dec_T (Vec2.x b - Vec2.x a) 0) as [Hx|Hx]; [|auto].
    destruct (Req_dec_T (Vec2.y b - Vec2.y a) 0) as [Hy|Hy]; [|auto].
    exfalso. apply Hab. apply vec2_eq; lra. }
  unfold Epa.edgeDistance, Epa.edgeNormal. cbv zeta.
  set (ab := Vec2.sub b a) in *.
  set (k := Vec2.cross ab a).
  pose proof (tripleCross_scaled ab a ab) as Htc.
  fold k in Htc.
  set (v := if Vec2.isZero (Vec2.tripleCross ab a ab)
            then Vec2.perpendicular ab else Vec2.tripleCross ab a ab).
  assert (Hv : Vec2.isZero v = false).
  { subst v. destruct (Vec2.isZero (Vec2.tripleCross ab a ab)) eqn:E; [|exact E].
    apply isZero_false. apply isZero_false in Hedge. vec. destruct Hedge; [right|left]; lra. }
  assert (Hshape : exists c, v = Vec2.mulScalar (Vec2.perpendicular ab) c
                             /\ 0 <= c * k).
  { subst v. destruct (Vec2.isZero (Vec2.tripleCross ab a ab)) eqn:E.
    - exists 1. split; [apply vec2_eq; vec; lra|].
      rewrite Htc in E. apply isZero_true in E. apply isZero_false in Hedge.
      vec. destruct E as [E1 E2].
      assert (k = 0) by (destruct Hedge; nra). nra.
    - exists k. split; [exact Htc|nra]. }
  destruct Hshape as (c & Hc & Hck).
  pose proof (magnitude_pos v Hv) as Hm.
  assert (Hperp : Vec2.dot v ab = 0) by (rewrite Hc; vec; ring).
  assert (Hout : Vec2.dot v a = c * k) by (rewrite Hc; subst k; vec; ring).
  split; [apply normalise_unit, Hv|].
  rewrite !normalise_dot by exact Hv. rewrite Hperp, Hout.
  assert (Hpos : 0 <= c * k / Vec2.magnitude v).
  { apply Rmult_le_pos; [exact Hck|]. left. apply Rinv_0_lt_compat, Hm. }
  split; [unfold Rdiv; lra|]. split; [exact Hpos|].
  apply Rmax_right, Hpos.
Qed.

Lemma edgeNormal_spec_witness :
  Vec2.magnitude (Epa.edgeNormal (Vec2.mk 0 1) (Vec2.mk 1 1)) = 1
  /\ Epa.edgeDistance (Vec2.mk 0 1) (Vec2.mk 1 1)
     = Vec2.dot (Epa.edgeNormal (Vec2.mk 0 1) (Vec2.mk 1 1)) (Vec2.mk 0 1).
Proof.
  destruct (edgeNormal_spec (Vec2.mk 0 1) (Vec2.mk 1 1)) as (H1 & _ & _ & H4).
  - intros [= H]. lra.
  - split; [exact H1|exact H4].
Defined.


Lemma rotate_isometry (p q o : Vec2.t) (r : R) :
  dist2 (Vec2.rotate p o (sin r) (cos r)) (Vec2.rotate q o (sin r) (cos r)) = dist2 p q.
Proof.
  pose proof (sin2_cos2 r) as H. unfold Rsqr in H.
  unfold dist2. vec.
  transitivity ((sin r * sin r + cos r * cos r)
                * ((Vec2.x p - Vec2.x q) * (Vec2.x p - Vec2.x q)
                   + (Vec2.y p - Vec2.y q) * (Vec2.y p - Vec2.y q))); [ring|].
  rewrite H. ring.
Qed.

Lemma rotate_origin (o : Vec2.t) (s c : R) : Vec2.rotate o o s c = o.
Proof. apply vec2_eq; vec; ring. Qed.

Lemma shapePoints_rotate (s : Shape.t) (r : R) (o : Vec2.t) :
  shapePoints (Shape.rotate s r o (sin r) (cos r))
  = map (fun p => Vec2.rotate p o (sin r) (cos r)) (shapePoints s).
Proof.
  destruct s as [c|ps|c]; cbn [Shape.rotate shapePoints]; [reflexivity|reflexivity|].
  unfold Capsule.rotate, Polygon.rotate, Circle.rotate.
  cbn [Capsule.rectangle Capsule.circle0 Capsule.circle1 Circle.centre].
  rewrite map_app. reflexivity.
Qed.

(** X19: [RigidBody.rotate] turns the collider about the position of the
    body: the position is kept, the angle is added to the rotation, the
    bounds are those of the turned collider, the radii are kept, and so are
    the distances between the points of the collider and from each of them
    to the position of the body. *)
Theorem rotate_rigid (b : RigidBody.t) (delta : R) :
  let b' := RigidBody.rotate b delta in
  RigidBody.position b' = RigidBody.position b
  /\ RigidBody.rotation b' = RigidBody.rotation b + delta
  /\ RigidBody.bounds b' = AABB.fromShape (RigidBody.collider b')
  /\ shapeRadii (RigidBody.collider b') = shapeRadii (RigidBody.collider b)
  /\ length (shapePoints (RigidBody.collider b'))
     = length (shapePoints (RigidBody.collider b))
  /\ forall i j p q p' q',
       shapePoints (RigidBody.collider b) !! i = Some p ->
       shapePoints (RigidBody.collider b) !! j = Some q ->
       shapePoints (RigidBody.collider b') !! i = Some p' ->
       shapePoints (RigidBody.collider b') !! j = Some q' ->
       dist2 p' q' = dist2 p q
       /\ dist2 p' (RigidBody.position b) = dist2 p (RigidBody.position b).
Proof.
  cbv zeta. unfold RigidBody.rotate. cbv zeta.
  cbn [RigidBody.position RigidBody.rotation RigidBody.bounds RigidBody.collider
       RigidBody.with_pose].
  split; [reflexivity|]. split; [reflexivity|]. split; [reflexivity|].
  split; [destruct (RigidBody.collider b); reflexivity|].
  rewrite shapePoints_rotate. split; [apply length_map|].
  intros i j p q p' q' Hp Hq Hp' Hq'.
  rewrite list_lookup_fmap, Hp in Hp'. rewrite list_lookup_fmap, Hq in Hq'.
  cbn in Hp', Hq'. injection Hp' as <-. injection Hq' as <-.
  split; [apply rotate_isometry|].
  rewrite <- (rotate_origin (RigidBody.position b) (sin delta) (cos delta)) at 2.
  apply rotate_isometry.
Qed.

Lemma add_add (p d1 d2 : Vec2.t) :
  Vec2.add (Vec2.add p d1) d2 = Vec2.add p (Vec2.add d1 d2).
Proof. apply vec2_eq; vec; ring. Qed.

Lemma add_cancel (p d : Vec2.t) : Vec2.add p (Vec2.add d (Vec2.neg d)) = p.
Proof. apply vec2_eq; vec; ring. Qed.

Lemma Polygon_translate_translate (ps : Polygon.t) (d1 d2 : Vec2.t) :
  Polygon.translate (Polygon.translate ps d1) d2 = Polygon.translate ps (Vec2.add d1 d2).
Proof.
  unfold Polygon.translate. rewrite map_map. apply map_ext. intros p. apply add_add.
Qed.

Lemma Circle_translate_translate (c : Circle.t) (d1 d2 : Vec2.t) :
  Circle.translate (Circle.translate c d1) d2 = Circle.translate c (Vec2.add d1 d2).
Proof. unfold Circle.translate. cbn. rewrite add_add. reflexivity. Qed.

Lemma Shape_translate_translate (s : Shape.t) (d1 d2 : Vec2.t) :
  Shape.translate (Shape.translate s d1) d2 = Shape.translate s (Vec2.add d1 d2).
Proof.
  destruct s as [c|ps|c]; cbn [Shape.translate].
  - rewrite Circle_translate_translate. reflexivity.
  - rewrite Polygon_translate_translate. reflexivity.
  - unfold Capsule.translate.
    cbn [Capsule.rectangle Capsule.circle0 Capsule.circle1 Capsule.length Capsule.angle].
    rewrite Polygon_translate_translate, !Circle_translate_translate. reflexivity.
Qed.

Lemma Shape_translate_cancel (s : Shape.t) (d : Vec2.t) :
  Shape.translate s (Vec2.add d (Vec2.neg d)) = s.
Proof.
  assert (Hps : forall ps, Polygon.translate ps (Vec2.add d (Vec2.neg d)) = ps).
  { intros ps. unfold Polygon.translate. rewrite <- (map_id ps) at 2.
    apply map_ext. intros p. apply add_cancel. }
  assert (Hc : forall c, Circle.translate c (Vec2.add d (Vec2.neg d)) = c).
  { intros [centre radius]. unfold Circle.translate. cbn. rewrite add_cancel. reflexivity. }
  destruct s as [c|ps|c]; cbn [Shape.translate].
  - rewrite Hc. reflexivity.
  - rewrite Hps. reflexivity.
  - unfold Capsule.translate. rewrite Hps, !Hc. destruct c. reflexivity.
Qed.

(** X20: two calls of [RigidBody.translate] are one call with the sum of
    the two vectors, and translating back by the opposite vector gives the
    body back. *)
Theorem translate_compose (b : RigidBody.t) (d1 d2 : Vec2.t) :
  RigidBody.translate (RigidBody.translate b d1) d2
  = RigidBody.translate b (Vec2.add d1 d2)
  /\ RigidBody.translate (RigidBody.translate b d1) (Vec2.neg d1) = b.
Proof.
  assert (H : forall d d',
             RigidBody.translate (RigidBody.translate b d) d'
             = RigidBody.translate b (Vec2.add d d')).
  { intros d d'. unfold RigidBody.translate, RigidBody.with_pose, AABB.translate.
    cbn [RigidBody.id RigidBody.timeStill RigidBody.sleeping RigidBody.fixed
         RigidBody.island RigidBody.collider RigidBody.bounds RigidBody.position
         RigidBody.rotation RigidBody.restitution RigidBody.friction RigidBody.density
         RigidBody.mass RigidBody.inverseMass RigidBody.linearAcceleration
         RigidBody.linearVelocity RigidBody.angularMass RigidBody.inverseAngularMass
         RigidBody.angularAcceleration RigidBody.angularVelocity AABB.min AABB.max].
    rewrite Shape_translate_translate, !add_add. reflexivity. }
  split; [apply H|]. rewrite H.
  unfold RigidBody.translate, RigidBody.with_pose, AABB.translate.
  rewrite Shape_translate_cancel, !add_cancel.
  destruct b as [? ? ? ? ? ? [bmin bmax] ? ? ? ? ? ? ? ? ? ? ? ? ?]. reflexivity.
Qed.


Lemma fromRect_collider nextID (w h : R) (pos : Vec2.t) (dens rest fric : R) (fixed : bool) :
  RigidBody.collider (RigidBody.fromRect nextID w h pos dens rest fric fixed)
  = Shape.OfPolygon
      [Vec2.mk (Vec2.x pos - w / 2) (Vec2.y pos - h / 2);
       Vec2.mk (Vec2.x pos - w / 2) (Vec2.y pos + h / 2);
       Vec2.mk (Vec2.x pos + w / 2) (Vec2.y pos + h / 2);
       Vec2.mk (Vec2.x pos + w / 2) (Vec2.y pos - h / 2)].
Proof.
  unfold RigidBody.fromRect, Polygon.fromRect. cbv zeta.
  cbn [RigidBody.collider RigidBody.new Shape.setCentre].
  unfold Polygon.setCentre, Polygon.getCentre, Polygon.translate.
  cbn [map fold_left length]. vec.
  replace (INR 4) with 4 by (simpl; lra).
  apply (f_equal Shape.OfPolygon).
  repeat (apply (f_equal2 cons); [apply vec2_eq; cbn [Vec2.x Vec2.y]; lra|]).
  reflexivity.
Qed.

Lemma rect_area (cx cy w h : R) :
  0 <= w -> 0 <= h ->
  Polygon.getArea
    [Vec2.mk (cx - w / 2) (cy - h / 2); Vec2.mk (cx - w / 2) (cy + h / 2);
     Vec2.mk (cx + w / 2) (cy + h / 2); Vec2.mk (cx + w / 2) (cy - h / 2)]
  = w * h.
Proof.
  intros Hw Hh. unfold Polygon.getArea, Polygon.successors.
  cbn [app combine fold_left fst snd]. vec.
  match goal with |- Rabs ?s * _ = _ => replace s with (- (2 * (w * h))) by field end.
  rewrite Rabs_Ropp, Rabs_right by nra. lra.
Qed.

(** X21: [RigidBody.fromRect] builds a body whose collider is the
    rectangle of the given width and height centred on the position, of
    mass [width * height * density], of the density asked for, and of
    angular mass [(width^2 + height^2) / 12] times the mass; within the safe
    integers its bounds are the rectangle itself. *)
Theorem fromRect_spec nextID (w h : R) (pos : Vec2.t) (dens rest fric : R) (fixed : bool) :
  0 < w -> 0 < h ->
  let b := RigidBody.fromRect nextID w h pos dens rest fric fixed in
  RigidBody.collider b
  = Shape.OfPolygon
      [Vec2.mk (Vec2.x pos - w / 2) (Vec2.y pos - h / 2);
       Vec2.mk (Vec2.x pos - w / 2) (Vec2.y pos + h / 2);
       Vec2.mk (Vec2.x pos + w / 2) (Vec2.y pos + h / 2);
       Vec2.mk (Vec2.x pos + w / 2) (Vec2.y pos - h / 2)]
  /\ RigidBody.position b = pos
  /\ RigidBody.mass b = w * h * dens
  /\ RigidBody.density b = dens
  /\ RigidBody.angularMass b = (w * w + h * h) / 12 * RigidBody.mass b
  /\ (Num.MIN_SAFE_INTEGER <= Vec2.x pos - w / 2 ->
      Vec2.x pos + w / 2 <= Num.MAX_SAFE_INTEGER ->
      Num.MIN_SAFE_INTEGER <= Vec2.y pos - h / 2 ->
      Vec2.y pos + h / 2 <= Num.MAX_SAFE_INTEGER ->
      RigidBody.bounds b
      = AABB.mk (Vec2.mk (Vec2.x pos - w / 2) (Vec2.y pos - h / 2))
                (Vec2.mk (Vec2.x pos + w / 2) (Vec2.y pos + h / 2))).
Proof.
  intros Hw Hh b.
  pose proof (fromRect_collider nextID w h pos dens rest fric fixed) as Hc.
  fold b in Hc.
  assert (Hbounds : RigidBody.bounds b = AABB.fromShape (RigidBody.collider b)) by reflexivity.
  assert (Hdens : RigidBody.density b
                  = RigidBody.mass b / Shape.getArea (RigidBody.collider b)) by reflexivity.
  assert (Hmass : RigidBody.mass b = w * h * dens) by reflexivity.
  split; [exact Hc|]. split; [reflexivity|]. split; [exact Hmass|].
  split; [|split].
  - rewrite Hdens, Hc, Hmass. cbn [Shape.getArea].
    rewrite rect_area by lra. field. nra.
  - subst b. unfold RigidBody.fromRect, RigidBody.rectangleMMOI, RigidBody.RECIP_12. cbv zeta.
    cbn [RigidBody.angularMass RigidBody.mass RigidBody.new]. field.
  - intros X1 X2 Y1 Y2. rewrite Hbounds, Hc.
    unfold AABB.fromShape.
    cbn [Shape.getMinX Shape.getMinY Shape.getMaxX Shape.getMaxY].
    unfold Polygon.getMinX, Polygon.getMinY, Polygon.getMaxX, Polygon.getMaxY.
    cbn [fold_left Vec2.x Vec2.y].
    unfold Num.MAX_SAFE_INTEGER, Num.MIN_SAFE_INTEGER in *.
    min_max. reflexivity.
Qed.

Lemma fromRect_spec_witness :
  RigidBody.mass (RigidBody.fromRect 0 2 4 (Vec2.mk 10 10) 3 0.5 0.5 false) = 2 * 4 * 3
  /\ RigidBody.bounds (RigidBody.fromRect 0 2 4 (Vec2.mk 10 10) 3 0.5 0.5 false)
     = AABB.mk (Vec2.mk (10 - 2 / 2) (10 - 4 / 2)) (Vec2.mk (10 + 2 / 2) (10 + 4 / 2)).
Proof.
  destruct (fromRect_spec 0 2 4 (Vec2.mk 10 10) 3 0.5 0.5 false) as (_ & _ & Hm & _ & _ & Hb);
    [lra|lra|].
  split; [exact Hm|].
  apply Hb; unfold Num.MIN_SAFE_INTEGER, Num.MAX_SAFE_INTEGER; cbn [Vec2.x Vec2.y]; lra.
Defined.

(** X22: [RigidBody.fromCircle] builds a body whose collider is the
    circle of the given radius centred on the position, of mass
    [PI * radius^2 * density], of the density asked for, and of angular mass
    [radius^2 / 2] times the mass; its bounds are the square around the
    circle. *)
Theorem fromCircle_spec nextID (r : R) (pos : Vec2.t) (dens rest fric : R) (fixed : bool) :
  0 < r ->
  let b := RigidBody.fromCircle nextID r pos dens rest fric fixed in
  RigidBody.collider b = Shape.OfCircle (Circle.mk pos r)
  /\ RigidBody.position b = pos
  /\ RigidBody.mass b = PI * r * r * dens
  /\ RigidBody.density b = dens
  /\ RigidBody.angularMass b = r * r / 2 * RigidBody.mass b
  /\ RigidBody.bounds b
     = AABB.mk (Vec2.mk (Vec2.x pos - r) (Vec2.y pos - r))
               (Vec2.mk (Vec2.x pos + r) (Vec2.y pos + r)).
Proof.
  intros Hr b. subst b. unfold RigidBody.fromCircle. cbv zeta.
  cbn [RigidBody.collider RigidBody.position RigidBody.mass RigidBody.density
       RigidBody.angularMass RigidBody.bounds RigidBody.new Shape.setCentre
       Shape.getArea].
  unfold Circle.setCentre, Circle.getArea, RigidBody.circleMMOI, RigidBody.RECIP_2.
  cbn [Circle.radius Circle.centre].
  pose proof PI_RGT_0 as Hpi.
  repeat split; try reflexivity.
  - field. split; lra.
  - field.
Qed.

Lemma fromCircle_spec_witness :
  RigidBody.mass (RigidBody.fromCircle 0 2 (Vec2.mk 10 10) 3 0.5 0.5 false) = PI * 2 * 2 * 3
  /\ RigidBody.density (RigidBody.fromCircle 0 2 (Vec2.mk 10 10) 3 0.5 0.5 false) = 3.
Proof.
  destruct (fromCircle_spec 0 2 (Vec2.mk 10 10) 3 0.5 0.5 false) as (_ & _ & Hm & Hd & _);
    [lra|].
  split; [exact Hm|exact Hd].
Defined.

End Geometry.

(** ** A relation between the bodies before and after, through every call *)

Section BodiesChain.
Local Open Scope R_scope.

Variable R : RigidBody.t -> RigidBody.t -> Prop.
Hypothesis R_refl : forall b, R b b.
Hypothesis R_trans : forall b1 b2 b3, R b1 b2 -> R b2 b3 -> R b1 b3.
Hypothesis R_island : forall b i, R b (RigidBody.with_island b i).
Hypothesis R_sleeping : forall b v, R b (RigidBody.with_sleeping b v).
Hypothesis R_timeStill : forall b v, R b (RigidBody.with_timeStill b v).
Hypothesis R_impulse : forall b i r, R b (RigidBody.applyImpulse b i r).
Hypothesis R_correct :
  forall b v k, R b (RigidBody.translate b (Vec2.mulScalar v (k * RigidBody.inverseMass b))).
Hypothesis R_move :
  forall cfg wb dt b,
    RigidBody.fixed b || RigidBody.sleeping b = false -> R b (Engine.moveBody cfg wb dt b).

Local Ltac prim :=
  first [ apply R_refl | apply R_island | apply R_sleeping | apply R_timeStill
        | apply R_impulse | apply R_correct ].

Local Ltac rel_one :=
  match goal with
  | |- bodiesRel _ ?s ?s => apply bodiesRel_refl; exact R_refl
  | H : bodiesRel _ ?s0 ?s |- bodiesRel _ ?s0 ?s => exact H
  | |- bodiesRel _ _ (onBody _ _ _) =>
      apply (bodiesRel_onBody_after R R_refl R_trans); [intros; prim|]
  | |- bodiesRel _ _ (onContact _ _ ?s) =>
      apply (bodiesRel_same_after R R_refl R_trans _ s); [reflexivity|]
  | |- bodiesRel _ _ (onIsland _ _ ?s) =>
      apply (bodiesRel_same_after R R_refl R_trans _ s); [reflexivity|]
  | |- bodiesRel _ _ (with_contactObjs ?s _) =>
      apply (bodiesRel_same_after R R_refl R_trans _ s); [reflexivity|]
  | |- bodiesRel _ _ (with_islandObjs ?s _) =>
      apply (bodiesRel_same_after R R_refl R_trans _ s); [reflexivity|]
  | |- bodiesRel _ _ (fold_left _ _ _) =>
      apply bodiesRel_fold_after; [intros ? ? ?|]
  | |- bodiesRel _ _ (Nat.iter _ _ _) =>
      apply bodiesRel_iter_after; [intros ? ?|]
  | |- bodiesRel _ _ (match ?x with _ => _ end) => destruct x
  end.

Local Ltac rel := repeat (cbv zeta; rel_one).

Lemma rel_applyAccumulatedImpulses c s0 s :
  bodiesRel R s0 s -> bodiesRel R s0 (Collision.applyAccumulatedImpulses c s).
Proof. intros H. unfold Collision.applyAccumulatedImpulses. rel. Qed.

Lemma rel_solvePositionLinearOnly c s0 s :
  bodiesRel R s0 s -> bodiesRel R s0 (Collision.solvePositionLinearOnly c s).
Proof. intros H. unfold Collision.solvePositionLinearOnly. rel. Qed.

Lemma rel_solveNormal c s0 s r :
  bodiesRel R s0 s -> bodiesRel R s0 (Collision.solveNormal c s r).
Proof. intros H. unfold Collision.solveNormal. rel. Qed.

Lemma rel_solveTangent c s0 s r :
  bodiesRel R s0 s -> bodiesRel R s0 (Collision.solveTangent c s r).
Proof. intros H. unfold Collision.solveTangent. rel. Qed.

Lemma rel_solveVelocity c s0 s :
  bodiesRel R s0 s -> bodiesRel R s0 (Collision.solveVelocity c s).
Proof.
  intros H. unfold Collision.solveVelocity. rel.
  - apply rel_solveTangent. assumption.
  - apply rel_solveNormal. assumption.
Qed.

Lemma rel_merge this other s0 s :
  bodiesRel R s0 s -> bodiesRel R s0 (Island.merge this other s).
Proof. intros H. unfold Island.merge. rel. Qed.

Lemma rel_addToIsland r i s0 s :
  bodiesRel R s0 s -> bodiesRel R s0 (addToIsland r i s).
Proof. intros H. unfold addToIsland. rel. Qed.

Lemma rel_refreshBias c s0 s r :
  bodiesRel R s0 s -> bodiesRel R s0 (Engine.refreshBias c s r).
Proof. intros H. unfold Engine.refreshBias. rel. Qed.

Lemma rel_prepareCollision s0 s c :
  bodiesRel R s0 s -> bodiesRel R s0 (Engine.prepareCollision s c).
Proof.
  intros H. unfold Engine.prepareCollision. rel.
  - apply rel_refreshBias. assumption.
  - apply rel_applyAccumulatedImpulses, rel_solvePositionLinearOnly, H.
Qed.

Lemma rel_resolveStore n cs s0 s :
  bodiesRel R s0 s -> bodiesRel R s0 (Engine.resolveStore n cs s).
Proof.
  intros H. unfold Engine.resolveStore, Engine.velocityIteration. rel.
  - apply rel_solveVelocity. assumption.
  - apply rel_prepareCollision. assumption.
Qed.

Lemma rel_arbitrateIsland cfg dt s0 s island :
  bodiesRel R s0 s ->
  bodiesRel R s0 (Engine.arbitrateIsland cfg dt s island).
Proof.
  intros H. unfold Engine.arbitrateIsland.
  match goal with
  | |- context [fold_left ?f ?l (s, ?m)] =>
      assert (Hscan : bodiesRel R s0 (fst (fold_left f l (s, m))))
  end.
  { apply (fold_left_invariant (fun acc => bodiesRel R s0 (fst acc))); [|exact H].
    intros [s1 m1] r Hs1. simpl in *.
    destruct (bodyObjs s1 !! r); [|exact Hs1].
    match goal with |- context [if ?c then _ else _] => destruct c end; simpl; rel. }
  cbv zeta.
  match goal with |- context [if ?c then _ else _] => destruct c end; rel.
Qed.

Lemma rel_integrateBody dt w0 w r :
  bodiesRel R (store w0) (store w) ->
  holdsAfter (fun w' => bodiesRel R (store w0) (store w'))
             (fun w' => bodiesRel R (store w0) (store w'))
             (Engine.integrateBody dt w r).
Proof.
  intros H. unfold Engine.integrateBody.
  destruct (bodyObjs (store w) !! r) as [body|] eqn:Hbody; [|exact H].
  destruct (RigidBody.fixed body || RigidBody.sleeping body) eqn:Hskip; [exact H|].
  cbv zeta.
  assert (H1 : bodiesRel R (store w0)
                 (onBody r (fun _ => Engine.moveBody
                                       (PhysicsEngine.config (engine w))
                                       (PhysicsEngine.worldBounds (engine w)) dt body)
                         (store w))).
  { eapply bodiesRel_trans; [exact R_trans|exact H|].
    apply bodiesRel_onBody; [exact R_refl|].
    intros b Hb. rewrite Hbody in Hb. injection Hb as <-. apply R_move, Hskip. }
  match goal with |- context [if ?c then _ else _] => destruct c end; [|exact H1].
  destruct (QuadTree.update _ _ _) as [[q' ?]|]; simpl; [exact H1|exact I].
Qed.

Lemma rel_checkCollision fuel refA refB w0 w :
  bodiesRel R (store w0) (store w) ->
  holdsAfter (fun r => bodiesRel R (store w0) (store (fst r)))
             (fun w' => bodiesRel R (store w0) (store w'))
             (Engine.checkCollision fuel refA refB w).
Proof.
  intros H. unfold Engine.checkCollision.
  destruct (bodyObjs (store w) !! refA); [|exact H].
  destruct (bodyObjs (store w) !! refB); [|exact H].
  cbv zeta.
  destruct (Gjk.GJK _ _ _); simpl; try exact H; try exact I.
  destruct (Epa.EPA _ _ _); simpl; exact H.
Qed.

Lemma rel_joinIslands refA refB w0 w :
  bodiesRel R (store w0) (store w) ->
  bodiesRel R (store w0) (store (Engine.joinIslands refA refB w)).
Proof.
  intros H. unfold Engine.joinIslands.
  destruct (bodyObjs (store w) !! refA) as [a|]; [|exact H].
  destruct (bodyObjs (store w) !! refB) as [b|]; [|exact H].
  destruct (RigidBody.island a) as [ia|], (RigidBody.island b) as [ib|]; simpl.
  - destruct (decide (ia = ib)); [exact H|]. simpl. apply rel_merge, H.
  - apply rel_addToIsland, H.
  - apply rel_addToIsland, H.
  - apply rel_addToIsland, rel_addToIsland. rel.
Qed.

Lemma rel_visitPair fuel refA w0 st refB :
  bodiesRel R (store w0) (store (fst st)) ->
  holdsAfter (fun st' : World * list Z => bodiesRel R (store w0) (store (fst st')))
             (fun w' => bodiesRel R (store w0) (store w'))
             (Engine.visitPair fuel refA st refB).
Proof.
  destruct st as [w resolved]. simpl. intros H.
  destruct (bodyObjs (store w) !! refA) as [a|]; [|exact H].
  destruct (bodyObjs (store w) !! refB) as [b|]; [|exact H].
  match goal with |- context [if ?c then _ else _] => destruct c end; [exact H|].
  eapply holdsAfter_bind; [apply rel_checkCollision, H|].
  intros [w1 [collision|]] H1; simpl in *; [|exact H1].
  assert (H3 : bodiesRel R (store w0)
                 (store
                    (Engine.joinIslands refA refB
                       (onStore (fun s =>
                                   onBody refB (fun b => RigidBody.with_sleeping b false)
                                     (onBody refA (fun b => RigidBody.with_sleeping b false) s)) w1)))).
  { apply rel_joinIslands. simpl. rel. }
  destruct (NumMap.get _ _) as [existing|]; simpl; [|exact H3].
  destruct (JsArray.swapRemove _ _); [|exact I].
  destruct (Engine.persistContacts _ _ _); simpl; [exact H3|exact I].
Qed.

Lemma rel_checkCollisions fuel w0 w :
  bodiesRel R (store w0) (store w) ->
  holdsAfter (fun w' => bodiesRel R (store w0) (store w'))
             (fun w' => bodiesRel R (store w0) (store w'))
             (Engine.checkCollisions fuel w).
Proof.
  intros H. unfold Engine.checkCollisions.
  eapply holdsAfter_bind.
  - apply (holdsAfter_forEach
             (fun st : World * list Z => bodiesRel R (store w0) (store (fst st)))
             (fun w' => bodiesRel R (store w0) (store w'))); [|exact H].
    intros st refA Hst.
    destruct (bodyObjs (store (fst st)) !! refA); [|exact Hst].
    apply holdsAfter_forEach; [|exact Hst].
    intros st' refB Hst'. apply rel_visitPair, Hst'.
  - intros [w' resolved] Hw'. simpl in *. exact Hw'.
Qed.

Lemma rel_step fuel dt w0 w :
  bodiesRel R (store w0) (store w) ->
  holdsAfter (fun w' => bodiesRel R (store w0) (store w'))
             (fun w' => bodiesRel R (store w0) (store w'))
             (Engine.step fuel dt w).
Proof.
  intros H. unfold Engine.step.
  eapply holdsAfter_bind.
  - apply (holdsAfter_forEach (fun w' => bodiesRel R (store w0) (store w'))
                              (fun w' => bodiesRel R (store w0) (store w')));
      [|exact H].
    intros w1 r H1. apply rel_integrateBody, H1.
  - intros w1 H1. cbv zeta.
    eapply holdsAfter_bind.
    + apply rel_checkCollisions. simpl. rel. exact H1.
    + intros w4 H4. simpl.
      apply bodiesRel_fold_after.
      * intros s island Hs. apply rel_arbitrateIsland, Hs.
      * apply rel_resolveStore, H4.
Qed.

Lemma rel_steps fuel n w0 w :
  bodiesRel R (store w0) (store w) ->
  holdsAfter (fun w' => bodiesRel R (store w0) (store w'))
             (fun w' => bodiesRel R (store w0) (store w'))
             (Engine.steps fuel n w).
Proof.
  revert w. induction n as [|n IH]; intros w H; simpl; [exact H|].
  eapply holdsAfter_bind; [apply rel_step, H|]. intros w1 H1. apply IH, H1.
Qed.

Lemma rel_run fuel call w :
  holdsAfter (fun w' => bodiesRel R (store w) (store w'))
             (fun w' => bodiesRel R (store w) (store w'))
             (Engine.run fuel call w).
Proof.
  assert (Hrefl : bodiesRel R (store w) (store w)) by (apply bodiesRel_refl, R_refl).
  destruct call as [body|body|start stop dt|dt]; simpl.
  - unfold Engine.addBody. cbv zeta.
    destruct (Engine.boundsOf (store w) body); simpl; exact Hrefl.
  - unfold Engine.removeBody. cbv zeta.
    destruct (JsArray.swapRemove _ _); [|exact I].
    destruct (QuadTree.remove _ _) as [[q' ?]|]; simpl; [exact Hrefl|exact I].
  - unfold Engine.update. cbv zeta.
    eapply holdsAfter_bind; [|intros r Hr; exact Hr].
    eapply holdsAfter_bind; [apply rel_steps, Hrefl|].
    intros w' Hw'. simpl. exact Hw'.
  - apply rel_step, Hrefl.
Qed.

End BodiesChain.

Section Immovable.
Local Open Scope R_scope.

Lemma sameButState_fields (b b' : RigidBody.t) :
  sameButState b b' <->
  RigidBody.id b' = RigidBody.id b
  /\ RigidBody.fixed b' = RigidBody.fixed b
  /\ RigidBody.collider b' = RigidBody.collider b
  /\ RigidBody.bounds b' = RigidBody.bounds b
  /\ RigidBody.position b' = RigidBody.position b
  /\ RigidBody.rotation b' = RigidBody.rotation b
  /\ RigidBody.restitution b' = RigidBody.restitution b
  /\ RigidBody.friction b' = RigidBody.friction b
  /\ RigidBody.density b' = RigidBody.density b
  /\ RigidBody.mass b' = RigidBody.mass b
  /\ RigidBody.inverseMass b' = RigidBody.inverseMass b
  /\ RigidBody.linearAcceleration b' = RigidBody.linearAcceleration b
  /\ RigidBody.linearVelocity b' = RigidBody.linearVelocity b
  /\ RigidBody.angularMass b' = RigidBody.angularMass b
  /\ RigidBody.inverseAngularMass b' = RigidBody.inverseAngularMass b
  /\ RigidBody.angularAcceleration b' = RigidBody.angularAcceleration b
  /\ RigidBody.angularVelocity b' = RigidBody.angularVelocity b.
Proof.
  unfold sameButState. destruct b, b'. cbn. split.
  - intros [= -> -> -> -> -> -> -> -> -> -> -> -> -> -> -> -> ->]. repeat split.
  - intros (-> & -> & -> & -> & -> & -> & -> & -> & -> & -> & -> & -> & -> & -> & -> & -> & ->).
    reflexivity.
Qed.

Lemma anchored_refl (b : RigidBody.t) : anchored b b.
Proof. intros _. apply sameButState_fields. repeat split. Qed.

Lemma anchored_trans (b1 b2 b3 : RigidBody.t) :
  anchored b1 b2 -> anchored b2 b3 -> anchored b1 b3.
Proof.
  intros H12 H23 H1. specialize (H12 H1).
  apply sameButState_fields in H12 as F.
  assert (H2 : immovable b2).
  { destruct H1 as (A & B & C). destruct F as (_ & F1 & _ & _ & _ & _ & _ & _ & _ & _ & F2 & _ & _ & _ & F3 & _).
    unfold immovable. rewrite F1, F2, F3. auto. }
  specialize (H23 H2). apply sameButState_fields in H23 as G.
  apply sameButState_fields.
  destruct F as (F1 & F2 & F3 & F4 & F5 & F6 & F7 & F8 & F9 & F10 & F11 & F12 & F13 & F14 & F15 & F16 & F17).
  destruct G as (G1 & G2 & G3 & G4 & G5 & G6 & G7 & G8 & G9 & G10 & G11 & G12 & G13 & G14 & G15 & G16 & G17).
  repeat split; congruence.
Qed.

Lemma anchored_island b i : anchored b (RigidBody.with_island b i).
Proof. intros _. apply sameButState_fields. repeat split. Qed.

Lemma anchored_sleeping b v : anchored b (RigidBody.with_sleeping b v).
Proof. intros _. apply sameButState_fields. repeat split. Qed.

Lemma anchored_timeStill b v : anchored b (RigidBody.with_timeStill b v).
Proof. intros _. apply sameButState_fields. repeat split. Qed.

Lemma anchored_impulse b i r : anchored b (RigidBody.applyImpulse b i r).
Proof.
  intros (_ & Hm & Ha). apply sameButState_fields.
  unfold RigidBody.applyImpulse. cbv zeta.
  cbn [RigidBody.id RigidBody.fixed RigidBody.collider RigidBody.bounds RigidBody.position
       RigidBody.rotation RigidBody.restitution RigidBody.friction RigidBody.density
       RigidBody.mass RigidBody.inverseMass RigidBody.linearAcceleration
       RigidBody.linearVelocity RigidBody.angularMass RigidBody.inverseAngularMass
       RigidBody.angularAcceleration RigidBody.angularVelocity
       RigidBody.with_linearVelocity RigidBody.with_angularVelocity].
  rewrite Hm, Ha. repeat split; try reflexivity.
  - apply vec2_eq; vec; ring.
  - ring.
Qed.

Lemma add_null (p d : Vec2.t) : Vec2.x d = 0 -> Vec2.y d = 0 -> Vec2.add p d = p.
Proof. intros Hx Hy. apply vec2_eq; vec; rewrite ?Hx, ?Hy; ring. Qed.

Lemma Shape_translate_null (s : Shape.t) (d : Vec2.t) :
  Vec2.x d = 0 -> Vec2.y d = 0 -> Shape.translate s d = s.
Proof.
  intros Hx Hy.
  assert (Hps : forall ps, Polygon.translate ps d = ps).
  { intros ps. unfold Polygon.translate. rewrite <- (map_id ps) at 2.
    apply map_ext. intros p. apply add_null; assumption. }
  assert (Hc : forall c, Circle.translate c d = c).
  { intros [centre radius]. unfold Circle.translate. cbn. rewrite add_null by assumption.
    reflexivity. }
  destruct s as [c|ps|c]; cbn [Shape.translate].
  - rewrite Hc. reflexivity.
  - rewrite Hps. reflexivity.
  - unfold Capsule.translate. rewrite Hps, !Hc. destruct c. reflexivity.
Qed.

Lemma anchored_correct b v k :
  anchored b (RigidBody.translate b (Vec2.mulScalar v (k * RigidBody.inverseMass b))).
Proof.
  intros (_ & Hm & _). apply sameButState_fields. rewrite Hm.
  set (d := Vec2.mulScalar v (k * 0)).
  assert (Hx : Vec2.x d = 0) by (subst d; vec; ring).
  assert (Hy : Vec2.y d = 0) by (subst d; vec; ring).
  unfold RigidBody.translate, AABB.translate.
  cbn [RigidBody.id RigidBody.fixed RigidBody.collider RigidBody.bounds RigidBody.position
       RigidBody.rotation RigidBody.restitution RigidBody.friction RigidBody.density
       RigidBody.mass RigidBody.inverseMass RigidBody.linearAcceleration
       RigidBody.linearVelocity RigidBody.angularMass RigidBody.inverseAngularMass
       RigidBody.angularAcceleration RigidBody.angularVelocity RigidBody.with_pose].
  rewrite Shape_translate_null, !add_null by assumption.
  destruct (RigidBody.bounds b). repeat split. exact Hm.
Qed.

Lemma anchored_move cfg wb dt b :
  RigidBody.fixed b || RigidBody.sleeping b = false ->
  anchored b (Engine.moveBody cfg wb dt b).
Proof.
  intros Hskip (Hf & _). rewrite Hf in Hskip. discriminate.
Qed.

(** X23: no call of the engine moves a fixed body whose inverse masses
    are 0, whether the call returns or throws: the body is still there, still
    immovable, and its position, rotation, collider, bounds and velocities
    are what they were; integration, impulses and position correction leave
    it alone. *)
Theorem immovable_bodies_stay fuel (call : Engine.Call) (w : World) (r : nat)
    (b : RigidBody.t) :
  bodyObjs (store w) !! r = Some b ->
  immovable b ->
  let still w' :=
    exists b', bodyObjs (store w') !! r = Some b'
               /\ immovable b'
               /\ RigidBody.position b' = RigidBody.position b
               /\ RigidBody.rotation b' = RigidBody.rotation b
               /\ RigidBody.collider b' = RigidBody.collider b
               /\ RigidBody.bounds b' = RigidBody.bounds b
               /\ RigidBody.linearVelocity b' = RigidBody.linearVelocity b
               /\ RigidBody.angularVelocity b' = RigidBody.angularVelocity b in
  holdsAfter still still (Engine.run fuel call w).
Proof.
  intros Hb Him still.
  assert (Hstill : forall w', bodiesRel anchored (store w) (store w') -> still w').
  { intros w' Hrel. destruct (Hrel r b Hb) as (b' & Hb' & Hanch).
    specialize (Hanch Him). apply sameButState_fields in Hanch.
    destruct Hanch as (F1 & F2 & F3 & F4 & F5 & F6 & F7 & F8 & F9 & F10 & F11 & F12
                       & F13 & F14 & F15 & F16 & F17).
    destruct Him as (A & B & C).
    exists b'. split; [exact Hb'|]. split; [unfold immovable; rewrite F2, F11, F15; auto|].
    auto 10. }
  eapply holdsAfter_weaken; [|exact Hstill|exact Hstill].
  apply (rel_run anchored anchored_refl anchored_trans anchored_island anchored_sleeping
                 anchored_timeStill anchored_impulse anchored_correct anchored_move).
Qed.

Lemma anchor_immovable : immovable anchor.
Proof. repeat split. Qed.

Lemma immovable_bodies_stay_witness :
  holdsAfter
    (fun w' => exists b', bodyObjs (store w') !! 0%nat = Some b'
                          /\ immovable b'
                          /\ RigidBody.position b' = RigidBody.position anchor
                          /\ RigidBody.rotation b' = RigidBody.rotation anchor
                          /\ RigidBody.collider b' = RigidBody.collider anchor
                          /\ RigidBody.bounds b' = RigidBody.bounds anchor
                          /\ RigidBody.linearVelocity b' = RigidBody.linearVelocity anchor
                          /\ RigidBody.angularVelocity b' = RigidBody.angularVelocity anchor)
    (fun w' => exists b', bodyObjs (store w') !! 0%nat = Some b'
                          /\ immovable b'
                          /\ RigidBody.position b' = RigidBody.position anchor
                          /\ RigidBody.rotation b' = RigidBody.rotation anchor
                          /\ RigidBody.collider b' = RigidBody.collider anchor
                          /\ RigidBody.bounds b' = RigidBody.bounds anchor
                          /\ RigidBody.linearVelocity b' = RigidBody.linearVelocity anchor
                          /\ RigidBody.angularVelocity b' = RigidBody.angularVelocity anchor)
    (Engine.run 64 (Engine.Step (1 / 500)) anchoredWorld).
Proof.
  exact (immovable_bodies_stay 64 (Engine.Step (1 / 500)) anchoredWorld 0 anchor
           eq_refl anchor_immovable).
Defined.

End Immovable.

Section Momentum.
Local Open Scope R_scope.

Lemma impulsePair_refl (a b : RigidBody.t) : impulsePair a b a b.
Proof.
  exists Vec2.zero. repeat split; try reflexivity; apply vec2_eq; vec; ring.
Qed.

Lemma impulsePair_impulse (a0 b0 a b : RigidBody.t) (JA JB rA rB : Vec2.t) :
  Vec2.x JA = - Vec2.x JB -> Vec2.y JA = - Vec2.y JB ->
  impulsePair a0 b0 a b ->
  impulsePair a0 b0 (RigidBody.applyImpulse a JA rA) (RigidBody.applyImpulse b JB rB).
Proof.
  intros Hx Hy (J & Ha & Hb & Hma & Hmb & Hka & Hkb).
  exists (Vec2.add J JB). unfold RigidBody.applyImpulse. cbv zeta.
  cbn [RigidBody.linearVelocity RigidBody.inverseMass RigidBody.mass
       RigidBody.with_linearVelocity RigidBody.with_angularVelocity].
  rewrite Ha, Hb, Hma, Hmb.
  repeat split; try assumption; apply vec2_eq; vec; rewrite ?Hx, ?Hy; ring.
Qed.

Lemma impulsePair_translate (a0 b0 a b : RigidBody.t) (dA dB : Vec2.t) :
  impulsePair a0 b0 a b ->
  impulsePair a0 b0 (RigidBody.translate a dA) (RigidBody.translate b dB).
Proof. intros H. exact H. Qed.

(** The bodies of a collision after each has received its impulse. *)
Lemma pairIn_bodies (c : Collision.t) (a0 b0 : RigidBody.t) (s s' : Store)
    (f g : RigidBody.t -> RigidBody.t) :
  Collision.bodyA c <> Collision.bodyB c ->
  bodyObjs s' = bodyObjs s ->
  (forall a b, impulsePair a0 b0 a b -> impulsePair a0 b0 (f a) (g b)) ->
  pairIn c a0 b0 s ->
  pairIn c a0 b0 (onBody (Collision.bodyB c) g (onBody (Collision.bodyA c) f s')).
Proof.
  intros Hne Hs' Hfg (a & b & Ha & Hb & Hp).
  exists (f a), (g b). unfold onBody, with_bodyObjs. cbn [bodyObjs]. rewrite Hs'.
  split; [|split; [|apply Hfg, Hp]].
  - rewrite lookup_alter_ne by congruence. rewrite lookup_alter_eq, Ha. reflexivity.
  - rewrite lookup_alter_eq, lookup_alter_ne by congruence. rewrite Hb. reflexivity.
Qed.

Lemma pairIn_same (c : Collision.t) (a0 b0 : RigidBody.t) (s s' : Store) :
  bodyObjs s' = bodyObjs s -> pairIn c a0 b0 s -> pairIn c a0 b0 s'.
Proof. intros E (a & b & Ha & Hb & Hp). exists a, b. rewrite E. auto. Qed.

Lemma pairIn_solveNormal (c : Collision.t) (a0 b0 : RigidBody.t) (s : Store) (r : nat) :
  Collision.bodyA c <> Collision.bodyB c ->
  pairIn c a0 b0 s -> pairIn c a0 b0 (Collision.solveNormal c s r).
Proof.
  intros Hne H. unfold Collision.solveNormal.
  destruct (contactObjs s !! r) as [k|]; [|exact H].
  destruct (bodyObjs s !! Collision.bodyA c) as [a|]; [|exact H].
  destruct (bodyObjs s !! Collision.bodyB c) as [b|]; [|exact H].
  cbv zeta. apply (pairIn_bodies c a0 b0 s); [exact Hne|reflexivity| |exact H].
  intros a' b' Hp. apply impulsePair_impulse; [vec; ring|vec; ring|exact Hp].
Qed.

Lemma pairIn_solveTangent (c : Collision.t) (a0 b0 : RigidBody.t) (s : Store) (r : nat) :
  Collision.bodyA c <> Collision.bodyB c ->
  pairIn c a0 b0 s -> pairIn c a0 b0 (Collision.solveTangent c s r).
Proof.
  intros Hne H. unfold Collision.solveTangent.
  destruct (contactObjs s !! r) as [k|]; [|exact H].
  destruct (bodyObjs s !! Collision.bodyA c) as [a|]; [|exact H].
  destruct (bodyObjs s !! Collision.bodyB c) as [b|]; [|exact H].
  cbv zeta. apply (pairIn_bodies c a0 b0 s); [exact Hne|reflexivity| |exact H].
  intros a' b' Hp. apply impulsePair_impulse; [vec; ring|vec; ring|exact Hp].
Qed.

Lemma pairIn_solveVelocity (c : Collision.t) (a0 b0 : RigidBody.t) (s : Store) :
  Collision.bodyA c <> Collision.bodyB c ->
  pairIn c a0 b0 s -> pairIn c a0 b0 (Collision.solveVelocity c s).
Proof.
  intros Hne H. unfold Collision.solveVelocity. cbv zeta.
  apply (fold_left_invariant (pairIn c a0 b0)).
  - intros s' r Hs'. apply pairIn_solveTangent; assumption.
  - apply (fold_left_invariant (pairIn c a0 b0)); [|exact H].
    intros s' r Hs'. apply pairIn_solveNormal; assumption.
Qed.

Lemma pairIn_applyAccumulatedImpulses (c : Collision.t) (a0 b0 : RigidBody.t) (s : Store) :
  Collision.bodyA c <> Collision.bodyB c ->
  pairIn c a0 b0 s -> pairIn c a0 b0 (Collision.applyAccumulatedImpulses c s).
Proof.
  intros Hne H. unfold Collision.applyAccumulatedImpulses.
  apply (fold_left_invariant (pairIn c a0 b0)); [|exact H].
  intros s' r Hs'. destruct (contactObjs s' !! r) as [k|]; [|exact Hs'].
  cbv zeta. apply (pairIn_bodies c a0 b0 s'); [exact Hne|reflexivity| |exact Hs'].
  intros a' b' Hp. apply impulsePair_impulse; [vec; ring|vec; ring|exact Hp].
Qed.

Lemma pairIn_solvePositionLinearOnly (c : Collision.t) (a0 b0 : RigidBody.t) (s : Store) :
  Collision.bodyA c <> Collision.bodyB c ->
  pairIn c a0 b0 s -> pairIn c a0 b0 (Collision.solvePositionLinearOnly c s).
Proof.
  intros Hne H. unfold Collision.solvePositionLinearOnly.
  destruct (bodyObjs s !! Collision.bodyA c) as [a|]; [|exact H].
  destruct (bodyObjs s !! Collision.bodyB c) as [b|]; [|exact H].
  cbv zeta. apply (pairIn_bodies c a0 b0 s); [exact Hne|reflexivity| |exact H].
  intros a' b' Hp. exact Hp.
Qed.

Lemma pairIn_refreshBias (c : Collision.t) (a0 b0 : RigidBody.t) (s : Store) (r : nat) :
  pairIn c a0 b0 s -> pairIn c a0 b0 (Engine.refreshBias c s r).
Proof.
  intros H. unfold Engine.refreshBias.
  destruct (bodyObjs s !! Collision.bodyA c) as [a|]; [|exact H].
  destruct (bodyObjs s !! Collision.bodyB c) as [b|]; [|exact H].
  apply (pairIn_same c a0 b0 s); [reflexivity|exact H].
Qed.

Lemma pairIn_resolveStore (n : nat) (c : Collision.t) (a0 b0 : RigidBody.t) (s : Store) :
  Collision.bodyA c <> Collision.bodyB c ->
  pairIn c a0 b0 s -> pairIn c a0 b0 (Engine.resolveStore n [c] s).
Proof.
  intros Hne H. unfold Engine.resolveStore.
  apply iter_invariant.
  - intros s' Hs'. unfold Engine.velocityIteration. cbn [fold_left].
    apply pairIn_solveVelocity; assumption.
  - cbn [fold_left]. unfold Engine.prepareCollision. cbv zeta.
    apply (fold_left_invariant (pairIn c a0 b0)).
    + intros s' r Hs'. apply pairIn_refreshBias, Hs'.
    + apply pairIn_applyAccumulatedImpulses, pairIn_solvePositionLinearOnly; assumption.
Qed.

Lemma impulsePair_momentum (a0 b0 a b : RigidBody.t) :
  RigidBody.mass a0 * RigidBody.inverseMass a0 = 1 ->
  RigidBody.mass b0 * RigidBody.inverseMass b0 = 1 ->
  impulsePair a0 b0 a b ->
  Vec2.add (momentum a) (momentum b) = Vec2.add (momentum a0) (momentum b0).
Proof.
  intros Ha0 Hb0 (J & Ha & Hb & _ & _ & Hka & Hkb).
  unfold momentum. rewrite Ha, Hb, Hka, Hkb.
  apply vec2_eq; vec.
  - transitivity (Vec2.x (RigidBody.linearVelocity a0) * RigidBody.mass a0
                  + Vec2.x (RigidBody.linearVelocity b0) * RigidBody.mass b0
                  + Vec2.x J * (RigidBody.mass b0 * RigidBody.inverseMass b0
                                - RigidBody.mass a0 * RigidBody.inverseMass a0)); [ring|].
    rewrite Ha0, Hb0. ring.
  - transitivity (Vec2.y (RigidBody.linearVelocity a0) * RigidBody.mass a0
                  + Vec2.y (RigidBody.linearVelocity b0) * RigidBody.mass b0
                  + Vec2.y J * (RigidBody.mass b0 * RigidBody.inverseMass b0
                                - RigidBody.mass a0 * RigidBody.inverseMass a0)); [ring|].
    rewrite Ha0, Hb0. ring.
Qed.

(** X24: [solveVelocity], and [resolveCollisions] when the engine holds
    the one collision, change the linear velocities of the two bodies of
    the collision by equal and opposite impulses, scaled by the inverse mass
    of each, and keep their masses.  When the inverse masses are the
    inverses of the masses, the sum of the linear momenta of the two bodies
    is kept. *)
Theorem resolve_conserves_momentum (n : nat) (c : Collision.t) (s : Store)
    (a b : RigidBody.t) :
  Collision.bodyA c <> Collision.bodyB c ->
  bodyObjs s !! Collision.bodyA c = Some a ->
  bodyObjs s !! Collision.bodyB c = Some b ->
  (pairIn c a b (Collision.solveVelocity c s)
   /\ pairIn c a b (Engine.resolveStore n [c] s))
  /\ (RigidBody.mass a * RigidBody.inverseMass a = 1 ->
      RigidBody.mass b * RigidBody.inverseMass b = 1 ->
      forall s',
        s' = Collision.solveVelocity c s \/ s' = Engine.resolveStore n [c] s ->
        exists a' b',
          bodyObjs s' !! Collision.bodyA c = Some a'
          /\ bodyObjs s' !! Collision.bodyB c = Some b'
          /\ Vec2.add (momentum a') (momentum b') = Vec2.add (momentum a) (momentum b)).
Proof.
  intros Hne Ha Hb.
  assert (H0 : pairIn c a b s).
  { exists a, b. split; [exact Ha|]. split; [exact Hb|apply impulsePair_refl]. }
  pose proof (pairIn_solveVelocity c a b s Hne H0) as H1.
  pose proof (pairIn_resolveStore n c a b s Hne H0) as H2.
  split; [split; assumption|].
  intros Hma Hmb s' [-> | ->].
  - destruct H1 as (a' & b' & Ha' & Hb' & Hp). exists a', b'.
    split; [exact Ha'|]. split; [exact Hb'|]. apply impulsePair_momentum; assumption.
  - destruct H2 as (a' & b' & Ha' & Hb' & Hp). exists a', b'.
    split; [exact Ha'|]. split; [exact Hb'|]. apply impulsePair_momentum; assumption.
Qed.

Lemma discs_unit_mass :
  RigidBody.mass discA * RigidBody.inverseMass discA = 1
  /\ RigidBody.mass discB * RigidBody.inverseMass discB = 1.
Proof. split; cbn; lra. Qed.

Lemma resolve_conserves_momentum_witness :
  exists a' b',
    bodyObjs (Engine.resolveStore 5 [touching] (store touchingWorld)) !! 0%nat = Some a'
    /\ bodyObjs (Engine.resolveStore 5 [touching] (store touchingWorld)) !! 1%nat = Some b'
    /\ Vec2.add (momentum a') (momentum b') = Vec2.add (momentum discA) (momentum discB).
Proof.
  assert (Hne : Collision.bodyA touching <> Collision.bodyB touching) by discriminate.
  destruct (resolve_conserves_momentum 5 touching (store touchingWorld) discA discB
              Hne eq_refl eq_refl) as [_ H].
  apply (H (proj1 discs_unit_mass) (proj2 discs_unit_mass)). right. reflexivity.
Defined.

End Momentum.

Section Solver.
Local Open Scope R_scope.

(** The closing normal velocity after equal and opposite impulses of
    magnitude [j] along the normal. *)
Lemma closing_after_impulse (k : Contact.t) (a b : RigidBody.t) (n : Vec2.t) (j : R) :
  closingNormalVelocity k
    (RigidBody.applyImpulse a (Vec2.mulScalar n (- j)) (Contact.localPosA k))
    (RigidBody.applyImpulse b (Vec2.mulScalar n j) (Contact.localPosB k)) n
  = closingNormalVelocity k a b n
    + j * ((RigidBody.inverseMass a + RigidBody.inverseMass b) * Vec2.dot n n
           + RigidBody.inverseAngularMass a
             * Vec2.cross (Contact.localPosA k) n * Vec2.cross (Contact.localPosA k) n
           + RigidBody.inverseAngularMass b
             * Vec2.cross (Contact.localPosB k) n * Vec2.cross (Contact.localPosB k) n).
Proof.
  unfold closingNormalVelocity, velAtPoint, RigidBody.applyImpulse. cbv zeta.
  cbn [RigidBody.linearVelocity RigidBody.angularVelocity RigidBody.inverseMass
       RigidBody.inverseAngularMass RigidBody.with_linearVelocity
       RigidBody.with_angularVelocity].
  vec. ring.
Qed.

Lemma closing_getVelocity (k : Contact.t) (a b : RigidBody.t) (n : Vec2.t) :
  Vec2.dot (Vec2.sub (RigidBody.getVelocityAtPoint b (Contact.localPosB k))
                     (RigidBody.getVelocityAtPoint a (Contact.localPosA k))) n
  = closingNormalVelocity k a b n.
Proof.
  unfold closingNormalVelocity, velAtPoint, RigidBody.getVelocityAtPoint. cbv zeta.
  vec. ring.
Qed.

(** X25: [solveNormal] on a contact between two bodies, for a unit
    normal and the effective mass that the constructor of the contact
    computes, adds [lambda] to the accumulated normal impulse and clamps the
    sum at 0.  When the sum is not clamped, the closing velocity along the
    normal after the call is the restitution bias; when it is clamped, the
    whole accumulated impulse is taken back. *)
Theorem solveNormal_reaches_bias (c : Collision.t) (s : Store) (r : nat)
    (k : Contact.t) (a b : RigidBody.t) :
  let n := CollisionManifold.normal (Collision.manifold c) in
  let K :=
    RigidBody.inverseMass a + RigidBody.inverseMass b
    + RigidBody.inverseAngularMass a
      * Vec2.cross (Contact.localPosA k) n * Vec2.cross (Contact.localPosA k) n
    + RigidBody.inverseAngularMass b
      * Vec2.cross (Contact.localPosB k) n * Vec2.cross (Contact.localPosB k) n in
  let lambda :=
    - (closingNormalVelocity k a b n - Contact.originalRestitutionBias k)
    * Contact.effectiveMassNormal k in
  Collision.bodyA c <> Collision.bodyB c ->
  contactObjs s !! r = Some k ->
  bodyObjs s !! Collision.bodyA c = Some a ->
  bodyObjs s !! Collision.bodyB c = Some b ->
  Vec2.dot n n = 1 ->
  K <> 0 ->
  Contact.effectiveMassNormal k = 1 / K ->
  exists k' a' b',
    contactObjs (Collision.solveNormal c s r) !! r = Some k'
    /\ bodyObjs (Collision.solveNormal c s r) !! Collision.bodyA c = Some a'
    /\ bodyObjs (Collision.solveNormal c s r) !! Collision.bodyB c = Some b'
    /\ Contact.accumulatedNormalMagnitude k'
       = Rmax (Contact.accumulatedNormalMagnitude k + lambda) 0
    /\ (0 <= Contact.accumulatedNormalMagnitude k + lambda ->
        closingNormalVelocity k' a' b' n = Contact.originalRestitutionBias k')
    /\ (Contact.accumulatedNormalMagnitude k + lambda <= 0 ->
        closingNormalVelocity k' a' b' n
        = closingNormalVelocity k a b n - Contact.accumulatedNormalMagnitude k * K).
Proof.
  intros n K lambda Hne Hk Ha Hb Hunit HK Heff.
  unfold Collision.solveNormal. rewrite Hk, Ha, Hb. cbv zeta.
  fold n. rewrite closing_getVelocity. fold lambda.
  set (acc' := Rmax (Contact.accumulatedNormalMagnitude k + lambda) 0).
  set (j := acc' - Contact.accumulatedNormalMagnitude k).
  eexists _, _, _.
  unfold onBody, onContact, with_bodyObjs, with_contactObjs.
  cbn [bodyObjs contactObjs].
  split; [rewrite lookup_alter_eq, Hk; reflexivity|].
  split; [rewrite lookup_alter_ne by congruence; rewrite lookup_alter_eq, Ha; reflexivity|].
  split; [rewrite lookup_alter_eq, lookup_alter_ne by congruence; rewrite Hb; reflexivity|].
  cbn [Contact.accumulatedNormalMagnitude Contact.with_accumulatedNormalMagnitude
       Contact.originalRestitutionBias].
  split; [reflexivity|].
  assert (Hclose :
            closingNormalVelocity
              (Contact.with_accumulatedNormalMagnitude k acc')
              (RigidBody.applyImpulse a (Vec2.mulScalar n (- j)) (Contact.localPosA k))
              (RigidBody.applyImpulse b (Vec2.mulScalar n j) (Contact.localPosB k)) n
            = closingNormalVelocity k a b n + j * K).
  { transitivity
      (closingNormalVelocity k
         (RigidBody.applyImpulse a (Vec2.mulScalar n (- j)) (Contact.localPosA k))
         (RigidBody.applyImpulse b (Vec2.mulScalar n j) (Contact.localPosB k)) n);
      [reflexivity|].
    rewrite closing_after_impulse, Hunit. subst K. ring. }
  split.
  - intros Hpos. rewrite Hclose. subst j acc'.
    rewrite Rmax_left by lra. subst lambda. rewrite Heff. field. exact HK.
  - intros Hneg. rewrite Hclose. subst j acc'.
    rewrite Rmax_right by lra. ring.
Qed.

Lemma discContact_effectiveMass :
  Contact.effectiveMassNormal discContact
  = 1 / (RigidBody.inverseMass discA + RigidBody.inverseMass discB
         + RigidBody.inverseAngularMass discA
           * Vec2.cross (Contact.localPosA discContact) (Vec2.mk 0 1)
           * Vec2.cross (Contact.localPosA discContact) (Vec2.mk 0 1)
         + RigidBody.inverseAngularMass discB
           * Vec2.cross (Contact.localPosB discContact) (Vec2.mk 0 1)
           * Vec2.cross (Contact.localPosB discContact) (Vec2.mk 0 1)).
Proof.
  unfold discContact, Contact.new, Contact.updateRestitutionBias. cbv zeta.
  destruct (Num.ltb _ _); reflexivity.
Qed.

Lemma discContact_K :
  RigidBody.inverseMass discA + RigidBody.inverseMass discB
  + RigidBody.inverseAngularMass discA
    * Vec2.cross (Contact.localPosA discContact) (Vec2.mk 0 1)
    * Vec2.cross (Contact.localPosA discContact) (Vec2.mk 0 1)
  + RigidBody.inverseAngularMass discB
    * Vec2.cross (Contact.localPosB discContact) (Vec2.mk 0 1)
    * Vec2.cross (Contact.localPosB discContact) (Vec2.mk 0 1) <> 0.
Proof.
  assert (HA : Contact.localPosA discContact = Vec2.mk 0 1).
  { unfold discContact, Contact.new, Contact.updateRestitutionBias. cbv zeta.
    destruct (Num.ltb _ _); cbn; apply vec2_eq; cbn; lra. }
  assert (HB : Contact.localPosB discContact = Vec2.mk 0 (-1)).
  { unfold discContact, Contact.new, Contact.updateRestitutionBias. cbv zeta.
    destruct (Num.ltb _ _); cbn; apply vec2_eq; cbn; lra. }
  rewrite HA, HB. cbn. apply Rgt_not_eq. vec. lra.
Qed.

Lemma solveNormal_reaches_bias_witness :
  exists k' a' b',
    contactObjs (Collision.solveNormal touching (store touchingWorld) 0) !! 0%nat = Some k'
    /\ bodyObjs (Collision.solveNormal touching (store touchingWorld) 0) !! 0%nat = Some a'
    /\ bodyObjs (Collision.solveNormal touching (store touchingWorld) 0) !! 1%nat = Some b'
    /\ 0 <= Contact.accumulatedNormalMagnitude k'.
Proof.
  assert (Hne : Collision.bodyA touching <> Collision.bodyB touching) by discriminate.
  assert (Hn : Vec2.dot (CollisionManifold.normal (Collision.manifold touching))
                        (CollisionManifold.normal (Collision.manifold touching)) = 1).
  { cbn. vec. lra. }
  destruct (solveNormal_reaches_bias touching (store touchingWorld) 0 discContact discA discB
              Hne eq_refl eq_refl eq_refl Hn discContact_K discContact_effectiveMass)
    as (k' & a' & b' & Hk & Ha & Hb & Hacc & _).
  exists k', a', b'. split; [exact Hk|]. split; [exact Ha|]. split; [exact Hb|].
  rewrite Hacc. apply Rmax_r.
Defined.

Lemma exp_damp (x : R) : 0 <= x -> 0 < exp (- x) <= 1.
Proof.
  intros Hx. split; [apply exp_pos|].
  destruct (Req_dec x 0) as [->|Hne].
  - rewrite Ropp_0, exp_0. lra.
  - left. rewrite <- exp_0. apply exp_increasing. lra.
Qed.

(** X26: [integrate] on a body that is neither fixed nor asleep: the
    velocities take the accelerations first, the position and the rotation
    move by the new velocities, the velocities are then damped by
    [exp (- dt * friction)] and the accelerations are reset.  For [dt] and
    [friction] that are not negative the damping never speeds the body
    up. *)
Theorem integrate_spec (b : RigidBody.t) (dt : R) :
  RigidBody.fixed b = false -> RigidBody.sleeping b = false ->
  let b' := RigidBody.integrate b dt in
  let v1 := Vec2.add (RigidBody.linearVelocity b)
                     (Vec2.mulScalar (RigidBody.linearAcceleration b) dt) in
  let w1 := RigidBody.angularVelocity b + RigidBody.angularAcceleration b * dt in
  let decay := exp (- dt * RigidBody.friction b) in
  RigidBody.position b' = Vec2.add (RigidBody.position b) (Vec2.mulScalar v1 dt)
  /\ RigidBody.rotation b' = RigidBody.rotation b + w1 * dt
  /\ RigidBody.linearVelocity b' = Vec2.mulScalar v1 decay
  /\ RigidBody.angularVelocity b' = w1 * decay
  /\ RigidBody.linearAcceleration b' = Vec2.mk 0 0
  /\ RigidBody.angularAcceleration b' = 0
  /\ (0 <= dt -> 0 <= RigidBody.friction b ->
      Vec2.magnitudeSquared (RigidBody.linearVelocity b') <= Vec2.magnitudeSquared v1
      /\ Rabs (RigidBody.angularVelocity b') <= Rabs w1).
Proof.
  intros Hf Hs. cbv zeta. unfold RigidBody.integrate. rewrite Hf, Hs.
  cbn [orb]. cbv zeta.
  cbn [RigidBody.position RigidBody.rotation RigidBody.linearVelocity
       RigidBody.angularVelocity RigidBody.linearAcceleration RigidBody.angularAcceleration
       RigidBody.friction RigidBody.with_acceleration RigidBody.with_angularVelocity
       RigidBody.with_linearVelocity RigidBody.rotate RigidBody.translate
       RigidBody.with_pose].
  repeat (split; [reflexivity|]).
  intros Hdt Hfr.
  assert (Hx : 0 <= dt * RigidBody.friction b) by nra.
  pose proof (exp_damp _ Hx) as [Hpos Hle].
  replace (- dt * RigidBody.friction b) with (- (dt * RigidBody.friction b)) by ring.
  set (e := exp (- (dt * RigidBody.friction b))) in *.
  split.
  - vec.
    match goal with
    | |- ?x * e * (?x * e) + ?y * e * (?y * e) <= _ =>
        generalize x y; intros X Y;
        assert (0 <= X * X + Y * Y) by nra;
        replace (X * e * (X * e) + Y * e * (Y * e)) with ((X * X + Y * Y) * (e * e)) by ring;
        assert (e * e <= 1) by nra; nra
    end.
  - rewrite Rabs_mult, (Rabs_right e) by lra.
    pose proof (Rabs_pos (RigidBody.angularVelocity b + RigidBody.angularAcceleration b * dt)).
    nra.
Qed.

Lemma integrate_spec_witness :
  RigidBody.linearAcceleration (RigidBody.integrate faller (1 / 500)) = Vec2.mk 0 0
  /\ Rabs (RigidBody.angularVelocity (RigidBody.integrate faller (1 / 500)))
     <= Rabs (RigidBody.angularVelocity faller
              + RigidBody.angularAcceleration faller * (1 / 500)).
Proof.
  destruct (integrate_spec faller (1 / 500) eq_refl eq_refl)
    as (_ & _ & _ & _ & Hacc & _ & Hdamp).
  split; [exact Hacc|]. apply Hdamp; cbn; lra.
Defined.

End Solver.

(** ** Islands and sleep *)

Section Islands.
Local Open Scope R_scope.

(** X27: [Island.merge]: every body of [other] is pointed to [this];
    when the islands differ, [this] ends with the bodies of both and [other]
    ends empty; merging an island into itself empties it.  The other
    islands, the other bodies and the contacts are as they were. *)
Theorem merge_spec (this other : nat) (s : Store) (ms mo : list nat) :
  islandObjs s !! this = Some ms ->
  islandObjs s !! other = Some mo ->
  let s' := Island.merge this other s in
  (this <> other ->
   islandObjs s' !! other = Some []
   /\ (exists ms', islandObjs s' !! this = Some ms'
                   /\ forall r, r ∈ ms' <-> r ∈ ms \/ r ∈ mo))
  /\ (this = other -> islandObjs s' !! this = Some [])
  /\ (forall i, i <> this -> i <> other -> islandObjs s' !! i = islandObjs s !! i)
  /\ (forall r b, r ∈ mo -> bodyObjs s !! r = Some b ->
                  bodyObjs s' !! r = Some (RigidBody.with_island b (Some this)))
  /\ (forall r, r ∉ mo -> bodyObjs s' !! r = bodyObjs s !! r)
  /\ contactObjs s' = contactObjs s.
Proof.
  intros Hms Hmo s'. subst s'. rewrite merge_unfold, Hmo. cbn [default].
  unfold onIsland, with_islandObjs. cbn [islandObjs bodyObjs contactObjs].
  split; [|split; [|split; [|split; [|split]]]].
  - intros Hne. split; [rewrite lookup_alter_eq, mergeLoop_islands; 
                        rewrite decide_False by congruence; rewrite Hmo; reflexivity|].
    eexists. split.
    + rewrite lookup_alter_ne by congruence. rewrite mergeLoop_islands.
      rewrite decide_True by reflexivity. rewrite Hms. reflexivity.
    + intros r. apply fold_add_elem.
  - intros <-. rewrite lookup_alter_eq, mergeLoop_islands.
    rewrite decide_True by reflexivity. rewrite Hms. reflexivity.
  - intros i Hi Ho. rewrite lookup_alter_ne by congruence.
    rewrite mergeLoop_islands. rewrite decide_False by exact Hi. reflexivity.
  - intros r b Hr Hb. rewrite mergeLoop_bodies, decide_True by exact Hr.
    rewrite Hb. reflexivity.
  - intros r Hr. rewrite mergeLoop_bodies, decide_False by exact Hr. reflexivity.
  - unfold Island.mergeLoop.
    apply (fold_left_invariant (fun s1 => contactObjs s1 = contactObjs s)); [|reflexivity].
    intros s1 r Hs1. exact Hs1.
Qed.

Lemma merge_spec_witness :
  islandObjs (Island.merge 0 1 twoIslands) !! 1%nat = Some []
  /\ exists ms', islandObjs (Island.merge 0 1 twoIslands) !! 0%nat = Some ms'
                 /\ forall r, r ∈ ms' <-> r ∈ [0%nat] \/ r ∈ [1%nat].
Proof.
  destruct (merge_spec 0 1 twoIslands [0%nat] [1%nat] eq_refl eq_refl) as (H & _).
  apply H. discriminate.
Defined.


Lemma arbitrateIsland_unfold cfg dt s island :
  Engine.arbitrateIsland cfg dt s island
  = let members := default [] (islandObjs s !! island) in
    let scan := sleepScan cfg dt members (s, Num.MAX_VALUE) in
    if Num.leb (sleepTimeThreshold cfg) (snd scan)
    then fold_left (fun s r => onBody r (fun b => RigidBody.with_sleeping b true) s)
                   members (fst scan)
    else fst scan.
Proof. reflexivity. Qed.

Lemma belowThresholds_test cfg b :
  Num.ltb (Vec2.magnitudeSquared (RigidBody.linearVelocity b))
          (sleepLinearThreshold cfg * sleepLinearThreshold cfg)
  && Num.ltb (Rabs (RigidBody.angularVelocity b)) (sleepAngularThreshold cfg) = true
  <-> belowThresholds cfg b.
Proof. unfold belowThresholds. rewrite andb_true_iff, !ltb_true. tauto. Qed.

Lemma timeStillOnly_refl b : timeStillOnly b b.
Proof. destruct b. reflexivity. Qed.

Lemma timeStillOnly_trans b1 b2 b3 :
  timeStillOnly b1 b2 -> timeStillOnly b2 b3 -> timeStillOnly b1 b3.
Proof.
  unfold timeStillOnly. destruct b1, b2, b3. cbn. intros [= -> -> -> -> -> -> -> -> -> -> -> -> -> -> -> -> -> -> ->].
  intros [= -> -> -> -> -> -> -> -> -> -> -> -> -> -> -> -> -> -> ->]. reflexivity.
Qed.

Lemma timeStillOnly_set b v : timeStillOnly b (RigidBody.with_timeStill b v).
Proof. destruct b. reflexivity. Qed.

(** What the scan does: every body keeps all but its [timeStill]; a member
    that moves brings the minimum to 0 or below; a body not yet visited is
    as it was. *)
Lemma sleepScan_spec cfg dt (l : list nat) (s0 s : Store) (m : R) :
  bodiesRel timeStillOnly s0 s ->
  let r := sleepScan cfg dt l (s, m) in
  bodiesRel timeStillOnly s0 (fst r)
  /\ (forall x, x ∉ l -> bodyObjs (fst r) !! x = bodyObjs s !! x)
  /\ ((m <= 0 \/ exists x b, x ∈ l /\ bodyObjs s !! x = Some b /\ ~ belowThresholds cfg b) ->
      snd r <= 0).
Proof.
  revert s m. induction l as [|x l IH]; intros s m Hrel; cbn [sleepScan fold_left fst snd].
  { split; [exact Hrel|]. split; [reflexivity|].
    intros [H|(x & b & Hx & _)]; [exact H|inversion Hx]. }
  fold (sleepScan cfg dt l).
  destruct (bodyObjs s !! x) as [body|] eqn:Hbody.
  2:{ destruct (IH s m Hrel) as (H1 & H2 & H3). split; [exact H1|]. split.
      - intros y Hy. apply H2. intros Hin. apply Hy. right. exact Hin.
      - intros [H|(y & b & Hy & Hb & Hmove)]; [apply H3; left; exact H|].
        apply elem_of_cons in Hy as [->|Hy]; [congruence|].
        apply H3. right. eauto. }
  cbv zeta.
  assert (Hstep : forall v,
             bodiesRel timeStillOnly s0 (onBody x (fun b => RigidBody.with_timeStill b v) s)).
  { intros v. apply (bodiesRel_onBody_after timeStillOnly timeStillOnly_refl timeStillOnly_trans);
      [intros; apply timeStillOnly_set|exact Hrel]. }
  assert (Hother : forall v y,
             y <> x ->
             bodyObjs (onBody x (fun b => RigidBody.with_timeStill b v) s) !! y
             = bodyObjs s !! y).
  { intros v y Hy. unfold onBody, with_bodyObjs. cbn [bodyObjs].
    apply lookup_alter_ne. congruence. }
  assert (Hvel : forall v y b,
             bodyObjs (onBody x (fun b => RigidBody.with_timeStill b v) s) !! y = Some b ->
             exists b0, bodyObjs s !! y = Some b0
                        /\ (belowThresholds cfg b <-> belowThresholds cfg b0)).
  { intros v y b. unfold onBody, with_bodyObjs. cbn [bodyObjs].
    destruct (decide (y = x)) as [->|Hy].
    - rewrite lookup_alter_eq, Hbody. cbn. intros [= <-]. exists body. split; [reflexivity|].
      reflexivity.
    - rewrite lookup_alter_ne by congruence. intros Hb. exists b. split; [exact Hb|reflexivity]. }
  destruct (Num.ltb _ _ && Num.ltb _ _) eqn:Htest.
  - destruct (IH _ (Rmin m (RigidBody.timeStill body + dt))
                 (Hstep (RigidBody.timeStill body + dt))) as (H1 & H2 & H3).
    split; [exact H1|]. split.
    + intros y Hy. rewrite H2 by (intros Hin; apply Hy; right; exact Hin).
      apply Hother. intros ->. apply Hy. left.
    + intros [H|(y & b & Hy & Hb & Hmove)].
      * apply H3. left. pose proof (Rmin_l m (RigidBody.timeStill body + dt)). lra.
      * apply elem_of_cons in Hy as [->|Hy].
        -- rewrite Hbody in Hb. injection Hb as <-.
           apply belowThresholds_test in Htest. contradiction.
        -- destruct (decide (y = x)) as [->|Hne].
           ++ rewrite Hbody in Hb. injection Hb as <-.
              apply belowThresholds_test in Htest. contradiction.
           ++ apply H3. right. exists y, b. split; [exact Hy|].
              split; [rewrite Hother by exact Hne; exact Hb|exact Hmove].
  - destruct (IH _ 0 (Hstep 0)) as (H1 & H2 & H3).
    split; [exact H1|]. split.
    + intros y Hy. rewrite H2 by (intros Hin; apply Hy; right; exact Hin).
      apply Hother. intros ->. apply Hy. left.
    + intros _. apply H3. left. lra.
Qed.

(** The scan over members that are all still: the minimum stays at or above
    every bound that the idle times reach. *)
Lemma sleepScan_still cfg dt (l : list nat) (s : Store) (m bound : R) :
  NoDup l ->
  bound <= m ->
  (forall x, x ∈ l ->
     exists b, bodyObjs s !! x = Some b /\ belowThresholds cfg b
               /\ bound <= RigidBody.timeStill b + dt) ->
  bound <= snd (sleepScan cfg dt l (s, m)).
Proof.
  revert s m. induction l as [|x l IH]; intros s m Hnd Hm Hall;
    cbn [sleepScan fold_left fst snd]; [exact Hm|].
  fold (sleepScan cfg dt l).
  apply NoDup_cons in Hnd as [Hx Hnd].
  destruct (Hall x) as (b & Hb & Hstill & Hlong); [left|].
  rewrite Hb. cbv zeta.
  rewrite (proj2 (belowThresholds_test cfg b) Hstill).
  apply IH; [exact Hnd| |].
  - apply Rmin_glb; assumption.
  - intros y Hy. destruct (Hall y) as (by' & Hby & Hs & Hl); [right; exact Hy|].
    exists by'. split; [|split; assumption].
    unfold onBody, with_bodyObjs. cbn [bodyObjs].
    rewrite lookup_alter_ne; [exact Hby|]. intros ->. contradiction.
Qed.

Lemma sleep_all (l : list nat) (s : Store) (x : nat) (b : RigidBody.t) :
  bodyObjs s !! x = Some b ->
  exists b',
    bodyObjs (fold_left (fun s r => onBody r (fun b => RigidBody.with_sleeping b true) s) l s)
      !! x = Some b'
    /\ (x ∈ l -> RigidBody.sleeping b' = true)
    /\ (x ∉ l -> b' = b).
Proof.
  revert s b. induction l as [|y l IH]; intros s b Hb; cbn [fold_left].
  { exists b. split; [exact Hb|]. split; [intros H; inversion H|reflexivity]. }
  destruct (decide (x = y)) as [->|Hne].
  - destruct (IH (onBody y (fun b => RigidBody.with_sleeping b true) s)
                 (RigidBody.with_sleeping b true)) as (b' & Hb' & Hin & Hout).
    { unfold onBody, with_bodyObjs. cbn [bodyObjs]. rewrite lookup_alter_eq, Hb. reflexivity. }
    exists b'. split; [exact Hb'|]. split.
    + intros _. destruct (decide (y ∈ l)) as [Hl|Hl]; [apply Hin, Hl|].
      rewrite (Hout Hl). reflexivity.
    + intros H. exfalso. apply H. left.
  - destruct (IH (onBody y (fun b => RigidBody.with_sleeping b true) s) b)
      as (b' & Hb' & Hin & Hout).
    { unfold onBody, with_bodyObjs. cbn [bodyObjs].
      rewrite lookup_alter_ne by congruence. exact Hb. }
    exists b'. split; [exact Hb'|]. split.
    + intros H. apply elem_of_cons in H as [->|H]; [congruence|apply Hin, H].
    + intros H. apply Hout. intros Hl. apply H. right. exact Hl.
Qed.

(** X28: the last loop of [step] on an island: when a member moves at
    a threshold or faster, no body is put to sleep or woken; when every
    member has been below both thresholds for [sleepTimeThreshold] or more,
    every member is put to sleep. *)
Theorem arbitrateIsland_sleeps (cfg : PhysicsEngineConfig) (dt : R) (s : Store)
    (island : nat) (members : list nat) :
  islandObjs s !! island = Some members ->
  0 < sleepTimeThreshold cfg <= Num.MAX_VALUE ->
  let s' := Engine.arbitrateIsland cfg dt s island in
  ((exists x b, x ∈ members /\ bodyObjs s !! x = Some b /\ ~ belowThresholds cfg b) ->
   forall r b, bodyObjs s !! r = Some b ->
               exists b', bodyObjs s' !! r = Some b'
                          /\ RigidBody.sleeping b' = RigidBody.sleeping b)
  /\ (NoDup members ->
      (forall x, x ∈ members ->
         exists b, bodyObjs s !! x = Some b /\ belowThresholds cfg b
                   /\ sleepTimeThreshold cfg <= RigidBody.timeStill b + dt) ->
      forall x, x ∈ members ->
                exists b', bodyObjs s' !! x = Some b' /\ RigidBody.sleeping b' = true).
Proof.
  intros Hmem [Hpos Hmax] s'. subst s'.
  rewrite arbitrateIsland_unfold, Hmem.
  change (default [] (Some members)) with members. cbv zeta.
  destruct (sleepScan_spec cfg dt members s s Num.MAX_VALUE
              (bodiesRel_refl timeStillOnly timeStillOnly_refl s)) as (Hrel & _ & Hmin).
  split.
  - intros Hmove. specialize (Hmin (or_intror Hmove)).
    assert (Hlt : snd (sleepScan cfg dt members (s, Num.MAX_VALUE)) < sleepTimeThreshold cfg)
      by lra.
    apply leb_false in Hlt. rewrite Hlt.
    intros r b Hb. destruct (Hrel r b Hb) as (b' & Hb' & Honly).
    exists b'. split; [exact Hb'|].
    unfold timeStillOnly in Honly. rewrite <- Honly. destruct b'. reflexivity.
  - intros Hnd Hall x Hx.
    assert (Hge : sleepTimeThreshold cfg <= snd (sleepScan cfg dt members (s, Num.MAX_VALUE)))
      by (apply sleepScan_still; [exact Hnd|exact Hmax|exact Hall]).
    apply leb_true in Hge. rewrite Hge.
    destruct (Hall x Hx) as (b & Hb & _).
    destruct (Hrel x b Hb) as (b1 & Hb1 & _).
    destruct (sleep_all members _ x b1 Hb1) as (b' & Hb' & Hin & _).
    exists b'. split; [exact Hb'|apply Hin, Hx].
Qed.

Lemma arbitrateIsland_sleeps_witness :
  exists b',
    bodyObjs (Engine.arbitrateIsland PhysicsEngineConfigDefault 1 twoIslands 0) !! 0%nat
    = Some b'
    /\ RigidBody.sleeping b' = true.
Proof.
  assert (Hthr : 0 < sleepTimeThreshold PhysicsEngineConfigDefault <= Num.MAX_VALUE).
  { pose proof MAX_VALUE_large. cbn. lra. }
  destruct (arbitrateIsland_sleeps PhysicsEngineConfigDefault 1 twoIslands 0 [0%nat]
              eq_refl Hthr) as [_ H].
  apply H.
  - apply NoDup_singleton.
  - intros x Hx. apply list_elem_of_singleton in Hx as ->.
    exists discA. split; [reflexivity|]. split.
    + split; cbn; vec; [lra|rewrite Rabs_R0; lra].
    + cbn. lra.
  - apply list_elem_of_singleton. reflexivity.
Defined.


Lemma forEach_idle {A S : Type} (f : S -> A -> Outcome S) (l : list A) (s : S) :
  (forall a, a ∈ l -> f s a = Normal s) -> forEach f l s = Normal s.
Proof.
  unfold forEach. induction l as [|a l IH]; intros H; cbn [fold_left]; [reflexivity|].
  cbn [bind]. rewrite (H a) by left. apply IH. intros a' Ha'. apply H. right. exact Ha'.
Qed.

Lemma atRest_resetIslands (w : World) :
  atRest (store w) -> atRest (store (Engine.resetIslands w)).
Proof.
  intros H. unfold Engine.resetIslands. cbv zeta.
  cbn [store onStore onEngine].
  apply (fold_left_invariant atRest); [|exact H].
  intros s r Hs x b. unfold onBody, with_bodyObjs. cbn [bodyObjs].
  destruct (decide (x = r)) as [->|Hne].
  - rewrite lookup_alter_eq. destruct (bodyObjs s !! r) as [b0|] eqn:E; [|discriminate].
    cbn. intros [= <-]. apply (Hs r b0 E).
  - rewrite lookup_alter_ne by congruence. apply Hs.
Qed.

Lemma visitPair_atRest fuel (refA refB : nat) (st : World * list Z) :
  atRest (store (fst st)) -> Engine.visitPair fuel refA st refB = Normal st.
Proof.
  destruct st as [w resolved]. cbn [fst]. intros H. unfold Engine.visitPair.
  destruct (bodyObjs (store w) !! refA) as [a|] eqn:Ha; [|reflexivity].
  destruct (bodyObjs (store w) !! refB) as [b|] eqn:Hb; [|reflexivity].
  rewrite (H refA a Ha), (H refB b Hb). reflexivity.
Qed.

Lemma delete_keys {V : Type} (m : NumMap.t V) :
  fold_left NumMap.delete (NumMap.keys m) m = [].
Proof.
  induction m as [|[k v] m IH]; [reflexivity|].
  cbn [NumMap.keys map fst fold_left NumMap.delete].
  rewrite decide_True by reflexivity. exact IH.
Qed.

Lemma iter_idle {T : Type} (f : T -> T) (n : nat) (s : T) :
  (forall s, f s = s) -> Nat.iter n f s = s.
Proof.
  intros H. induction n as [|n IH]; [reflexivity|].
  change (Nat.iter (S n) f s) with (f (Nat.iter n f s)). rewrite IH. apply H.
Qed.

(** X29: [step] on a world whose bodies are all fixed or asleep
    integrates no body and tests no pair: it returns the world with
    [island] reset on the bodies of [this.bodies], [this.islands] emptied and
    every collision deleted, and nothing else changed. *)
Theorem step_at_rest fuel (dt : R) (w : World) :
  atRest (store w) ->
  Engine.step fuel dt w
  = Normal (onEngine (fun e => PhysicsEngine.with_collisions e [])
                     (Engine.resetIslands w)).
Proof.
  intros H. unfold Engine.step.
  rewrite forEach_idle.
  2:{ intros r _. unfold Engine.integrateBody.
      destruct (bodyObjs (store w) !! r) as [b|] eqn:Hb; [|reflexivity].
      rewrite (H r b Hb). reflexivity. }
  cbn [bind]. cbv zeta.
  pose proof (atRest_resetIslands w H) as H3.
  set (w3 := Engine.resetIslands w) in *.
  unfold Engine.checkCollisions. cbv zeta.
  rewrite forEach_idle.
  2:{ intros refA _. cbn [fst].
      destruct (bodyObjs (store w3) !! refA) as [a|]; [|reflexivity].
      apply forEach_idle. intros refB _. apply visitPair_atRest. exact H3. }
  cbn [bind]. cbv beta iota.
  unfold Engine.resolveCollisions, Engine.resolveStore, NumMap.values, onEngine, onStore.
  cbv zeta.
  cbn [engine store PhysicsEngine.collisions PhysicsEngine.with_collisions
       PhysicsEngine.config PhysicsEngine.islands].
  rewrite !delete_keys. cbn [map fold_left].
  rewrite iter_idle by reflexivity.
  subst w3. unfold Engine.resetIslands, onEngine, onStore. cbv zeta.
  cbn [engine store PhysicsEngine.islands PhysicsEngine.with_islands
       PhysicsEngine.with_collisions PhysicsEngine.config PhysicsEngine.fixedTimeStep
       PhysicsEngine.timeElapsed PhysicsEngine.stepsElapsed PhysicsEngine.updateDuration
       PhysicsEngine.worldBounds PhysicsEngine.quadtree PhysicsEngine.bodies
       PhysicsEngine.collisions fold_left].
  reflexivity.
Qed.

Lemma restingWorld_atRest : atRest (store restingWorld).
Proof.
  intros r b H.
  change (bodyObjs (store restingWorld)) with (<[0%nat := anchor]> (∅ : gmap nat RigidBody.t)) in H.
  apply lookup_insert_Some in H as [[_ <-]|[_ H]]; [reflexivity|].
  rewrite lookup_empty in H. discriminate.
Qed.

Lemma step_at_rest_witness :
  Engine.step 64 (1 / 500) restingWorld
  = Normal (onEngine (fun e => PhysicsEngine.with_collisions e [])
                     (Engine.resetIslands restingWorld)).
Proof. exact (step_at_rest 64 (1 / 500) restingWorld restingWorld_atRest). Defined.

End Islands.

(** ** GJK on two circles *)

Section GjkCircles.
Local Open Scope R_scope.

Lemma loop_unfold (fuel : nat) (A B : Shape.t) (simplex : list MinkowskiDiff.t) (d : Vec2.t) :
  Gjk.loop (S fuel) A B simplex d
  = if Num.ltb (Vec2.dot (MinkowskiDiff.result (MinkowskiDiff.new A B d)) d) 0
    then Gjk.NoCollision
    else match Gjk.checkSimplex (simplex ++ [MinkowskiDiff.new A B d]) d with
         | None => Gjk.Throws
         | Some (simplex', _, true) => Gjk.Collision simplex'
         | Some (simplex', direction', false) => Gjk.loop fuel A B simplex' direction'
         end.
Proof. reflexivity. Qed.

(** The support point of the difference of two circles. *)
Lemma circles_result (cA cB : Vec2.t) (rA rB : R) (d : Vec2.t) :
  MinkowskiDiff.result
    (MinkowskiDiff.new (Shape.OfCircle (Circle.mk cA rA)) (Shape.OfCircle (Circle.mk cB rB)) d)
  = Vec2.add (Vec2.sub cA cB) (Vec2.mulScalar d (rA + rB)).
Proof.
  unfold MinkowskiDiff.new. cbn [MinkowskiDiff.result Shape.getFurthestPoint].
  unfold Circle.getFurthestPoint. cbn [Circle.centre Circle.radius].
  apply vec2_eq; vec; ring.
Qed.

Lemma checkSimplexLine_parallel (s0 s1 : MinkowskiDiff.t) (d : Vec2.t) :
  Vec2.cross (Vec2.sub (MinkowskiDiff.result s0) (MinkowskiDiff.result s1))
             (Vec2.neg (MinkowskiDiff.result s1)) = 0 ->
  Gjk.checkSimplex [s0; s1] d
  = Some ([s0; s1],
          Vec2.perpendicular (Vec2.sub (MinkowskiDiff.result s0) (MinkowskiDiff.result s1)),
          false).
Proof.
  intros Hz. unfold Gjk.checkSimplex, Gjk.checkSimplexLine.
  cbn [length lookup list_lookup]. cbv zeta.
  rewrite tripleCross_scaled, Hz.
  assert (Hzero : Vec2.isZero
                    (Vec2.mulScalar
                       (Vec2.perpendicular
                          (Vec2.sub (MinkowskiDiff.result s0) (MinkowskiDiff.result s1))) 0)
                  = true).
  { apply isZero_true. vec. split; ring. }
  rewrite Hzero. reflexivity.
Qed.

Lemma checkSimplexTriangle_inside (s0 s1 s2 : MinkowskiDiff.t) (d : Vec2.t) :
  let a := MinkowskiDiff.result s2 in
  let b := MinkowskiDiff.result s1 in
  let c := MinkowskiDiff.result s0 in
  Vec2.dot (Vec2.tripleCross (Vec2.sub c a) (Vec2.sub b a) (Vec2.sub b a)) (Vec2.neg a) <= 0 ->
  Vec2.dot (Vec2.tripleCross (Vec2.sub b a) (Vec2.sub c a) (Vec2.sub c a)) (Vec2.neg a) <= 0 ->
  Gjk.checkSimplex [s0; s1; s2] d = Some ([s0; s1; s2], d, true).
Proof.
  cbv zeta. intros H1 H2. unfold Gjk.checkSimplex, Gjk.checkSimplexTriangle.
  cbn [length lookup list_lookup]. cbv zeta.
  rewrite (proj2 (ltb_false _ _) H1), (proj2 (ltb_false _ _) H2). reflexivity.
Qed.


(** The four products that the run of [GJK] on two circles computes, for the
    difference [d0] of the centres and the sum [rho] of the radii. *)
Section CirclePolynomials.

Variables (d0 : Vec2.t) (rho : R).

Let N : R := Vec2.x d0 * Vec2.x d0 + Vec2.y d0 * Vec2.y d0.
Let alpha : R := 1 + rho.
Let beta : R := 1 - rho - rho * rho.
Let gamma : R := rho * (alpha - beta).
Let r0 : Vec2.t := Vec2.add d0 (Vec2.mulScalar d0 rho).
Let d1 : Vec2.t := Vec2.neg r0.
Let r1 : Vec2.t := Vec2.add d0 (Vec2.mulScalar d1 rho).
Let d2 : Vec2.t := Vec2.perpendicular (Vec2.sub r0 r1).
Let r2 : Vec2.t := Vec2.add d0 (Vec2.mulScalar d2 rho).

Lemma circles_dot1 : Vec2.dot r1 d1 = - (alpha * beta * N).
Proof. subst r1 d1 r0 alpha beta N. vec. ring. Qed.

Lemma circles_parallel : Vec2.cross (Vec2.sub r0 r1) (Vec2.neg r1) = 0.
Proof. subst r1 d1 r0. vec. ring. Qed.

Lemma circles_dot2 : Vec2.dot r2 d2 = rho * ((alpha - beta) * (alpha - beta)) * N.
Proof. subst r2 d2 r1 d1 r0 alpha beta N. vec. ring. Qed.

Lemma circles_ab :
  Vec2.dot (Vec2.tripleCross (Vec2.sub r0 r2) (Vec2.sub r1 r2) (Vec2.sub r1 r2)) (Vec2.neg r2)
  = - (gamma * gamma * (N * N) * ((alpha - beta) * (- beta))).
Proof. subst gamma r2 d2 r1 d1 r0 alpha beta N. vec. ring. Qed.

Lemma circles_ac :
  Vec2.dot (Vec2.tripleCross (Vec2.sub r1 r2) (Vec2.sub r0 r2) (Vec2.sub r0 r2)) (Vec2.neg r2)
  = - (gamma * gamma * (N * N) * (alpha * (alpha - beta))).
Proof. subst gamma r2 d2 r1 d1 r0 alpha beta N. vec. ring. Qed.

End CirclePolynomials.

(** X30: [GJK] as written here does not normalise its directions, and
    the support point of a circle is [centre + direction * radius]; on two
    circles with distinct centres its answer depends on the sum [rho] of the
    radii alone, whatever the distance between the centres: no collision
    when [rho^2 + rho < 1], a collision when [rho^2 + rho >= 1]. *)
Theorem GJK_circles_ignore_distance (cA cB : Vec2.t) (rA rB : R) (fuel : nat) :
  let A := Shape.OfCircle (Circle.mk cA rA) in
  let B := Shape.OfCircle (Circle.mk cB rB) in
  let rho := rA + rB in
  cA <> cB -> 0 <= rho ->
  (rho * rho + rho < 1 -> Gjk.GJK (S fuel) A B = Gjk.NoCollision)
  /\ (1 <= rho * rho + rho ->
      exists simplex, Gjk.GJK (S (S fuel)) A B = Gjk.Collision simplex).
Proof.
  intros A B rho Hne Hrho.
  set (d0 := Vec2.sub cA cB).
  set (N := Vec2.x d0 * Vec2.x d0 + Vec2.y d0 * Vec2.y d0).
  assert (HN : 0 < N).
  { subst N d0. vec.
    set (X := Vec2.x cA - Vec2.x cB). set (Y := Vec2.y cA - Vec2.y cB).
    destruct (Req_dec X 0) as [Hx|Hx]; [|nra].
    destruct (Req_dec Y 0) as [Hy|Hy]; [|nra].
    exfalso. apply Hne. apply vec2_eq; subst X Y; lra. }
  assert (Hnz : Vec2.isZero d0 = false).
  { apply isZero_false.
    destruct (Req_dec (Vec2.x d0) 0) as [Hx|Hx]; [right|left; exact Hx].
    intros Hy. subst N. rewrite Hx, Hy in HN. lra. }
  set (alpha := 1 + rho).
  set (beta := 1 - rho - rho * rho).
  unfold Gjk.GJK. cbn [Shape.getCentre Circle.getCentre Circle.centre A B]. cbv zeta.
  fold d0. rewrite Hnz. fold A B.
  set (first := MinkowskiDiff.new A B d0).
  assert (E0 : MinkowskiDiff.result first = Vec2.add d0 (Vec2.mulScalar d0 rho))
    by apply circles_result.
  set (d1 := Vec2.neg (MinkowskiDiff.result first)).
  set (p1 := MinkowskiDiff.new A B d1).
  assert (E1 : MinkowskiDiff.result p1 = Vec2.add d0 (Vec2.mulScalar d1 rho))
    by apply circles_result.
  assert (Hdot1 : Vec2.dot (MinkowskiDiff.result p1) d1 = - (alpha * beta * N)).
  { rewrite E1. subst d1. rewrite E0. apply circles_dot1. }
  split.
  - intros Hsmall. rewrite loop_unfold. fold p1. rewrite Hdot1.
    assert (Hneg : - (alpha * beta * N) < 0).
    { assert (0 < alpha) by (subst alpha; lra).
      assert (0 < beta) by (subst beta; lra).
      assert (0 < alpha * beta) by (apply Rmult_lt_0_compat; assumption).
      assert (0 < alpha * beta * N) by (apply Rmult_lt_0_compat; assumption). lra. }
    rewrite (proj2 (ltb_true _ _) Hneg). reflexivity.
  - intros Hbig.
    assert (Ha : 0 < alpha) by (subst alpha; lra).
    assert (Hb : beta <= 0) by (subst beta; lra).
    assert (Hab : 0 < alpha - beta) by lra.
    rewrite loop_unfold. fold p1. rewrite Hdot1.
    assert (Hpos : 0 <= - (alpha * beta * N)).
    { assert (0 <= alpha * (- beta)) by (apply Rmult_le_pos; lra).
      assert (0 <= alpha * (- beta) * N) by (apply Rmult_le_pos; lra). lra. }
    rewrite (proj2 (ltb_false _ _) Hpos).
    cbn [app]. rewrite checkSimplexLine_parallel.
    2:{ rewrite E1. subst d1. rewrite E0. apply circles_parallel. }
    set (d2 := Vec2.perpendicular
                 (Vec2.sub (MinkowskiDiff.result first) (MinkowskiDiff.result p1))).
    set (p2 := MinkowskiDiff.new A B d2).
    assert (E2 : MinkowskiDiff.result p2 = Vec2.add d0 (Vec2.mulScalar d2 rho))
      by apply circles_result.
    rewrite loop_unfold. fold p2.
    assert (Hdot2 : Vec2.dot (MinkowskiDiff.result p2) d2
                    = rho * ((alpha - beta) * (alpha - beta)) * N).
    { rewrite E2. subst d2. rewrite E1. subst d1. rewrite E0. apply circles_dot2. }
    rewrite Hdot2.
    assert (Hpos2 : 0 <= rho * ((alpha - beta) * (alpha - beta)) * N).
    { apply Rmult_le_pos; [|lra]. apply Rmult_le_pos; [exact Hrho|]. nra. }
    rewrite (proj2 (ltb_false _ _) Hpos2).
    cbn [app]. rewrite checkSimplexTriangle_inside.
    + eexists. reflexivity.
    + cbv zeta. rewrite E2. subst d2. rewrite E1. subst d1. rewrite E0.
      rewrite circles_ab. fold N alpha beta.
      set (gamma := rho * (alpha - beta)).
      assert (0 <= gamma * gamma * (N * N) * ((alpha - beta) * (- beta))).
      { apply Rmult_le_pos; [apply Rmult_le_pos; nra|]. apply Rmult_le_pos; lra. }
      lra.
    + cbv zeta. rewrite E2. subst d2. rewrite E1. subst d1. rewrite E0.
      rewrite circles_ac. fold N alpha beta.
      set (gamma := rho * (alpha - beta)).
      assert (0 <= gamma * gamma * (N * N) * (alpha * (alpha - beta))).
      { apply Rmult_le_pos; [apply Rmult_le_pos; nra|]. apply Rmult_le_pos; lra. }
      lra.
Qed.

Lemma GJK_circles_ignore_distance_witness :
  exists simplex,
    Gjk.GJK 2 (Shape.OfCircle (Circle.mk (Vec2.mk 0 0) 1))
              (Shape.OfCircle (Circle.mk (Vec2.mk 10 0) 1))
    = Gjk.Collision simplex.
Proof.
  destruct (GJK_circles_ignore_distance (Vec2.mk 0 0) (Vec2.mk 10 0) 1 1 0) as [_ H].
  - intros [= H]. lra.
  - lra.
  - apply H. lra.
Defined.

End GjkCircles.
